(* ===== verification/_CoqProject ===== *)
-Q . S2P
Prelude.v
Arena.v
Dns.v
DnsResponse.v
Jit.v
Coro.v
Elf.v
Reactor.v
ReactorSpec.v
Value.v
Bloom.v
BloomMain.v
Ring.v
Lsm.v
Sha256.v
Hmac.v
AesGcm.v
Treiber.v
TreiberMain.v
