(* ===== verification/Prelude.v ===== *)
(** * swe-daily-challenge, verified

    The repository is a set of small, independent programs, one per numbered
    directory: systems exercises in C, with some in C++ and Rust.  This
    library models each program the way its source is written and proves
    what makes it correct, together with the cases where it is not.

    ** How the programs are modelled

    - A machine integer is a [Z]; every operation that can leave its width
      is wrapped ([u8] .. [u64], [i32], [i64]).
    - Memory is a list of bytes or elements.  Reads and writes ([rd], [wr])
      outside it, division by zero, an unterminated string, a failed [assert]
      are values of type [fault]: a computation is a [res], [Ok] or [Fault].
      A theorem that gives [Ok] therefore says that the code stays within
      its memory, and a theorem that gives [Fault] exhibits undefined
      behaviour.
    - Programs that print are computations in the monad [M] over the list of
      what they print; the scheduler and the reactor thread states of their
      own.
    - Integers in memory go through the interface [ByteOrder]; what is proved
      of it holds for [LittleEndian] and [BigEndian] hosts.
    - The operating system, OpenSSL, the C library's allocator, contexts and
      [log] are arguments of the definitions, quantified over in the
      theorems.  Assumptions about them are hypotheses or the fields of a
      class, each with a concrete instance in a witness.
    - Programs that call such a system are computations in [TIO], which keeps
      the trace of calls and answers.
    - Threads are programs of atomic steps; what is proved holds for every
      interleaving of them.

    ** The files

    - [Prelude]: integers, faults, buffers, byte orders, the monads, the C
      [for] loop ([c_for]), C strings, tactics and hint databases.
    - [Arena] (01-arena_allocator): [arena_create], [arena_alloc],
      [arena_reset], [arena_destroy] on wrapping [size_t] arithmetic, and the
      stress test of main.c.  For requests that cannot wrap [size_t],
      allocation returns the least aligned address that fits and live blocks
      are disjoint over any run; the stress test passes; a request near
      [SIZE_MAX] is granted and moves the bump pointer back.
    - [Dns], [DnsResponse] (04-dns_query/main.c): the query encoder and the
      response parser with [main].  For names whose labels have 1 to 63
      characters the bytes sent are the RFC 1035 query; well-formed replies
      print their IPv4 records; [skip_name] is safe on any bytes; long
      labels, long names and truncated replies overrun, and an empty label
      cuts the name short.
    - [Treiber] (02-treiber_lock_free_stack/main.cpp): [push], [pop] and the
      destructor as the steps of threads on a shared heap.  The stack is
      linearizable; every node is in one place; a thread that runs alone
      returns; the destructor frees each node once.  [TreiberMain]: the
      producers, consumers and [main]; the stress test passes in every
      interleaving, and from every reachable state it can still finish.
    - [AesGcm] (03-aes_gcm_AEAD_nonce_reuse): [aes_gcm_encrypt] and
      [aes_gcm_decrypt] of aes_gcm.cpp over an interface of EVP calls, and
      main.cpp.  Round trip, authentication and the lines of [main] for any
      keystream and tag function; for any answers of the library, the order
      of the calls and the context that an error leaks.
    - [Sha256], [Hmac] (10-HMAC_length_extension/main.cpp): SHA-256 as a
      specification, with the standard's compression function to evaluate it;
      the attack forges the naive MAC for every key, its padding is the
      standard's below 512 MiB, and what [main] reports.
    - [Lsm] (08-LSM_tree/main.cpp): the tree refines a map through memory
      table, flushes and lookups, while files can be written and at most ten
      thousand are made; table files read back; a reopened directory gives
      the same values; a failed flush loses data.
    - [Ring] (13-heap_ring_buffer): for elements of at least one byte the ring
      refines a bounded queue and its destructor drops the live elements once
      each; for elements of no bytes [new] asks for an empty layout.
    - [Coro] (09-stackful_croutines_ucontext_t/main.c): the scheduler over
      the array of coroutines refines the round-robin run of a queue, and the
      output is an interleaving of the coroutines' own; a user context is
      what it resumes, a function or the rest of one.
    - [Elf] (12-elf-inspector/main.c): what is printed for a file whose bytes
      hold the tables, with the format's entry sizes, every way [main] ends, and the overreads.
    - [Reactor], [ReactorSpec] (06-epoll_reactor/reactor.c): the program over
      an interface of system calls with a trace of calls and answers; then
      the descriptor discipline of its whole run (every client registered),
      the echo of a client's data, the draining of the backlog and the
      protocol of its handlers, against the classes [Kernel], [Sockets] and
      [Backlog], which allow what the manual pages do: partial reads, short
      writes, failing calls, data and connections that arrive at any time.
    - [Jit] (07-JIT/main.c): the bytes emitted, run on a model of the four
      instructions they encode, compute 32-bit sum and product; the mapping
      is never writable and executable at once.
    - [Value] (05-gdb_python_pretty_printer): the tagged union as bytes, its
      constructors, and the printer of value_printer.py.
    - [Bloom] (11-bloom_filter/bloom.h): [contains] after any insertions,
      exactly; no false negatives.  [BloomMain]: the sizes the constructor
      derives, in IEEE-754 doubles, and main.cpp, whose outcome is decided by
      the number of probes covered.

    ** Fuel and bounds

    A loop that is not structural takes fuel and faults with [OutOfFuel]
    when it runs out.  [main] of [Coro] runs its scheduler with 17 turns, one
    more than the work of four workers; the theorems on the scheduler hold
    for any fuel above the work of the queue.  The symbol loop of [Elf] takes
    one more than the size of the mapping, since each round reads further on;
    [Elf.main_exits] shows it is never used up.  [skip_name] of [DnsResponse]
    moves forward in each round.  The reactor never ends: its rounds are
    those observed, and the theorems hold for any number of them; its client
    handler ends with fuel above the bytes its peer sends, and its accept
    loop with fuel above the connections that arrive.  [Lsm.decode] takes one
    more than the length of the file, since each entry takes eight bytes; its
    theorems bound a run by forty thousand operations, which make at most ten
    thousand files, the number the four digits of their names can order.  The
    padding loop of [Hmac] takes 64 rounds, as many as a block has bytes; the
    destructor of [Treiber] takes the number of nodes in the heap.  The
    consumers of [TreiberMain] loop for as long as the schedule lets them: its
    theorems are about every reachable state, and [can_finish] gives each a
    schedule that ends.

    ** What is not modelled

    The memory orders of the lock-free stack's atomics: its steps interleave
    in one total order.  The library functions [log], [exp], [pow] and
    OpenSSL's ciphers and hashes are interfaces.  Positions in a datagram and
    pointers into the mapping of [Elf] are unbounded: the first cannot
    overflow for the size of a datagram, and a pointer outside its object is
    undefined wherever it wraps to.  The formatting of [printf]
    and of streams beyond the values printed, and the registration code of
    the gdb printer, are left out. *)

From Stdlib Require Export ZArith Lia ZifyBool.
From stdpp Require Export base numbers list gmap strings option.

#[global] Open Scope Z_scope.

(** ** Tactics and hint databases of the development *)

Create HintDb dev.
Create Rewrite HintDb dev_simpl.
Create Rewrite HintDb len.

#[export] Hint Rewrite @length_app @length_take @length_drop @length_replicate
  @length_reverse @length_fmap @length_insert : len.

(** Arithmetic on the lengths of composed lists. *)
Ltac len := autorewrite with len; cbn [length]; lia.

(** Linear arithmetic with quotients and remainders by constants. *)
Ltac div_lia := Z.to_euclidean_division_equations; lia.

(** Case split on the innermost boolean or integer test of the goal. *)
Ltac case_if :=
  match goal with
  | |- context [if bool_decide ?P then _ else _] => destruct (bool_decide_reflect P)
  | |- context [if ?a <? ?b then _ else _] => destruct (Z.ltb_spec a b)
  | |- context [if ?a <=? ?b then _ else _] => destruct (Z.leb_spec a b)
  | |- context [if ?a =? ?b then _ else _] => destruct (Z.eqb_spec a b)
  | |- context [if ?b then _ else _] => destruct b eqn:?
  end.

(** Select the branch of a boolean test whose outcome [lia] can decide. *)
Ltac if_true :=
  cbv beta;
  match goal with
  | |- context [if ?c then _ else _] =>
      replace c with true by (symmetry; lia); cbn iota
  end.

Ltac if_false :=
  cbv beta;
  match goal with
  | |- context [if ?c then _ else _] =>
      replace c with false by (symmetry; lia); cbn iota
  end.

(** Weaken the predicate of the [Forall] hypothesis [H] to the goal's. *)
Ltac forall_mono H := revert H; apply Forall_impl.

(** Decide a conjunction of closed comparisons and equations by evaluation. *)
Ltac ground := repeat split; vm_compute; (reflexivity || discriminate).

(** ** Machine integers

    A [w]-bit unsigned integer is the [Z] in [0, 2^w); [wrap w] is the C
    conversion to it.  [swrap w] is the two's-complement conversion. *)

Definition wrap (w z : Z) : Z := z mod 2 ^ w.
Definition swrap (w z : Z) : Z := (z + 2 ^ (w - 1)) mod 2 ^ w - 2 ^ (w - 1).

Abbreviation u8 := (wrap 8).
Abbreviation u16 := (wrap 16).
Abbreviation u32 := (wrap 32).
Abbreviation u64 := (wrap 64).
Abbreviation i32 := (swrap 32).
Abbreviation i64 := (swrap 64).

(** Bitwise complement of a [w]-bit unsigned value. *)
Definition not_w (w z : Z) : Z := wrap w (Z.lnot z).

Definition is_u (w z : Z) : Prop := 0 <= z < 2 ^ w.

Lemma wrap_small w z : 0 <= z < 2 ^ w -> wrap w z = z.
Proof. apply Z.mod_small. Qed.

Lemma wrap_range w z : 0 <= w -> 0 <= wrap w z < 2 ^ w.
Proof. intros. apply Z.mod_pos_bound. lia. Qed.

Lemma wrap_wrap w z : 0 <= w -> wrap w (wrap w z) = wrap w z.
Proof. intros. apply wrap_small, wrap_range. done. Qed.

Lemma swrap_small w z :
  1 <= w -> - 2 ^ (w - 1) <= z < 2 ^ (w - 1) -> swrap w z = z.
Proof.
  intros Hw Hz. unfold swrap.
  assert (2 ^ w = 2 * 2 ^ (w - 1)).
  { rewrite <- Z.pow_succ_r by lia. f_equal. lia. }
  rewrite Z.mod_small by lia. lia.
Qed.

Lemma swrap_range w z :
  1 <= w -> - 2 ^ (w - 1) <= swrap w z < 2 ^ (w - 1).
Proof.
  intros Hw. unfold swrap.
  assert (2 ^ w = 2 * 2 ^ (w - 1)).
  { rewrite <- Z.pow_succ_r by lia. f_equal. lia. }
  pose proof (Z.mod_pos_bound (z + 2 ^ (w - 1)) (2 ^ w)). lia.
Qed.

Lemma swrap_wrap w z : 1 <= w -> swrap w (wrap w z) = swrap w z.
Proof.
  intros. unfold swrap, wrap. f_equal.
  rewrite Zplus_mod_idemp_l. done.
Qed.

Lemma wrap_swrap w z : 1 <= w -> wrap w (swrap w z) = wrap w z.
Proof.
  intros. unfold swrap, wrap. rewrite Zminus_mod_idemp_l. f_equal. lia.
Qed.

Lemma wrap_add w x y : wrap w (wrap w x + wrap w y) = wrap w (x + y).
Proof. unfold wrap. symmetry. apply Zplus_mod. Qed.

Lemma wrap_mul w x y : wrap w (wrap w x * wrap w y) = wrap w (x * y).
Proof. unfold wrap. symmetry. apply Zmult_mod. Qed.

Lemma wrap_mul_swrap w x y : 1 <= w -> wrap w (swrap w x * swrap w y) = wrap w (x * y).
Proof. intros. by rewrite <- wrap_mul, !wrap_swrap, wrap_mul. Qed.

(** Numbers closer than [n] have different remainders. *)
Lemma mod_distinct a b n : a < b < a + n -> a mod n <> b mod n.
Proof.
  intros Hab Heq. pose proof (Z.div_mod a n ltac:(lia)). pose proof (Z.div_mod b n ltac:(lia)).
  assert (0 < n * (b / n - a / n) < n) as [Hpos Hlt] by (rewrite Z.mul_sub_distr_l; lia).
  apply Z.lt_0_mul in Hpos. nia.
Qed.

(** ** Bit-level lemmas *)

(** [(hi << n) | lo] is [hi * 2^n + lo] when [lo] fits in [n] bits. *)
Lemma lor_shiftl_add hi lo n :
  0 <= n -> 0 <= lo < 2 ^ n -> Z.lor (Z.shiftl hi n) lo = hi * 2 ^ n + lo.
Proof.
  intros Hn Hlo.
  rewrite <- Z.shiftl_mul_pow2 by done.
  assert (Z.land (Z.shiftl hi n) lo = 0) as Hdisj.
  { apply Z.bits_inj'. intros i Hi.
    rewrite Z.land_spec, Z.bits_0.
    destruct (Z.ltb_spec i n).
    - rewrite Z.shiftl_spec_low by lia. done.
    - rewrite <- (Z.mod_small lo (2 ^ n)) by done.
      rewrite Z.mod_pow2_bits_high by lia. apply andb_false_r. }
  rewrite Z.add_nocarry_lxor by done.
  symmetry. apply Z.lxor_lor. done.
Qed.

(** Masking with [~(2^k - 1)] in [w] bits rounds down to a multiple of [2^k]. *)
Lemma land_not_mask w k x :
  0 <= k <= w -> 0 <= x < 2 ^ w ->
  Z.land x (not_w w (2 ^ k - 1)) = x - x mod 2 ^ k.
Proof.
  intros Hk Hx. unfold not_w, wrap.
  replace (2 ^ k - 1) with (Z.ones k) by (rewrite Z.ones_equiv; lia).
  rewrite <- Z.land_ones by lia.
  rewrite (Z.land_comm (Z.lnot _)), Z.land_assoc.
  rewrite (Z.land_ones x w) by lia.
  rewrite (Z.mod_small x) by done.
  rewrite <- Z.ldiff_land, Z.ldiff_ones_r by lia.
  rewrite Z.shiftl_mul_pow2, Z.shiftr_div_pow2 by lia.
  pose proof (Z.div_mod x (2 ^ k)). lia.
Qed.

(** ** Undefined behaviour and the error monad *)

(** What ends a run outside the C semantics, or by a failed [assert]. *)
Inductive fault :=
| OutOfBounds (i : Z)      (* access outside an object, at this index *)
| NullDeref                (* dereference of a null pointer *)
| DivByZero                (* integer division or remainder by zero *)
| AssertFailed             (* a false assert(...) *)
| Unterminated             (* a string function ran off a buffer with no NUL *)
| BadProtection (i : Z)      (* access the page protection does not allow *)
| IllegalInstruction (pc : Z)
| BadContext               (* a switch to a user context that cannot run *)
| UninitRead (i : Z)       (* use of a slot that holds no value *)
| BadCast                  (* a conversion of a value the target type cannot hold *)
| Panicked                 (* a Rust panic *)
| ZeroLayout               (* an allocation of no bytes, undefined for std::alloc::alloc *)
| OutOfFuel.               (* the fuel of a loop of the model ran out *)

Inductive res (A : Type) :=
| Ok (a : A)
| Fault (f : fault).
Arguments Ok {A}.
Arguments Fault {A}.

#[export] Instance fault_eq_dec : EqDecision fault.
Proof. solve_decision. Defined.

#[export] Instance res_ret : MRet res := fun A a => Ok a.
#[export] Instance res_bind : MBind res := fun A B f m =>
  match m with Ok a => f a | Fault e => Fault e end.

Lemma res_bind_Ok {A B} (f : A -> res B) a : (Ok a) ≫= f = f a.
Proof. done. Qed.
#[export] Hint Rewrite @res_bind_Ok : dev_simpl.

Lemma res_bind_Ok_inv {A B} (m : res A) (f : A -> res B) b :
  m ≫= f = Ok b -> exists a, m = Ok a /\ f a = Ok b.
Proof. destruct m; [eauto | done]. Qed.

Definition is_ok {A} (m : res A) : bool :=
  match m with Ok _ => true | Fault _ => false end.

(** [assert(b)] *)
Definition c_assert (b : bool) : res () := if b then Ok () else Fault AssertFailed.

(** Reads and writes of an array object: outside [0, length b) they fault. *)
Definition rd {A} (b : list A) (i : Z) : res A :=
  if i <? 0 then Fault (OutOfBounds i)
  else match b !! Z.to_nat i with
       | Some v => Ok v
       | None => Fault (OutOfBounds i)
       end.

Definition wr {A} (b : list A) (i : Z) (v : A) : res (list A) :=
  if (0 <=? i) && (i <? Z.of_nat (length b))
  then Ok (<[Z.to_nat i := v]> b)
  else Fault (OutOfBounds i).

(** [memcpy(&b[i], vs, |vs|)] *)
Fixpoint wr_all {A} (b : list A) (i : Z) (vs : list A) : res (list A) :=
  match vs with
  | [] => Ok b
  | v :: vs' => b' ← wr b i v; wr_all b' (i + 1) vs'
  end.

(** ** Buffer lemmas *)

Lemma rd_lookup {A} (b : list A) i v :
  rd b i = Ok v <-> 0 <= i /\ b !! Z.to_nat i = Some v.
Proof.
  unfold rd. destruct (Z.ltb_spec i 0).
  - split; [done | lia].
  - destruct (b !! Z.to_nat i) as [w |]; [| split; [done | by intros [_ ?]]].
    split; [by intros [= ->] | by intros [_ [= ->]]].
Qed.

Lemma rd_is_ok {A} (b : list A) i :
  is_ok (rd b i) = true <-> 0 <= i < Z.of_nat (length b).
Proof.
  unfold rd. destruct (Z.ltb_spec i 0); [cbn; split; [done | lia] |].
  destruct (b !! Z.to_nat i) eqn:E; cbn.
  - apply lookup_lt_Some in E. split; [lia | done].
  - apply lookup_ge_None in E. split; [done | lia].
Qed.

Lemma rd_Ok {A} (b : list A) i :
  0 <= i < Z.of_nat (length b) -> exists v, rd b i = Ok v.
Proof.
  intros H. apply rd_is_ok in H. destruct (rd b i) eqn:?; [eauto | done].
Qed.

Lemma rd_oob {A} (b : list A) i :
  i < 0 \/ Z.of_nat (length b) <= i -> rd b i = Fault (OutOfBounds i).
Proof.
  intros H. unfold rd. destruct (Z.ltb_spec i 0); [done |].
  rewrite lookup_ge_None_2 by lia. done.
Qed.

Lemma rd_mid {A} (l r : list A) x i :
  i = Z.of_nat (length l) -> rd (l ++ x :: r) i = Ok x.
Proof.
  intros ->. apply rd_lookup. split; [lia |].
  rewrite Nat2Z.id, list_lookup_middle by done. done.
Qed.

Lemma wr_mid {A} (l r : list A) x y i :
  i = Z.of_nat (length l) -> wr (l ++ x :: r) i y = Ok (l ++ y :: r).
Proof.
  intros ->. unfold wr.
  rewrite (proj2 (andb_true_iff _ _)).
  - rewrite Nat2Z.id, insert_app_r_alt, Nat.sub_diag by done. done.
  - rewrite length_app, length_cons. split; [apply Z.leb_le | apply Z.ltb_lt]; lia.
Qed.

Lemma wr_oob {A} (b : list A) i v :
  i < 0 \/ Z.of_nat (length b) <= i -> wr b i v = Fault (OutOfBounds i).
Proof.
  intros H. unfold wr.
  destruct (Z.leb_spec 0 i), (Z.ltb_spec i (Z.of_nat (length b))); done || lia.
Qed.

Lemma wr_length {A} (b b' : list A) i v : wr b i v = Ok b' -> length b' = length b.
Proof.
  unfold wr. case_if; [| done]. intros [= <-]. apply length_insert.
Qed.

Lemma wr_all_mid {A} (l r old new : list A) i :
  i = Z.of_nat (length l) -> length old = length new ->
  wr_all (l ++ old ++ r) i new = Ok (l ++ new ++ r).
Proof.
  revert l old i. induction new as [| v new IH]; intros l [| o old] i -> Hlen;
    simplify_eq/=; [done |].
  rewrite wr_mid by done. cbn.
  rewrite (cons_middle v), app_assoc.
  rewrite (IH (l ++ [v]) old) by (rewrite ?length_app; cbn; lia).
  by rewrite <- app_assoc.
Qed.

Lemma filter_false {A} (f : A -> bool) l :
  Forall (fun y => f y = false) l -> List.filter f l = [].
Proof. induction 1 as [| y l Hy _ IH]; cbn; [done |]. by rewrite Hy. Qed.

(** Writing after the [out] already written, over what the buffer held. *)
Lemma wr_all_out {A} (out old vs : list A) i :
  i = Z.of_nat (length out) -> (length vs <= length old)%nat ->
  wr_all (out ++ old) i vs = Ok (out ++ vs ++ drop (length vs) old).
Proof.
  intros Hi Hlen. rewrite <- (take_drop (length vs) old) at 1.
  apply wr_all_mid; [done |]. rewrite length_take. lia.
Qed.

(** The elements [vs] are stored in [b] from index [i] on. *)
Definition stored {A} (b : list A) (i : Z) (vs : list A) : Prop :=
  exists l r, b = l ++ vs ++ r /\ i = Z.of_nat (length l).

Lemma stored_nonneg {A} (b : list A) i vs : stored b i vs -> 0 <= i.
Proof. intros (l & r & -> & ->). lia. Qed.

Lemma stored_eq {A} (b : list A) i j vs : stored b i vs -> i = j -> stored b j vs.
Proof. by intros H <-. Qed.

Lemma stored_bound {A} (b : list A) i vs :
  stored b i vs -> i + Z.of_nat (length vs) <= Z.of_nat (length b).
Proof. intros (l & r & -> & ->). rewrite !length_app. lia. Qed.

Lemma stored_app {A} (b : list A) i vs ws :
  stored b i (vs ++ ws) <->
  stored b i vs /\ stored b (i + Z.of_nat (length vs)) ws.
Proof.
  split.
  - intros (l & r & -> & ->). split.
    + exists l, (ws ++ r). by rewrite <- app_assoc.
    + exists (l ++ vs), r. rewrite <- !app_assoc. split; [done |].
      rewrite length_app. lia.
  - intros [(l & r & -> & ->) (l' & r' & Heq & Hlen)].
    rewrite app_assoc in Heq.
    apply app_inj_1 in Heq as [<- ->]; [| rewrite length_app; lia].
    exists l, r'. by rewrite <- app_assoc.
Qed.

Lemma stored_cons {A} (b : list A) i v vs :
  stored b i (v :: vs) <-> stored b i [v] /\ stored b (i + 1) vs.
Proof. apply (stored_app b i [v] vs). Qed.

Lemma rd_stored {A} (b : list A) i v : stored b i [v] <-> rd b i = Ok v.
Proof.
  split.
  - intros (l & r & -> & ->). by apply rd_mid.
  - intros [Hi Hl]%rd_lookup. apply list_elem_of_split_length in Hl as (l & r & -> & Hlen).
    exists l, r. split; [done | lia].
Qed.

Lemma rd_stored_head {A} (b : list A) i v vs : stored b i (v :: vs) -> rd b i = Ok v.
Proof. rewrite stored_cons. by intros [?%rd_stored _]. Qed.

(** ** Byte orders

    [put n z] is the representation of the [8n]-bit unsigned [z] in memory,
    [get] its inverse.  The byte order is an interface: what the components
    prove about integers in buffers holds for every instance. *)

Definition is_byte (b : Z) : Prop := 0 <= b < 256.

Class ByteOrder := {
  put : nat -> Z -> list Z;
  get : list Z -> Z;
  put_length n z : length (put n z) = n;
  put_bytes n z : Forall is_byte (put n z);
  put_zero n : put n 0 = replicate n 0;
  get_put n z : 0 <= z < 256 ^ Z.of_nat n -> get (put n z) = z;
  put_get bs : Forall is_byte bs -> put (length bs) (get bs) = bs;
  get_range bs : Forall is_byte bs ->
    0 <= get bs < 256 ^ Z.of_nat (length bs)
}.

Fixpoint le_put (n : nat) (z : Z) : list Z :=
  match n with
  | O => []
  | S n' => z mod 256 :: le_put n' (z / 256)
  end.

Fixpoint le_get (bs : list Z) : Z :=
  match bs with
  | [] => 0
  | b :: bs' => b + 256 * le_get bs'
  end.

Lemma le_put_length n z : length (le_put n z) = n.
Proof. revert z; induction n; intros; cbn; [done | by rewrite IHn]. Qed.

Lemma le_put_bytes n z : Forall is_byte (le_put n z).
Proof.
  revert z; induction n; intros; cbn; constructor; [| done].
  apply Z.mod_pos_bound. lia.
Qed.

Lemma le_put_zero n : le_put n 0 = replicate n 0.
Proof. induction n as [| n IH]; [done |]. cbn [le_put replicate]. by rewrite Z.div_0_l, Z.mod_0_l, IH by lia. Qed.

Lemma pow256_succ n : 256 ^ Z.of_nat (S n) = 256 * 256 ^ Z.of_nat n.
Proof. rewrite Nat2Z.inj_succ, Z.pow_succ_r by lia. done. Qed.

Lemma le_get_put n z : 0 <= z < 256 ^ Z.of_nat n -> le_get (le_put n z) = z.
Proof.
  revert z; induction n as [| n IH]; intros z Hz; cbn -[Z.pow Z.mul].
  - cbn in Hz. lia.
  - rewrite pow256_succ in Hz. rewrite IH.
    + pose proof (Z.div_mod z 256). lia.
    + split; [apply Z.div_pos; lia | apply Z.div_lt_upper_bound; lia].
Qed.

Lemma le_get_range bs : Forall is_byte bs ->
  0 <= le_get bs < 256 ^ Z.of_nat (length bs).
Proof.
  induction 1 as [| b bs Hb _ IH]; cbn [le_get length]; [done |].
  unfold is_byte in Hb. rewrite pow256_succ. lia.
Qed.

Lemma le_put_get bs : Forall is_byte bs -> le_put (length bs) (le_get bs) = bs.
Proof.
  induction 1 as [| b bs Hb _ IH]; cbn [le_get le_put length]; [done |].
  unfold is_byte in Hb. rewrite Z.mul_comm, Z.mod_add, Z.div_add, Z.mod_small, Z.div_small by lia.
  by rewrite Z.add_0_l, IH.
Qed.

Definition LittleEndian : ByteOrder := {|
  put := le_put; get := le_get;
  put_length := le_put_length; put_bytes := le_put_bytes; put_zero := le_put_zero;
  get_put := le_get_put; put_get := le_put_get; get_range := le_get_range
|}.

Definition be_put (n : nat) (z : Z) : list Z := reverse (le_put n z).
Definition be_get (bs : list Z) : Z := le_get (reverse bs).

Lemma be_put_length n z : length (be_put n z) = n.
Proof. unfold be_put. by rewrite length_reverse, le_put_length. Qed.

Lemma be_put_bytes n z : Forall is_byte (be_put n z).
Proof. apply Forall_reverse, le_put_bytes. Qed.

Lemma be_put_zero n : be_put n 0 = replicate n 0.
Proof. unfold be_put. by rewrite le_put_zero, reverse_replicate. Qed.

Lemma be_get_put n z : 0 <= z < 256 ^ Z.of_nat n -> be_get (be_put n z) = z.
Proof. intros. unfold be_get, be_put. rewrite reverse_involutive. by apply le_get_put. Qed.

Lemma be_put_get bs : Forall is_byte bs -> be_put (length bs) (be_get bs) = bs.
Proof.
  intros H. unfold be_get, be_put. rewrite <- (length_reverse bs).
  rewrite le_put_get by (by apply Forall_reverse). apply reverse_involutive.
Qed.

Lemma be_get_range bs : Forall is_byte bs ->
  0 <= be_get bs < 256 ^ Z.of_nat (length bs).
Proof.
  intros H. rewrite <- (length_reverse bs). apply le_get_range. by apply Forall_reverse.
Qed.

#[export] Hint Rewrite le_put_length be_put_length @put_length : len.

Definition BigEndian : ByteOrder := {|
  put := be_put; get := be_get;
  put_length := be_put_length; put_bytes := be_put_bytes; put_zero := be_put_zero;
  get_put := be_get_put; put_get := be_put_get; get_range := be_get_range
|}.

(** ** State and errors

    [M S A] is a C computation on the state [S] that may fault. *)

Definition M (S A : Type) : Type := S -> res (A * S).

#[export] Instance M_ret S : MRet (M S) := fun A a s => Ok (a, s).
#[export] Instance M_bind S : MBind (M S) := fun A B f m s =>
  match m s with Ok (a, s') => f a s' | Fault e => Fault e end.

Definition lift {S A} (m : res A) : M S A := fun s =>
  match m with Ok a => Ok (a, s) | Fault e => Fault e end.

(** Append to the output of a program whose state is its output. *)
Definition tell {E} (e : E) : M (list E) () := fun out => Ok ((), out ++ [e]).

Lemma M_bind_Ok {S A B} (m : M S A) (f : A -> M S B) s a s' :
  m s = Ok (a, s') -> (m ≫= f) s = f a s'.
Proof. unfold mbind, M_bind. by intros ->. Qed.

Lemma lift_bind_Ok {S A B} (m : res A) (f : A -> M S B) s a :
  m = Ok a -> (lift m ≫= f) s = f a s.
Proof. by intros ->. Qed.

Lemma lift_bind_Fault {S A B} (m : res A) (f : A -> M S B) s e :
  m = Fault e -> (lift m ≫= f) s = Fault e.
Proof. by intros ->. Qed.

Lemma tell_bind {E B} (e : E) (f : () -> M (list E) B) out : (tell e ≫= f) out = f () (out ++ [e]).
Proof. done. Qed.

(** ** Calls to a system

    A computation that calls a system outside the program: [sys] maps a call
    to its answer on a state [W] of its own.  The computation threads that
    state and the trace of calls and answers, and keeps both when it
    faults. *)

Section calls.
Context {C A W : Type} (sys : C -> W -> A * W).

Definition TIO (X : Type) : Type := W * list (C * A) -> res X * (W * list (C * A)).

#[global] Instance IO_ret : MRet TIO := fun X a s => (Ok a, s).
#[global] Instance IO_bind : MBind TIO := fun X Y f m s =>
  match m s with
  | (Ok a, s') => f a s'
  | (Fault e, s') => (Fault e, s')
  end.

Definition syscall (c : C) : TIO A := fun '(w, t) =>
  let (a, w') := sys c w in (Ok a, (w', t ++ [(c, a)])).

Definition io_fault {X} (e : fault) : TIO X := fun s => (Fault e, s).

Definition io_lift {X} (r : res X) : TIO X :=
  match r with Ok a => mret a | Fault e => io_fault e end.

Lemma io_bind_Ok {X Y} (m : TIO X) (f : X -> TIO Y) s a s' :
  m s = (Ok a, s') -> (m ≫= f) s = f a s'.
Proof. unfold mbind, IO_bind. by intros ->. Qed.

Lemma io_lift_bind {X Y} (a : X) (f : X -> TIO Y) s : (io_lift (Ok a) ≫= f) s = f a s.
Proof. done. Qed.
End calls.

Arguments TIO : clear implicits.

(** [for (; i < n; i++)] over a body that updates [a]. *)
Fixpoint c_for {S A} (fuel : nat) (i n : Z) (body : Z -> A -> M S A) (a : A) : M S A :=
  if i <? n then
    match fuel with
    | O => lift (Fault OutOfFuel)
    | Datatypes.S fuel' => a ← body i a; c_for fuel' (i + 1) n body a
    end
  else mret a.

(** A loop over the elements of a list, each of which appends its events. *)
Lemma c_for_list {E A X} (xs : list X) (f : Z -> X -> list E) (g : X -> A -> A) body :
  forall fuel i n a out,
  n = i + Z.of_nat (length xs) -> (length xs <= fuel)%nat ->
  (forall k x a out, xs !! k = Some x ->
     body (i + Z.of_nat k) a out = Ok (g x a, out ++ f (i + Z.of_nat k) x)) ->
  c_for fuel i n body a out =
  Ok (fold_left (fun a x => g x a) xs a,
      out ++ concat (imap (fun k x => f (i + Z.of_nat k) x) xs)).
Proof.
  induction xs as [| x xs IH]; intros fuel i n a out -> Hfuel Hbody; cbn [length] in *.
  - destruct fuel; cbn [c_for]; if_false; cbn; by rewrite app_nil_r.
  - destruct fuel as [| fuel]; [lia |]. cbn [c_for]. if_true.
    pose proof (Hbody 0%nat x a out eq_refl) as Hx. rewrite Z.add_0_r in Hx.
    rewrite (M_bind_Ok _ _ _ _ _ Hx). rewrite IH; [| lia.. |].
    + cbn. rewrite <- app_assoc, Z.add_0_r. do 5 f_equal.
      apply imap_ext. intros k y _. cbn. f_equal. lia.
    + intros k y a' out' Hy. replace (i + 1 + Z.of_nat k) with (i + Z.of_nat (S k)) by lia.
      by apply Hbody.
Qed.

(** ** Sequences of steps *)

Section steps.
Context {State : Type} (step : State -> State -> Prop).

Inductive star : State -> State -> Prop :=
  | star_refl s : star s s
  | star_step s1 s2 s3 : step s1 s2 -> star s2 s3 -> star s1 s3.

Lemma star_trans s1 s2 s3 : star s1 s2 -> star s2 s3 -> star s1 s3.
Proof. induction 1; eauto using star. Qed.

Lemma star_one s1 s2 : step s1 s2 -> star s1 s2.
Proof. eauto using star. Qed.

(** An invariant of the initial state kept by every step holds in every
    reachable state. *)
Lemma star_invariant (I : State -> Prop) s s' :
  (forall s1 s2, I s1 -> step s1 s2 -> I s2) -> I s -> star s s' -> I s'.
Proof. intros Hstep Hs Hstar. induction Hstar; eauto. Qed.
End steps.

#[export] Hint Constructors star : dev.
#[export] Hint Resolve wrap_range star_one : dev.

(** ** C strings

    A string argument is the object it points into, from its first
    character on; the string ends before the first 0. *)

Fixpoint strlen (s : list Z) : res Z :=
  match s with
  | [] => Fault Unterminated
  | c :: s' => if c =? 0 then Ok 0 else n ← strlen s'; Ok (n + 1)
  end.

Definition c_chars (s : list Z) : Prop := Forall (fun c => c <> 0) s.

Lemma strlen_Ok s r : c_chars s -> strlen (s ++ 0 :: r) = Ok (Z.of_nat (length s)).
Proof.
  induction 1 as [| c s Hc _ IH]; [done |]. cbn [strlen app length].
  if_false. rewrite IH, res_bind_Ok. f_equal. lia.
Qed.

(** What [%s] prints: the characters before the first 0. *)
Fixpoint c_string (s : list Z) : res (list Z) :=
  match s with
  | [] => Fault Unterminated
  | c :: s' => if c =? 0 then Ok [] else r ← c_string s'; Ok (c :: r)
  end.

Lemma c_string_Ok s r : c_chars s -> c_string (s ++ 0 :: r) = Ok s.
Proof.
  induction 1 as [| c s Hc _ IH]; [done |]. cbn [c_string app].
  if_false. by rewrite IH, res_bind_Ok.
Qed.

Lemma c_string_unterminated s : c_chars s -> c_string s = Fault Unterminated.
Proof. induction 1 as [| c s Hc _ IH]; [done |]. cbn [c_string]. if_false. by rewrite IH. Qed.

(** The characters of a Rocq string literal as bytes. *)
Definition chars (s : string) : list Z :=
  (fun c => Z.of_N (Ascii.N_of_ascii c)) <$> String.list_ascii_of_string s.

(** ** Exhaustive checks *)

(** A boolean test that holds of the 256 byte values holds of every byte. *)
Lemma byte_exhaust (f : Z -> bool) :
  forallb f (seqZ 0 256) = true -> forall c, is_byte c -> f c = true.
Proof.
  intros Hf c Hc. rewrite forallb_forall in Hf. apply Hf.
  apply list_elem_of_In, elem_of_seqZ. unfold is_byte in Hc. lia.
Qed.

(** [Forall] of closed data, by evaluation of a boolean test. *)
Lemma Forall_check {A} (f : A -> bool) (P : A -> Prop) l :
  (forall x, f x = true -> P x) -> forallb f l = true -> Forall P l.
Proof. intros Hf. induction l as [| x l IH]; cbn; [by constructor |]. intros [? ?]%andb_true_iff. auto. Qed.

(** Big-endian reads as the code spells them. *)
Lemma be16_value hi lo :
  is_byte hi -> is_byte lo -> u16 (Z.lor (Z.shiftl hi 8) lo) = hi * 256 + lo.
Proof.
  unfold is_byte. intros. rewrite lor_shiftl_add by lia. apply wrap_small. lia.
Qed.

Lemma be16_put z : 0 <= z < 65536 ->
  exists hi lo, be_put 2 z = [hi; lo] /\ is_byte hi /\ is_byte lo /\ hi * 256 + lo = z.
Proof.
  intros Hz. exists (z / 256 mod 256), (z mod 256). split; [done |].
  unfold is_byte. pose proof (Z.mod_pos_bound z 256).
  rewrite (Z.mod_small (z / 256)) by (split; [apply Z.div_pos | apply Z.div_lt_upper_bound]; lia).
  pose proof (Z.div_mod z 256). split_and!; lia.
Qed.

Lemma be32_put z : 0 <= z < 2 ^ 32 ->
  exists b0 b1 b2 b3, be_put 4 z = [b0; b1; b2; b3] /\
    is_byte b0 /\ is_byte b1 /\ is_byte b2 /\ is_byte b3 /\
    b0 * 2 ^ 24 + b1 * 2 ^ 16 + b2 * 2 ^ 8 + b3 = z.
Proof.
  intros Hz. pose proof (be_put_bytes 4 z) as Hb. pose proof (be_put_length 4 z) as Hl.
  pose proof (be_get_put 4 z ltac:(cbn; lia)) as Hg. unfold be_get in Hg.
  destruct (be_put 4 z) as [| b0 [| b1 [| b2 [| b3 [|]]]]]; try discriminate Hl.
  exists b0, b1, b2, b3. rewrite !Forall_cons_iff in Hb.
  destruct Hb as (H0 & H1 & H2 & H3 & _). cbn in Hg.
  split_and!; [done | done | done | done | done | lia].
Qed.

Lemma be32_value b0 b1 b2 b3 :
  is_byte b0 -> is_byte b1 -> is_byte b2 -> is_byte b3 ->
  u32 (Z.lor (Z.lor (Z.lor (Z.shiftl b0 24) (Z.shiftl b1 16)) (Z.shiftl b2 8)) b3) =
  b0 * 2 ^ 24 + b1 * 2 ^ 16 + b2 * 2 ^ 8 + b3.
Proof.
  unfold is_byte. intros.
  replace (Z.shiftl b0 24) with (Z.shiftl (Z.shiftl (Z.shiftl b0 8) 8) 8)
    by (rewrite !Z.shiftl_shiftl by lia; done).
  replace (Z.shiftl b1 16) with (Z.shiftl (Z.shiftl b1 8) 8)
    by (rewrite !Z.shiftl_shiftl by lia; done).
  rewrite <- !Z.shiftl_lor, !lor_shiftl_add by lia.
  rewrite wrap_small by lia. lia.
Qed.
