(* ===== verification/Arena.v ===== *)
(** * Arena

    The bump allocator of 01-arena_allocator (arena.h, arena.c) and its
    stress test (main.c).  [size_t], [uintptr_t] and pointers are 64-bit
    unsigned integers; a pointer is its address and 0 is NULL.
    [VirtualAlloc] is the operating system's: an argument of the
    definitions, from the size asked for to the address of the mapping. *)

From S2P Require Import Prelude.

(** ** Data *)

Record Arena := mkArena { base : Z; capacity : Z; offset : Z }.

Definition sizeof_Arena : Z := 24.

#[export] Instance Arena_eq_dec : EqDecision Arena.
Proof. solve_decision. Defined.

(** ** Operations *)

(** The [Arena] object is placed at the start of the mapping, so the
    pointer returned is the mapping's address, kept here in [base]. *)
Definition arena_create (VirtualAlloc : Z -> Z) (capacity : Z) : option Arena :=
  let lpvResult := VirtualAlloc capacity in
  if negb (lpvResult =? 0)
  then Some {| base := lpvResult; capacity := capacity; offset := sizeof_Arena |}
  else None.

(** [(ptr + align - 1) & ~(align - 1)] in 64 bits. *)
Definition align_up (bump align : Z) : Z :=
  Z.land (u64 (u64 (bump + align) - 1)) (not_w 64 (u64 (align - 1))).

Definition arena_alloc (a : Arena) (size align : Z) : option Z * Arena :=
  let bump := u64 (base a + offset a) in
  let bump := align_up bump align in
  let new_offset := u64 (u64 (bump - base a) + size) in
  if capacity a <? new_offset then (None, a)
  else (Some bump, {| base := base a; capacity := capacity a; offset := new_offset |}).

Definition arena_reset (a : Arena) : Arena :=
  {| base := base a; capacity := capacity a; offset := sizeof_Arena |}.

(** [arena_destroy] hands the mapping back to the system; the assignment
    [a = NULL] is to the callee's copy and changes nothing else. *)
Inductive sys_call := VirtualFree (address size : Z) (release : bool).

Definition arena_destroy (a : Arena) : sys_call := VirtualFree (base a) 0 true.

(** ** The stress test of main.c *)

(** [allocs[i]]: the pointer and the size asked for. *)
Definition block : Type := Z * Z.

Definition N : Z := 8.
Definition sizes : list Z := [1; 3; 7; 16; 4; 32; 8; 5].
Definition aligns : list Z := [1; 4; 8; 16; 1; 64; 8; 4].

(** The allocation loop with its two assertions. *)
Fixpoint alloc_loop (a : Arena) (reqs : list (Z * Z)) : res (list block * Arena) :=
  match reqs with
  | [] => Ok ([], a)
  | (size, align) :: reqs' =>
      let (p, a') := arena_alloc a size align in
      ptr ← match p with Some ptr => Ok ptr | None => Fault AssertFailed end;
      _ ← (if align =? 0 then Fault DivByZero else Ok ());
      _ ← c_assert (ptr mod align =? 0);
      r ← alloc_loop a' reqs';
      Ok ((ptr, size) :: r.1, r.2)
  end.

(** The condition under which a pair is counted as overlapping. *)
Definition overlapping (x y : block) : bool :=
  negb ((u64 (x.1 + x.2) <=? y.1) || (u64 (y.1 + y.2) <=? x.1)).

(** The two nested loops over [i < j]. *)
Fixpoint count_overlaps (allocs : list block) : Z :=
  match allocs with
  | [] => 0
  | x :: rest =>
      Z.of_nat (length (List.filter (overlapping x) rest))
      + count_overlaps rest
  end.

(** The line printed at the end of a cycle. *)
Record cycle_report := mkReport
  { cycle : Z; n_allocs : Z; overlaps : Z; report_base : Z }.

Fixpoint cycles (n : nat) (k : Z) (first_base : Z) (a : Arena)
    : res (list cycle_report * Arena) :=
  match n with
  | O => Ok ([], a)
  | S n' =>
      '(allocs, a) ← alloc_loop a (zip sizes aligns);
      let line := {| cycle := k; n_allocs := N;
                     overlaps := count_overlaps allocs; report_base := base a |} in
      _ ← c_assert (base a =? first_base);
      let a := arena_reset a in
      _ ← c_assert (base a =? first_base);
      '(lines, a) ← cycles n' (k + 1) first_base a;
      Ok (line :: lines, a)
  end.

Definition main (VirtualAlloc : Z -> Z) : res (list cycle_report * sys_call) :=
  match arena_create VirtualAlloc 4096 with
  | None => Fault NullDeref (* a->base with a == NULL *)
  | Some a =>
      let first_base := base a in
      '(lines, a) ← cycles 3 0 first_base a;
      Ok (lines, arena_destroy a)
  end.

Example main_at_64k :
  main (fun _ => 65536) =
  Ok ([mkReport 0 8 0 65536; mkReport 1 8 0 65536; mkReport 2 8 0 65536],
      VirtualFree 65536 0 true).
Proof. vm_compute. reflexivity. Qed.

(** ** Rounding up *)

Definition round_up (x n : Z) : Z := (x + n - 1) / n * n.

Lemma round_up_bounds x n : 0 < n -> x <= round_up x n < x + n.
Proof.
  intros Hn. unfold round_up.
  pose proof (Z.div_mod (x + n - 1) n) as Hdm.
  pose proof (Z.mod_pos_bound (x + n - 1) n Hn). nia.
Qed.

Lemma round_up_mod x n : round_up x n mod n = 0.
Proof. unfold round_up. apply Z_mod_mult. Qed.

(** [round_up x n] is the least multiple of [n] from [x] on. *)
Lemma round_up_least x n y : 0 < n -> x <= y -> y mod n = 0 -> round_up x n <= y.
Proof.
  intros Hn Hxy Hy. unfold round_up.
  apply Z.mod_divide in Hy as [q ->]; [| lia].
  apply Z.mul_le_mono_nonneg_r; [lia |].
  apply Z.lt_succ_r, Z.div_lt_upper_bound; [done |]. nia.
Qed.

Lemma align_up_spec x k :
  0 <= k < 64 -> 0 <= x -> x + 2 ^ k <= 2 ^ 64 ->
  align_up x (2 ^ k) = round_up x (2 ^ k).
Proof.
  intros Hk Hx Hfit. pose proof (Z.pow_pos_nonneg 2 k).
  unfold align_up.
  assert (u64 (u64 (x + 2 ^ k) - 1) = x + 2 ^ k - 1) as ->.
  { unfold wrap. rewrite Zminus_mod_idemp_l. apply Z.mod_small. lia. }
  rewrite (wrap_small 64 (2 ^ k - 1)) by lia.
  rewrite land_not_mask by lia.
  unfold round_up. pose proof (Z.div_mod (x + 2 ^ k - 1) (2 ^ k)). lia.
Qed.

#[local] Opaque align_up.

(** ** One allocation *)

(** The request stays clear of the end of the address space and of
    [size_t]: what a caller must ensure, since the code does not check. *)
Definition fits (a : Arena) (size k : Z) : Prop :=
  0 <= k < 64 /\ 0 <= size /\ 0 <= base a /\ 0 <= offset a /\
  base a + offset a + 2 ^ k <= 2 ^ 64 /\ offset a + 2 ^ k + size <= 2 ^ 64.

(** The pointer an allocation returns, and the offset it leaves. *)
Definition next_ptr (a : Arena) (k : Z) : Z := round_up (base a + offset a) (2 ^ k).
Definition next_offset (a : Arena) (size k : Z) : Z := next_ptr a k - base a + size.

Lemma arena_alloc_eq a size k : fits a size k ->
  arena_alloc a size (2 ^ k) =
  if capacity a <? next_offset a size k then (None, a)
  else (Some (next_ptr a k), mkArena (base a) (capacity a) (next_offset a size k)).
Proof.
  intros (Hk & Hs & Hb & Ho & Hbump & Hsz).
  pose proof (Z.pow_pos_nonneg 2 k).
  pose proof (round_up_bounds (base a + offset a) (2 ^ k)).
  unfold arena_alloc, next_offset, next_ptr.
  rewrite (wrap_small 64 (base a + offset a)), align_up_spec by lia.
  rewrite (wrap_small 64 (_ - base a)), (wrap_small 64) by lia.
  done.
Qed.

Lemma arena_alloc_Some a size k p a' : fits a size k ->
  arena_alloc a size (2 ^ k) = (Some p, a') ->
  p = next_ptr a k /\ next_offset a size k <= capacity a /\
  a' = mkArena (base a) (capacity a) (next_offset a size k).
Proof.
  intros Hf. rewrite arena_alloc_eq by done. case_if; [done |].
  intros [= <- <-]. eauto with lia.
Qed.

Lemma next_ptr_bounds a k : 0 <= k ->
  base a + offset a <= next_ptr a k < base a + offset a + 2 ^ k.
Proof. intros. apply round_up_bounds. pose proof (Z.pow_pos_nonneg 2 k). lia. Qed.

(** The capacity test is made on the wrapped 64-bit sum: a request of
    [2^64 - d] bytes, larger than any arena, is granted whenever [d] does
    not exceed the bytes in use, and moves the bump pointer back by [d],
    so that later blocks overlap the live ones. *)
Lemma arena_alloc_wraps a d :
  0 <= base a -> base a + capacity a <= 2 ^ 64 - 1 -> offset a <= capacity a ->
  0 < d <= offset a ->
  arena_alloc a (2 ^ 64 - d) 1 =
  (Some (base a + offset a), mkArena (base a) (capacity a) (offset a - d)).
Proof.
  intros Hb Hend Hoff Hd. unfold arena_alloc.
  rewrite (wrap_small 64 (base a + offset a)) by lia.
  rewrite (align_up_spec _ 0) by lia.
  assert (round_up (base a + offset a) (2 ^ 0) = base a + offset a) as ->.
  { unfold round_up. rewrite Z.pow_0_r, Z.div_1_r. lia. }
  rewrite (wrap_small 64 (_ - base a)) by lia.
  assert (u64 (base a + offset a - base a + (2 ^ 64 - d)) = offset a - d) as ->.
  { unfold wrap. replace (_ + (2 ^ 64 - d)) with (offset a - d + 1 * 2 ^ 64) by lia.
    rewrite Z.mod_add, Z.mod_small; lia. }
  by if_false.
Qed.

(** ** Live blocks of a run *)

Definition disjoint_blocks (x y : block) : Prop :=
  x.1 + x.2 <= y.1 \/ y.1 + y.2 <= x.1.

Definition inside (lo hi : Z) (x : block) : Prop :=
  lo <= x.1 /\ 0 <= x.2 /\ x.1 + x.2 <= hi.

(** An arena with the blocks handed out since the last reset, under the
    calls of a client whose requests fit. *)
Inductive astep : Arena * list block -> Arena * list block -> Prop :=
| astep_alloc a live size k p a' :
    fits a size k -> arena_alloc a size (2 ^ k) = (Some p, a') ->
    astep (a, live) (a', (p, size) :: live)
| astep_exhausted a live size k a' :
    fits a size k -> arena_alloc a size (2 ^ k) = (None, a') ->
    astep (a, live) (a', live)
| astep_reset a live : astep (a, live) (arena_reset a, []).

Record live_ok (a0 : Arena) (s : Arena * list block) : Prop := {
  lo_base : base s.1 = base a0;
  lo_capacity : capacity s.1 = capacity a0;
  lo_offset : sizeof_Arena <= offset s.1;
  lo_inside : Forall (inside (base a0 + sizeof_Arena)
                             (base a0 + Z.min (offset s.1) (capacity a0))) s.2;
  lo_disjoint : ForallOrdPairs disjoint_blocks s.2
}.

Lemma live_ok_alloc a0 a live size k p a' :
  live_ok a0 (a, live) -> fits a size k ->
  arena_alloc a size (2 ^ k) = (Some p, a') -> live_ok a0 (a', (p, size) :: live).
Proof.
  intros [Hb Hc Ho Hin Hd] Hf (-> & Hcap & ->)%arena_alloc_Some; [| done].
  pose proof Hf as (Hk & Hs & _). cbn in *.
  pose proof (next_ptr_bounds a k ltac:(lia)) as Hp.
  assert (Hoff : next_offset a size k = next_ptr a k - base a + size) by done.
  split; cbn; [done | done | lia | |]; constructor.
  - unfold inside; cbn. lia.
  - forall_mono Hin. unfold inside. intros; lia.
  - forall_mono Hin. unfold inside, disjoint_blocks; cbn. intros; lia.
  - done.
Qed.

Lemma live_ok_step a0 s s' : live_ok a0 s -> astep s s' -> live_ok a0 s'.
Proof.
  intros Hok Hstep. destruct Hstep as [a live size k p a' Hf Ha | a live size k a' Hf Ha |].
  - eauto using live_ok_alloc.
  - rewrite arena_alloc_eq in Ha by done. case_match; simplify_eq. done.
  - destruct Hok as [Hb Hc Ho Hin Hd].
    split; cbn in *; unfold sizeof_Arena; auto using Forall_nil_2, FOP_nil with lia.
Qed.

(** ** The allocation loop of the stress test *)

(** Requests with power-of-two alignments, and the room they can take. *)
Definition pow2_requests (reqs : list (Z * Z)) : Prop :=
  Forall (fun r => 0 <= r.1 /\ exists k, 0 <= k < 64 /\ r.2 = 2 ^ k) reqs.

Fixpoint room (reqs : list (Z * Z)) : Z :=
  match reqs with
  | [] => 0
  | r :: reqs' => r.1 + r.2 + room reqs'
  end.

(** Consecutive blocks: each begins at or after the end of the previous. *)
Fixpoint chained (lo : Z) (blocks : list block) (hi : Z) : Prop :=
  match blocks with
  | [] => lo <= hi
  | x :: rest => lo <= x.1 /\ 0 <= x.2 /\ chained (x.1 + x.2) rest hi
  end.

Lemma room_nonneg reqs : pow2_requests reqs -> 0 <= room reqs.
Proof.
  induction 1 as [| [s al] reqs (Hs & k & Hk & Hal) _ IH]; cbn in *; [done |].
  pose proof (Z.pow_pos_nonneg 2 k). lia.
Qed.

Lemma alloc_loop_ok reqs : pow2_requests reqs -> forall a,
  0 <= base a -> 0 <= offset a -> offset a + room reqs <= capacity a ->
  base a + capacity a <= 2 ^ 64 ->
  exists blocks a', alloc_loop a reqs = Ok (blocks, a') /\
    chained (base a + offset a) blocks (base a + capacity a) /\
    base a' = base a /\ capacity a' = capacity a.
Proof.
  induction 1 as [| [s al] reqs (Hs & k & Hk & Hal) Hreqs IH]; intros a Hb Ho Hroom Hcap.
  - exists [], a. cbn in *. repeat split; lia.
  - cbn in Hs, Hal. cbn [room fst snd] in Hroom. subst al.
    pose proof (room_nonneg reqs Hreqs). pose proof (Z.pow_pos_nonneg 2 k).
    pose proof (next_ptr_bounds a k ltac:(lia)) as Hp.
    assert (Hoff : next_offset a s k = next_ptr a k - base a + s) by done.
    cbn [alloc_loop]. rewrite arena_alloc_eq by (unfold fits; lia).
    if_false. rewrite res_bind_Ok. if_false. rewrite res_bind_Ok.
    assert ((next_ptr a k mod 2 ^ k =? 0) = true) as ->
      by (apply Z.eqb_eq, round_up_mod). cbn [c_assert]. rewrite res_bind_Ok.
    destruct (IH (mkArena (base a) (capacity a) (next_offset a s k)))
      as (blocks & a' & -> & Hch & Hb' & Hc'); cbn in *; [lia..|].
    exists ((next_ptr a k, s) :: blocks), a'. cbn.
    replace (next_ptr a k + s) with (base a + next_offset a s k) by lia.
    repeat split; lia || done.
Qed.

Lemma chained_inside lo blocks hi : chained lo blocks hi -> Forall (inside lo hi) blocks.
Proof.
  revert lo. induction blocks as [| x rest IH]; intros lo; cbn; [constructor |].
  intros (Hx & Hs & Hrest). apply IH in Hrest as Hin. constructor.
  - unfold inside. destruct rest as [| y rest]; cbn in Hrest; [lia |].
    inversion Hin as [| ? ? [? [? ?]]]. lia.
  - forall_mono Hin. unfold inside. intros; lia.
Qed.

Lemma chained_no_overlap lo blocks hi :
  0 <= lo -> hi <= 2 ^ 64 -> chained lo blocks hi -> count_overlaps blocks = 0.
Proof.
  intros Hlo Hhi. revert lo Hlo. induction blocks as [| x rest IH]; intros lo Hlo; [done |].
  intros (Hx & Hs & Hrest). cbn [count_overlaps].
  rewrite (IH (x.1 + x.2)) by (lia || done). apply chained_inside in Hrest.
  rewrite filter_false; [done |]. forall_mono Hrest.
  intros y (Hy1 & Hy2 & Hy3). unfold overlapping, wrap.
  destruct (Z.leb_spec ((x.1 + x.2) mod 2 ^ 64) y.1) as [| Hgt]; [done |].
  pose proof (Z.mod_le (x.1 + x.2) (2 ^ 64)). lia.
Qed.

Lemma requests_pow2 : pow2_requests (zip sizes aligns).
Proof.
  repeat constructor; cbn; try lia;
    [exists 0 | exists 2 | exists 3 | exists 4 | exists 0 | exists 6 | exists 3 | exists 2];
    (split; [lia | reflexivity]).
Qed.

Lemma cycles_ok n : forall k a,
  offset a = sizeof_Arena -> 0 <= base a -> sizeof_Arena + 182 <= capacity a ->
  base a + capacity a <= 2 ^ 64 ->
  cycles n k (base a) a =
  Ok ((fun i => mkReport i N 0 (base a)) <$> seqZ k (Z.of_nat n), a).
Proof.
  induction n as [| n IH]; intros k a Ho Hb Hcap Hend; [done |].
  destruct (alloc_loop_ok _ requests_pow2 a) as (blocks & a' & Hrun & Hch & Hb' & Hc');
    [lia | unfold sizeof_Arena in *; lia | change (room _) with 182; lia | lia |].
  apply chained_no_overlap in Hch as Hno; [| unfold sizeof_Arena in *; lia | lia].
  cbn [cycles]. rewrite Hrun, res_bind_Ok, Hb'.
  rewrite Z.eqb_refl. cbn [c_assert]. rewrite res_bind_Ok.
  assert (arena_reset a' = a) as ->.
  { unfold arena_reset. rewrite Hb', Hc', <- Ho. by destruct a. }
  rewrite Z.eqb_refl. cbn [c_assert]. rewrite res_bind_Ok, IH by done.
  rewrite res_bind_Ok, Hno, Nat2Z.inj_succ, (seqZ_cons k) by lia.
  by rewrite Z.pred_succ.
Qed.

(** ** Properties *)

(** C8. For every request that cannot wrap [size_t] ([fits]), [arena_alloc]
    returns the least aligned address from the bump pointer on, with the
    block ending at the new bump pointer inside the capacity; and it returns
    NULL, leaving the arena as it was, exactly when the block at no aligned
    address fits.  Without that condition it does not: a request of
    [2^64 - d] bytes, larger than any arena, is granted whenever [d] does
    not exceed the bytes in use, and moves the bump pointer back by [d],
    so that later blocks overlap the live ones. *)
Theorem arena_alloc_correct a size k :
  (fits a size k ->
    match arena_alloc a size (2 ^ k) with
    | (Some p, a') =>
        p mod 2 ^ k = 0 /\ base a + offset a <= p /\
        (forall q, base a + offset a <= q -> q mod 2 ^ k = 0 -> p <= q) /\
        p + size = base a + offset a' /\ offset a' <= capacity a /\
        base a' = base a /\ capacity a' = capacity a
    | (None, a') =>
        a' = a /\
        (forall q, base a + offset a <= q -> q mod 2 ^ k = 0 ->
                   base a + capacity a < q + size)
    end) /\
  (forall d, 0 <= base a -> base a + capacity a <= 2 ^ 64 - 1 -> 0 < d <= offset a ->
    offset a <= capacity a ->
    arena_alloc a (2 ^ 64 - d) 1 =
    (Some (base a + offset a), mkArena (base a) (capacity a) (offset a - d))).
Proof.
  split; [| intros; by apply arena_alloc_wraps].
  intros Hf. pose proof Hf as (Hk & _).
  pose proof (Z.pow_pos_nonneg 2 k ltac:(lia) ltac:(lia)) as Hpos.
  pose proof (next_ptr_bounds a k ltac:(lia)).
  assert (Hoff : next_offset a size k = next_ptr a k - base a + size) by done.
  assert (Hleast : forall q, base a + offset a <= q -> q mod 2 ^ k = 0 -> next_ptr a k <= q)
    by (intros; by apply round_up_least).
  rewrite arena_alloc_eq by done. case_if; cbn.
  - split; [done |]. intros q Hq1 Hq2. specialize (Hleast q Hq1 Hq2). lia.
  - repeat split; try done; try lia. apply round_up_mod.
Qed.

Lemma arena_alloc_correct_witness :
  fits (mkArena 65536 4096 25) 3 2 /\
  match arena_alloc (mkArena 65536 4096 25) 3 (2 ^ 2) with
  | (Some p, a') => p = 65564 /\ 65536 + 25 <= p /\ offset a' = 31
  | (None, _) => False
  end.
Proof.
  assert (Hf : fits (mkArena 65536 4096 25) 3 2) by (unfold fits; cbn; lia).
  split; [exact Hf |].
  pose proof (proj1 (arena_alloc_correct _ _ _) Hf) as H. vm_compute in H |- *.
  split; [reflexivity |]. split; [apply H | reflexivity].
Defined.

(** C9. Whatever sequence of allocations that cannot wrap [size_t] ([fits]),
    granted or refused, and resets a client makes on a fresh arena, the blocks it holds since the
    last reset are pairwise disjoint, lie inside the mapping, and never
    touch the [Arena] header at its start; the mapping never moves. *)
Theorem live_blocks_disjoint VirtualAlloc cap a0 a live :
  arena_create VirtualAlloc cap = Some a0 ->
  star astep (a0, []) (a, live) ->
  base a = VirtualAlloc cap /\ capacity a = cap /\
  ForallOrdPairs disjoint_blocks live /\
  Forall (inside (VirtualAlloc cap + sizeof_Arena) (VirtualAlloc cap + cap)) live.
Proof.
  unfold arena_create. case_if; [| done]. intros [= <-] Hstar.
  set (a0 := mkArena (VirtualAlloc cap) cap sizeof_Arena) in *.
  apply (star_invariant _ (live_ok a0)) in Hstar as [Hb Hc Ho Hin Hd];
    [| eauto using live_ok_step |].
  - cbn in *. split_and!; [done.. |].
    forall_mono Hin. unfold inside. intros; lia.
  - split; cbn; [done | done | done | constructor | constructor].
Qed.

Lemma live_blocks_disjoint_witness :
  ForallOrdPairs disjoint_blocks [(65564, 3); (65560, 1)].
Proof.
  apply (live_blocks_disjoint (fun _ => 65536) 4096 (mkArena 65536 4096 24)
           (mkArena 65536 4096 31)); [reflexivity |].
  eapply star_step; [apply (astep_alloc _ _ 1 0); [ground | reflexivity] |].
  eapply star_step; [apply (astep_alloc _ _ 3 2); [ground | reflexivity] |].
  apply star_refl.
Defined.

(** C10. The stress test passes wherever the system puts the 4096-byte
    mapping: no assertion fails, each of the three cycles reports eight
    allocations and no overlap at the same base, and the mapping is
    released. *)
Theorem main_passes VirtualAlloc b :
  VirtualAlloc 4096 = b -> 0 < b -> b + 4096 <= 2 ^ 64 ->
  main VirtualAlloc =
  Ok ((fun i => mkReport i 8 0 b) <$> [0; 1; 2], VirtualFree b 0 true).
Proof.
  intros Hb Hpos Hend. unfold main, arena_create. rewrite Hb.
  replace (b =? 0) with false by (symmetry; apply Z.eqb_neq; lia). cbn [negb].
  rewrite (cycles_ok 3 0 (mkArena b 4096 sizeof_Arena)) by (cbn; unfold sizeof_Arena; lia).
  done.
Qed.

Lemma main_passes_witness :
  main (fun size => if size =? 4096 then 2147483648 else 0) =
  Ok ([mkReport 0 8 0 2147483648; mkReport 1 8 0 2147483648; mkReport 2 8 0 2147483648],
      VirtualFree 2147483648 0 true).
Proof. apply (main_passes _ 2147483648); [reflexivity | ground | ground]. Defined.

Lemma arena_alloc_wraps_witness :
  arena_alloc (mkArena 65536 4096 124) (2 ^ 64 - 100) 1 =
  (Some 65660, mkArena 65536 4096 24).
Proof. apply (arena_alloc_wraps (mkArena 65536 4096 124) 100); cbn; lia. Defined.
