(* ===== verification/Dns.v ===== *)
(** * Dns

    The query side of 04-dns_query/main.c: the header, [encode_name] and
    [build_query].  The host's byte order is the interface [ByteOrder];
    a buffer is the list of the bytes of its object. *)

From S2P Require Import Prelude.

(** ** Data *)

Record dns_header_t := mkHeader {
  id : Z; flags : Z; qdcount : Z; ancount : Z; nscount : Z; arcount : Z
}.

Definition DNS_TYPE_A : Z := 1.
Definition DNS_CLASS_IN : Z := 1.
Definition DNS_HEADER_FLAGS : Z := 0x0100.
Definition MAX_LABEL_TOTAL : Z := 255.
Definition MAX_LABEL_SEGMENT : Z := 63.

Definition dot : Z := 46.

#[export] Instance dns_header_eq_dec : EqDecision dns_header_t.
Proof. solve_decision. Defined.

(** ** encode_name *)

(** [for (i = 0; i < seg_i; i++) buf[buf_i++] = seg[i];] with [n]
    iterations left. *)
Fixpoint copy_seg (n : nat) (seg : list Z) (i : Z) (buf : list Z) (buf_i : Z)
    : res (list Z * Z) :=
  match n with
  | O => Ok (buf, buf_i)
  | S n' =>
      b ← rd seg i;
      buf ← wr buf buf_i b;
      copy_seg n' seg (i + 1) buf (u16 (buf_i + 1))
  end.

(** The loop over the characters, the final 0 included.  [None] is the
    early [return -1]; [Some buf_i] leaves the loop by its condition. *)
Fixpoint encode_loop (fuel : nat) (domain : list Z)
    (seg : list Z) (seg_i : Z) (buf : list Z) (buf_i : Z) (domain_i : Z)
    : res (option Z * list Z) :=
  match fuel with
  | O => Fault OutOfFuel
  | S fuel' =>
      n ← strlen domain;
      if domain_i <? n + 1 then
        c ← rd domain domain_i;
        if (c =? dot) || (c =? 0) then
          if MAX_LABEL_SEGMENT <? seg_i then Ok (None, buf)
          else
            buf ← wr buf buf_i seg_i;
            '(buf, buf_i) ← copy_seg (Z.to_nat seg_i) seg 0 buf (u16 (buf_i + 1));
            encode_loop fuel' domain (replicate 63 0) 0 buf buf_i (u16 (domain_i + 1))
        else
          seg ← wr seg seg_i (u8 c);
          encode_loop fuel' domain seg (u8 (seg_i + 1)) buf buf_i (u16 (domain_i + 1))
      else Ok (Some buf_i, buf)
  end.

(** [seg0] is what the uninitialised array [seg] holds.  The loop makes
    [strlen(domain) + 1] iterations; a 16-bit [domain_i] never gets past
    65535, so from that length on the loop has no end and the fuel runs out. *)
Definition encode_name (seg0 domain buf : list Z) : res (Z * list Z) :=
  n ← strlen domain;
  '(r, buf) ← encode_loop (Z.to_nat (n + 2)) domain seg0 0 buf 0 0;
  match r with
  | None => Ok (-1, buf)
  | Some buf_i =>
      buf ← wr buf buf_i 0;
      let buf_i := u16 (buf_i + 1) in
      if MAX_LABEL_TOTAL <? buf_i then Ok (-1, buf) else Ok (buf_i, buf)
  end.

Example encode_example :
  encode_name (replicate 63 7) (chars "www.example.com" ++ [0]) (replicate 20 255) =
  Ok (17, [3] ++ chars "www" ++ [7] ++ chars "example" ++ [3] ++ chars "com" ++ [0; 255; 255; 255]).
Proof. vm_compute. reflexivity. Qed.

(** ** build_query *)

Section host.
Context {Host : ByteOrder}.

(** [htons x] is the integer whose bytes in memory are those of [x] in
    network order. *)
Definition htons (x : Z) : Z := get (be_put 2 (u16 x)).

(** The bytes of the packed struct. *)
Definition header_bytes (h : dns_header_t) : list Z :=
  put 2 (id h) ++ put 2 (flags h) ++ put 2 (qdcount h) ++
  put 2 (ancount h) ++ put 2 (nscount h) ++ put 2 (arcount h).

(** [seg0] and [enc0] are what the uninitialised arrays [seg] (63 bytes)
    and [encoded_domain] (512 bytes) hold. *)
Definition build_query (seg0 enc0 domain buf : list Z) (id : Z) : res (Z * list Z) :=
  let query_len := 0 in
  let header := {| id := htons id; flags := htons DNS_HEADER_FLAGS; qdcount := htons 1;
                   ancount := 0; nscount := 0; arcount := 0 |} in
  buf ← wr_all buf 0 (header_bytes header);
  let query_len := query_len + 12 in
  '(domain_len, encoded_domain) ← encode_name seg0 domain enc0;
  if domain_len <? 0 then Ok (-1, buf)
  else
    buf ← wr_all buf query_len (take (Z.to_nat domain_len) encoded_domain);
    let query_len := query_len + domain_len in
    buf ← wr_all buf query_len (put 2 (htons DNS_TYPE_A));
    let query_len := query_len + 2 in
    buf ← wr_all buf query_len (put 2 (htons DNS_CLASS_IN));
    let query_len := query_len + 2 in
    Ok (query_len, buf).

End host.

(** ** Names on the wire *)

Definition label : Type := list Z.

(** The characters of a label: no NUL and no dot. *)
Definition label_chars (l : label) : Prop :=
  Forall (fun c => 0 < c < 256 /\ c <> dot) l.

(** What the encoder can copy: at most 63 characters, possibly none. *)
Definition label_fits (l : label) : Prop := label_chars l /\ Z.of_nat (length l) <= 63.

(** RFC 1035 2.3.1: a label has between 1 and 63 characters. *)
Definition label_ok (l : label) : Prop := label_fits l /\ l <> [].

Lemma label_ok_fits l : label_ok l -> label_fits l.
Proof. by intros []. Qed.

Lemma labels_ok_fit ls : Forall label_ok ls -> Forall label_fits ls.
Proof. intros H. forall_mono H. apply label_ok_fits. Qed.

(** [a.b.c]: the labels with dots between them. *)
Fixpoint dotted (l : label) (ls : list label) : list Z :=
  match ls with
  | [] => l
  | l' :: ls' => l ++ dot :: dotted l' ls'
  end.

(** RFC 1035 3.1: each label preceded by its length, and a zero length. *)
Definition wire_labels (ls : list label) : list Z :=
  concat ((fun l => Z.of_nat (length l) :: l) <$> ls).

Definition wire_name (ls : list label) : list Z := wire_labels ls ++ [0].

(** ** Lemmas on encode_name *)

Lemma dotted_length l ls :
  length (wire_labels (l :: ls)) = S (length (dotted l ls)).
Proof.
  revert l. induction ls as [| l' ls IH]; intros l.
  - cbn. by rewrite app_nil_r.
  - specialize (IH l'). unfold wire_labels in *.
    rewrite fmap_cons, concat_cons, length_app, IH.
    cbn [dotted length]. rewrite length_app. cbn. lia.
Qed.

Lemma wire_name_length l ls :
  length (wire_name (l :: ls)) = (length (dotted l ls) + 2)%nat.
Proof. unfold wire_name. rewrite length_app, dotted_length. cbn. lia. Qed.

Lemma label_chars_c l : label_chars l -> c_chars l.
Proof. intros H. forall_mono H. lia. Qed.

Lemma dotted_c l ls :
  label_chars l -> Forall label_chars ls -> c_chars (dotted l ls).
Proof.
  intros Hl Hls. revert l Hl. induction Hls as [| l' ls Hl' _ IH]; intros l Hl.
  - by apply label_chars_c.
  - apply Forall_app. split; [by apply label_chars_c |].
    constructor; [done | by apply IH].
Qed.

(** Copying [l] when the buffer has room for it, and when it has not. *)
Lemma copy_seg_ok l : forall done junk out old rest,
  length old = length l -> Z.of_nat (length out + length l) < 65536 ->
  copy_seg (length l) (done ++ l ++ junk) (Z.of_nat (length done))
           (out ++ old ++ rest) (Z.of_nat (length out)) =
  Ok (out ++ l ++ rest, Z.of_nat (length out + length l)).
Proof.
  induction l as [| c l IH]; intros done junk out [| o old] rest Hold Hlen;
    try discriminate Hold.
  - cbn. by rewrite Nat.add_0_r.
  - cbn in Hold, Hlen. cbn [copy_seg length app].
    rewrite rd_mid, res_bind_Ok, wr_mid, res_bind_Ok by done.
    specialize (IH (done ++ [c]) junk (out ++ [c]) old rest).
    rewrite !length_app, <- !app_assoc in IH. cbn [length app] in IH.
    rewrite (wrap_small 16) by lia.
    replace (Z.of_nat (length done) + 1) with (Z.of_nat (length done + 1)) by lia.
    replace (Z.of_nat (length out) + 1) with (Z.of_nat (length out + 1)) by lia.
    rewrite IH by lia. do 2 f_equal. lia.
Qed.

Lemma copy_seg_overflow l : forall done junk out old,
  (length old < length l)%nat -> Z.of_nat (length out + length l) < 65536 ->
  copy_seg (length l) (done ++ l ++ junk) (Z.of_nat (length done))
           (out ++ old) (Z.of_nat (length out)) =
  Fault (OutOfBounds (Z.of_nat (length (out ++ old)))).
Proof.
  induction l as [| c l IH]; intros done junk out old Hold Hlen; [cbn in Hold; lia |].
  cbn in Hold, Hlen. cbn [copy_seg length app].
  rewrite rd_mid, res_bind_Ok by done.
  destruct old as [| o old].
  - rewrite app_nil_r, wr_oob by lia. done.
  - rewrite wr_mid, res_bind_Ok by done.
    specialize (IH (done ++ [c]) junk (out ++ [c]) old).
    rewrite !length_app, <- !app_assoc in IH. cbn [length app] in *.
    rewrite (wrap_small 16) by lia.
    replace (Z.of_nat (length done) + 1) with (Z.of_nat (length done + 1)) by lia.
    replace (Z.of_nat (length out) + 1) with (Z.of_nat (length out + 1)) by lia.
    rewrite IH by lia. rewrite length_app. cbn. do 2 f_equal. lia.
Qed.

(** Reading the characters of a label into [seg]. *)
Lemma encode_chars l : forall fuel n pre rest done old junk buf buf_i,
  label_chars l -> strlen (pre ++ l ++ rest) = Ok n ->
  Z.of_nat (length pre + length l) <= n -> n < 65535 ->
  length old = length l -> Z.of_nat (length done + length l) <= 63 ->
  encode_loop (length l + fuel) (pre ++ l ++ rest)
    (done ++ old ++ junk) (Z.of_nat (length done)) buf buf_i (Z.of_nat (length pre)) =
  encode_loop fuel (pre ++ l ++ rest)
    (done ++ l ++ junk) (Z.of_nat (length done + length l)) buf buf_i
    (Z.of_nat (length pre + length l)).
Proof.
  induction l as [| c l IH]; intros fuel n pre rest done old junk buf buf_i
    Hl Hn Hle Hlt Hold Hdone; destruct old as [| o old]; try discriminate Hold.
  - cbn. by rewrite !Nat.add_0_r.
  - inversion Hl as [| ? ? [Hc Hdot] Hl']; subst.
    cbn in Hle, Hold, Hdone. cbn [encode_loop length app Nat.add] in *.
    rewrite Hn, res_bind_Ok. if_true. rewrite rd_mid, res_bind_Ok by done.
    if_false. rewrite wr_mid, res_bind_Ok by done.
    rewrite (wrap_small 8 c), (wrap_small 8 (_ + 1)), (wrap_small 16) by lia.
    specialize (IH fuel n (pre ++ [c]) rest (done ++ [c]) old junk buf buf_i Hl').
    rewrite !length_app, <- !app_assoc in IH. cbn [length app] in IH.
    replace (Z.of_nat (length done) + 1) with (Z.of_nat (length done + 1)) by lia.
    replace (Z.of_nat (length pre) + 1) with (Z.of_nat (length pre + 1)) by lia.
    rewrite IH by (done || lia). f_equal; lia.
Qed.

(** One label and the separator after it: the length byte and the label
    go to [buf], or the run faults at the first byte past its end. *)
Lemma encode_label l fuel n pre c rest seg out old :
  label_fits l -> c = dot \/ c = 0 -> strlen (pre ++ l ++ c :: rest) = Ok n ->
  Z.of_nat (length pre + length l) <= n -> n < 65535 ->
  length seg = 63%nat -> Z.of_nat (length out + length l) < 65535 ->
  encode_loop (length l + S fuel) (pre ++ l ++ c :: rest)
    seg 0 (out ++ old) (Z.of_nat (length out)) (Z.of_nat (length pre)) =
  if bool_decide (length old < S (length l))%nat
  then Fault (OutOfBounds (Z.of_nat (length (out ++ old))))
  else encode_loop fuel (pre ++ l ++ c :: rest) (replicate 63 0) 0
         (out ++ (Z.of_nat (length l) :: l) ++ drop (S (length l)) old)
         (Z.of_nat (length out + S (length l)))
         (u16 (Z.of_nat (length pre + length l) + 1)).
Proof.
  intros [Hl H63] Hc Hn Hle Hlt Hseg Hout.
  rewrite <- (take_drop (length l) seg).
  pose proof (encode_chars l (S fuel) n pre (c :: rest) [] (take (length l) seg)
                (drop (length l) seg) (out ++ old) (Z.of_nat (length out)) Hl Hn Hle Hlt) as Hrun.
  cbn [length app Nat.add] in Hrun. change (Z.of_nat 0) with 0 in Hrun.
  rewrite length_take in Hrun.
  rewrite Hrun by lia. clear Hrun. cbn [encode_loop].
  rewrite Hn, res_bind_Ok. if_true.
  rewrite app_assoc, rd_mid, res_bind_Ok by (rewrite length_app; lia).
  rewrite <- app_assoc.
  if_true.
  unfold MAX_LABEL_SEGMENT. if_false.
  destruct old as [| o old].
  { rewrite bool_decide_true by (cbn; lia). rewrite app_nil_r, wr_oob by lia. done. }
  rewrite wr_mid, res_bind_Ok by done. rewrite Nat2Z.id, (wrap_small 16 (Z.of_nat (length out) + 1)) by lia.
  replace (Z.of_nat (length out) + 1)
    with (Z.of_nat (length (out ++ [Z.of_nat (length l)]))) by (rewrite length_app; cbn; lia).
  rewrite (cons_middle _ out old), (app_assoc out [_]). cbn [length].
  case_if.
  - pose proof (copy_seg_overflow l [] (drop (length l) seg)
      (out ++ [Z.of_nat (length l)]) old) as Hcp.
    cbn [app length] in Hcp. change (Z.of_nat 0) with 0 in Hcp.
    rewrite Hcp by (rewrite ?length_app; cbn; lia).
    cbn. rewrite !length_app. cbn. do 2 f_equal. lia.
  - rewrite <- (take_drop (length l) old) at 1.
    pose proof (copy_seg_ok l [] (drop (length l) seg) (out ++ [Z.of_nat (length l)])
      (take (length l) old) (drop (length l) old)) as Hcp.
    cbn [app length] in Hcp. change (Z.of_nat 0) with 0 in Hcp.
    rewrite Hcp by (rewrite ?length_take, ?length_app; cbn; lia).
    rewrite res_bind_Ok. rewrite <- !app_assoc. cbn [app drop].
    do 2 f_equal; rewrite ?length_app; cbn; lia.
Qed.

Lemma wire_labels_cons l ls :
  wire_labels (l :: ls) = (Z.of_nat (length l) :: l) ++ wire_labels ls.
Proof. done. Qed.

Lemma encode_dotted ls : forall l fuel pre r seg out old,
  label_fits l -> Forall label_fits ls ->
  c_chars pre -> Z.of_nat (length pre + length (dotted l ls)) < 65535 ->
  length seg = 63%nat -> Z.of_nat (length out + length (dotted l ls)) < 65535 ->
  encode_loop (length (dotted l ls) + S (S fuel)) (pre ++ dotted l ls ++ 0 :: r)
    seg 0 (out ++ old) (Z.of_nat (length out)) (Z.of_nat (length pre)) =
  if bool_decide (length old < S (length (dotted l ls)))%nat
  then Fault (OutOfBounds (Z.of_nat (length (out ++ old))))
  else Ok (Some (Z.of_nat (length out + S (length (dotted l ls)))),
           out ++ wire_labels (l :: ls) ++ drop (S (length (dotted l ls))) old).
Proof.
  induction ls as [| l' ls IH]; intros l fuel pre r seg out old Hl Hls Hpre Hn Hseg Hout.
  - assert (Hstr : strlen (pre ++ l ++ 0 :: r) = Ok (Z.of_nat (length pre + length l))).
    { rewrite app_assoc, strlen_Ok, length_app; [done |].
      apply Forall_app. split; [done | by apply label_chars_c, Hl]. }
    cbn [dotted] in *. rewrite (encode_label l (S fuel) _ _ _ _ _ _ _ Hl (or_intror eq_refl) Hstr) by lia.
    case_if; [done |]. cbn [encode_loop].
    rewrite Hstr, res_bind_Ok, wrap_small by lia. if_false.
    unfold wire_labels. cbn. by rewrite app_nil_r.
  - inversion Hls as [| ? ? Hl' Hls']; subst. clear Hls. rename Hls' into Hls.
    cbn [dotted] in *.
    rewrite length_app in Hn, Hout |- *. cbn [length] in *.
    assert (Hstr : strlen (pre ++ l ++ dot :: dotted l' ls ++ 0 :: r) =
                   Ok (Z.of_nat (length pre + (length l + S (length (dotted l' ls)))))).
    { replace (pre ++ l ++ dot :: dotted l' ls ++ 0 :: r)
        with ((pre ++ l ++ dot :: dotted l' ls) ++ 0 :: r)
        by (rewrite <- !app_assoc; done).
      rewrite strlen_Ok; [by rewrite !length_app |].
      apply Forall_app. split; [done |]. apply Forall_app.
      split; [by apply label_chars_c, Hl |]. constructor; [done |].
      apply dotted_c; [apply Hl' |]. forall_mono Hls. by intros ? []. }
    rewrite <- app_assoc. cbn [app].
    replace (length l + S (length (dotted l' ls)) + S (S fuel))%nat
      with (length l + S (length (dotted l' ls) + S (S fuel)))%nat by lia.
    rewrite (encode_label l _ _ _ _ _ _ _ _ Hl (or_introl eq_refl) Hstr) by lia.
    case_if; [by rewrite bool_decide_true by lia |].
    specialize (IH l' fuel (pre ++ l ++ [dot]) r (replicate 63 0)
                  (out ++ Z.of_nat (length l) :: l) (drop (S (length l)) old) Hl' Hls).
    rewrite !length_app, !length_drop, <- !app_assoc in IH. cbn [length app] in IH.
    rewrite wrap_small by lia.
    replace (Z.of_nat (length pre + length l) + 1)
      with (Z.of_nat (length pre + (length l + 1))) by lia.
    cbn [app]. rewrite IH; [| | lia | by rewrite length_replicate | lia].
    + rewrite drop_drop. repeat case_bool_decide; try lia.
      * do 2 f_equal. rewrite !length_app. cbn. rewrite ?length_drop. lia.
      * rewrite (wire_labels_cons l). cbn [app]. rewrite <- !app_assoc.
        replace (length out + S (length l) + S (length (dotted l' ls)))%nat
          with (length out + S (length l + S (length (dotted l' ls))))%nat by lia.
        by replace (S (length l) + S (length (dotted l' ls)))%nat
          with (S (length l + S (length (dotted l' ls))))%nat by lia.
    + apply Forall_app. split; [done |]. apply Forall_app.
      split; [by apply label_chars_c, Hl | by constructor].
Qed.

(** [encode_name] on every dotted name of labels the format allows. *)
Lemma encode_name_dotted l ls seg0 r buf :
  label_fits l -> Forall label_fits ls -> length seg0 = 63%nat ->
  Z.of_nat (length (wire_name (l :: ls))) < 65536 ->
  encode_name seg0 (dotted l ls ++ 0 :: r) buf =
  let n := length (wire_name (l :: ls)) in
  if bool_decide (length buf < n)%nat
  then Fault (OutOfBounds (Z.of_nat (length buf)))
  else Ok (if MAX_LABEL_TOTAL <? Z.of_nat n then -1 else Z.of_nat n,
           wire_name (l :: ls) ++ drop n buf).
Proof.
  rewrite wire_name_length. intros Hl Hls Hseg Hn. cbv zeta.
  set (k := length (dotted l ls)) in *.
  assert (Hc : c_chars (dotted l ls)).
  { apply dotted_c; [apply Hl |]. forall_mono Hls. by intros ? []. }
  unfold encode_name. rewrite strlen_Ok, res_bind_Ok by done. fold k.
  replace (Z.to_nat (Z.of_nat k + 2)) with (k + 2)%nat by lia.
  pose proof (encode_dotted ls l 0 [] r seg0 [] buf Hl Hls (Forall_nil_2 _)) as Hrun.
  cbn [app length Nat.add] in Hrun. fold k in Hrun.
  change (Z.of_nat 0) with 0 in Hrun. rewrite Hrun by lia. clear Hrun.
  repeat case_bool_decide; try lia; [done | |]; rewrite res_bind_Ok.
  - rewrite drop_ge, app_nil_r by lia. rewrite wr_oob; [cbn; do 2 f_equal; lia |].
    unfold k. rewrite dotted_length. lia.
  - destruct (drop (S k) buf) as [| x rest] eqn:Hdrop.
    { apply (f_equal length) in Hdrop. rewrite length_drop in Hdrop. cbn in Hdrop. lia. }
    rewrite wr_mid, res_bind_Ok by (unfold k; rewrite dotted_length; done).
    rewrite wrap_small by lia.
    assert (drop (k + 2) buf = rest) as ->.
    { replace (k + 2)%nat with (S k + 1)%nat by lia. rewrite <- drop_drop, Hdrop. done. }
    unfold wire_name. rewrite <- app_assoc. cbn [app].
    replace (Z.of_nat (S k) + 1) with (Z.of_nat (k + 2)) by lia.
    by case_if.
Qed.

(** The 64th character of a label is written past the end of [seg]. *)
Lemma encode_long l fuel n pre rest seg buf buf_i :
  label_chars l -> (64 <= length l)%nat -> strlen (pre ++ l ++ rest) = Ok n ->
  Z.of_nat (length pre + length l) <= n -> n < 65535 -> length seg = 63%nat ->
  encode_loop (64 + fuel) (pre ++ l ++ rest) seg 0 buf buf_i (Z.of_nat (length pre)) =
  Fault (OutOfBounds 63).
Proof.
  intros Hl Hlen Hn Hle Hlt Hseg.
  destruct (drop 63 l) as [| c l2] eqn:Hc.
  { apply (f_equal length) in Hc. rewrite length_drop in Hc. cbn in Hc. lia. }
  assert (Hsplit : l = take 63 l ++ c :: l2) by (rewrite <- Hc; symmetry; apply take_drop).
  assert (length (take 63 l) = 63%nat) as H63 by (rewrite length_take; lia).
  rewrite Hsplit in Hl, Hn |- *. rewrite <- app_assoc in Hn |- *. cbn [app] in Hn |- *.
  apply Forall_app in Hl as [Hl1 Hl2]. inversion Hl2 as [| ? ? [Hc0 Hdot] _]; subst.
  pose proof (encode_chars (take 63 l) (S fuel) n pre (c :: l2 ++ rest) [] seg []
                buf buf_i Hl1 Hn ltac:(lia) Hlt ltac:(lia) ltac:(cbn; lia)) as Hrun.
  cbn [length app] in Hrun. rewrite !app_nil_r, H63 in Hrun.
  change (64 + fuel)%nat with (63 + S fuel)%nat. change (Z.of_nat 0) with 0 in Hrun.
  rewrite Hrun. clear Hrun. cbn [encode_loop]. rewrite Hn, res_bind_Ok. if_true.
  rewrite app_assoc, rd_mid, res_bind_Ok by (rewrite length_app; lia). if_false.
  rewrite wr_oob by (cbn; lia). done.
Qed.

(** ** Lemmas on build_query *)

Section host_lemmas.
Context {Host : ByteOrder}.

(** In memory [htons x] is [x] in network order, whatever the host. *)
Lemma put_htons x : is_u 16 x -> put 2 (htons x) = be_put 2 x.
Proof.
  intros Hx. unfold htons. rewrite wrap_small by done.
  rewrite <- (be_put_length 2 x) at 1. apply put_get, be_put_bytes.
Qed.

Definition query_header (id : Z) : list Z :=
  be_put 2 id ++ be_put 2 DNS_HEADER_FLAGS ++ be_put 2 1 ++ replicate 6 0.

(** RFC 1035 4.1: a recursive query for the A record of a name. *)
Definition query_wire (id : Z) (ls : list label) : list Z :=
  query_header id ++ wire_name ls ++ be_put 2 DNS_TYPE_A ++ be_put 2 DNS_CLASS_IN.

Lemma query_header_length id : length (query_header id) = 12%nat.
Proof. unfold query_header. by rewrite !length_app, !be_put_length, length_replicate. Qed.

Lemma query_wire_length id ls :
  length (query_wire id ls) = (16 + length (wire_name ls))%nat.
Proof.
  unfold query_wire. rewrite !length_app, query_header_length, !be_put_length. lia.
Qed.

Lemma header_bytes_query id : is_u 16 id ->
  header_bytes (mkHeader (htons id) (htons DNS_HEADER_FLAGS) (htons 1) 0 0 0) = query_header id.
Proof.
  intros Hid. unfold header_bytes, query_header. cbn.
  rewrite !put_htons by (done || (vm_compute; split; congruence)).
  by rewrite !put_zero.
Qed.

End host_lemmas.

(** ** A reference decoder of uncompressed names (RFC 1035 3.1) *)

Fixpoint decode_name (fuel : nat) (bs : list Z) : option (list label * list Z) :=
  match fuel, bs with
  | S fuel', len :: bs' =>
      if len =? 0 then Some ([], bs')
      else if MAX_LABEL_SEGMENT <? len then None
      else if Z.of_nat (length bs') <? len then None
      else '(ls, rest) ← decode_name fuel' (drop (Z.to_nat len) bs');
           Some (take (Z.to_nat len) bs' :: ls, rest)
  | _, _ => None
  end.

Lemma decode_wire_name ls : forall fuel rest,
  Forall label_ok ls -> (length ls < fuel)%nat ->
  decode_name fuel (wire_name ls ++ rest) = Some (ls, rest).
Proof.
  induction ls as [| l ls IH]; intros [| fuel] rest Hls Hfuel; try (cbn in Hfuel; lia); [done |].
  inversion Hls as [| ? ? [[_ H63] Hne] Hls']; subst. cbn in Hfuel.
  assert (length l <> 0%nat) by (by destruct l).
  unfold wire_name. rewrite wire_labels_cons. cbn [app decode_name].
  unfold MAX_LABEL_SEGMENT. do 2 if_false.
  rewrite <- !app_assoc. rewrite length_app. if_false.
  rewrite Nat2Z.id, drop_app_length, take_app_length.
  specialize (IH fuel rest Hls' ltac:(lia)). unfold wire_name in IH.
  rewrite <- app_assoc in IH. rewrite IH. done.
Qed.

(** A name has at least as many characters as dots. *)
Lemma dotted_labels l ls : (length ls <= length (dotted l ls))%nat.
Proof.
  revert l. induction ls as [| l' ls IH]; intros l; cbn; [lia |].
  rewrite length_app. cbn. specialize (IH l'). lia.
Qed.

Lemma wire_name_cut ls1 ls2 : wire_name (ls1 ++ [] :: ls2) = wire_name ls1 ++ wire_name ls2.
Proof. unfold wire_name, wire_labels. rewrite fmap_app, concat_app, <- !app_assoc. done. Qed.

Lemma build_query_dotted {Host : ByteOrder} l ls seg0 enc0 r buf id :
  label_fits l -> Forall label_fits ls -> is_u 16 id ->
  length seg0 = 63%nat -> length enc0 = 512%nat -> (271 <= length buf)%nat ->
  Z.of_nat (length (wire_name (l :: ls))) < 65536 ->
  build_query seg0 enc0 (dotted l ls ++ 0 :: r) buf id =
  let n := length (wire_name (l :: ls)) in
  if bool_decide (n <= 255)%nat
  then Ok (Z.of_nat (16 + n), query_wire id (l :: ls) ++ drop (16 + n) buf)
  else if bool_decide (n <= 512)%nat
  then Ok (-1, query_header id ++ drop 12 buf)
  else Fault (OutOfBounds 512).
Proof.
  intros Hl Hls Hid Hseg Henc Hbuf Hn. cbv zeta.
  set (n := length (wire_name (l :: ls))) in *.
  unfold build_query. rewrite header_bytes_query by done.
  pose proof (query_header_length id) as Hhdr.
  rewrite (wr_all_out [] buf) by (done || lia). rewrite res_bind_Ok, Hhdr. cbn [app].
  rewrite encode_name_dotted by done. fold n. cbv zeta. rewrite Henc. change MAX_LABEL_TOTAL with 255.
  repeat case_bool_decide; try lia; [done | |]; rewrite res_bind_Ok;
    [| replace (255 <? Z.of_nat n) with true by lia; done].
  replace (255 <? Z.of_nat n) with false by lia. if_false. rewrite Nat2Z.id.
  rewrite (take_app_length' (wire_name (l :: ls))) by done.
  rewrite wr_all_out by (autorewrite with len; rewrite ?Hhdr; fold n; lia).
  rewrite res_bind_Ok, app_assoc, put_htons by (vm_compute; split; congruence).
  rewrite wr_all_out by (autorewrite with len; rewrite ?Hhdr; fold n; lia).
  rewrite res_bind_Ok, app_assoc, put_htons by (vm_compute; split; congruence).
  rewrite wr_all_out by (autorewrite with len; rewrite ?Hhdr; fold n; lia).
  rewrite res_bind_Ok, !be_put_length, !drop_drop. fold n. unfold query_wire.
  rewrite <- !app_assoc. do 2 f_equal; [lia |]. do 5 f_equal. lia.
Qed.

Lemma build_query_short {Host : ByteOrder} l ls seg0 enc0 r buf id :
  label_fits l -> Forall label_fits ls -> is_u 16 id ->
  length seg0 = 63%nat -> length enc0 = 512%nat -> (271 <= length buf)%nat ->
  (length (wire_name (l :: ls)) <= 255)%nat ->
  build_query seg0 enc0 (dotted l ls ++ 0 :: r) buf id =
  Ok (Z.of_nat (16 + length (wire_name (l :: ls))),
      query_wire id (l :: ls) ++ drop (16 + length (wire_name (l :: ls))) buf).
Proof.
  intros. rewrite build_query_dotted by (done || lia). cbv zeta. by rewrite bool_decide_true.
Qed.

(** ** Properties *)

(** C3. [build_query], on either byte order and whatever its buffers held,
    writes for every dotted name whose labels have 1 to 63 characters the
    RFC 1035 query for its A record and returns its length; for such a name
    whose encoding exceeds 255 bytes it returns -1 with only the header
    written; and past 512 bytes it writes beyond its array
    [encoded_domain]. *)
Theorem build_query_correct {Host : ByteOrder} l ls seg0 enc0 r buf id :
  label_ok l -> Forall label_ok ls -> is_u 16 id ->
  length seg0 = 63%nat -> length enc0 = 512%nat -> (271 <= length buf)%nat ->
  Z.of_nat (length (wire_name (l :: ls))) < 65536 ->
  build_query seg0 enc0 (dotted l ls ++ 0 :: r) buf id =
  let n := length (wire_name (l :: ls)) in
  if bool_decide (n <= 255)%nat
  then Ok (Z.of_nat (16 + n), query_wire id (l :: ls) ++ drop (16 + n) buf)
  else if bool_decide (n <= 512)%nat
  then Ok (-1, query_header id ++ drop 12 buf)
  else Fault (OutOfBounds 512).
Proof. intros Hl%label_ok_fits Hls%labels_ok_fit. by apply build_query_dotted. Qed.

Lemma build_query_correct_witness :
  @build_query LittleEndian (replicate 63 1) (replicate 512 2)
    (chars "ab.c" ++ [0]) (replicate 300 3) 4660 =
  Ok (22, [0x12; 0x34; 1; 0; 0; 1; 0; 0; 0; 0; 0; 0; 2; 97; 98; 1; 99; 0; 0; 1; 0; 1]
          ++ replicate 278 3).
Proof.
  apply (@build_query_correct LittleEndian [97; 98] [[99]] (replicate 63 1) (replicate 512 2)
           [] (replicate 300 3) 4660);
    try (vm_compute; congruence); try (vm_compute; reflexivity);
    try (vm_compute; split; congruence); try (repeat constructor; cbn; (lia || done)).
Defined.

(** C4. Round trip: for every name of at most 253 characters whose labels
    are non-empty and at most 63 long, [encode_name] fills the buffer with
    bytes from which an RFC 1035 decoder reads back exactly those labels. *)
Theorem encode_name_roundtrip l ls seg0 r buf :
  Forall label_ok (l :: ls) -> length seg0 = 63%nat ->
  Z.of_nat (length (dotted l ls)) <= 253 -> (255 <= length buf)%nat ->
  exists n buf', encode_name seg0 (dotted l ls ++ 0 :: r) buf = Ok (n, buf') /\
    length buf' = length buf /\
    decode_name (length buf) buf' = Some (l :: ls, drop (Z.to_nat n) buf).
Proof.
  intros Hls Hseg Hlen Hbuf.
  pose proof (labels_ok_fit _ Hls) as Hok.
  inversion Hok as [| ? ? Hl Hls']; subst.
  pose proof (wire_name_length l ls) as Hwire.
  rewrite encode_name_dotted by (done || lia). cbv zeta.
  rewrite bool_decide_false by lia. unfold MAX_LABEL_TOTAL. if_false.
  do 2 eexists. split; [done |]. split.
  - rewrite length_app, length_drop. lia.
  - rewrite Nat2Z.id. apply decode_wire_name; [done |].
    pose proof (dotted_labels l ls). cbn [length]. lia.
Qed.

Lemma encode_name_roundtrip_witness :
  exists n buf', encode_name (replicate 63 0) (chars "ab.c" ++ [0]) (replicate 255 9) = Ok (n, buf') /\
    length buf' = 255%nat /\
    decode_name 255 buf' = Some ([[97; 98]; [99]], drop (Z.to_nat n) (replicate 255 9)).
Proof.
  apply (encode_name_roundtrip [97; 98] [[99]] (replicate 63 0) [] (replicate 255 9)).
  - repeat constructor; cbn; (lia || done).
  - reflexivity.
  - cbn. lia.
  - cbn. lia.
Defined.

(** An empty label, as in a name that ends with a dot or has two in a row,
    is not refused: it is written as a zero byte, at which the name on the
    wire ends, and the rest of the encoding follows as stray bytes. *)
Theorem encode_name_empty_label l ls1 ls2 seg0 r buf :
  Forall label_ok (l :: ls1) -> Forall label_fits ls2 -> length seg0 = 63%nat ->
  Z.of_nat (length (dotted l (ls1 ++ [] :: ls2))) <= 253 -> (255 <= length buf)%nat ->
  exists n buf', encode_name seg0 (dotted l (ls1 ++ [] :: ls2) ++ 0 :: r) buf = Ok (n, buf') /\
    decode_name (length buf) buf' = Some (l :: ls1, wire_name ls2 ++ drop (Z.to_nat n) buf).
Proof.
  intros Hls1 Hls2 Hseg Hlen Hbuf. pose proof (labels_ok_fit _ Hls1) as Hfit.
  inversion Hfit as [| ? ? Hl Hfit']; subst.
  assert (Hall : Forall label_fits (ls1 ++ [] :: ls2)).
  { apply Forall_app. split; [done |]. constructor; [| done]. split; [constructor | cbn; lia]. }
  pose proof (wire_name_length l (ls1 ++ [] :: ls2)) as Hwire.
  rewrite encode_name_dotted by (done || lia). cbv zeta.
  rewrite bool_decide_false by lia. unfold MAX_LABEL_TOTAL. if_false.
  do 2 eexists. split; [done |]. rewrite Nat2Z.id.
  set (n := length (wire_name _)). rewrite app_comm_cons, wire_name_cut, <- app_assoc. apply decode_wire_name; [done |].
  pose proof (dotted_labels l (ls1 ++ [] :: ls2)) as H. rewrite length_app in H. cbn [length] in *. lia.
Qed.

(** C7. The length check of [encode_name] comes too late: a first label of
    64 or more characters writes past the 63-byte array [seg] before the
    [-1] that the check is there to return. *)
Theorem encode_name_long_label l rest seg0 buf n :
  label_chars l -> (64 <= length l)%nat -> length seg0 = 63%nat ->
  strlen (l ++ rest) = Ok n -> Z.of_nat (length l) <= n < 65535 ->
  encode_name seg0 (l ++ rest) buf = Fault (OutOfBounds 63).
Proof.
  intros Hl Hlen Hseg Hn Hle. unfold encode_name. rewrite Hn, res_bind_Ok.
  replace (Z.to_nat (n + 2)) with (64 + (Z.to_nat (n + 2) - 64))%nat by lia.
  pose proof (encode_long l (Z.to_nat (n + 2) - 64) n [] rest seg0 buf 0 Hl Hlen Hn) as Hrun.
  cbn [app length] in Hrun. change (Z.of_nat 0) with 0 in Hrun.
  rewrite Hrun by lia. done.
Qed.

Lemma encode_name_long_label_witness :
  encode_name (replicate 63 0) (replicate 64 97 ++ [0]) (replicate 512 0) = Fault (OutOfBounds 63).
Proof.
  apply (encode_name_long_label (replicate 64 97) [0] _ _ 64).
  - apply Forall_replicate. unfold dot. lia.
  - rewrite length_replicate. lia.
  - reflexivity.
  - reflexivity.
  - rewrite length_replicate. lia.
Defined.
