(* ===== verification/DnsResponse.v ===== *)
(** * DnsResponse

    The response side of 04-dns_query/main.c: [print_header], [skip_name],
    [parse_response], and [main], which sends a query and parses the answer.
    Positions in a datagram are [int]s in the code and unbounded here: a
    datagram has at most 65535 bytes, and one answer moves a position past
    the end of the buffer by less than 66000, so none can overflow. *)

From stdpp Require Import pretty.
From S2P Require Import Prelude Dns.

(** ** print_header *)

(** What [print_header] prints: every value, and the text beside it. *)
Record header_report := mkReport {
  r_id : Z; r_flags : Z;
  r_qr : Z * string; r_opcode : Z * string;
  r_aa : Z; r_tc : Z; r_rd : Z; r_ra : Z; r_z : Z; r_rcode : Z * string;
  r_qdcount : Z; r_ancount : Z; r_nscount : Z; r_arcount : Z
}.

Definition print_header (header : dns_header_t) : header_report :=
  let f := flags header in
  let qr := u8 (Z.land (Z.shiftr f 15) 0x1) in
  let opcode := u8 (Z.land (Z.shiftr f 11) 0xF) in
  let aa := u8 (Z.land (Z.shiftr f 10) 0x1) in
  let tc := u8 (Z.land (Z.shiftr f 9) 0x1) in
  let rd := u8 (Z.land (Z.shiftr f 8) 0x1) in
  let ra := u8 (Z.land (Z.shiftr f 7) 0x1) in
  let z := u8 (Z.land (Z.shiftr f 4) 0x7) in
  let rcode := u8 (Z.land (Z.shiftr f 0) 0xF) in
  {| r_id := id header; r_flags := f;
     r_qr := (qr, if negb (qr =? 0) then "response"%string else "query"%string);
     r_opcode := (opcode, if opcode =? 0 then "standard query"%string else "other"%string);
     r_aa := aa; r_tc := tc; r_rd := rd; r_ra := ra; r_z := z;
     r_rcode := (rcode, if rcode =? 0 then "no error"%string
                        else if rcode =? 3 then "NXDOMAIN"%string else "other"%string);
     r_qdcount := qdcount header; r_ancount := ancount header;
     r_nscount := nscount header; r_arcount := arcount header |}.

(** ** skip_name *)

(** The result is the return value and the new [*pos].  Every iteration
    moves [pos] forward, so [len - pos + 1] rounds are enough. *)
Fixpoint skip_name_loop (fuel : nat) (buf : list Z) (len pos : Z) : res (Z * Z) :=
  match fuel with
  | O => Fault OutOfFuel
  | S fuel' =>
      if pos <? len then
        label_len ← rd buf pos;
        if label_len =? 0 then Ok (0, pos + 1)
        else if Z.land label_len 0xC0 =? 0xC0 then Ok (0, pos + 2)
        else skip_name_loop fuel' buf len (pos + (1 + label_len))
      else Ok (-1, pos)
  end.

Definition skip_name (buf : list Z) (len pos : Z) : res (Z * Z) :=
  skip_name_loop (S (Z.to_nat (len - pos))) buf len pos.

(** ** parse_response *)

(** The lines of output. *)
Inductive line :=
| Recv_bytes (len : Z)
| No_header
| Header_recv (r : header_report)
| Id_mismatch
| Skip_error
| Skip_error_an (an : Z)
| A_record (addr_str : string) (ttl class : Z).

(** [(uint16_t)buf[pos] << 8 | (uint16_t)buf[pos+1]] *)
Definition rd16 (buf : list Z) (pos : Z) : res Z :=
  b0 ← rd buf pos; b1 ← rd buf (pos + 1);
  Ok (u16 (Z.lor (Z.shiftl b0 8) b1)).

Definition rd32 (buf : list Z) (pos : Z) : res Z :=
  b0 ← rd buf pos; b1 ← rd buf (pos + 1); b2 ← rd buf (pos + 2); b3 ← rd buf (pos + 3);
  Ok (u32 (Z.lor (Z.lor (Z.lor (Z.shiftl b0 24) (Z.shiftl b1 16)) (Z.shiftl b2 8)) b3)).

(** [inet_ntop(AF_INET, ...)]: dotted decimal. *)
Definition inet_ntop (a b c d : Z) : string :=
  pretty a +:+ "." +:+ pretty b +:+ "." +:+ pretty c +:+ "." +:+ pretty d.

(** The test and the line printed for one answer. *)
Definition print_answer (buf : list Z) (pos type class ttl rdlen : Z) : M (list line) () :=
  if (type =? DNS_TYPE_A) && (rdlen =? 4) then
    b0 ← lift (rd buf pos); b1 ← lift (rd buf (pos + 1));
    b2 ← lift (rd buf (pos + 2)); b3 ← lift (rd buf (pos + 3));
    tell (A_record (inet_ntop b0 b1 b2 b3) ttl class)
  else mret ().

(** The loop over the answers, [n] of them left. *)
Fixpoint parse_answers (n : nat) (an : Z) (buf : list Z) (len pos : Z) : M (list line) () :=
  match n with
  | O => mret ()
  | S n' =>
      '(r, pos) ← lift (skip_name buf len pos);
      if -1 =? r then tell (Skip_error_an an)
      else
        type ← lift (rd16 buf pos);
        let pos := pos + 2 in
        class ← lift (rd16 buf pos);
        let pos := pos + 2 in
        ttl ← lift (rd32 buf pos);
        let pos := pos + 4 in
        rdlen ← lift (rd16 buf pos);
        let pos := pos + 2 in
        _ ← print_answer buf pos type class ttl rdlen;
        parse_answers n' (u16 (an + 1)) buf len (pos + rdlen)
  end.

Definition parse_response (buf : list Z) (len expected_id : Z) : M (list line) () :=
  _ ← tell (Recv_bytes len);
  if len <? 12 then tell No_header
  else
    i ← lift (rd16 buf 0); f ← lift (rd16 buf 2); qd ← lift (rd16 buf 4);
    an ← lift (rd16 buf 6); ns ← lift (rd16 buf 8); ar ← lift (rd16 buf 10);
    let header := {| id := i; flags := f; qdcount := qd;
                     ancount := an; nscount := ns; arcount := ar |} in
    _ ← tell (Header_recv (print_header header));
    if negb (expected_id =? id header) then tell Id_mismatch
    else
      '(r, pos) ← lift (skip_name buf len 12);
      if -1 =? r then tell Skip_error
      else parse_answers (Z.to_nat (ancount header)) 0 buf len (pos + 4).

(** ** main *)

Inductive sys :=
| Usage
| Print_id (id : Z)
| Socket
| Set_timeout (sock sec : Z)
| Sendto (sock : Z) (port : Z) (addr : string) (len : Z) (data : list Z)
| Recvfrom (sock size : Z)
| Close (fd : Z)
| Perror (what : string)
| Print (l : line).

(** What the system answers: the pid, the socket, and the datagram that
    comes back for the datagram sent, if any. *)
Record network := {
  getpid : Z;
  socket : Z;
  exchange : list Z -> option (list Z)
}.

Section host.
Context {Host : ByteOrder}.

(** The uninitialised arrays are arguments.  [sendto] takes [pkt_len] as a
    [size_t], and finds at most the object's bytes there; [recvfrom] copies at most 512 bytes of the datagram. *)
Definition main (net : network) (seg0 enc0 pkt resp : list Z) (argv : list (list Z))
    : res (Z * list sys) :=
  match argv with
  | [_; domain] =>
      let id := u16 (getpid net) in
      '(pkt_len, pkt) ← build_query seg0 enc0 domain pkt id;
      let sock := socket net in
      if sock <? 0 then Ok (1, [Print_id id; Socket; Perror "socket"%string])
      else
        let size := u64 pkt_len in
        let data := take (Z.to_nat (Z.min size (Z.of_nat (length pkt)))) pkt in
        let log := [Print_id id; Socket; Set_timeout sock 5;
                    Sendto sock 53 "8.8.8.8"%string size data; Recvfrom sock 512; Close sock] in
        match exchange net data with
        | None => Ok (1, log ++ [Perror "recvfrom"%string])
        | Some dgram =>
            let got := take 512 dgram in
            let resp := got ++ drop (length got) resp in
            '((), out) ← parse_response resp (Z.of_nat (length got)) id [];
            Ok (0, log ++ (Print <$> out))
        end
  | _ => Ok (1, [Usage])
  end.

End host.

Example parse_example :
  match parse_response
    ([0; 7; 0x81; 0x80; 0; 1; 0; 1; 0; 0; 0; 0] ++ wire_name [chars "a"] ++ [0; 1; 0; 1]
     ++ [0xC0; 12; 0; 1; 0; 1; 0; 0; 1; 0; 0; 4; 93; 184; 216; 34]) 35 7 []
  with Ok (_, out) => out !! 2%nat | Fault _ => None end
  = Some (A_record "93.184.216.34" 256 1).
Proof. vm_compute. reflexivity. Qed.

(** ** Messages and their wire format *)

(** A name ends in the root label or in a compression pointer. *)
Inductive name_end := Root | Pointer (hi lo : Z).

Definition wire_end (e : name_end) : list Z :=
  match e with Root => [0] | Pointer hi lo => [hi; lo] end.

Record rname := mkName { name_labels : list label; name_end_of : name_end }.

Definition wire_rname (nm : rname) : list Z :=
  wire_labels (name_labels nm) ++ wire_end (name_end_of nm).

Definition rname_ok (nm : rname) : Prop :=
  Forall label_ok (name_labels nm) /\
  match name_end_of nm with Root => True | Pointer hi lo => 192 <= hi < 256 /\ is_byte lo end.

(** A resource record (RFC 1035 4.1.3). *)
Record rr := mkRR {
  rr_name : rname; rr_type : Z; rr_class : Z; rr_ttl : Z; rr_data : list Z
}.

Definition wire_rr (r : rr) : list Z :=
  wire_rname (rr_name r) ++ be_put 2 (rr_type r) ++ be_put 2 (rr_class r) ++
  be_put 4 (rr_ttl r) ++ be_put 2 (Z.of_nat (length (rr_data r))) ++ rr_data r.

Definition rr_ok (r : rr) : Prop :=
  rname_ok (rr_name r) /\ is_u 16 (rr_type r) /\ is_u 16 (rr_class r) /\
  is_u 32 (rr_ttl r) /\ is_u 16 (Z.of_nat (length (rr_data r))).

(** What an answer should print: one line when it is an IPv4 address. *)
Definition rr_lines (r : rr) : list line :=
  match rr_data r with
  | [a; b; c; d] =>
      if rr_type r =? DNS_TYPE_A then [A_record (inet_ntop a b c d) (rr_ttl r) (rr_class r)] else []
  | _ => []
  end.

Definition wire_header (h : dns_header_t) : list Z :=
  be_put 2 (id h) ++ be_put 2 (flags h) ++ be_put 2 (qdcount h) ++
  be_put 2 (ancount h) ++ be_put 2 (nscount h) ++ be_put 2 (arcount h).

Definition header_ok (h : dns_header_t) : Prop :=
  is_u 16 (id h) /\ is_u 16 (flags h) /\ is_u 16 (qdcount h) /\
  is_u 16 (ancount h) /\ is_u 16 (nscount h) /\ is_u 16 (arcount h).

(** Header, question (name, type and class: 4 bytes) and answers. *)
Definition wire_message (h : dns_header_t) (qname : rname) (q4 : list Z) (rrs : list rr) : list Z :=
  wire_header h ++ wire_rname qname ++ q4 ++ concat (wire_rr <$> rrs).

(** ** Lemmas on skip_name *)

Lemma pointer_mask c : is_byte c -> (Z.land c 0xC0 =? 0xC0) = (192 <=? c).
Proof.
  intros Hc. apply eqb_prop.
  apply (byte_exhaust (fun c => Bool.eqb (Z.land c 0xC0 =? 0xC0) (192 <=? c))); [| done].
  vm_compute. reflexivity.
Qed.

Lemma skip_name_loop_wire ls e : forall fuel buf len pos,
  rname_ok (mkName ls e) -> stored buf pos (wire_rname (mkName ls e)) ->
  pos + Z.of_nat (length (wire_rname (mkName ls e))) <= len -> (length ls < fuel)%nat ->
  skip_name_loop fuel buf len pos = Ok (0, pos + Z.of_nat (length (wire_rname (mkName ls e)))).
Proof.
  unfold rname_ok, wire_rname. cbn [name_labels name_end_of].
  induction ls as [| l ls IH]; intros [| fuel] buf len pos [Hls He] Hst Hlen Hfuel; try (cbn in Hfuel; lia).
  - change (wire_labels []) with (@nil Z) in *. cbn [app skip_name_loop] in *.
    destruct e as [| hi lo]; cbn [wire_end length] in *.
    + apply rd_stored_head in Hst as ->. if_true. rewrite res_bind_Ok. by if_true.
    + apply rd_stored_head in Hst as ->. if_true. rewrite res_bind_Ok. if_false.
      rewrite pointer_mask by (unfold is_byte; lia). by if_true.
  - inversion Hls as [| ? ? [[_ H63] Hne] Hls']; subst. cbn in Hfuel.
    assert (length l <> 0%nat) by (by destruct l).
    rewrite wire_labels_cons in *. cbn [app] in *. rewrite <- app_assoc in *.
    apply rd_stored_head in Hst as Hrd. apply stored_cons in Hst as [_ Hst].
    apply stored_app in Hst as [_ Hst].
    cbn [length] in *. rewrite !length_app in *.
    cbn [skip_name_loop]. if_true. rewrite Hrd, res_bind_Ok. if_false.
    rewrite pointer_mask by (unfold is_byte; lia). if_false.
    replace (pos + (1 + Z.of_nat (length l))) with (pos + 1 + Z.of_nat (length l)) by lia.
    rewrite IH; [do 2 f_equal; lia | done | done | lia | lia].
Qed.

Lemma wire_labels_fuel ls : (length ls <= length (wire_labels ls))%nat.
Proof.
  induction ls as [| l ls IH]; [done |]. rewrite wire_labels_cons, length_app. cbn. lia.
Qed.

Lemma skip_name_wire buf len pos nm :
  rname_ok nm -> stored buf pos (wire_rname nm) ->
  pos + Z.of_nat (length (wire_rname nm)) <= len ->
  skip_name buf len pos = Ok (0, pos + Z.of_nat (length (wire_rname nm))).
Proof.
  destruct nm as [ls e]. intros Hok Hst Hlen. apply skip_name_loop_wire; try done.
  pose proof (wire_labels_fuel ls). unfold wire_rname in Hlen.
  cbn [name_labels name_end_of] in Hlen. rewrite length_app in Hlen. apply stored_nonneg in Hst. lia.
Qed.

(** ** Lemmas on parse_response *)

Lemma rd16_stored buf pos z : is_u 16 z -> stored buf pos (be_put 2 z) -> rd16 buf pos = Ok z.
Proof.
  intros Hz Hst. destruct (be16_put z Hz) as (hi & lo & Heq & Hhi & Hlo & <-).
  rewrite Heq in Hst. apply stored_cons in Hst as [H0%rd_stored H1%rd_stored].
  unfold rd16. rewrite H0, res_bind_Ok, H1, res_bind_Ok, be16_value by done. done.
Qed.

Lemma rd32_stored buf pos z : is_u 32 z -> stored buf pos (be_put 4 z) -> rd32 buf pos = Ok z.
Proof.
  intros Hz Hst. destruct (be32_put z Hz) as (b0 & b1 & b2 & b3 & Heq & H0 & H1 & H2 & H3 & <-).
  rewrite Heq in Hst. apply stored_cons in Hst as [Hr0%rd_stored Hst].
  apply stored_cons in Hst as [Hr1%rd_stored Hst]. apply stored_cons in Hst as [Hr2%rd_stored Hr3%rd_stored].
  replace (pos + 1 + 1) with (pos + 2) in * by lia. replace (pos + 2 + 1) with (pos + 3) in * by lia.
  unfold rd32. rewrite Hr0, res_bind_Ok, Hr1, res_bind_Ok, Hr2, res_bind_Ok, Hr3, res_bind_Ok.
  by rewrite be32_value.
Qed.

Lemma lift_skip_name_wire {A} (f : Z * Z -> M (list line) A) buf len pos nm out :
  rname_ok nm -> stored buf pos (wire_rname nm) ->
  pos + Z.of_nat (length (wire_rname nm)) <= len ->
  (lift (skip_name buf len pos) ≫= f) out = f (0, pos + Z.of_nat (length (wire_rname nm))) out.
Proof. intros. apply lift_bind_Ok. by apply skip_name_wire. Qed.

Lemma wire_rr_length r : length (wire_rr r) = (length (wire_rname (rr_name r)) + 10 + length (rr_data r))%nat.
Proof. unfold wire_rr. rewrite !length_app, !be_put_length. lia. Qed.

Lemma print_answer_stored buf pos r out :
  stored buf pos (rr_data r) ->
  print_answer buf pos (rr_type r) (rr_class r) (rr_ttl r) (Z.of_nat (length (rr_data r))) out =
  Ok ((), out ++ rr_lines r).
Proof.
  intros Hst. unfold print_answer, rr_lines.
  destruct (rr_data r) as [| a [| b [| c [| d [| e data]]]]]; cbn [length];
    [ rewrite andb_false_r, app_nil_r; done .. | |].
  - rewrite andb_true_r. case_if; [| by rewrite app_nil_r].
    apply stored_cons in Hst as [H0%rd_stored Hst]. apply stored_cons in Hst as [H1%rd_stored Hst].
    apply stored_cons in Hst as [H2%rd_stored H3%rd_stored].
    replace (pos + 1 + 1) with (pos + 2) in * by lia. replace (pos + 2 + 1) with (pos + 3) in * by lia.
    by rewrite (lift_bind_Ok _ _ _ _ H0), (lift_bind_Ok _ _ _ _ H1),
      (lift_bind_Ok _ _ _ _ H2), (lift_bind_Ok _ _ _ _ H3).
  - if_false. by rewrite app_nil_r.
Qed.

(** One round of the loop over the answers. *)
Lemma parse_answers_step n an buf len pos r out :
  rr_ok r -> stored buf pos (wire_rr r) -> pos + Z.of_nat (length (wire_rr r)) <= len ->
  parse_answers (S n) an buf len pos out =
  parse_answers n (u16 (an + 1)) buf len (pos + Z.of_nat (length (wire_rr r))) (out ++ rr_lines r).
Proof.
  intros (Hnm & Hty & Hcl & Httl & Hdl) Hst Hlen. rewrite wire_rr_length in *. unfold wire_rr in Hst.
  set (nl := length (wire_rname (rr_name r))) in *.
  apply stored_app in Hst as [Hst0 Hst]. apply stored_app in Hst as [Hst1 Hst].
  apply stored_app in Hst as [Hst2 Hst]. apply stored_app in Hst as [Hst3 Hst].
  apply stored_app in Hst as [Hst4 Hst]. rewrite !be_put_length in *. fold nl in Hst1, Hst2, Hst3, Hst4, Hst.
  change (Z.of_nat 2) with 2 in *. change (Z.of_nat 4) with 4 in *.
  cbn [parse_answers].
  rewrite (lift_skip_name_wire _ _ _ _ (rr_name r)) by (done || lia). fold nl. if_false.
  rewrite (lift_bind_Ok _ _ _ _ (rd16_stored _ _ _ Hty Hst1)). cbv beta zeta.
  rewrite (lift_bind_Ok _ _ _ _ (rd16_stored _ _ _ Hcl Hst2)). cbv beta zeta.
  rewrite (lift_bind_Ok _ _ _ _ (rd32_stored _ _ _ Httl Hst3)). cbv beta zeta.
  rewrite (lift_bind_Ok _ _ _ _ (rd16_stored _ _ _ Hdl Hst4)). cbv beta zeta.
  replace (pos + Z.of_nat nl + 2 + 2 + 4 + 2) with (pos + Z.of_nat nl + 10) in * by lia.
  erewrite M_bind_Ok by (apply (print_answer_stored _ _ r); eapply stored_eq; [exact Hst | lia]).
  cbv beta. f_equal. lia.
Qed.

Lemma parse_answers_wire rrs : forall an buf len pos out,
  Forall rr_ok rrs -> stored buf pos (concat (wire_rr <$> rrs)) ->
  pos + Z.of_nat (length (concat (wire_rr <$> rrs))) <= len ->
  parse_answers (length rrs) an buf len pos out = Ok ((), out ++ concat (rr_lines <$> rrs)).
Proof.
  induction rrs as [| r rrs IH]; intros an buf len pos out Hok Hst Hlen.
  - cbn. by rewrite app_nil_r.
  - inversion Hok as [| ? ? Hr Hrrs]; subst. rewrite !fmap_cons, !concat_cons in *.
    rewrite length_app in Hlen. apply stored_app in Hst as [Hst1 Hst2].
    cbn [length]. rewrite (parse_answers_step _ _ _ _ _ r) by (done || lia).
    rewrite IH by (done || lia). by rewrite <- app_assoc.
Qed.

Lemma wire_header_length h : length (wire_header h) = 12%nat.
Proof. unfold wire_header. by autorewrite with len. Qed.

(** What is left of [parse_response] once the header is read. *)
Definition after_header (h : dns_header_t) (buf : list Z) (len expected_id : Z) : M (list line) () :=
  if negb (expected_id =? id h) then tell Id_mismatch
  else
    '(r, pos) ← lift (skip_name buf len 12);
    if -1 =? r then tell Skip_error
    else parse_answers (Z.to_nat (ancount h)) 0 buf len (pos + 4).

Lemma parse_response_header h buf len eid out :
  header_ok h -> stored buf 0 (wire_header h) -> 12 <= len ->
  parse_response buf len eid out =
  after_header h buf len eid (out ++ [Recv_bytes len; Header_recv (print_header h)]).
Proof.
  intros (Hid & Hfl & Hqd & Han & Hns & Har) Hst Hlen. unfold wire_header in Hst.
  apply stored_app in Hst as [H0 Hst]. apply stored_app in Hst as [H1 Hst].
  apply stored_app in Hst as [H2 Hst]. apply stored_app in Hst as [H3 Hst].
  apply stored_app in Hst as [H4 H5]. rewrite !be_put_length in *.
  change (Z.of_nat 2) with 2 in *. cbn [Z.add Pos.add Pos.succ] in *.
  unfold parse_response. rewrite (M_bind_Ok _ _ _ () (out ++ [Recv_bytes len])) by done.
  cbv beta. if_false.
  rewrite (lift_bind_Ok _ _ _ _ (rd16_stored _ _ _ Hid H0)). cbv beta.
  rewrite (lift_bind_Ok _ _ _ _ (rd16_stored _ _ _ Hfl H1)). cbv beta.
  rewrite (lift_bind_Ok _ _ _ _ (rd16_stored _ _ _ Hqd H2)). cbv beta.
  rewrite (lift_bind_Ok _ _ _ _ (rd16_stored _ _ _ Han H3)). cbv beta.
  rewrite (lift_bind_Ok _ _ _ _ (rd16_stored _ _ _ Hns H4)). cbv beta.
  rewrite (lift_bind_Ok _ _ _ _ (rd16_stored _ _ _ Har H5)). cbv beta zeta.
  destruct h as [i f qd an ns ar]. cbn [id flags qdcount ancount nscount arcount].
  erewrite M_bind_Ok by done. rewrite <- app_assoc. done.
Qed.

(** The question and the answers after the header. *)
Lemma after_header_wire h qname q4 rrs buf len out :
  rname_ok qname -> length q4 = 4%nat -> Forall rr_ok rrs ->
  ancount h = Z.of_nat (length rrs) ->
  stored buf 0 (wire_message h qname q4 rrs) ->
  Z.of_nat (length (wire_message h qname q4 rrs)) <= len ->
  after_header h buf len (id h) out = Ok ((), out ++ concat (rr_lines <$> rrs)).
Proof.
  intros Hq H4 Hrrs Han Hst Hlen. unfold wire_message in *.
  rewrite !length_app, wire_header_length, H4 in Hlen.
  apply stored_app in Hst as [_ Hst]. apply stored_app in Hst as [Hst1 Hst].
  apply stored_app in Hst as [_ Hst]. rewrite wire_header_length, H4 in *.
  change (0 + Z.of_nat 12) with 12 in *.
  unfold after_header. rewrite Z.eqb_refl. cbn [negb].
  rewrite (lift_skip_name_wire _ _ _ _ qname) by (done || lia). if_false.
  rewrite Han, Nat2Z.id. apply parse_answers_wire; [done | done | lia].
Qed.

Definition skip_name_result (len pos r pos' : Z) : Prop :=
  r = 0 /\ pos < pos' <= len + 1 \/
  r = -1 /\ len <= pos' /\ pos <= pos' <= Z.max pos (len + 191).

Lemma skip_name_loop_safe fuel buf len : forall pos,
  Forall is_byte buf -> 0 <= pos -> len <= Z.of_nat (length buf) ->
  (0 < fuel)%nat -> len - pos < Z.of_nat fuel ->
  exists r pos', skip_name_loop fuel buf len pos = Ok (r, pos') /\
    skip_name_result len pos r pos'.
Proof.
  unfold skip_name_result. induction fuel as [| fuel IH]; intros pos Hb Hpos Hlen H0 Hfuel; [lia |].
  cbn [skip_name_loop]. case_if; [| eexists _, _; split; [done | lia]].
  destruct (rd_Ok buf pos) as [c Hc]; [lia |]. rewrite Hc, res_bind_Ok.
  assert (is_byte c) as Hbyte.
  { apply rd_lookup in Hc as [_ Hc]. by eapply Forall_lookup_1 in Hc. }
  case_if; [eexists _, _; split; [done | lia] |].
  rewrite pointer_mask by done. case_if; [eexists _, _; split; [done | lia] |].
  unfold is_byte in Hbyte.
  destruct (IH (pos + (1 + c))) as (r & pos' & Hrun & Hres); [done | lia.. |].
  eexists _, _. split; [exact Hrun | lia].
Qed.

(** The answer loop over a message that stops right after the name of an
    answer reads the type of that answer past the end of the buffer. *)
Lemma parse_answers_truncated n an buf len pos nm out :
  rname_ok nm -> stored buf pos (wire_rname nm) ->
  pos + Z.of_nat (length (wire_rname nm)) = len -> len = Z.of_nat (length buf) ->
  parse_answers (S n) an buf len pos out = Fault (OutOfBounds len).
Proof.
  intros Hnm Hst Hlen Hbuf. cbn [parse_answers].
  rewrite (lift_skip_name_wire _ _ _ _ nm) by (done || lia). if_false. rewrite Hlen.
  apply lift_bind_Fault. unfold rd16. by rewrite (rd_oob buf len) by lia.
Qed.

(** ** Properties *)

(** C5. [skip_name] terminates and stays inside the buffer whatever bytes it
    holds: it succeeds having moved forward to at most one byte past [len]
    (a pointer cut by the end), or fails at or past [len]. *)
Theorem skip_name_safe buf len pos :
  Forall is_byte buf -> 0 <= pos -> len <= Z.of_nat (length buf) ->
  exists r pos', skip_name buf len pos = Ok (r, pos') /\
    (r = 0 /\ pos < pos' <= len + 1 \/
     r = -1 /\ len <= pos' /\ pos <= pos' <= Z.max pos (len + 191)).
Proof. intros Hb Hpos Hlen. apply skip_name_loop_safe; done || lia. Qed.

Lemma skip_name_safe_witness :
  exists r pos', skip_name [191; 7; 192] 3 2 = Ok (r, pos') /\
    (r = 0 /\ 2 < pos' <= 3 + 1 \/ r = -1 /\ 3 <= pos' /\ 2 <= pos' <= Z.max 2 (3 + 191)).
Proof.
  apply (skip_name_safe [191; 7; 192] 3 2); [| ground | ground].
  repeat constructor; unfold is_byte; lia.
Defined.

(** C1. [parse_response] on a datagram that holds a well-formed response
    (header, question, answers, then anything): it reports every header
    field and, when the id is the expected one, prints exactly the IPv4
    address records among the answers, in order, each with its address, TTL
    and class; for another id it stops after the header.  Datagrams of less
    than 12 bytes are refused. *)
Theorem parse_response_correct h qname q4 rrs rest len eid :
  header_ok h -> rname_ok qname -> length q4 = 4%nat -> Forall rr_ok rrs ->
  ancount h = Z.of_nat (length rrs) ->
  let msg := wire_message h qname q4 rrs in
  len < 12 \/ Z.of_nat (length msg) <= len ->
  parse_response (msg ++ rest) len eid [] =
  if len <? 12 then Ok ((), [Recv_bytes len; No_header])
  else if eid =? id h
  then Ok ((), [Recv_bytes len; Header_recv (print_header h)] ++ concat (rr_lines <$> rrs))
  else Ok ((), [Recv_bytes len; Header_recv (print_header h); Id_mismatch]).
Proof.
  intros Hh Hq H4 Hrrs Han msg Hlen.
  assert (Hst : stored (msg ++ rest) 0 msg) by (by exists [], rest).
  destruct (Z.ltb_spec len 12) as [Hlt | Hge].
  { unfold parse_response. erewrite M_bind_Ok by done. by if_true. }
  assert (Hsth : stored (msg ++ rest) 0 (wire_header h))
    by (exact (proj1 (proj1 (stored_app _ _ _ _) Hst))).
  rewrite (parse_response_header h) by done.
  destruct (Z.eqb_spec eid (id h)) as [-> | Hne].
  - by rewrite (after_header_wire h qname q4 rrs) by (done || (fold msg; lia)).
  - unfold after_header. by if_true.
Qed.

Lemma parse_response_correct_witness :
  parse_response (wire_message (mkHeader 7 0x8180 1 2 0 0) (mkName [chars "a"] Root) [0; 1; 0; 1]
      [mkRR (mkName [] (Pointer 0xC0 12)) 5 1 60 [1; 98; 0];
       mkRR (mkName [chars "b"] Root) 1 1 256 [93; 184; 216; 34]] ++ [1; 2; 3]) 52 7 [] =
  Ok ((), [Recv_bytes 52; Header_recv (print_header (mkHeader 7 0x8180 1 2 0 0));
           A_record "93.184.216.34" 256 1]).
Proof.
  apply (parse_response_correct (mkHeader 7 0x8180 1 2 0 0) (mkName [chars "a"] Root) [0; 1; 0; 1]
      [mkRR (mkName [] (Pointer 0xC0 12)) 5 1 60 [1; 98; 0];
       mkRR (mkName [chars "b"] Root) 1 1 256 [93; 184; 216; 34]] [1; 2; 3] 52 7).
  - ground.
  - repeat constructor; cbn; unfold dot; (lia || done).
  - reflexivity.
  - repeat constructor; cbn; unfold dot; (ground || lia || done).
  - reflexivity.
  - right. ground.
Defined.

(** C6. The answer loop reads without looking at [len]: on a response that
    ends right after the name of its first answer, [parse_response] reads
    past the end of what was received, here past the end of the buffer. *)
Theorem parse_response_overread h qname q4 nm :
  header_ok h -> rname_ok qname -> length q4 = 4%nat -> rname_ok nm -> 0 < ancount h ->
  let buf := wire_header h ++ wire_rname qname ++ q4 ++ wire_rname nm in
  let len := Z.of_nat (length buf) in
  parse_response buf len (id h) [] = Fault (OutOfBounds len).
Proof.
  intros Hh Hq H4 Hnm Han buf len.
  assert (Hst : stored buf 0 buf) by (exists [], []; by rewrite app_nil_r).
  unfold buf in Hst at 2.
  apply stored_app in Hst as [Hst0 Hst]. apply stored_app in Hst as [Hst1 Hst].
  apply stored_app in Hst as [_ Hst2]. rewrite wire_header_length, H4 in *.
  assert (Hlen : len = 12 + Z.of_nat (length (wire_rname qname)) + 4 + Z.of_nat (length (wire_rname nm)))
    by (unfold len, buf; rewrite !length_app, wire_header_length, H4; lia).
  rewrite (parse_response_header h) by (done || lia).
  unfold after_header. rewrite Z.eqb_refl. cbn [negb].
  rewrite (lift_skip_name_wire _ _ _ _ qname) by (done || lia). if_false.
  destruct (Z.to_nat (ancount h)) as [| n] eqn:Hn; [lia |].
  rewrite (parse_answers_truncated _ _ _ _ _ nm); [done | done | exact Hst2 | lia | done].
Qed.

Lemma parse_response_overread_witness :
  parse_response ([0; 7; 0x81; 0x80; 0; 1; 0; 1; 0; 0; 0; 0] ++ [1; 97; 0] ++ [0; 1; 0; 1] ++ [0xC0; 12])
    21 7 [] = Fault (OutOfBounds 21).
Proof.
  apply (parse_response_overread (mkHeader 7 0x8180 1 1 0 0) (mkName [[97]] Root) [0; 1; 0; 1]
           (mkName [] (Pointer 0xC0 12))).
  - ground.
  - repeat constructor; cbn; unfold dot; (lia || done).
  - reflexivity.
  - repeat constructor; cbn; (ground || lia || done).
  - ground.
Defined.

(** The bit fields [print_header] prints are those of the header's
    flags word: each in its range, and together the word itself. *)
Theorem print_header_fields h : is_u 16 (flags h) ->
  let r := print_header h in
  flags h = (r_qr r).1 * 2 ^ 15 + (r_opcode r).1 * 2 ^ 11 + r_aa r * 2 ^ 10 + r_tc r * 2 ^ 9
            + r_rd r * 2 ^ 8 + r_ra r * 2 ^ 7 + r_z r * 2 ^ 4 + (r_rcode r).1 /\
  is_u 1 (r_qr r).1 /\ is_u 4 (r_opcode r).1 /\ is_u 1 (r_aa r) /\ is_u 1 (r_tc r) /\
  is_u 1 (r_rd r) /\ is_u 1 (r_ra r) /\ is_u 3 (r_z r) /\ is_u 4 (r_rcode r).1.
Proof.
  intros Hf r.
  assert (Hfield : forall i m, 0 <= i -> 0 <= m <= 8 ->
    u8 (Z.land (Z.shiftr (flags h) i) (Z.ones m)) = flags h / 2 ^ i mod 2 ^ m).
  { intros i m Hi Hm. rewrite Z.land_ones, Z.shiftr_div_pow2 by lia. apply wrap_small.
    pose proof (Z.mod_pos_bound (flags h / 2 ^ i) (2 ^ m)).
    pose proof (Z.pow_le_mono_r 2 m 8). lia. }
  unfold r, print_header. cbn [r_qr r_opcode r_aa r_tc r_rd r_ra r_z r_rcode fst].
  pose proof (Hfield 15 1) as H15. pose proof (Hfield 11 4) as H11.
  pose proof (Hfield 10 1) as H10. pose proof (Hfield 9 1) as H9.
  pose proof (Hfield 8 1) as H8. pose proof (Hfield 7 1) as H7.
  pose proof (Hfield 4 3) as H4. pose proof (Hfield 0 4) as H0. clear Hfield.
  change (Z.ones 1) with 1 in *. change (Z.ones 4) with 15 in *. change (Z.ones 3) with 7 in *.
  rewrite H15, H11, H10, H9, H8, H7, H4, H0 by lia. unfold is_u in *.
  clear H15 H11 H10 H9 H8 H7 H4 H0. div_lia.
Qed.

Lemma print_header_fields_witness :
  let r := print_header (mkHeader 1 0x8583 1 0 0 0) in
  is_u 1 (r_qr r).1 /\ r_rcode r = (3, "NXDOMAIN"%string) /\ r_qr r = (1, "response"%string).
Proof.
  pose proof (print_header_fields (mkHeader 1 0x8583 1 0 0 0)) as H.
  split; [apply H; ground | split; reflexivity].
Defined.

(** C2. End to end: on a host of either byte order, [main] for a name of at
    most 253 characters whose labels have 1 to 63 characters sends one 512-byte-bounded datagram that is the RFC 1035 query for the
    name under the process id, closes the socket, and, when the reply is a
    well-formed response with that id, prints its IPv4 addresses in order
    and exits 0. *)
Theorem main_prints_answers {Host : ByteOrder} net seg0 enc0 pkt resp prog l ls r
    h qname q4 rrs :
  label_ok l -> Forall label_ok ls -> (length (wire_name (l :: ls)) <= 255)%nat ->
  length seg0 = 63%nat -> length enc0 = 512%nat -> length pkt = 512%nat -> length resp = 512%nat ->
  0 <= socket net ->
  header_ok h -> rname_ok qname -> length q4 = 4%nat -> Forall rr_ok rrs ->
  ancount h = Z.of_nat (length rrs) -> id h = u16 (getpid net) ->
  let query := query_wire (u16 (getpid net)) (l :: ls) in
  let msg := wire_message h qname q4 rrs in
  (length msg <= 512)%nat -> exchange net query = Some msg ->
  main net seg0 enc0 pkt resp [prog; dotted l ls ++ 0 :: r] =
  Ok (0, [Print_id (id h); Socket; Set_timeout (socket net) 5;
          Sendto (socket net) 53 "8.8.8.8"%string (Z.of_nat (length query)) query;
          Recvfrom (socket net) 512; Close (socket net);
          Print (Recv_bytes (Z.of_nat (length msg))); Print (Header_recv (print_header h))]
         ++ (Print <$> concat (rr_lines <$> rrs))).
Proof.
  intros Hl Hls Hn Hseg Henc Hpkt Hresp Hsock Hh Hq H4 Hrrs Han Hid query msg Hmsg Hex.
  pose proof (query_wire_length (u16 (getpid net)) (l :: ls)) as Hql. fold query in Hql.
  assert (Hu : is_u 16 (u16 (getpid net))) by (apply wrap_range; lia).
  unfold main. rewrite build_query_short by (done || lia || by apply label_ok_fits || by apply labels_ok_fit). rewrite res_bind_Ok.
  rewrite <- Hql. fold query. if_false. rewrite (wrap_small 64) by lia.
  rewrite Z.min_l by (rewrite length_app; lia).
  rewrite Nat2Z.id, take_app_length, Hex, (take_ge msg) by lia.
  assert (Hst : stored (msg ++ drop (length msg) resp) 0 msg) by (by exists [], (drop (length msg) resp)).
  assert (H12 : 12 <= Z.of_nat (length msg))
    by (unfold msg, wire_message; rewrite length_app, wire_header_length; lia).
  rewrite <- Hid, (parse_response_header h);
    [| done | exact (proj1 (proj1 (stored_app _ _ _ _) Hst)) | done].
  rewrite (after_header_wire h qname q4 rrs) by (done || (fold msg; lia)).
  rewrite res_bind_Ok. rewrite !fmap_app. done.
Qed.

Definition demo_reply : list Z :=
  wire_message (mkHeader 4660 0x8180 1 1 0 0) (mkName [chars "ab"] Root) [0; 1; 0; 1]
    [mkRR (mkName [] (Pointer 0xC0 12)) 1 1 60 [127; 0; 0; 1]].

Definition demo_net : network := {|
  getpid := 70196; socket := 3;
  exchange q := if bool_decide (q = query_wire 4660 [chars "ab"]) then Some demo_reply else None
|}.

Lemma main_prints_answers_witness :
  exists trace, @main LittleEndian demo_net (replicate 63 0) (replicate 512 0) (replicate 512 0)
    (replicate 512 0) [[0]; chars "ab" ++ [0]] = Ok (0, trace) /\
  trace !! 8%nat = Some (Print (A_record "127.0.0.1" 60 1)).
Proof.
  eexists. split.
  - apply (@main_prints_answers LittleEndian demo_net (replicate 63 0) (replicate 512 0)
      (replicate 512 0) (replicate 512 0) [0] [97; 98] [] []
      (mkHeader 4660 0x8180 1 1 0 0) (mkName [chars "ab"] Root) [0; 1; 0; 1]
      [mkRR (mkName [] (Pointer 0xC0 12)) 1 1 60 [127; 0; 0; 1]]).
    + repeat constructor; cbn; unfold dot; (lia || done).
    + constructor.
    + apply Nat.leb_le. reflexivity.
    + reflexivity.
    + reflexivity.
    + reflexivity.
    + reflexivity.
    + ground.
    + ground.
    + repeat constructor; cbn; unfold dot; (lia || done).
    + reflexivity.
    + repeat constructor; cbn; (ground || lia || done).
    + reflexivity.
    + reflexivity.
    + apply Nat.leb_le. reflexivity.
    + vm_compute. reflexivity.
  - vm_compute. reflexivity.
Defined.

(** [main] does not look at the result of [build_query]: for a name
    whose encoding is longer than 255 bytes (and no longer than 512), the
    [-1] becomes the size [2^64 - 1] passed to [sendto]. *)
Theorem main_sends_error {Host : ByteOrder} net seg0 enc0 pkt resp prog l ls r code trace :
  label_ok l -> Forall label_ok ls -> (255 < length (wire_name (l :: ls)) <= 512)%nat ->
  length seg0 = 63%nat -> length enc0 = 512%nat -> length pkt = 512%nat ->
  0 <= socket net ->
  main net seg0 enc0 pkt resp [prog; dotted l ls ++ 0 :: r] = Ok (code, trace) ->
  exists data, trace !! 3%nat = Some (Sendto (socket net) 53 "8.8.8.8" (2 ^ 64 - 1) data).
Proof.
  intros Hl Hls Hn Hseg Henc Hpkt Hsock. unfold main.
  assert (Hu : is_u 16 (u16 (getpid net))) by (apply wrap_range; lia).
  rewrite build_query_dotted by (done || lia || by apply label_ok_fits || by apply labels_ok_fit). cbv zeta.
  rewrite bool_decide_false, bool_decide_true by lia. rewrite res_bind_Ok. if_false.
  change (u64 (-1)) with (2 ^ 64 - 1). generalize (take (Z.to_nat (Z.min (2 ^ 64 - 1)
    (Z.of_nat (length (query_header (u16 (getpid net)) ++ drop 12 pkt)))))
    (query_header (u16 (getpid net)) ++ drop 12 pkt)) as data. intros data.
  destruct (exchange net data).
  - intros ([[] out] & _ & [= <- <-])%res_bind_Ok_inv. eexists. done.
  - intros [= <- <-]. eexists. done.
Qed.

Definition long_labels : list label := replicate 4 (replicate 63 97).

Lemma main_sends_error_witness :
  exists code trace data, @main LittleEndian demo_net (replicate 63 0) (replicate 512 0)
    (replicate 512 0) (replicate 512 0) [[0]; dotted [98] long_labels ++ [0]] = Ok (code, trace) /\
    trace !! 3%nat = Some (Sendto 3 53 "8.8.8.8" (2 ^ 64 - 1) data).
Proof.
  destruct (@main LittleEndian demo_net (replicate 63 0) (replicate 512 0) (replicate 512 0)
    (replicate 512 0) [[0]; dotted [98] long_labels ++ [0]]) as [[code trace] |] eqn:Hrun;
    [| vm_compute in Hrun; discriminate].
  destruct (@main_sends_error LittleEndian demo_net (replicate 63 0) (replicate 512 0)
    (replicate 512 0) (replicate 512 0) [0] [98] long_labels [] code trace) as [data Hdata].
  - repeat constructor; cbn; unfold dot; (lia || done).
  - apply Forall_replicate. split; [| done].
    split; [apply Forall_replicate; unfold dot; lia | vm_compute; discriminate].
  - split; [apply Nat.ltb_lt | apply Nat.leb_le]; reflexivity.
  - reflexivity.
  - reflexivity.
  - reflexivity.
  - vm_compute. discriminate.
  - exact Hrun.
  - exists code, trace, data. by split.
Defined.
