(* ===== verification/Jit.v ===== *)
(** * Jit

    07-JIT/main.c: machine code is written into an anonymous mapping, the
    mapping is made executable, and the code is called.  The processor is a
    model of the few register-form instructions emitted (Intel SDM vol. 2:
    MOV 89 /r, ADD 01 /r, IMUL 0F AF /r, RET C3); [mmap] and [mprotect] are
    the system's, their outcomes arguments of [main]. *)

From S2P Require Import Prelude.

(** ** The mapping *)

Record prot := mkProt { p_read : bool; p_write : bool; p_exec : bool }.

Record region := mkRegion { bytes : list Z; prot_of : prot }.

Definition JIT_SIZE : Z := 4096.

(** [code[off++] = b] *)
Definition emit (b : Z) (st : region * Z) : res (region * Z) :=
  let (r, off) := st in
  if p_write (prot_of r) then
    code ← wr (bytes r) off b;
    Ok (mkRegion code (prot_of r), off + 1)
  else Fault (BadProtection off).

Fixpoint emits (bs : list Z) (st : region * Z) : res (region * Z) :=
  match bs with
  | [] => Ok st
  | b :: bs' => st ← emit b st; emits bs' st
  end.

(** The bytes emitted for [add] and for [mul]. *)
Definition add_code : list Z := [0x89; 0xF8; 0x01; 0xF0; 0xC3].
Definition mul_code : list Z := [0x89; 0xF8; 0x0F; 0xAF; 0xC6; 0xC3].

(** ** The processor *)

(** The eight 32-bit registers, in encoding order. *)
Definition EAX : Z := 0.
Definition ESI : Z := 6.
Definition EDI : Z := 7.
Definition regs : Type := list Z.

Inductive instr :=
| Mov (dst src : Z)
| Add (dst src : Z)
| Imul (dst src : Z)
| Ret.

(** Register-direct ModRM byte: mod = 3, then [reg] and [rm]. *)
Definition modrm (reg rm : Z) : Z := Z.lor (Z.lor (Z.shiftl 3 6) (Z.shiftl reg 3)) rm.

Example modrm_bytes : modrm EDI EAX = 0xF8 /\ modrm ESI EAX = 0xF0 /\ modrm EAX ESI = 0xC6.
Proof. done. Qed.

Definition modrm_fields (b : Z) : option (Z * Z) :=
  if Z.shiftr b 6 =? 3 then Some (Z.land (Z.shiftr b 3) 7, Z.land b 7) else None.

(** The instruction at [pc] and the address after it; [None] for bytes
    outside the subset. *)
Definition decode (code : list Z) (pc : Z) : res (option (instr * Z)) :=
  op ← rd code pc;
  if op =? 0xC3 then Ok (Some (Ret, pc + 1))
  else if (op =? 0x89) || (op =? 0x01) then
    mb ← rd code (pc + 1);
    Ok ('(reg, rm) ← modrm_fields mb;
        Some (if op =? 0x89 then Mov rm reg else Add rm reg, pc + 2))
  else if op =? 0x0F then
    op2 ← rd code (pc + 1);
    if op2 =? 0xAF then
      mb ← rd code (pc + 2);
      Ok ('(reg, rm) ← modrm_fields mb; Some (Imul reg rm, pc + 3))
    else Ok None
  else Ok None.

Definition exec_instr (i : instr) (r : regs) : res regs :=
  match i with
  | Mov d s => v ← rd r s; wr r d v
  | Add d s => v ← rd r s; w ← rd r d; wr r d (u32 (w + v))
  | Imul d s => v ← rd r s; w ← rd r d; wr r d (u32 (i32 w * i32 v))
  | Ret => Ok r
  end.

(** Run from [pc] to the [Ret] that ends the function. *)
Fixpoint run (fuel : nat) (code : list Z) (pc : Z) (r : regs) : res regs :=
  match fuel with
  | O => Fault OutOfFuel
  | S fuel' =>
      d ← decode code pc;
      match d with
      | None => Fault (IllegalInstruction pc)
      | Some (Ret, _) => Ok r
      | Some (i, pc') => r ← exec_instr i r; run fuel' code pc' r
      end
  end.

(** A call through a function pointer of type [int ( * )(int, int)] under the
    System V convention: arguments in EDI and ESI, result in EAX.  [r] holds
    whatever the registers held. *)
Definition call2 (rg : region) (entry : Z) (r : regs) (a b : Z) : res Z :=
  if p_exec (prot_of rg) then
    r ← wr r EDI (u32 a);
    r ← wr r ESI (u32 b);
    r ← run 16 (bytes rg) entry r;
    v ← rd r EAX;
    Ok (i32 v)
  else Fault (BadProtection entry).

(** ** main *)

Inductive event :=
| Perror (what : string)
| Prot (p : prot)                        (* the mapping's protection from here on *)
| Result (name : string) (value : Z) (ok : bool)
| Munmap.

(** The code of the two functions, and their offsets. *)
Definition assemble (rg : region) : res (region * Z * Z) :=
  let off := 0 in
  let add_off := off in
  '(rg, off) ← emits add_code (rg, off);
  let mul_off := off in
  '(rg, off) ← emits mul_code (rg, off);
  Ok (rg, add_off, mul_off).

(** [mmap] gives the initial bytes of the mapping, if it succeeds;
    [mprotect_ok] tells whether [mprotect] does; [r] are the registers. *)
Definition main (mmap : option (list Z)) (mprotect_ok : bool) (r : regs)
    : res (Z * list event) :=
  match mmap with
  | None => Ok (1, [Perror "mmap"%string])
  | Some code =>
      let rw := mkProt true true false in
      '(rg, add_off, mul_off) ← assemble (mkRegion code rw);
      if negb mprotect_ok then Ok (1, [Prot rw; Perror "mprotect"%string])
      else
        let rx := mkProt true false true in
        let rg := mkRegion (bytes rg) rx in
        r_add ← call2 rg add_off r 3 4;
        r_mul ← call2 rg mul_off r 6 7;
        Ok (if (r_add =? 7) && (r_mul =? 42) then 0 else 1,
            [Prot rw; Prot rx; Result "add" r_add (r_add =? 7);
             Result "mul" r_mul (r_mul =? 42); Munmap])
  end.

Example jit_main_runs :
  main (Some (replicate 4096 0)) true (replicate 8 0) =
  Ok (0, [Prot (mkProt true true false); Prot (mkProt true false true);
          Result "add" 7 true; Result "mul" 42 true; Munmap]).
Proof. vm_compute. reflexivity. Qed.

(** ** Lemmas *)

Definition rw : prot := mkProt true true false.
Definition rx : prot := mkProt true false true.

Lemma emits_out bs out old :
  (length bs <= length old)%nat ->
  emits bs (mkRegion (out ++ old) rw, Z.of_nat (length out)) =
  Ok (mkRegion (out ++ bs ++ drop (length bs) old) rw, Z.of_nat (length out + length bs)).
Proof.
  revert out old. induction bs as [| b bs IH]; intros out [| o old] Hlen; cbn in Hlen; try lia.
  - cbn. by rewrite Nat.add_0_r.
  - cbn. by rewrite Nat.add_0_r.
  - cbn [emits emit prot_of p_write rw bytes]. rewrite wr_mid, !res_bind_Ok by done.
    specialize (IH (out ++ [b]) old). rewrite length_app, <- app_assoc in IH. cbn [app length] in IH.
    replace (Z.of_nat (length out) + 1) with (Z.of_nat (length out + 1)) by lia.
    rewrite IH by lia. rewrite <- app_assoc. cbn [app length drop]. do 3 f_equal. lia.
Qed.

Lemma assemble_ok code : 11 <= Z.of_nat (length code) ->
  assemble (mkRegion code rw) =
  Ok (mkRegion (add_code ++ mul_code ++ drop 11 code) rw, 0, 5).
Proof.
  intros Hlen. unfold assemble.
  pose proof (emits_out add_code [] code) as Hadd. cbn [app length Nat.add] in Hadd.
  change (Z.of_nat 0) with 0 in Hadd. rewrite Hadd by (cbn; lia). rewrite res_bind_Ok.
  pose proof (emits_out mul_code add_code (drop (length add_code) code)) as Hmul.
  rewrite Hmul by (rewrite length_drop; cbn; lia). rewrite res_bind_Ok, drop_drop. done.
Qed.

Lemma call_add rest r a b : length r = 8%nat ->
  call2 (mkRegion (add_code ++ rest) rx) 0 r a b = Ok (i32 (a + b)).
Proof.
  intros Hr. do 8 (destruct r as [| ? r]; [discriminate Hr |]). destruct r; [| discriminate Hr].
  transitivity (Ok (i32 (u32 (u32 a + u32 b)))); [reflexivity |].
  by rewrite wrap_add, swrap_wrap by lia.
Qed.

Lemma call_mul rest r a b : length r = 8%nat ->
  call2 (mkRegion (add_code ++ mul_code ++ rest) rx) 5 r a b = Ok (i32 (a * b)).
Proof.
  intros Hr. do 8 (destruct r as [| ? r]; [discriminate Hr |]). destruct r; [| discriminate Hr].
  transitivity (Ok (i32 (u32 (i32 (u32 a) * i32 (u32 b))))); [reflexivity |].
  by rewrite wrap_mul_swrap, wrap_mul, swrap_wrap by lia.
Qed.

(** ** Properties *)

(** C29. The machine code written into the mapping computes [int] addition
    and multiplication: whatever the mapping and the registers held before,
    calling the two entry points once the mapping is executable returns the
    32-bit two's-complement sum and product of the arguments; and before
    [mprotect] a call faults. *)
Theorem jit_functions_correct code r a b :
  11 <= Z.of_nat (length code) -> length r = 8%nat ->
  exists rg add_off mul_off,
    assemble (mkRegion code rw) = Ok (rg, add_off, mul_off) /\
    call2 (mkRegion (bytes rg) rx) add_off r a b = Ok (i32 (a + b)) /\
    call2 (mkRegion (bytes rg) rx) mul_off r a b = Ok (i32 (a * b)) /\
    is_ok (call2 rg add_off r a b) = false.
Proof.
  intros Hlen Hr. do 3 eexists. split; [by apply assemble_ok |].
  split; [by apply call_add | split; [by apply call_mul | done]].
Qed.

Lemma jit_functions_correct_witness :
  exists rg add_off mul_off,
    assemble (mkRegion (replicate 4096 0) rw) = Ok (rg, add_off, mul_off) /\
    call2 (mkRegion (bytes rg) rx) add_off (replicate 8 5) (2 ^ 31 - 1) 1 = Ok (i32 (2 ^ 31 - 1 + 1)) /\
    call2 (mkRegion (bytes rg) rx) mul_off (replicate 8 5) (2 ^ 31 - 1) 1 = Ok (i32 ((2 ^ 31 - 1) * 1)) /\
    is_ok (call2 rg add_off (replicate 8 5) (2 ^ 31 - 1) 1) = false.
Proof. apply (jit_functions_correct (replicate 4096 0) (replicate 8 5) (2 ^ 31 - 1) 1); ground. Defined.

Definition w_xor_x (e : event) : bool :=
  match e with Prot p => negb (p_write p && p_exec p) | _ => true end.

(** C30. [main] on every outcome of its system calls: it exits 1 with the
    failing call named when [mmap] or [mprotect] fails, and otherwise exits 0
    having reported 7 and 42 as correct; the mapping is never writable and
    executable at once. *)
Theorem main_correct mmap mprotect_ok r :
  (forall code, mmap = Some code -> Z.of_nat (length code) = JIT_SIZE) -> length r = 8%nat ->
  exists code trace, main mmap mprotect_ok r = Ok (code, trace) /\
    forallb w_xor_x trace = true /\
    match mmap, mprotect_ok with
    | None, _ => code = 1 /\ trace = [Perror "mmap"%string]
    | Some _, false => code = 1 /\ trace = [Prot rw; Perror "mprotect"%string]
    | Some _, true => code = 0 /\
        trace = [Prot rw; Prot rx; Result "add" 7 true; Result "mul" 42 true; Munmap]
    end.
Proof.
  intros Hmap Hr. unfold main. destruct mmap as [code |]; [| by do 2 eexists].
  specialize (Hmap code eq_refl). unfold JIT_SIZE in Hmap.
  change (mkProt true true false) with rw. rewrite assemble_ok by lia. rewrite res_bind_Ok.
  destruct mprotect_ok; [| by do 2 eexists]. cbn [negb bytes].
  change (mkProt true false true) with rx.
  rewrite call_add, res_bind_Ok, call_mul, res_bind_Ok by done. by do 2 eexists.
Qed.

Lemma main_correct_witness :
  exists code trace, main (Some (replicate 4096 204)) true (replicate 8 9) = Ok (code, trace) /\
    forallb w_xor_x trace = true /\ code = 0 /\
    trace = [Prot rw; Prot rx; Result "add" 7 true; Result "mul" 42 true; Munmap].
Proof.
  apply (main_correct (Some (replicate 4096 204)) true (replicate 8 9)); [| reflexivity].
  intros code [= <-]. vm_compute. reflexivity.
Defined.
