(* ===== verification/Coro.v ===== *)
(** * Coro

    The coroutine scheduler of 09-stackful_croutines_ucontext_t/main.c.  The
    C library's user contexts are modelled by what they resume: a function
    to be called, or the rest of a function that was suspended. *)

From S2P Require Import Prelude.

(** ** Coroutine bodies and contexts *)

Inductive line :=
| Step (id i : Z)          (* "coro %d: step %d" *)
| Done (id : Z)            (* "coro %d: done" *)
| All_finished.

(** What a coroutine has left to do. *)
Inductive prog :=
| Printf (l : line) (k : prog)
| Yield (k : prog)
| Return.

(** A coroutine function reads [coros[current].id] when it is entered. *)
Definition fn_t : Type := Z -> prog.

Inductive ucontext_t :=
| Unset                    (* nothing to resume *)
| Entry (fn : fn_t)        (* made by makecontext *)
| Saved (k : prog).        (* saved by swapcontext *)

Inductive CoroState := CORO_READY | CORO_RUNNING | CORO_DONE.

#[export] Instance CoroState_eq_dec : EqDecision CoroState.
Proof. solve_decision. Defined.

Record Coroutine := mkCoro { ctx : ucontext_t; stack : Z; state : CoroState; id : Z }.

Definition MAX_COROUTINES : Z := 8.

(** The function [done_ctx] was last made for. *)
Inductive trampoline := finish_trampoline.

(** The globals, and the lines printed.  A context whose stack is in use or
    used up is [Unset] ([None] for [done_ctx]). *)
Record globals := mkGlobals {
  coros : list Coroutine; coro_count : Z; current : Z;
  done_ctx : option trampoline; out : list line
}.

Definition static_globals : globals :=
  mkGlobals (replicate (Z.to_nat MAX_COROUTINES) (mkCoro Unset 0 CORO_READY 0)) 0 (-1) None [].

(** ** Creating contexts *)

Definition set_coro (g : globals) (i : Z) (c : Coroutine) : res globals :=
  cs ← wr (coros g) i c;
  Ok (mkGlobals cs (coro_count g) (current g) (done_ctx g) (out g)).

(** [ptr] is what [malloc] returns. *)
Definition coro_spawn (fn : fn_t) (ptr : Z) (g : globals) : res globals :=
  g ← set_coro g (coro_count g) (mkCoro (Entry fn) ptr CORO_READY (coro_count g));
  Ok (mkGlobals (coros g) (coro_count g + 1) (current g) (done_ctx g) (out g)).

Definition done_spawn (fn : trampoline) (g : globals) : globals :=
  mkGlobals (coros g) (coro_count g) (current g) (Some fn) (out g).

(** ** Switching *)

Definition print (l : line) (g : globals) : globals :=
  mkGlobals (coros g) (coro_count g) (current g) (done_ctx g) (out g ++ [l]).

(** [swapcontext(&coros[current].ctx, &sched_ctx)] *)
Definition coro_yield (k : prog) (g : globals) : res globals :=
  c ← rd (coros g) (current g);
  set_coro g (current g) (mkCoro (Saved k) (stack c) (state c) (id c)).

(** The coroutine function returned: its [uc_link] is [done_ctx], whose
    function marks the coroutine and whose [uc_link] is the scheduler. *)
Definition run_done_ctx (g : globals) : res globals :=
  match done_ctx g with
  | None => Fault BadContext
  | Some finish_trampoline =>
      let g := mkGlobals (coros g) (coro_count g) (current g) None (out g) in
      c ← rd (coros g) (current g);
      set_coro g (current g) (mkCoro (ctx c) (stack c) CORO_DONE (id c))
  end.

(** Run the current coroutine until control is back in the scheduler. *)
Fixpoint exec (p : prog) (g : globals) : res globals :=
  match p with
  | Printf l k => exec k (print l g)
  | Yield k => coro_yield k g
  | Return => run_done_ctx g
  end.

(** [swapcontext(&sched_ctx, &coros[current].ctx)], up to its return. *)
Definition switch_to_current (g : globals) : res globals :=
  c ← rd (coros g) (current g);
  if stack c =? 0 then Fault NullDeref
  else
    g ← set_coro g (current g) (mkCoro Unset (stack c) (state c) (id c));
    match ctx c with
    | Unset => Fault BadContext
    | Entry fn => exec (fn (id c)) g
    | Saved k => exec k g
    end.

(** ** The scheduler *)

(** [for (cr = current+1; cr < coro_count+current+1; cr++)] with [n] rounds
    left: the index of the first ready coroutine, if there is one. *)
Fixpoint find_ready (n : nat) (cr : Z) (g : globals) : res (option Z) :=
  match n with
  | O => Ok None
  | S n' =>
      if coro_count g =? 0 then Fault DivByZero
      else
        c ← rd (coros g) (Z.rem cr (coro_count g));
        if decide (state c = CORO_READY) then Ok (Some (Z.rem cr (coro_count g)))
        else find_ready n' (cr + 1) g
  end.

Definition set_state (g : globals) (i : Z) (s : CoroState) : res globals :=
  c ← rd (coros g) i;
  set_coro g i (mkCoro (ctx c) (stack c) s (id c)).

(** The body of the [while] loop. *)
Definition scheduler_step (completed_coro : Z) (g : globals) : res (Z * globals) :=
  r ← find_ready (Z.to_nat (coro_count g)) (current g + 1) g;
  let g := match r with
           | Some i => mkGlobals (coros g) (coro_count g) i (done_ctx g) (out g)
           | None => g
           end in
  g ← set_state g (current g) CORO_RUNNING;
  g ← switch_to_current g;
  c ← rd (coros g) (current g);
  if decide (state c = CORO_DONE) then Ok (completed_coro + 1, done_spawn finish_trampoline g)
  else
    g ← set_state g (current g) CORO_READY;
    Ok (completed_coro, g).

Fixpoint scheduler_loop (fuel : nat) (completed_coro : Z) (g : globals) : res globals :=
  match fuel with
  | O => Fault OutOfFuel
  | S fuel' =>
      if completed_coro <? coro_count g then
        '(completed_coro, g) ← scheduler_step completed_coro g;
        scheduler_loop fuel' completed_coro g
      else Ok g
  end.

Definition scheduler_run (fuel : nat) (g : globals) : res globals := scheduler_loop fuel 0 g.

(** [free_coros_stacks]: the pointers freed. *)
Definition free_coros_stacks (g : globals) : list Z :=
  stack <$> take (Z.to_nat (coro_count g)) (coros g).

(** ** The program *)

Fixpoint worker_loop (n : nat) (i id : Z) : prog :=
  match n with
  | O => Printf (Done id) Return
  | S n' => Printf (Step id i) (Yield (worker_loop n' (i + 1) id))
  end.

Definition worker : fn_t := fun id => worker_loop 3 0 id.

(** [ptrs] are the results of the four [malloc]s; the run ends with the
    output and the pointers freed. *)
Definition main (ptrs : list Z) : res (Z * list line * list Z) :=
  let g := done_spawn finish_trampoline static_globals in
  p0 ← rd ptrs 0; g ← coro_spawn worker p0 g;
  p1 ← rd ptrs 1; g ← coro_spawn worker p1 g;
  p2 ← rd ptrs 2; g ← coro_spawn worker p2 g;
  p3 ← rd ptrs 3; g ← coro_spawn worker p3 g;
  g ← scheduler_run 17 g;
  let g := print All_finished g in
  Ok (0, out g, free_coros_stacks g).

Example coro_main_runs :
  match main [1; 2; 3; 4] with
  | Ok (0, o, f) => take 5 o = [Step 0 0; Step 1 0; Step 2 0; Step 3 0; Step 0 1] /\
                    length o = 17%nat /\ f = [1; 2; 3; 4]
  | _ => False
  end.
Proof. vm_compute. auto. Qed.

(** ** Specification: a queue of the live coroutines *)

(** The lines up to the next suspension, and what is left after it. *)
Fixpoint segment (p : prog) : list line * option prog :=
  match p with
  | Printf l k => let (o, r) := segment k in (l :: o, r)
  | Yield k => ([], Some k)
  | Return => ([], None)
  end.

Definition requeue (i : Z) (r : option prog) : list (Z * prog) :=
  match r with Some k => [(i, k)] | None => [] end.

(** The front coroutine runs one segment and goes to the back.  Lines are
    tagged with the coroutine that prints them. *)
Fixpoint round_robin (fuel : nat) (q : list (Z * prog)) : list (Z * line) :=
  match fuel, q with
  | S fuel', (i, p) :: q' =>
      ((fun l => (i, l)) <$> (segment p).1) ++ round_robin fuel' (q' ++ requeue i (segment p).2)
  | _, _ => []
  end.

(** Suspensions and returns still to come. *)
Fixpoint segments (p : prog) : nat :=
  match p with
  | Printf _ k => segments k
  | Yield k => S (segments k)
  | Return => 1
  end.

Fixpoint work (q : list (Z * prog)) : nat :=
  match q with
  | [] => 0
  | x :: q' => segments x.2 + work q'
  end.

(** ** The queue a scheduler state stands for *)

(** What a ready coroutine would resume. *)
Definition live_prog (c : Coroutine) : option prog :=
  if decide (state c = CORO_READY) then
    match ctx c with Entry fn => Some (fn (id c)) | Saved k => Some k | Unset => None end
  else None.

(** The indices in the order the scheduler looks at them. *)
Definition rot (cur n : Z) : list Z := (fun k => (cur + k) mod n) <$> seqZ 1 n.

Definition live_at (cs : list Coroutine) (i : Z) : option (Z * prog) :=
  c ← cs !! Z.to_nat i; p ← live_prog c; Some (i, p).

Definition queue (g : globals) : list (Z * prog) :=
  omap (live_at (coros g)) (rot (current g) (coro_count g)).

Definition coro_ok (i : Z) (c : Coroutine) : Prop :=
  id c = i /\ stack c <> 0 /\
  (state c = CORO_READY /\ is_Some (live_prog c) \/ state c = CORO_DONE).

Record wf (g : globals) : Prop := {
  wf_count : 1 <= coro_count g <= MAX_COROUTINES;
  wf_length : length (coros g) = 8%nat;
  wf_current : -1 <= current g < coro_count g;
  wf_done_ctx : done_ctx g = Some finish_trampoline;
  wf_coros i : 0 <= i < coro_count g ->
    exists c, coros g !! Z.to_nat i = Some c /\ coro_ok i c
}.

Lemma live_at_ok cs i c :
  cs !! Z.to_nat i = Some c -> coro_ok i c ->
  is_Some (live_at cs i) <-> state c = CORO_READY.
Proof.
  intros Hc (_ & _ & [[Hs [p Hp]] | Hs]); unfold live_at; rewrite Hc; cbn.
  - rewrite Hp. cbn. by split.
  - unfold live_prog. rewrite decide_False by (by rewrite Hs). cbn.
    split; [by intros [] | by rewrite Hs].
Qed.

(** The rotation that starts after the [j]-th index of a rotation. *)
Lemma rot_split cur n j :
  0 <= j < n ->
  let f k := (cur + k) mod n in
  rot cur n = (f <$> seqZ 1 j) ++ f (1 + j) :: (f <$> seqZ (2 + j) (n - 1 - j)) /\
  rot (f (1 + j)) n = (f <$> seqZ (2 + j) (n - 1 - j)) ++ (f <$> seqZ 1 j) ++ [f (1 + j)].
Proof.
  intros Hj f. split.
  - unfold rot. fold f. replace n with (j + (1 + (n - 1 - j))) at 1 by lia.
    rewrite seqZ_app, fmap_app by lia. f_equal.
    rewrite seqZ_cons by lia. rewrite fmap_cons. do 2 f_equal. f_equal; lia.
  - assert (seqZ 1 n = seqZ 1 (n - 1 - j) ++ seqZ (n - j) j ++ seqZ n 1) as Hseq.
    { replace (seqZ n 1) with (seqZ (n - j + j) 1) by (f_equal; lia).
      rewrite <- seqZ_app by lia. replace (n - j) with (1 + (n - 1 - j)) at 1 by lia.
      rewrite <- seqZ_app by lia. f_equal. lia. }
    unfold rot. rewrite Hseq, !fmap_app. f_equal; [| f_equal].
    + apply list_eq. intros k. rewrite !list_lookup_fmap.
      destruct (decide (Z.of_nat k < n - 1 - j)).
      * rewrite !lookup_seqZ_lt by lia. cbn. f_equal. unfold f.
        rewrite Zplus_mod_idemp_l. f_equal. lia.
      * rewrite !lookup_seqZ_ge by lia. done.
    + apply list_eq. intros k. rewrite !list_lookup_fmap.
      destruct (decide (Z.of_nat k < j)).
      * rewrite !lookup_seqZ_lt by lia. cbn. f_equal. unfold f. rewrite Zplus_mod_idemp_l.
        replace (cur + (1 + j) + (n - j + Z.of_nat k)) with (cur + (1 + Z.of_nat k) + 1 * n) by lia.
        by rewrite Z.mod_add by lia.
      * rewrite !lookup_seqZ_ge by lia. done.
    + rewrite seqZ_cons, fmap_cons by lia. cbn. f_equal. unfold f. rewrite Zplus_mod_idemp_l.
      replace (cur + (1 + j) + n) with (cur + (1 + j) + 1 * n) by lia.
      by rewrite Z.mod_add by lia.
Qed.

(** The search of the scheduler. *)
Lemma find_ready_spec g n : wf g -> forall cr, 0 <= cr ->
  match find_ready n cr g with
  | Ok (Some i) => exists j, 0 <= j < Z.of_nat n /\ i = (cr + j) mod coro_count g /\
      is_Some (live_at (coros g) i) /\
      forall j', 0 <= j' < j -> live_at (coros g) ((cr + j') mod coro_count g) = None
  | Ok None => forall j, 0 <= j < Z.of_nat n -> live_at (coros g) ((cr + j) mod coro_count g) = None
  | Fault _ => False
  end.
Proof.
  intros Hwf. pose proof (wf_count g Hwf) as Hcount.
  induction n as [| n IH]; intros cr Hcr; cbn [find_ready]; [lia |].
  if_false. rewrite Z.rem_mod_nonneg by lia.
  pose proof (Z.mod_pos_bound cr (coro_count g) ltac:(lia)) as Hi.
  destruct (wf_coros g Hwf _ Hi) as (c & Hc & Hok).
  assert (rd (coros g) (cr mod coro_count g) = Ok c) as -> by (apply rd_lookup; split; [lia | done]).
  rewrite res_bind_Ok. pose proof (live_at_ok _ _ _ Hc Hok) as Hlive.
  case_decide as Hready.
  - exists 0. rewrite Z.add_0_r. split_and!; [lia.. | done | by apply Hlive | lia].
  - assert (Hnone : live_at (coros g) (cr mod coro_count g) = None).
    { destruct (live_at _ _) eqn:E; [| done]. exfalso. apply Hready, Hlive. by eexists. }
    specialize (IH (cr + 1) ltac:(lia)). destruct (find_ready n (cr + 1) g) as [[i |] |]; [| | done].
    + destruct IH as (j & Hj & -> & Hsome & Hpre). exists (1 + j).
      replace (cr + (1 + j)) with (cr + 1 + j) by lia. split_and!; [lia.. | done | done |].
      intros j' Hj'. destruct (decide (j' = 0)) as [-> | ]; [by rewrite Z.add_0_r |].
      replace (cr + j') with (cr + 1 + (j' - 1)) by lia. apply Hpre. lia.
    + intros j Hj. destruct (decide (j = 0)) as [-> | ]; [by rewrite Z.add_0_r |].
      replace (cr + j) with (cr + 1 + (j - 1)) by lia. apply IH. lia.
Qed.

(** ** One turn of the scheduler *)

Lemma set_coro_Ok g i c x : 0 <= i -> coros g !! Z.to_nat i = Some x ->
  set_coro g i c =
  Ok (mkGlobals (<[Z.to_nat i := c]> (coros g)) (coro_count g) (current g) (done_ctx g) (out g)).
Proof.
  intros Hi Hx%lookup_lt_Some. unfold set_coro, wr.
  by replace ((0 <=? i) && (i <? Z.of_nat (length (coros g)))) with true by lia.
Qed.

Lemma rd_coros cs i c : 0 <= i -> cs !! Z.to_nat i = Some c -> rd (A:=Coroutine) cs i = Ok c.
Proof. intros. by apply rd_lookup. Qed.

Lemma lookup_insert_self (cs : list Coroutine) i c x :
  cs !! i = Some x -> <[i := c]> cs !! i = Some c.
Proof. intros H%lookup_lt_Some. by apply list_lookup_insert_eq. Qed.

Lemma set_state_Ok g i s c : 0 <= i -> coros g !! Z.to_nat i = Some c ->
  set_state g i s =
  Ok (mkGlobals (<[Z.to_nat i := mkCoro (ctx c) (stack c) s (id c)]> (coros g))
        (coro_count g) (current g) (done_ctx g) (out g)).
Proof.
  intros Hi Hc. unfold set_state. rewrite (rd_coros _ _ c), res_bind_Ok by done.
  by apply (set_coro_Ok _ _ _ c).
Qed.

(** The coroutine after its turn. *)
Definition after_segment (c : Coroutine) (r : option prog) : Coroutine :=
  match r with
  | Some k => mkCoro (Saved k) (stack c) (state c) (id c)
  | None => mkCoro (ctx c) (stack c) CORO_DONE (id c)
  end.

Lemma exec_segment p : forall g c,
  0 <= current g -> coros g !! Z.to_nat (current g) = Some c ->
  done_ctx g = Some finish_trampoline ->
  exec p g = Ok (mkGlobals (<[Z.to_nat (current g) := after_segment c (segment p).2]> (coros g))
                   (coro_count g) (current g)
                   (match (segment p).2 with Some _ => done_ctx g | None => None end)
                   (out g ++ (segment p).1)).
Proof.
  induction p as [l k IH | k _ |]; intros g c Hcur Hc Hdone.
  - cbn [exec]. rewrite (IH (print l g) c) by done. cbn [segment].
    destruct (segment k) as [o r]. cbn. by rewrite <- app_assoc.
  - cbn [exec]. unfold coro_yield. rewrite (rd_coros _ _ c), res_bind_Ok by done.
    rewrite (set_coro_Ok _ _ _ c) by done. cbn. by rewrite app_nil_r.
  - cbn [exec]. unfold run_done_ctx. rewrite Hdone. cbn [coros coro_count current].
    rewrite (rd_coros _ _ c), res_bind_Ok by done.
    rewrite (set_coro_Ok _ _ _ c) by done. cbn. by rewrite app_nil_r.
Qed.

(** The coroutine's entry between two turns. *)
Definition parked (c : Coroutine) (r : option prog) : Coroutine :=
  match r with
  | Some k => mkCoro (Saved k) (stack c) CORO_READY (id c)
  | None => mkCoro Unset (stack c) CORO_DONE (id c)
  end.

Lemma scheduler_step_eq g completed i c p :
  find_ready (Z.to_nat (coro_count g)) (current g + 1) g = Ok (Some i) ->
  0 <= i -> coros g !! Z.to_nat i = Some c -> live_prog c = Some p -> stack c <> 0 ->
  done_ctx g = Some finish_trampoline ->
  scheduler_step completed g =
  Ok (completed + match (segment p).2 with Some _ => 0 | None => 1 end,
      mkGlobals (<[Z.to_nat i := parked c (segment p).2]> (coros g)) (coro_count g) i
        (Some finish_trampoline) (out g ++ (segment p).1)).
Proof.
  intros Hfind Hi Hc Hp Hst Hdone. unfold scheduler_step. rewrite Hfind, res_bind_Ok.
  cbv zeta. cbn [current].
  rewrite (set_state_Ok _ i _ c) by done. cbn [coros coro_count current done_ctx out].
  rewrite res_bind_Ok; cbv beta.
  pose proof (lookup_insert_self (coros g) _ (mkCoro (ctx c) (stack c) CORO_RUNNING (id c)) _ Hc) as Hc1.
  unfold switch_to_current. cbn [coros current].
  erewrite rd_coros by done. rewrite res_bind_Ok; cbv beta. cbn [stack state ctx id]. if_false.
  erewrite set_coro_Ok by done. cbn [coros coro_count current done_ctx out]. rewrite res_bind_Ok; cbv beta.
  rewrite list_insert_insert_eq.
  set (c2 := mkCoro Unset (stack c) CORO_RUNNING (id c)).
  pose proof (lookup_insert_self (coros g) _ c2 _ Hc) as Hc2.
  unfold live_prog in Hp. case_decide as Hready; [| done].
  set (g2 := mkGlobals (<[Z.to_nat i := c2]> (coros g)) (coro_count g) i (done_ctx g) (out g)).
  assert (Hrun : match ctx c with Unset => Fault BadContext | Entry fn => exec (fn (id c)) g2
                 | Saved k => exec k g2 end = exec p g2) by (destruct (ctx c); by simplify_eq).
  rewrite Hrun, (exec_segment p g2 c2), res_bind_Ok by done.
  cbn [coros coro_count current done_ctx out g2]. rewrite list_insert_insert_eq.
  set (c3 := after_segment c2 (segment p).2).
  pose proof (lookup_insert_self (coros g) _ c3 _ Hc) as Hc3.
  erewrite rd_coros by done. rewrite res_bind_Ok; cbv beta.
  destruct (segment p) as [o [k |]]; cbn [snd fst after_segment c3 state c2] in *.
  - rewrite decide_False by done.
    erewrite set_state_Ok by done. cbn [coros coro_count current done_ctx out].
    rewrite res_bind_Ok; cbv beta.
    rewrite list_insert_insert_eq, Hdone, Z.add_0_r. done.
  - rewrite decide_True by done. done.
Qed.

Lemma omap_none {A B} (f : A -> option B) l : Forall (fun x => f x = None) l -> omap f l = [].
Proof. induction 1 as [| x l Hx _ IH]; [done |]. cbn. by rewrite Hx. Qed.

Lemma omap_live_insert cs i c l : 0 <= i -> Forall (fun x => 0 <= x /\ x <> i) l ->
  omap (live_at (<[Z.to_nat i := c]> cs)) l = omap (live_at cs) l.
Proof.
  intros Hi. induction 1 as [| x l [Hx Hne] _ IH]; [done |]. cbn.
  assert (live_at (<[Z.to_nat i := c]> cs) x = live_at cs x) as ->.
  { unfold live_at. by rewrite list_lookup_insert_ne by lia. }
  by rewrite IH.
Qed.

Lemma Forall_seqZ_fmap (P : Z -> Prop) (f : Z -> Z) m len :
  (forall k, m <= k < m + len -> P (f k)) -> Forall P (f <$> seqZ m len).
Proof.
  intros H. apply Forall_fmap, Forall_forall. intros k Hk%list_elem_of_In%elem_of_seqZ.
  apply H. lia.
Qed.

(** The coroutine the scheduler finds is the front of the queue, and the
    rest of the rotation is the rest of the queue. *)
Lemma queue_front g i p q : wf g -> queue g = (i, p) :: q ->
  exists pre post,
    find_ready (Z.to_nat (coro_count g)) (current g + 1) g = Ok (Some i) /\
    0 <= i < coro_count g /\ live_at (coros g) i = Some (i, p) /\
    omap (live_at (coros g)) post = q /\ rot i (coro_count g) = post ++ pre ++ [i] /\
    Forall (fun x => 0 <= x /\ x <> i) (post ++ pre) /\ omap (live_at (coros g)) pre = [].
Proof.
  intros Hwf Hq. pose proof (wf_count g Hwf). pose proof (wf_current g Hwf).
  pose proof (find_ready_spec g (Z.to_nat (coro_count g)) Hwf (current g + 1) ltac:(lia)) as Hfind.
  set (n := coro_count g) in *. set (f k := (current g + k) mod n).
  destruct (find_ready _ _ _) as [[i' |] |] eqn:Hr; [| | done].
  - destruct Hfind as (j & Hj & Hi' & Hlive & Hpre).
    destruct (rot_split (current g) n j ltac:(lia)) as [Hrot Hrot']. fold f in Hrot, Hrot'.
    assert (Hfj : (current g + (1 + j)) mod n = i') by (subst i'; f_equal; lia).
    rewrite Hfj in Hrot, Hrot'.
    assert (Hprenone : omap (live_at (coros g)) (f <$> seqZ 1 j) = []).
    { apply omap_none, Forall_seqZ_fmap. intros k Hk. unfold f.
      replace (current g + k) with (current g + 1 + (k - 1)) by lia. apply Hpre. lia. }
    unfold queue in Hq. fold n in Hq. rewrite Hrot, omap_app, Hprenone in Hq.
    destruct Hlive as [[i0 p0] Hlive]. cbn in Hq. rewrite Hlive in Hq.
    assert (i0 = i') as ->.
    { unfold live_at in Hlive. destruct (coros g !! _) as [c |]; [| done]. cbn in Hlive.
      destruct (live_prog c); cbn in Hlive; congruence. }
    simplify_eq. exists (f <$> seqZ 1 j), (f <$> seqZ (2 + j) (n - 1 - j)).
    split_and!; [done | rewrite <- Hfj; apply Z.mod_pos_bound; lia .. | done | done | done | | done].
    apply Forall_app. rewrite <- Hfj. split; apply Forall_seqZ_fmap; intros k Hk;
      (split; [apply Z.mod_pos_bound; lia |]); unfold f; [apply not_eq_sym |]; apply mod_distinct; lia.
  - exfalso. unfold queue in Hq. fold n in Hq. rewrite omap_none in Hq; [done |].
    apply Forall_seqZ_fmap. intros k Hk.
    replace (current g + k) with (current g + 1 + (k - 1)) by lia. apply Hfind. lia.
Qed.

(** One turn of the scheduler is one turn of the queue. *)
Lemma scheduler_step_queue g completed i p q : wf g -> queue g = (i, p) :: q ->
  exists g', scheduler_step completed g =
    Ok (completed + match (segment p).2 with Some _ => 0 | None => 1 end, g') /\
    wf g' /\ coro_count g' = coro_count g /\ stack <$> coros g' = stack <$> coros g /\
    out g' = out g ++ (segment p).1 /\ queue g' = q ++ requeue i (segment p).2.
Proof.
  intros Hwf Hq. destruct (queue_front g i p q Hwf Hq)
    as (pre & post & Hfind & Hi & Hlive & Hpost & Hrot & Hne & Hpre).
  destruct (wf_coros g Hwf i Hi) as (c & Hc & Hid & Hst & _).
  assert (Hp : live_prog c = Some p).
  { unfold live_at in Hlive. rewrite Hc in Hlive. cbn in Hlive.
    destruct (live_prog c); cbn in Hlive; congruence. }
  eexists. split.
  { apply (scheduler_step_eq g completed i c p Hfind (proj1 Hi) Hc Hp Hst (wf_done_ctx g Hwf)). }
  set (c' := parked c (segment p).2).
  assert (Hst' : stack c' = stack c) by (unfold c'; by destruct (segment p).2).
  split_and!; cbn [coros coro_count out].
  - destruct Hwf as [? ? ? ? Hcoros]. split; cbn; [done | by rewrite length_insert | lia | done |].
    intros x Hx. destruct (decide (x = i)) as [-> | Hxi].
    + exists c'. split; [by eapply lookup_insert_self |]. unfold coro_ok. rewrite Hst'.
      unfold c', parked. destruct (segment p).2; cbn; eauto 6.
    + rewrite list_lookup_insert_ne by lia. by apply Hcoros.
  - done.
  - rewrite list_fmap_insert. apply list_insert_id.
    by rewrite list_lookup_fmap, Hc, Hst'.
  - done.
  - unfold queue. cbn [coros current coro_count]. rewrite Hrot, app_assoc, omap_app.
    rewrite omap_live_insert by (done || lia). rewrite omap_app, Hpost, Hpre, app_nil_r. f_equal.
    cbn. unfold live_at. erewrite lookup_insert_self by done. cbn. unfold c'.
    destruct (segment p).2; cbn; by rewrite ?decide_True.
Qed.

(** ** The whole run *)

Lemma segments_segment p :
  segments p = S (match (segment p).2 with Some k => segments k | None => 0 end).
Proof.
  induction p as [l k IH | k _ |]; [| done..]. cbn [segment segments].
  destruct (segment k). done.
Qed.

Lemma work_app q1 q2 : work (q1 ++ q2) = (work q1 + work q2)%nat.
Proof. induction q1 as [| x q1 IH]; cbn; [done |]. rewrite IH. lia. Qed.

Lemma work_turn i p q :
  work ((i, p) :: q) = S (work (q ++ requeue i (segment p).2)).
Proof.
  rewrite work_app. change (work ((i, p) :: q)) with (segments p + work q)%nat.
  rewrite segments_segment. destruct (segment p).2; cbn; lia.
Qed.

Lemma requeue_length i (r : option prog) :
  Z.of_nat (length (requeue i r)) = 1 - match r with Some _ => 0 | None => 1 end.
Proof. by destruct r. Qed.

Lemma scheduler_loop_queue fuel : forall completed g q,
  wf g -> queue g = q -> completed = coro_count g - Z.of_nat (length q) ->
  (work q < fuel)%nat ->
  exists g', scheduler_loop fuel completed g = Ok g' /\ wf g' /\ queue g' = [] /\
    coro_count g' = coro_count g /\ stack <$> coros g' = stack <$> coros g /\
    out g' = out g ++ (snd <$> round_robin (work q) q).
Proof.
  induction fuel as [| fuel IH]; intros completed g q Hwf Hq Hc Hfuel; [lia |].
  cbn [scheduler_loop]. destruct q as [| [i p] q].
  - cbn in Hc. if_false. exists g. rewrite Hq. cbn. by rewrite app_nil_r.
  - cbn [length] in Hc. if_true.
    destruct (scheduler_step_queue g completed i p q Hwf Hq)
      as (g' & Hstep & Hwf' & Hcount & Hstack & Hout & Hq').
    rewrite Hstep, res_bind_Ok. rewrite work_turn in Hfuel |- *.
    destruct (IH (completed + match (segment p).2 with Some _ => 0 | None => 1 end) g' _ Hwf' Hq')
      as (g2 & Hrun & Hwf2 & Hq2 & Hcount2 & Hstack2 & Hout2).
    + rewrite length_app, Nat2Z.inj_add, requeue_length, Hcount. lia.
    + lia.
    + exists g2. split_and!; [done | done | done | congruence | congruence |].
      rewrite Hout2, Hout. cbn [round_robin]. rewrite fmap_app, <- app_assoc. f_equal. f_equal.
      rewrite <- list_fmap_compose. symmetry. apply list_fmap_id.
Qed.

(** Spawning a list of functions, with the stacks [malloc] returned. *)
Fixpoint spawn_all (fns : list (fn_t * Z)) (g : globals) : res globals :=
  match fns with
  | [] => Ok g
  | (fn, ptr) :: fns' => g ← coro_spawn fn ptr g; spawn_all fns' g
  end.

Definition spawned (k : nat) (fns : list (fn_t * Z)) : list Coroutine :=
  imap (fun i (f : fn_t * Z) => mkCoro (Entry f.1) f.2 CORO_READY (Z.of_nat (k + i))) fns.

Definition initial_queue (fns : list (fn_t * Z)) : list (Z * prog) :=
  imap (fun i (f : fn_t * Z) => (Z.of_nat i, f.1 (Z.of_nat i))) fns.

Definition blank (k : nat) : list Coroutine := replicate k (mkCoro Unset 0 CORO_READY 0).

Lemma spawned_cons k f fns :
  spawned k (f :: fns) = mkCoro (Entry f.1) f.2 CORO_READY (Z.of_nat k) :: spawned (S k) fns.
Proof.
  unfold spawned. rewrite imap_cons. cbn. rewrite Nat.add_0_r. f_equal.
  apply imap_ext. intros. cbn. do 2 f_equal. lia.
Qed.

Lemma spawn_all_ok fns : forall cs cur d o,
  (length cs + length fns <= 8)%nat ->
  spawn_all fns (mkGlobals (cs ++ blank (8 - length cs)) (Z.of_nat (length cs)) cur d o) =
  Ok (mkGlobals (cs ++ spawned (length cs) fns ++ blank (8 - length cs - length fns))
        (Z.of_nat (length cs + length fns)) cur d o).
Proof.
  induction fns as [| [fn ptr] fns IH]; intros cs cur d o Hlen.
  - cbn. by rewrite Nat.sub_0_r, Nat.add_0_r.
  - cbn [spawn_all length] in *. unfold coro_spawn, set_coro. cbn [coros coro_count].
    destruct (8 - length cs)%nat as [| k] eqn:Hk; [lia |]. cbn [blank replicate].
    rewrite wr_mid, !res_bind_Ok by done. cbn [coros coro_count current done_ctx out].
    specialize (IH (cs ++ [mkCoro (Entry fn) ptr CORO_READY (Z.of_nat (length cs))]) cur d o).
    rewrite length_app, <- !app_assoc in IH. cbn [length app] in IH.
    replace (8 - (length cs + 1))%nat with k in IH by lia. unfold blank in IH at 1.
    replace (Z.of_nat (length cs) + 1) with (Z.of_nat (length cs + 1)) by lia.
    rewrite IH by lia. rewrite spawned_cons, Nat.add_1_r. cbn [app fst snd Nat.sub].
    do 2 f_equal. lia.
Qed.

Lemma spawned_queue fns : forall r,
  omap (live_at (spawned 0 fns ++ r)) (seqZ 0 (Z.of_nat (length fns))) = initial_queue fns.
Proof.
  induction fns as [| f fns IH] using rev_ind; intros r; [done |].
  rewrite length_app. cbn [length]. rewrite Nat2Z.inj_add, seqZ_app, omap_app by lia.
  unfold spawned, initial_queue in *. rewrite !imap_app, <- app_assoc, IH. f_equal.
  replace (seqZ (0 + Z.of_nat (length fns)) (Z.of_nat 1)) with [Z.of_nat (length fns)]
    by (rewrite seqZ_cons by lia; done).
  cbn [imap app omap list_omap].
  unfold live_at at 1. rewrite Nat2Z.id, list_lookup_middle by (by rewrite length_imap).
  cbn. by rewrite !Nat.add_0_r.
Qed.

Lemma spawned_state fns : Forall (fun f => f.2 <> 0) fns -> (1 <= length fns <= 8)%nat ->
  let g := mkGlobals (spawned 0 fns ++ blank (8 - length fns)) (Z.of_nat (length fns)) (-1)
             (Some finish_trampoline) [] in
  wf g /\ queue g = initial_queue fns.
Proof.
  intros Hptr Hlen g. split.
  - split; cbn; [unfold MAX_COROUTINES; lia | | lia | done |].
    + unfold spawned, blank. rewrite length_app, length_imap, length_replicate. lia.
    + intros i Hi. destruct (lookup_lt_is_Some_2 fns (Z.to_nat i)) as [f Hf]; [lia |].
      eexists. rewrite lookup_app_l by (unfold spawned; rewrite length_imap; lia).
      unfold spawned. rewrite list_lookup_imap, Hf. split; [done |].
      unfold coro_ok. cbn. split_and!; [lia | by eapply Forall_lookup_1 in Hptr | left].
      split; [done |]. unfold live_prog. cbn. eauto.
  - unfold queue. cbn [coros current coro_count g].
    rewrite <- (spawned_queue fns (blank (8 - length fns))). f_equal.
    unfold rot. apply list_eq. intros k. rewrite list_lookup_fmap.
    destruct (decide (Z.of_nat k < Z.of_nat (length fns))).
    + rewrite !lookup_seqZ_lt by lia. cbn. f_equal. rewrite Z.mod_small; lia.
    + rewrite !lookup_seqZ_ge by lia. done.
Qed.

(** A run of the scheduler on freshly spawned coroutines. *)
Lemma run_spawned fns fuel :
  Forall (fun f => f.2 <> 0) fns -> (1 <= length fns <= 8)%nat ->
  (work (initial_queue fns) < fuel)%nat ->
  exists g g', spawn_all fns (done_spawn finish_trampoline static_globals) = Ok g /\
    scheduler_run fuel g = Ok g' /\
    out g' = snd <$> round_robin (work (initial_queue fns)) (initial_queue fns) /\
    wf g' /\ queue g' = [] /\ coro_count g' = Z.of_nat (length fns) /\
    free_coros_stacks g' = snd <$> fns.
Proof.
  intros Hptr Hlen Hfuel. destruct (spawned_state fns Hptr Hlen) as [Hwf Hq].
  pose proof (spawn_all_ok fns [] (-1) (Some finish_trampoline) []) as Hspawn.
  cbn [app length Nat.add] in Hspawn. rewrite Nat.sub_0_r in Hspawn.
  eexists. pose proof (scheduler_loop_queue fuel 0 _ _ Hwf Hq) as Hrun.
  destruct Hrun as (g' & Hrun & Hwf' & Hq' & Hcount & Hstack & Hout); [| done |].
  { unfold initial_queue. rewrite length_imap. cbn [coro_count]. lia. }
  exists g'. split; [apply Hspawn; lia |]. split_and!; try done.
  unfold free_coros_stacks. rewrite fmap_take, Hcount, Hstack. cbn [coros coro_count].
  rewrite Nat2Z.id, <- fmap_take, take_app_length' by (unfold spawned; by rewrite length_imap).
  unfold spawned. rewrite fmap_imap. apply list_eq. intros k.
  rewrite list_lookup_imap, list_lookup_fmap. by destruct (fns !! k).
Qed.

Lemma queue_nil_done g i : wf g -> queue g = [] -> 0 <= i < coro_count g ->
  exists c, coros g !! Z.to_nat i = Some c /\ state c = CORO_DONE.
Proof.
  intros Hwf Hq Hi. destruct (wf_coros g Hwf i Hi) as (c & Hc & Hok).
  exists c. split; [done |]. destruct Hok as (Hid & Hst & [[Hs [p Hp]] | Hs]); [| done].
  exfalso. pose proof (wf_current g Hwf).
  assert (Hin : (i, p) ∈ queue g).
  { unfold queue. apply list_elem_of_omap. exists i. split.
    - unfold rot. apply list_elem_of_fmap. destruct (decide (i <= current g)).
      + exists (i - current g + coro_count g). split; [| apply elem_of_seqZ; lia].
        replace (current g + (i - current g + coro_count g)) with (i + 1 * coro_count g) by lia.
        by rewrite Z.mod_add, Z.mod_small by lia.
      + exists (i - current g). split; [| apply elem_of_seqZ; lia].
        replace (current g + (i - current g)) with i by lia. by rewrite Z.mod_small by lia.
    - unfold live_at. rewrite Hc. cbn. by rewrite Hp. }
  rewrite Hq in Hin. by apply not_elem_of_nil in Hin.
Qed.

(** All the lines of a coroutine, in its own order. *)
Fixpoint output (p : prog) : list line :=
  match p with
  | Printf l k => l :: output k
  | Yield k => output k
  | Return => []
  end.

Definition lines_of (i : Z) (t : list (Z * line)) : list line :=
  snd <$> filter (fun x => x.1 = i) t.

Lemma output_segment p :
  output p = (segment p).1 ++ match (segment p).2 with Some k => output k | None => [] end.
Proof.
  induction p as [l k IH | k _ |]; [| done..]. cbn [segment output].
  rewrite IH. by destruct (segment k).
Qed.

Lemma lines_of_app i t1 t2 : lines_of i (t1 ++ t2) = lines_of i t1 ++ lines_of i t2.
Proof. unfold lines_of. by rewrite list.filter_app, fmap_app. Qed.

Lemma lines_of_tag i j ls : lines_of i ((fun l => (j, l)) <$> ls) = if decide (j = i) then ls else [].
Proof.
  induction ls as [| l ls IH]; [by case_decide |].
  unfold lines_of in *. rewrite fmap_cons, filter_cons. cbn [fst].
  case_decide; cbn; by rewrite IH.
Qed.

Lemma filter_none {A} (P : A -> Prop) `{!forall x, Decision (P x)} l :
  Forall (fun x => ~ P x) l -> filter P l = [].
Proof. induction 1 as [| x l Hx _ IH]; [done |]. by rewrite filter_cons, decide_False. Qed.

Lemma round_robin_order fuel : forall q i,
  NoDup q.*1 -> (work q <= fuel)%nat ->
  lines_of i (round_robin fuel q) = concat (output <$> (snd <$> filter (fun x => x.1 = i) q)).
Proof.
  induction fuel as [| fuel IH]; intros q i Hnd Hfuel.
  - destruct q as [| [j p] q]; [done |]. rewrite work_turn in Hfuel. lia.
  - destruct q as [| [j p] q]; [done |]. cbn [round_robin].
    rewrite work_turn in Hfuel. cbn in Hnd. apply list.NoDup_cons in Hnd as [Hj Hnd].
    rewrite lines_of_app, lines_of_tag, IH; [| | lia].
    + rewrite list.filter_app, filter_cons. cbn [fst]. rewrite !fmap_app, concat_app.
      assert (Hreq : concat (output <$> (snd <$> filter (fun x => x.1 = i) (requeue j (segment p).2))) =
        if decide (j = i) then match (segment p).2 with Some k => output k | None => [] end else []).
      { destruct (segment p).2 as [k |]; [| by case_decide]. cbn [requeue].
        rewrite filter_cons. cbn [fst]. case_decide; cbn; by rewrite ?app_nil_r. }
      rewrite Hreq. case_decide as Hji; [| by rewrite app_nil_r].
      assert (filter (fun x : Z * prog => x.1 = i) q = []) as ->.
      { apply filter_none, list.Forall_forall. intros x Hx <-.
        apply Hj. rewrite Hji. by apply list_elem_of_fmap_2. }
      rewrite fmap_cons. cbn. by rewrite app_nil_r, <- output_segment.
    + rewrite fmap_app. apply list.NoDup_app. split_and!; [done | |].
      * intros x Hx Hx'. destruct (segment p).2; cbn in Hx'; [| by apply not_elem_of_nil in Hx'].
        apply list_elem_of_singleton in Hx' as ->. done.
      * destruct (segment p).2; cbn; [apply NoDup_singleton | apply NoDup_nil_2].
Qed.

Lemma initial_queue_output fns i (f : fn_t * Z) : fns !! i = Some f ->
  concat (output <$> (snd <$> filter (fun x => x.1 = Z.of_nat i) (initial_queue fns))) =
  output (f.1 (Z.of_nat i)).
Proof.
  revert i f. induction fns as [| f' fns IH] using rev_ind; intros i f Hf; [done |].
  unfold initial_queue in *. rewrite imap_app, list.filter_app, !fmap_app, concat_app. cbn [imap].
  rewrite filter_cons, filter_nil. cbn [fst]. rewrite Nat.add_0_r.
  apply lookup_snoc_Some in Hf as [[Hi Hf] | [-> ->]].
  - pose proof (lookup_lt_Some fns i f Hf). rewrite decide_False by lia. cbn. rewrite app_nil_r. auto.
  - rewrite decide_True by done. cbn. rewrite app_nil_r.
    rewrite filter_none; [done |]. apply list.Forall_forall. intros x Hx. apply list_elem_of_lookup in Hx as [k Hk].
    rewrite list_lookup_imap in Hk. apply fmap_Some in Hk as (y & Hy & ->). pose proof (lookup_lt_Some fns k y Hy). cbn.
    lia.
Qed.

(** The queue prints each line of its programs once. *)
Lemma round_robin_lines fuel : forall q, (work q <= fuel)%nat ->
  snd <$> round_robin fuel q ≡ₚ concat ((fun x => output x.2) <$> q).
Proof.
  induction fuel as [| fuel IH]; intros [| [i p] q] Hf; try done; rewrite work_turn in Hf; [lia |].
  cbn [round_robin fmap list_fmap concat snd]. rewrite fmap_app, IH, fmap_app, concat_app by lia.
  rewrite <- list_fmap_compose. replace (snd ∘ (fun l => (i, l)) <$> (segment p).1) with (segment p).1
    by (symmetry; apply list_fmap_id).
  rewrite output_segment, <- app_assoc. f_equiv. rewrite (Permutation_app_comm (concat _)). f_equiv.
  destruct (segment p).2; cbn; by rewrite ?app_nil_r.
Qed.

(** Every line is printed by a coroutine of the queue. *)
Lemma round_robin_tags (P : Z -> Prop) fuel : forall q,
  Forall (fun x => P x.1) q -> Forall (fun x => P x.1) (round_robin fuel q).
Proof.
  induction fuel as [| fuel IH]; intros [| [i p] q] Hq; cbn [round_robin]; try constructor.
  apply list.Forall_cons in Hq as [Hi Hq]. apply Forall_app. split.
  - apply Forall_fmap. by apply list.Forall_true.
  - apply IH, Forall_app. split; [done |]. destruct (segment p).2; by repeat constructor.
Qed.

Lemma initial_queue_tags fns :
  Forall (fun x => 0 <= x.1 < Z.of_nat (length fns)) (initial_queue fns).
Proof.
  apply list.Forall_forall. intros x [k Hk]%list_elem_of_lookup. unfold initial_queue in Hk.
  rewrite list_lookup_imap in Hk. apply fmap_Some in Hk as (y & Hy%lookup_lt_Some & ->). cbn. lia.
Qed.

Lemma initial_queue_NoDup fns : NoDup (initial_queue fns).*1.
Proof.
  unfold initial_queue. rewrite fmap_imap. apply NoDup_alt. intros i j x.
  rewrite !list_lookup_imap. intros (? & _ & ->)%fmap_Some (? & _ & Heq)%fmap_Some. cbn in Heq. lia.
Qed.

(** ** Properties *)

(** C19. The scheduler refines the queue: for between one and eight spawned
    functions whose stacks were allocated, and a bound on the number of
    turns, [scheduler_run] returns; the lines printed are those of the
    round-robin run of the queue, every coroutine is done, and the stacks
    freed are the ones allocated, in order. *)
Theorem scheduler_round_robin fns fuel :
  Forall (fun f => f.2 <> 0) fns -> (1 <= length fns <= 8)%nat ->
  (work (initial_queue fns) < fuel)%nat ->
  exists g g', spawn_all fns (done_spawn finish_trampoline static_globals) = Ok g /\
    scheduler_run fuel g = Ok g' /\
    out g' = snd <$> round_robin (work (initial_queue fns)) (initial_queue fns) /\
    (forall i, 0 <= i < Z.of_nat (length fns) ->
       exists c, coros g' !! Z.to_nat i = Some c /\ state c = CORO_DONE) /\
    free_coros_stacks g' = snd <$> fns.
Proof.
  intros Hptr Hlen Hfuel.
  destruct (run_spawned fns fuel Hptr Hlen Hfuel) as (g & g' & Hs & Hr & Ho & Hwf & Hq & Hc & Hf).
  exists g, g'. split_and!; try done. intros i Hi. rewrite <- Hc in Hi. by apply queue_nil_done.
Qed.

(** C20. No coroutine loses, repeats or reorders a line, and nothing else is
    printed.  The lines printed are, up to their order, the lines the
    coroutines' functions print; and they split into the coroutines' own:
    each belongs to one of the spawned coroutines, and those that belong to
    coroutine [i] are exactly the lines its function prints, in its order. *)
Theorem coroutine_output_order fns fuel :
  Forall (fun f => f.2 <> 0) fns -> (1 <= length fns <= 8)%nat ->
  (work (initial_queue fns) < fuel)%nat ->
  exists g g' tagged, spawn_all fns (done_spawn finish_trampoline static_globals) = Ok g /\
    scheduler_run fuel g = Ok g' /\
    out g' ≡ₚ concat (imap (fun i f => output (f.1 (Z.of_nat i))) fns) /\
    out g' = snd <$> tagged /\
    Forall (fun x => 0 <= x.1 < Z.of_nat (length fns)) tagged /\
    (forall i f, fns !! i = Some f ->
      lines_of (Z.of_nat i) tagged = output (f.1 (Z.of_nat i))).
Proof.
  intros Hptr Hlen Hfuel.
  destruct (run_spawned fns fuel Hptr Hlen Hfuel) as (g & g' & Hs & Hr & Ho & _).
  exists g, g', (round_robin (work (initial_queue fns)) (initial_queue fns)).
  split_and!; try done.
  - rewrite Ho, round_robin_lines by done. unfold initial_queue. by rewrite fmap_imap.
  - apply (round_robin_tags (fun i => 0 <= i < _)), initial_queue_tags.
  - intros i f Hf. rewrite round_robin_order by (apply initial_queue_NoDup || done).
    by apply initial_queue_output.
Qed.

(** The program prints the steps of the four workers in rounds, then
    the four ends, then the last line; it frees the four stacks. *)
Theorem main_rounds p0 p1 p2 p3 :
  Forall (fun p => p <> 0) [p0; p1; p2; p3] ->
  main [p0; p1; p2; p3] =
  Ok (0, (i ← [0; 1; 2]; c ← [0; 1; 2; 3]; [Step c i]) ++ (Done <$> [0; 1; 2; 3]) ++ [All_finished],
      [p0; p1; p2; p3]).
Proof.
  intros Hptr. set (fns := (fun p => (worker, p)) <$> [p0; p1; p2; p3]).
  destruct (run_spawned fns 17) as (g & g' & Hs & Hr & Ho & _ & _ & _ & Hf).
  - by apply Forall_fmap.
  - cbn. lia.
  - vm_compute. lia.
  - assert (main [p0; p1; p2; p3] = (
      g ← spawn_all fns (done_spawn finish_trampoline static_globals);
      g ← scheduler_run 17 g;
      Ok (0, out (print All_finished g), free_coros_stacks (print All_finished g)))) as -> by reflexivity.
    rewrite Hs, res_bind_Ok, Hr, res_bind_Ok. cbn [print out]. rewrite Ho.
    unfold free_coros_stacks, print in *. cbn [coros coro_count]. rewrite Hf. vm_compute. done.
Qed.

(** [coro_spawn] does not compare [coro_count] with [MAX_COROUTINES]:
    after any eight spawns, a ninth writes past the end of [coros]. *)
Theorem ninth_spawn_out_of_bounds fns fn ptr :
  length fns = 8%nat ->
  exists g, spawn_all fns (done_spawn finish_trampoline static_globals) = Ok g /\
    coro_count g = MAX_COROUTINES /\ coro_spawn fn ptr g = Fault (OutOfBounds MAX_COROUTINES).
Proof.
  intros Hlen. eexists. split; [apply (spawn_all_ok fns [] (-1) (Some finish_trampoline) []); cbn; lia |].
  cbn [length Nat.add coro_count]. rewrite Hlen. split; [done |].
  unfold coro_spawn, set_coro. cbn [coros coro_count].
  rewrite wr_oob; [done |]. unfold spawned. cbn. rewrite length_app, length_imap. cbn. lia.
Qed.

(** *** Witnesses *)

(** One coroutine that never yields beside a worker. *)
Definition two_fns : list (fn_t * Z) :=
  [(worker, 10); ((fun id => Printf (Step id 7) Return), 20)].

Lemma two_fns_ptr : Forall (fun f => f.2 <> 0) two_fns.
Proof. by repeat constructor. Qed.

Lemma scheduler_round_robin_witness :
  exists g g', spawn_all two_fns (done_spawn finish_trampoline static_globals) = Ok g /\
    scheduler_run 6 g = Ok g' /\
    out g' = [Step 0 0; Step 1 7; Step 0 1; Step 0 2; Done 0] /\
    (forall i, 0 <= i < 2 -> exists c, coros g' !! Z.to_nat i = Some c /\ state c = CORO_DONE) /\
    free_coros_stacks g' = [10; 20].
Proof. apply (scheduler_round_robin two_fns 6 two_fns_ptr); cbn; lia. Defined.

Lemma coroutine_output_order_witness :
  exists g g' tagged, spawn_all two_fns (done_spawn finish_trampoline static_globals) = Ok g /\
    scheduler_run 6 g = Ok g' /\
    out g' ≡ₚ [Step 0 0; Step 0 1; Step 0 2; Done 0; Step 1 7] /\
    out g' = snd <$> tagged /\ Forall (fun x => 0 <= x.1 < 2) tagged /\
    forall i f, two_fns !! i = Some f ->
      lines_of (Z.of_nat i) tagged = output (f.1 (Z.of_nat i)).
Proof. apply (coroutine_output_order two_fns 6 two_fns_ptr); cbn; lia. Defined.

Lemma main_rounds_witness : exists r, main [4096; 8192; 12288; 16384] = Ok r /\ r.1.1 = 0.
Proof.
  eexists. split; [apply (main_rounds 4096 8192 12288 16384); repeat constructor; lia | done].
Defined.

Lemma ninth_spawn_out_of_bounds_witness :
  exists g, spawn_all (replicate 8 (worker, 1)) (done_spawn finish_trampoline static_globals) = Ok g /\
    coro_count g = MAX_COROUTINES /\ coro_spawn worker 1 g = Fault (OutOfBounds MAX_COROUTINES).
Proof. apply (ninth_spawn_out_of_bounds (replicate 8 (worker, 1)) worker 1). reflexivity. Defined.
