(* ===== verification/Elf.v ===== *)
(** * Elf

    The ELF64 inspector of 12-elf-inspector/main.c.  The mapping is a list of
    bytes (the file, and the zeros that fill its last page); a pointer into
    it is an index, and a load outside it faults.  An index is not cut to 64
    bits: a pointer outside the mapping is undefined in C, whether or not its
    address wraps, so it does not matter what a wrapped one would read.  The
    structs are read in the host's byte order; the program accepts
    little-endian files only. *)

From S2P Require Import Prelude.

(** ** Loads from the mapping *)

Section elf.
Context {host : ByteOrder}.

Fixpoint rds (mem : list Z) (i : Z) (n : nat) : res (list Z) :=
  match n with
  | O => Ok []
  | S n' => b ← rd mem i; bs ← rds mem (i + 1) n'; Ok (b :: bs)
  end.

Definition load (n : nat) (mem : list Z) (i : Z) : res Z :=
  bs ← rds mem i n; Ok (get bs).

(** What [%s] prints for the pointer [i]. *)
Definition c_str (mem : list Z) (i : Z) : res (list Z) :=
  if (0 <=? i) && (i <? Z.of_nat (length mem)) then c_string (drop (Z.to_nat i) mem)
  else Fault (OutOfBounds i).

(** ** The structs of elf.h: size, and offset and width of the fields read *)

Definition e_phoff (mem : list Z) : res Z := load 8 mem 32.
Definition e_shoff (mem : list Z) : res Z := load 8 mem 40.
Definition e_phnum (mem : list Z) : res Z := load 2 mem 56.
Definition e_shnum (mem : list Z) : res Z := load 2 mem 60.
Definition e_shstrndx (mem : list Z) : res Z := load 2 mem 62.

Definition sizeof_Shdr : Z := 64.
Definition sh_name (mem : list Z) (p : Z) : res Z := load 4 mem p.
Definition sh_type (mem : list Z) (p : Z) : res Z := load 4 mem (p + 4).
Definition sh_flags (mem : list Z) (p : Z) : res Z := load 8 mem (p + 8).
Definition sh_offset (mem : list Z) (p : Z) : res Z := load 8 mem (p + 24).
Definition sh_size (mem : list Z) (p : Z) : res Z := load 8 mem (p + 32).
Definition sh_link (mem : list Z) (p : Z) : res Z := load 4 mem (p + 40).
Definition sh_entsize (mem : list Z) (p : Z) : res Z := load 8 mem (p + 56).

Definition sizeof_Phdr : Z := 56.
Definition p_type (mem : list Z) (p : Z) : res Z := load 4 mem p.
Definition p_flags (mem : list Z) (p : Z) : res Z := load 4 mem (p + 4).
Definition p_offset (mem : list Z) (p : Z) : res Z := load 8 mem (p + 8).
Definition p_vaddr (mem : list Z) (p : Z) : res Z := load 8 mem (p + 16).
Definition p_filesz (mem : list Z) (p : Z) : res Z := load 8 mem (p + 32).
Definition p_memsz (mem : list Z) (p : Z) : res Z := load 8 mem (p + 40).

Definition sizeof_Sym : Z := 24.
Definition st_name (mem : list Z) (p : Z) : res Z := load 4 mem p.
Definition st_info (mem : list Z) (p : Z) : res Z := load 1 mem (p + 4).
Definition st_value (mem : list Z) (p : Z) : res Z := load 8 mem (p + 8).
Definition st_size (mem : list Z) (p : Z) : res Z := load 8 mem (p + 16).

Definition ELF64_ST_BIND (info : Z) : Z := Z.shiftr info 4.
Definition ELF64_ST_TYPE (info : Z) : Z := Z.land info 0xf.

(** ** Names of types *)

Definition sh_type_str (type : Z) : string :=
  if type =? 0 then "NULL"
  else if type =? 1 then "PROGBITS"
  else if type =? 2 then "SYMTAB"
  else if type =? 3 then "STRTAB"
  else if type =? 4 then "RELA"
  else if type =? 5 then "HASH"
  else if type =? 6 then "DYNAMIC"
  else if type =? 7 then "NOTE"
  else if type =? 8 then "NOBITS"
  else if type =? 9 then "REL"
  else if type =? 11 then "DYNSYM"
  else "OTHER".

Definition pt_type_str (type : Z) : string :=
  if type =? 0 then "NULL"
  else if type =? 1 then "LOAD"
  else if type =? 2 then "DYNAMIC"
  else if type =? 3 then "INTERP"
  else if type =? 4 then "NOTE"
  else if type =? 6 then "PHDR"
  else if type =? 7 then "TLS"
  else "OTHER".

Definition stt_type_str (stype : Z) : string :=
  if stype =? 2 then "FUNC"
  else if stype =? 1 then "OBJECT"
  else if stype =? 0 then "NOTYPE"
  else "OTHER".

Definition PF_X : Z := 1.
Definition PF_W : Z := 2.
Definition PF_R : Z := 4.

(** [char flags\[4\]], without its terminator. *)
Definition flags_str (p_flags : Z) : list Z :=
  let flags := chars "---" in
  let flags := if Z.land p_flags PF_R =? 0 then flags else <[0%nat := 114]> flags in
  let flags := if Z.land p_flags PF_W =? 0 then flags else <[1%nat := 119]> flags in
  if Z.land p_flags PF_X =? 0 then flags else <[2%nat := 120]> flags.

(** ** Output and system calls *)

Inductive event :=
| Open (fd : Z)
| Mmap (size : Z)
| Munmap (size : Z)
| Close (fd : Z)
| Usage
| Perror (msg : string)
| Stderr (msg : string)
| Sections
| Section_row (i : Z) (name : list Z) (type : string) (offset size flags : Z)
| Segments
| Segment_row (type : string) (vaddr offset filesz memsz : Z) (flags : list Z)
| Symbols
| Symbol_head
| Symbol_row (name : list Z) (type : string) (value size : Z)
| No_symtab.

(** ** The three tables *)

Definition section_row (mem : list Z) (shdrs shstrtab_data i : Z) (_ : ()) : M (list event) () :=
  let sh := shdrs + sizeof_Shdr * i in
  n ← lift (sh_name mem sh);
  t ← lift (sh_type mem sh);
  o ← lift (sh_offset mem sh);
  s ← lift (sh_size mem sh);
  f ← lift (sh_flags mem sh);
  name ← lift (c_str mem (shstrtab_data + n));
  tell (Section_row i name (sh_type_str t) o s f).

Definition segment_row (mem : list Z) (phdrs i : Z) (_ : ()) : M (list event) () :=
  let ph := phdrs + sizeof_Phdr * i in
  fl ← lift (p_flags mem ph);
  t ← lift (p_type mem ph);
  v ← lift (p_vaddr mem ph);
  o ← lift (p_offset mem ph);
  fs ← lift (p_filesz mem ph);
  ms ← lift (p_memsz mem ph);
  tell (Segment_row (pt_type_str t) v o fs ms (flags_str fl)).

Definition symbol_row (mem : list Z) (syms strtab j : Z) (_ : ()) : M (list event) () :=
  let sym := syms + sizeof_Sym * j in
  info ← lift (st_info mem sym);
  if negb (ELF64_ST_BIND info =? 1) then mret ()
  else
    n ← lift (st_name mem sym);
    v ← lift (st_value mem sym);
    s ← lift (st_size mem sym);
    sym_name ← lift (c_str mem (strtab + n));
    tell (Symbol_row sym_name (stt_type_str (ELF64_ST_TYPE info)) v s).

(** One round of the [.symtab] loop; the result is [found_symtab]. *)
Definition symtab_round (mem : list Z) (shdrs i : Z) (found_symtab : bool) : M (list event) bool :=
  let sh := shdrs + sizeof_Shdr * i in
  t ← lift (sh_type mem sh);
  if negb (t =? 2) then mret found_symtab
  else
    entsize ← lift (sh_entsize mem sh);
    if entsize =? 0 then mret true
    else
      link ← lift (sh_link mem sh);
      strtab ← lift (sh_offset mem (shdrs + sizeof_Shdr * link));
      size ← lift (sh_size mem sh);
      let count := size / entsize in
      syms ← lift (sh_offset mem sh);
      tell Symbol_head;;
      c_for (S (length mem)) 0 count (symbol_row mem syms strtab) ();;
      mret true.

(** Lines 91-147. *)
Definition report (mem : list Z) : M (list event) () :=
  shdrs ← lift (e_shoff mem);
  phdrs ← lift (e_phoff mem);
  tell Sections;;
  strndx ← lift (e_shstrndx mem);
  shstrtab_data ← lift (sh_offset mem (shdrs + sizeof_Shdr * strndx));
  shnum ← lift (e_shnum mem);
  c_for (Z.to_nat shnum) 0 shnum (section_row mem shdrs shstrtab_data) ();;
  tell Segments;;
  phnum ← lift (e_phnum mem);
  c_for (Z.to_nat phnum) 0 phnum (segment_row mem phdrs) ();;
  tell Symbols;;
  found_symtab ← c_for (Z.to_nat shnum) 0 shnum (symtab_round mem shdrs) false;
  if found_symtab : bool then mret () else tell No_symtab.

Definition ELFMAG : list Z := [0x7f; 69; 76; 70].

(** [open], [fstat] (the file's size) and [mmap] (the memory mapped) are
    the system's answers; [None] is a failure. *)
Definition main (argc : Z) (open fstat : option Z) (mmap : option (list Z)) : M (list event) Z :=
  if negb (argc =? 2) then tell Usage;; mret 1
  else
    match open with
    | None => tell (Perror "Could not open ELF file.");; mret 1
    | Some fd =>
        tell (Open fd);;
        match fstat with
        | None => tell (Perror "Could not get fstats");; mret 1
        | Some size =>
            match mmap with
            | None => tell (Perror "mmap failed");; tell (Close fd);; mret 1
            | Some mem =>
                tell (Mmap size);;
                let leave code := tell (Munmap size);; tell (Close fd);; mret code in
                ident ← lift (rds mem 0 4);
                if negb (bool_decide (ident = ELFMAG)) then tell (Stderr "Not an ELF file");; leave 1
                else
                  class ← lift (rd mem 4);
                  if negb (class =? 2) then tell (Stderr "Not a 64-bit ELF");; leave 1
                  else
                    data ← lift (rd mem 5);
                    if negb (data =? 1) then tell (Stderr "Not little-endian ELF");; leave 1
                    else report mem;; leave 0
            end
        end
    end.

(** ** Specification: the tables of a file *)

Record Elf64_Ehdr := mkEhdr {
  ident : list Z; type_ : Z; machine : Z; version : Z; entry : Z; phoff : Z; shoff : Z;
  eflags : Z; ehsize : Z; phentsize : Z; phnum : Z; shentsize : Z; shnum : Z; shstrndx : Z
}.

Record Elf64_Shdr := mkShdr {
  name_ : Z; stype : Z; flags : Z; addr : Z; offset : Z; size : Z; link : Z; info : Z;
  addralign : Z; entsize : Z
}.

Record Elf64_Phdr := mkPhdr {
  ptype : Z; pflags : Z; poffset : Z; vaddr : Z; paddr : Z; filesz : Z; memsz : Z; palign : Z
}.

Record Elf64_Sym := mkSym {
  sname : Z; sinfo : Z; other : Z; shndx : Z; value : Z; ssize : Z
}.

(** A struct in memory: its fields, each with its width in bytes. *)
Definition layout : Type := list (nat * Z).

Definition struct_wire (s : layout) : list Z := concat ((fun f => put f.1 f.2) <$> s).

Definition ehdr_fields (h : Elf64_Ehdr) : layout :=
  [(2, type_ h); (2, machine h); (4, version h); (8, entry h); (8, phoff h); (8, shoff h);
   (4, eflags h); (2, ehsize h); (2, phentsize h); (2, phnum h); (2, shentsize h);
   (2, shnum h); (2, shstrndx h)]%nat.

Definition shdr_fields (s : Elf64_Shdr) : layout :=
  [(4, name_ s); (4, stype s); (8, flags s); (8, addr s); (8, offset s); (8, size s);
   (4, link s); (4, info s); (8, addralign s); (8, entsize s)]%nat.

Definition phdr_fields (p : Elf64_Phdr) : layout :=
  [(4, ptype p); (4, pflags p); (8, poffset p); (8, vaddr p); (8, paddr p); (8, filesz p);
   (8, memsz p); (8, palign p)]%nat.

Definition sym_fields (s : Elf64_Sym) : layout :=
  [(4, sname s); (1, sinfo s); (1, other s); (2, shndx s); (8, value s); (8, ssize s)]%nat.

Definition field_ok (f : nat * Z) : Prop := 0 <= f.2 < 256 ^ Z.of_nat f.1.

Definition struct_at (mem : list Z) (p : Z) (s : layout) : Prop :=
  stored mem p (struct_wire s) /\ Forall field_ok s.

Definition string_at (mem : list Z) (p : Z) (s : list Z) : Prop :=
  stored mem p (s ++ [0]) /\ c_chars s.

(** A section: its header, its name and, for a symbol table, its symbols
    with their names. *)
Record section := mkSection {
  hdr : Elf64_Shdr; name : list Z; symbols : list (Elf64_Sym * list Z)
}.

Record file := mkFile {
  ehdr : Elf64_Ehdr; sections : list section; segments : list Elf64_Phdr
}.

Definition is_global (s : Elf64_Sym) : bool := ELF64_ST_BIND (sinfo s) =? 1.

Definition SHT_SYMTAB : Z := 2.

(** The memory [mem] holds the file [f]: the tables have the entry sizes of
    the format, the symbol tables included. *)
Record describes (mem : list Z) (f : file) : Prop := {
  d_ident : stored mem 0 (ident (ehdr f));
  d_ident_length : length (ident (ehdr f)) = 16%nat;
  d_ehdr : struct_at mem 16 (ehdr_fields (ehdr f));
  d_shentsize : shentsize (ehdr f) = 64;
  d_phentsize : segments f <> [] -> phentsize (ehdr f) = 56;
  d_shnum : shnum (ehdr f) = Z.of_nat (length (sections f));
  d_phnum : phnum (ehdr f) = Z.of_nat (length (segments f));
  d_shdr i s : sections f !! i = Some s ->
    struct_at mem (shoff (ehdr f) + 64 * Z.of_nat i) (shdr_fields (hdr s));
  d_phdr i p : segments f !! i = Some p ->
    struct_at mem (phoff (ehdr f) + 56 * Z.of_nat i) (phdr_fields p);
  d_names : exists strtab, sections f !! Z.to_nat (shstrndx (ehdr f)) = Some strtab /\
    forall i s, sections f !! i = Some s ->
      string_at mem (offset (hdr strtab) + name_ (hdr s)) (name s);
  d_symbols i s : sections f !! i = Some s -> stype (hdr s) = SHT_SYMTAB ->
    entsize (hdr s) = 24 /\ size (hdr s) = 24 * Z.of_nat (length (symbols s)) /\
    exists strtab, sections f !! Z.to_nat (link (hdr s)) = Some strtab /\
    forall j sym n, symbols s !! j = Some (sym, n) ->
      struct_at mem (offset (hdr s) + 24 * Z.of_nat j) (sym_fields sym) /\
      (is_global sym = true -> string_at mem (offset (hdr strtab) + sname sym) n)
}.

(** What the program prints for a file. *)
Definition section_events (i : Z) (s : section) : list event :=
  [Section_row i (name s) (sh_type_str (stype (hdr s))) (offset (hdr s)) (size (hdr s)) (flags (hdr s))].

Definition segment_events (i : Z) (p : Elf64_Phdr) : list event :=
  [Segment_row (pt_type_str (ptype p)) (vaddr p) (poffset p) (filesz p) (memsz p) (flags_str (pflags p))].

Definition symbol_events (j : Z) (x : Elf64_Sym * list Z) : list event :=
  if is_global x.1
  then [Symbol_row x.2 (stt_type_str (ELF64_ST_TYPE (sinfo x.1))) (value x.1) (ssize x.1)]
  else [].

Definition symtab_events (i : Z) (s : section) : list event :=
  if stype (hdr s) =? SHT_SYMTAB
  then Symbol_head :: concat (imap (fun j x => symbol_events (Z.of_nat j) x) (symbols s))
  else [].

Definition is_symtab (s : section) : bool := stype (hdr s) =? SHT_SYMTAB.

Definition file_report (f : file) : list event :=
  [Sections] ++ concat (imap (fun i s => section_events (Z.of_nat i) s) (sections f)) ++
  [Segments] ++ concat (imap (fun i p => segment_events (Z.of_nat i) p) (segments f)) ++
  [Symbols] ++ concat (imap (fun i s => symtab_events (Z.of_nat i) s) (sections f)) ++
  (if existsb is_symtab (sections f) then [] else [No_symtab]).

(** ** Loads from a described file *)

Lemma rds_stored mem bs : forall i, stored mem i bs -> rds mem i (length bs) = Ok bs.
Proof.
  induction bs as [| b bs IH]; intros i H; [done |].
  apply stored_cons in H as [Hb%rd_stored Hbs]. cbn [rds length].
  by rewrite Hb, res_bind_Ok, IH.
Qed.

Lemma load_put mem i n z : stored mem i (put n z) -> 0 <= z < 256 ^ Z.of_nat n -> load n mem i = Ok z.
Proof.
  intros H Hz. unfold load. rewrite <- (put_length n z) at 1.
  rewrite rds_stored, res_bind_Ok by done. by rewrite get_put.
Qed.

Lemma load_out mem i n : Z.of_nat (length mem) <= i -> (0 < n)%nat ->
  load n mem i = Fault (OutOfBounds i).
Proof.
  intros Hi Hn. destruct n as [| n]; [lia |]. unfold load. cbn [rds].
  by rewrite (rd_oob mem i) by lia.
Qed.

Definition field_off (fs : layout) (k : nat) : Z := Z.of_nat (sum_list (fst <$> take k fs)).

Lemma struct_wire_length fs : length (struct_wire fs) = sum_list (fst <$> fs).
Proof.
  unfold struct_wire. induction fs as [| f fs IH]; [done |]. cbn.
  by rewrite length_app, put_length, <- IH.
Qed.

Lemma load_field mem p fs k n z i :
  struct_at mem p fs -> fs !! k = Some (n, z) -> i = p + field_off fs k -> load n mem i = Ok z.
Proof.
  intros [Hs Hok] Hk ->. pose proof (Forall_lookup_1 _ _ _ _ Hok Hk) as Hz.
  apply load_put; [| done]. rewrite <- (take_drop_middle _ _ _ Hk) in Hs.
  unfold struct_wire in Hs. rewrite fmap_app, concat_app, fmap_cons in Hs. cbn in Hs.
  apply stored_app in Hs as [_ Hs]. apply stored_app in Hs as [Hs _].
  fold (struct_wire (take k fs)) in Hs. by rewrite struct_wire_length in Hs.
Qed.

Ltac field H k := apply (load_field _ _ _ k _ _ _ H); [reflexivity | unfold field_off; cbn; lia].

Lemma ehdr_loads mem h : struct_at mem 16 (ehdr_fields h) ->
  e_phoff mem = Ok (phoff h) /\ e_shoff mem = Ok (shoff h) /\ e_phnum mem = Ok (phnum h) /\
  e_shnum mem = Ok (shnum h) /\ e_shstrndx mem = Ok (shstrndx h).
Proof. intros H. split_and!; [field H 4%nat | field H 5%nat | field H 9%nat | field H 11%nat | field H 12%nat]. Qed.

Lemma shdr_loads mem p s : struct_at mem p (shdr_fields s) ->
  sh_name mem p = Ok (name_ s) /\ sh_type mem p = Ok (stype s) /\ sh_flags mem p = Ok (flags s) /\
  sh_offset mem p = Ok (offset s) /\ sh_size mem p = Ok (size s) /\ sh_link mem p = Ok (link s) /\
  sh_entsize mem p = Ok (entsize s).
Proof.
  intros H. split_and!; [field H 0%nat | field H 1%nat | field H 2%nat | field H 4%nat
    | field H 5%nat | field H 6%nat | field H 9%nat].
Qed.

Lemma phdr_loads mem p s : struct_at mem p (phdr_fields s) ->
  p_type mem p = Ok (ptype s) /\ p_flags mem p = Ok (pflags s) /\ p_offset mem p = Ok (poffset s) /\
  p_vaddr mem p = Ok (vaddr s) /\ p_filesz mem p = Ok (filesz s) /\ p_memsz mem p = Ok (memsz s).
Proof.
  intros H. split_and!; [field H 0%nat | field H 1%nat | field H 2%nat | field H 3%nat
    | field H 5%nat | field H 6%nat].
Qed.

Lemma sym_loads mem p s : struct_at mem p (sym_fields s) ->
  st_name mem p = Ok (sname s) /\ st_info mem p = Ok (sinfo s) /\ st_value mem p = Ok (value s) /\
  st_size mem p = Ok (ssize s).
Proof. intros H. split_and!; [field H 0%nat | field H 1%nat | field H 4%nat | field H 5%nat]. Qed.

Lemma c_str_at mem p s : string_at mem p s -> c_str mem p = Ok s.
Proof.
  intros [Hs Hc]. pose proof (stored_nonneg _ _ _ Hs). pose proof (stored_bound _ _ _ Hs) as Hb.
  rewrite length_app in Hb. cbn in Hb. unfold c_str. if_true.
  destruct Hs as (l & r & -> & ->). rewrite Nat2Z.id, drop_app_length, <- app_assoc.
  by apply c_string_Ok.
Qed.

(** ** Rows *)

Lemma section_row_ok mem shdrs shstr i s a out :
  struct_at mem (shdrs + 64 * i) (shdr_fields (hdr s)) -> string_at mem (shstr + name_ (hdr s)) (name s) ->
  section_row mem shdrs shstr i a out = Ok ((), out ++ section_events i s).
Proof.
  intros (H1 & H2 & H3 & H4 & H5 & _)%shdr_loads Hn%c_str_at. unfold section_row, sizeof_Shdr.
  by repeat (erewrite lift_bind_Ok by eassumption).
Qed.

Lemma segment_row_ok mem phdrs i p a out :
  struct_at mem (phdrs + 56 * i) (phdr_fields p) ->
  segment_row mem phdrs i a out = Ok ((), out ++ segment_events i p).
Proof.
  intros (H1 & H2 & H3 & H4 & H5 & H6)%phdr_loads. unfold segment_row, sizeof_Phdr.
  by repeat (erewrite lift_bind_Ok by eassumption).
Qed.

Lemma symbol_row_ok mem syms strtab j x a out :
  struct_at mem (syms + 24 * j) (sym_fields x.1) ->
  (is_global x.1 = true -> string_at mem (strtab + sname x.1) x.2) ->
  symbol_row mem syms strtab j a out = Ok ((), out ++ symbol_events j x).
Proof.
  intros (H1 & H2 & H3 & H4)%sym_loads Hn. unfold symbol_row, sizeof_Sym, symbol_events.
  erewrite lift_bind_Ok by eassumption. unfold is_global in *.
  destruct (ELF64_ST_BIND (sinfo x.1) =? 1); cbn [negb]; [| by rewrite app_nil_r].
  specialize (Hn eq_refl). apply c_str_at in Hn. by repeat (erewrite lift_bind_Ok by eassumption).
Qed.

Lemma struct_at_bound mem p fs : struct_at mem p fs ->
  0 <= p /\ p + Z.of_nat (sum_list (fst <$> fs)) <= Z.of_nat (length mem).
Proof.
  intros [Hs _]. rewrite <- struct_wire_length. split; [by eapply stored_nonneg | by apply stored_bound].
Qed.

Lemma fold_left_unit {X} (xs : list X) : fold_left (fun a _ => a) xs () = ().
Proof. by destruct (fold_left _ _ _). Qed.

Lemma file_shdr mem f i s : describes mem f -> sections f !! i = Some s ->
  struct_at mem (shoff (ehdr f) + 64 * Z.of_nat i) (shdr_fields (hdr s)).
Proof. intros Hd. apply Hd. Qed.

(** A field of a section header is unsigned, hence a list index. *)
Lemma shdr_lookup mem f z s : describes mem f -> 0 <= z -> sections f !! Z.to_nat z = Some s ->
  struct_at mem (shoff (ehdr f) + 64 * z) (shdr_fields (hdr s)).
Proof. intros Hd Hz Hs. rewrite <- (Z2Nat.id z) by done. by eapply file_shdr. Qed.

Lemma field_nonneg mem p fs k n z : struct_at mem p fs -> fs !! k = Some (n, z) -> 0 <= z.
Proof. intros [_ Hok] Hk. pose proof (Forall_lookup_1 _ _ _ _ Hok Hk) as []. done. Qed.

Lemma symbols_loop mem f i s strtab out :
  describes mem f -> sections f !! i = Some s ->
  size (hdr s) / entsize (hdr s) = Z.of_nat (length (symbols s)) ->
  (forall j sym n, symbols s !! j = Some (sym, n) ->
     struct_at mem (offset (hdr s) + 24 * Z.of_nat j) (sym_fields sym) /\
     (is_global sym = true -> string_at mem (offset (hdr strtab) + sname sym) n)) ->
  c_for (S (length mem)) 0 (size (hdr s) / entsize (hdr s))
    (symbol_row mem (offset (hdr s)) (offset (hdr strtab))) () out =
  Ok ((), out ++ concat (imap (fun j x => symbol_events (Z.of_nat j) x) (symbols s))).
Proof.
  intros Hd Hs -> Hsyms.
  rewrite (c_for_list (symbols s) symbol_events (fun _ a => a)).
  - by rewrite fold_left_unit.
  - done.
  - destruct (symbols s) as [| x l _] using rev_ind; cbn; [lia |].
    rewrite length_app. cbn. destruct x as [sym n].
    destruct (Hsyms (length l) sym n) as [Hsym%struct_at_bound _].
    { by rewrite list_lookup_middle. }
    pose proof (field_nonneg mem _ _ 4 8 (offset (hdr s)) (file_shdr _ _ _ _ Hd Hs) eq_refl). lia.
  - intros k [sym n] [] o Hk. destruct (Hsyms _ _ _ Hk). by apply symbol_row_ok.
Qed.

Lemma symtab_round_ok mem f i s found out :
  describes mem f -> sections f !! i = Some s ->
  symtab_round mem (shoff (ehdr f)) (Z.of_nat i) found out =
  Ok (is_symtab s || found, out ++ symtab_events (Z.of_nat i) s).
Proof.
  intros Hd Hs. pose proof (file_shdr _ _ _ _ Hd Hs) as Hsh.
  pose proof (field_nonneg mem _ _ 6 4 (link (hdr s)) Hsh eq_refl) as Hlink.
  pose proof (d_symbols mem f Hd i s Hs) as Hsyms.
  destruct (shdr_loads _ _ _ Hsh) as (H1 & H2 & H3 & H4 & H5 & H6 & H7).
  unfold symtab_round, symtab_events, is_symtab, sizeof_Shdr, SHT_SYMTAB in *.
  erewrite lift_bind_Ok by eassumption.
  destruct (Z.eqb_spec (stype (hdr s)) 2) as [Ht | Ht]; cbn [negb orb]; [| by rewrite app_nil_r].
  destruct (Hsyms Ht) as (He & Hsize & strtab & Hstr & Hsym).
  assert (Hcount : size (hdr s) / entsize (hdr s) = Z.of_nat (length (symbols s))).
  { rewrite He, Hsize, Z.mul_comm. by apply Z.div_mul. }
  erewrite lift_bind_Ok by eassumption. rewrite (proj2 (Z.eqb_neq (entsize (hdr s)) 0)) by lia.
  destruct (shdr_loads _ _ _ (shdr_lookup _ _ _ _ Hd Hlink Hstr)) as (_ & _ & _ & Hoff & _).
  repeat (erewrite lift_bind_Ok by eassumption).
  rewrite tell_bind.
  rewrite (M_bind_Ok _ _ _ _ _ (symbols_loop _ _ _ _ strtab _ Hd Hs Hcount Hsym)).
  unfold mret, M_ret. by rewrite <- app_assoc.
Qed.

Lemma found_any ss found :
  fold_left (fun a s => is_symtab s || a) ss found = existsb is_symtab ss || found.
Proof.
  revert found. induction ss as [| s ss IH]; intros found; [done |]. cbn. rewrite IH.
  by destruct (is_symtab s), (existsb is_symtab ss).
Qed.

Lemma report_ok mem f out : describes mem f -> report mem out = Ok ((), out ++ file_report f).
Proof.
  intros Hd. destruct (ehdr_loads _ _ (d_ehdr _ _ Hd)) as (H1 & H2 & H3 & H4 & H5).
  destruct (d_names _ _ Hd) as (strtab & Hstr & Hnames).
  pose proof (field_nonneg mem _ _ 12 2 (shstrndx (ehdr f)) (d_ehdr _ _ Hd) eq_refl) as Hndx.
  destruct (shdr_loads _ _ _ (shdr_lookup _ _ _ _ Hd Hndx Hstr)) as (_ & _ & _ & Hoff & _).
  pose proof (d_shnum _ _ Hd) as Hshnum. pose proof (d_phnum _ _ Hd) as Hphnum.
  unfold report, sizeof_Shdr. repeat (erewrite lift_bind_Ok by eassumption).
  rewrite tell_bind.
  repeat (erewrite lift_bind_Ok by eassumption).
  erewrite M_bind_Ok by (apply (c_for_list (sections f) section_events (fun _ a => a)); [lia | lia |
    intros k s [] o Hk; rewrite Z.add_0_l; apply section_row_ok; [by eapply file_shdr | by eapply Hnames]]).
  rewrite tell_bind.
  repeat (erewrite lift_bind_Ok by eassumption).
  erewrite M_bind_Ok by (apply (c_for_list (segments f) segment_events (fun _ a => a)); [lia | lia |
    intros k s [] o Hk; rewrite Z.add_0_l; apply segment_row_ok; by apply (d_phdr _ _ Hd)]).
  rewrite tell_bind.
  erewrite M_bind_Ok by (apply (c_for_list (sections f) symtab_events (fun s a => is_symtab s || a));
    [lia | lia | intros k s a o Hk; rewrite Z.add_0_l; by apply symtab_round_ok]).
  rewrite found_any, orb_false_r. unfold file_report.
  destruct (existsb is_symtab (sections f)); unfold mret, M_ret, tell; rewrite <- !app_assoc; cbn; [| done].
  by rewrite app_nil_r.
Qed.

(** ** Faults *)

(** A fault of a load from the mapping. *)
Definition mem_fault (f : fault) : Prop := f = Unterminated \/ exists i, f = OutOfBounds i.

Definition safe_res {A} (r : res A) : Prop :=
  match r with Ok _ => True | Fault f => mem_fault f end.

(** A line of output, as against a use of the file or the mapping. *)
Definition is_print (e : event) : bool :=
  match e with Open _ | Mmap _ | Munmap _ | Close _ => false | _ => true end.

(** A computation that prints, or faults on a load. *)
Definition safe {A} (m : M (list event) A) : Prop := forall out,
  match m out with
  | Ok (_, out') => exists mid, out' = out ++ mid /\ forallb is_print mid = true
  | Fault f => mem_fault f
  end.

Lemma safe_res_bind {A B} (r : res A) (k : A -> res B) :
  safe_res r -> (forall a, r = Ok a -> safe_res (k a)) -> safe_res (r ≫= k).
Proof. destruct r; cbn; auto. Qed.

Lemma rd_safe {A} (mem : list A) i : safe_res (rd mem i).
Proof. unfold rd, mem_fault. case_if; [cbn; unfold mem_fault; eauto |]. destruct (mem !! _); cbn; unfold mem_fault; eauto. Qed.

Lemma rds_safe mem n : forall i, safe_res (rds mem i n).
Proof.
  induction n as [| n IH]; intros i; cbn [rds]; [done |].
  apply safe_res_bind; [apply rd_safe |]. intros b _. by apply safe_res_bind.
Qed.

Lemma load_safe n mem i : safe_res (load n mem i).
Proof. unfold load. apply safe_res_bind; [apply rds_safe | done]. Qed.

Lemma c_string_safe l : safe_res (c_string l).
Proof.
  induction l as [| c l IH]; cbn [c_string]; [by left |].
  case_if; [done |]. by apply safe_res_bind.
Qed.

Lemma c_str_safe mem i : safe_res (c_str mem i).
Proof. unfold c_str. case_if; [apply c_string_safe | right; eauto]. Qed.

Lemma safe_bind {A B} (m : M (list event) A) (k : A -> M (list event) B) :
  safe m -> (forall a out out', m out = Ok (a, out') -> safe (k a)) -> safe (m ≫= k).
Proof.
  intros Hm Hk out. specialize (Hm out). unfold mbind, M_bind.
  destruct (m out) as [[a s] |] eqn:E; [| done]. specialize (Hk a _ _ E s).
  destruct Hm as (mid & -> & Hmid). destruct (k a (out ++ mid)) as [[a' s'] |]; [| done].
  destruct Hk as (mid' & -> & Hmid'). exists (mid ++ mid').
  by rewrite <- app_assoc, forallb_app, Hmid, Hmid'.
Qed.

Lemma safe_lift_bind {A B} (r : res A) (k : A -> M (list event) B) :
  safe_res r -> (forall a, r = Ok a -> safe (k a)) -> safe (lift r ≫= k).
Proof.
  intros Hr Hk out. unfold mbind, M_bind, lift. destruct r as [a |]; [by apply Hk | done].
Qed.

Lemma safe_ret {A} (a : A) : safe (mret a).
Proof. intros out. exists []. by rewrite app_nil_r. Qed.

Lemma safe_tell e : is_print e = true -> safe (tell e).
Proof. intros He out. exists [e]. cbn. by rewrite He. Qed.

Lemma safe_for {A} (body : Z -> A -> M (list event) A) n :
  (forall i a, safe (body i a)) -> forall fuel i a, n - i <= Z.of_nat fuel -> safe (c_for fuel i n body a).
Proof.
  intros Hbody. induction fuel as [| fuel IH]; intros i a Hfuel; cbn [c_for].
  - if_false. apply safe_ret.
  - case_if; [| apply safe_ret]. apply safe_bind; [done |]. intros a' ? ? _. apply IH. lia.
Qed.

Ltac safe_step := first [apply safe_ret | apply safe_tell; reflexivity | apply safe_lift_bind;
  [first [apply load_safe | apply c_str_safe | apply rd_safe | apply rds_safe] | intros ? ?]
  | apply safe_bind; [| intros ? ? ? _] | case_if].

Lemma section_row_safe mem shdrs shstr i a : safe (section_row mem shdrs shstr i a).
Proof. unfold section_row. repeat safe_step. Qed.

Lemma segment_row_safe mem phdrs i a : safe (segment_row mem phdrs i a).
Proof. unfold segment_row. repeat safe_step. Qed.

Lemma symbol_row_safe mem syms strtab j a : safe (symbol_row mem syms strtab j a).
Proof. unfold symbol_row. repeat safe_step. Qed.

(** A row is printed or skipped only inside the mapping. *)
Lemma symbol_row_inside mem syms strtab j a out r :
  symbol_row mem syms strtab j a out = Ok r -> syms + 24 * j + 4 < Z.of_nat (length mem).
Proof.
  unfold symbol_row, st_info, load, sizeof_Sym. cbn [rds].
  destruct (rd mem (syms + 24 * j + 4)) eqn:E; [| done]. intros _.
  apply (f_equal is_ok), rd_is_ok in E. lia.
Qed.

(** The symbol loop leaves the mapping before its fuel is used up. *)
Lemma symbols_safe mem syms strtab count : 0 <= syms -> forall fuel j a,
  0 <= j -> Z.of_nat (length mem) < Z.of_nat fuel + j -> (1 <= fuel)%nat ->
  safe (c_for fuel j count (symbol_row mem syms strtab) a).
Proof.
  intros Hsyms. induction fuel as [| fuel IH]; intros j a Hj Hfuel H1; [lia |].
  cbn [c_for]. case_if; [| apply safe_ret].
  apply safe_bind; [apply symbol_row_safe |]. intros a' out out' E%symbol_row_inside. apply IH; lia.
Qed.

Lemma rds_bytes mem n : Forall is_byte mem -> forall i bs, rds mem i n = Ok bs ->
  Forall is_byte bs /\ length bs = n.
Proof.
  intros Hmem. induction n as [| n IH]; intros i bs; cbn [rds]; [by intros [= <-] |].
  intros (b & Hb%rd_lookup & (bs' & Hbs & [= <-])%res_bind_Ok_inv)%res_bind_Ok_inv.
  destruct (IH _ _ Hbs) as [Hok <-]. split; [constructor; [| done] | done].
  destruct Hb as [_ Hb]. by eapply Forall_lookup_1 in Hb.
Qed.

Lemma load_nonneg mem n i z : Forall is_byte mem -> load n mem i = Ok z -> 0 <= z.
Proof.
  intros Hmem (bs & Hbs & [= <-])%res_bind_Ok_inv.
  destruct (rds_bytes _ _ Hmem _ _ Hbs) as [Hb _]. apply (get_range bs Hb).
Qed.

Lemma symtab_round_safe mem shdrs i found : Forall is_byte mem -> safe (symtab_round mem shdrs i found).
Proof.
  intros Hmem. unfold symtab_round. repeat safe_step.
  apply symbols_safe; [by eapply load_nonneg | lia..].
Qed.

Lemma report_safe mem : Forall is_byte mem -> safe (report mem).
Proof.
  intros Hmem. unfold report. repeat safe_step.
  all: apply safe_for; [| lia]; intros;
    first [apply section_row_safe | apply segment_row_safe | by apply symtab_round_safe].
Qed.

(** ** main, once the file is mapped *)

(** The first check of [e_ident] that fails. *)
Definition rejection (ident : list Z) : option string :=
  if negb (bool_decide (take 4 ident = ELFMAG)) then Some "Not an ELF file"%string
  else if negb (bool_decide (ident !! 4%nat = Some 2)) then Some "Not a 64-bit ELF"%string
  else if negb (bool_decide (ident !! 5%nat = Some 1)) then Some "Not little-endian ELF"%string
  else None.

Definition leave (size fd : Z) (code : Z) : M (list event) Z :=
  tell (Munmap size);; tell (Close fd);; mret code.

Lemma main_mapped fd size mem ident rest : mem = ident ++ rest -> length ident = 6%nat ->
  main 2 (Some fd) (Some size) (Some mem) [] =
  match rejection ident with
  | Some msg => Ok (1, [Open fd; Mmap size; Stderr msg; Munmap size; Close fd])
  | None => (report mem;; leave size fd 0) [Open fd; Mmap size]
  end.
Proof.
  intros -> Hlen. do 6 (destruct ident as [| ? ident]; [discriminate Hlen |]).
  destruct ident; [| discriminate Hlen].
  unfold main, rejection. cbn [negb Z.eqb Pos.eqb]. rewrite !tell_bind.
  cbn [app take lookup list_lookup]. rewrite (lift_bind_Ok _ _ _ [z; z0; z1; z2]) by done.
  case_bool_decide; [| done]. cbn [negb].
  rewrite (lift_bind_Ok _ _ _ z3) by done.
  destruct (Z.eqb_spec z3 2) as [-> | Hz3]; cbn [negb];
    [rewrite bool_decide_true by done | by rewrite bool_decide_false by congruence].
  rewrite (lift_bind_Ok _ _ _ z4) by done.
  destruct (Z.eqb_spec z4 1) as [-> | Hz4]; cbn [negb];
    [by rewrite bool_decide_true by done | by rewrite bool_decide_false by congruence].
Qed.

(** Prints, then releases the mapping and the descriptor and returns. *)
Definition leaves (size fd : Z) (m : M (list event) Z) : Prop := forall out,
  match m out with
  | Ok (code, out') => exists printed,
      out' = out ++ printed ++ [Munmap size; Close fd] /\ forallb is_print printed = true /\
      (code = 0 \/ code = 1)
  | Fault f => mem_fault f
  end.

Lemma leaves_bind {A} size fd (m : M (list event) A) (k : A -> M (list event) Z) :
  safe m -> (forall a, leaves size fd (k a)) -> leaves size fd (m ≫= k).
Proof.
  intros Hm Hk out. specialize (Hm out). unfold mbind, M_bind.
  destruct (m out) as [[a s] |]; [| done]. specialize (Hk a s).
  destruct Hm as (mid & -> & Hmid). destruct (k a (out ++ mid)) as [[c s'] |]; [| done].
  destruct Hk as (printed & -> & Hp & Hc). exists (mid ++ printed).
  by rewrite <- !app_assoc, forallb_app, Hmid, Hp.
Qed.

Lemma leaves_lift_bind {A} size fd (r : res A) (k : A -> M (list event) Z) :
  safe_res r -> (forall a, leaves size fd (k a)) -> leaves size fd (lift r ≫= k).
Proof.
  intros Hr Hk out. unfold mbind, M_bind, lift. destruct r as [a |]; [by apply Hk | done].
Qed.

Lemma leaves_leave size fd code : code = 0 \/ code = 1 -> leaves size fd (leave size fd code).
Proof. intros Hc out. exists []. by rewrite <- app_assoc. Qed.
End elf.

(** ** Properties *)

(** C21. For a mapping that holds a little-endian ELF64 file (its header,
    section headers, program headers, symbols and the strings they name,
    wherever the file puts them, in tables with the entry sizes of the
    format: 64, 56 and 24 bytes), the program prints every section, every
    program header, and the global symbols of every symbol table, exits 0,
    and releases the mapping and the descriptor. *)
Theorem main_reports mem f fd size :
  describes (host := LittleEndian) mem f -> rejection (take 6 (ident (ehdr f))) = None ->
  main (host := LittleEndian) 2 (Some fd) (Some size) (Some mem) [] =
  Ok (0, [Open fd; Mmap size] ++ file_report f ++ [Munmap size; Close fd]).
Proof.
  intros Hd Hid. pose proof (d_ident_length _ _ Hd) as Hlen.
  destruct (d_ident _ _ Hd) as (l & r & Hmem & Hl). destruct l; [| cbn in Hl; lia]. cbn in Hmem.
  rewrite (main_mapped fd size mem (take 6 (ident (ehdr f))) (drop 6 (ident (ehdr f)) ++ r)).
  - rewrite Hid, (M_bind_Ok _ _ _ _ _ (report_ok mem f _ Hd)). unfold leave. rewrite !tell_bind.
    unfold mret, M_ret. by rewrite <- !app_assoc.
  - by rewrite app_assoc, take_drop.
  - rewrite length_take. lia.
Qed.

(** C22. Whatever the system answers and whatever bytes the file holds, the
    program ends in one of the ways of its source: usage, a failed call, a
    rejected identification, or a complete report; every mapping is
    unmapped and every descriptor closed, except that a failed [fstat]
    leaves the descriptor open.  The only faults are loads outside the
    mapping and unterminated strings: no division by zero, no endless loop. *)
Theorem main_exits argc open fstat mmap :
  (forall mem, mmap = Some mem -> Forall is_byte mem) ->
  match main (host := LittleEndian) argc open fstat mmap [] with
  | Fault f => mem_fault f
  | Ok (code, trace) =>
      if negb (argc =? 2) then code = 1 /\ trace = [Usage]
      else
        match open, fstat, mmap with
        | None, _, _ => code = 1 /\ trace = [Perror "Could not open ELF file."]
        | Some fd, None, _ => code = 1 /\ trace = [Open fd; Perror "Could not get fstats"]
        | Some fd, Some _, None => code = 1 /\ trace = [Open fd; Perror "mmap failed"; Close fd]
        | Some fd, Some size, Some mem => exists printed,
            trace = [Open fd; Mmap size] ++ printed ++ [Munmap size; Close fd] /\
            forallb is_print printed = true /\ (code = 0 \/ code = 1)
        end
  end.
Proof.
  intros Hmem. unfold main. case_if; [done |]. destruct open as [fd |]; [| done].
  rewrite tell_bind. destruct fstat as [size |]; [| done]. destruct mmap as [mem |]; [| done].
  rewrite tell_bind. specialize (Hmem mem eq_refl). fold (leave size fd 1). fold (leave size fd 0).
  match goal with |- match ?m ?out with _ => _ end => enough (leaves size fd m) as H by exact (H out) end.
  apply leaves_lift_bind; [apply rds_safe |]. intros id.
  case_if; [apply leaves_bind; [by apply safe_tell | intros; apply leaves_leave; lia] |].
  apply leaves_lift_bind; [apply rd_safe |]. intros class.
  case_if; [apply leaves_bind; [by apply safe_tell | intros; apply leaves_leave; lia] |].
  apply leaves_lift_bind; [apply rd_safe |]. intros data.
  case_if; (apply leaves_bind; [| intros; apply leaves_leave; lia]); [by apply safe_tell |].
  by apply report_safe.
Qed.

(** A mapping of at least six bytes that does not start with the ELF
    magic, or is not 64-bit, or is not little-endian, is rejected: the
    program says which check failed first, prints no table, releases the
    mapping and the descriptor, and exits 1. *)
Theorem main_rejects id rest fd size msg :
  length id = 6%nat -> rejection id = Some msg ->
  main (host := LittleEndian) 2 (Some fd) (Some size) (Some (id ++ rest)) [] =
  Ok (1, [Open fd; Mmap size; Stderr msg; Munmap size; Close fd]).
Proof.
  intros Hlen Hid. by rewrite (main_mapped fd size (id ++ rest) id rest eq_refl Hlen), Hid.
Qed.

(** C23. No offset of the file is compared with its size: when the header of
    the section-name string table lies outside the mapping, as in a
    truncated file, an accepted file makes the program load outside the
    mapping. *)
Theorem main_overreads mem h fd size :
  stored mem 0 (ident h) -> length (ident h) = 16%nat -> struct_at (host := LittleEndian) mem 16 (ehdr_fields h) ->
  rejection (take 6 (ident h)) = None ->
  Z.of_nat (length mem) <= shoff h + 64 * shstrndx h + 24 ->
  main (host := LittleEndian) 2 (Some fd) (Some size) (Some mem) [] =
  Fault (OutOfBounds (shoff h + 64 * shstrndx h + 24)).
Proof.
  intros Hident Hlen Hh Hid Hout.
  destruct (ehdr_loads _ _ Hh) as (H1 & H2 & H3 & H4 & H5).
  destruct Hident as (l & r & Hmem & Hl). destruct l; [| cbn in Hl; lia]. cbn in Hmem.
  rewrite (main_mapped fd size mem (take 6 (ident h)) (drop 6 (ident h) ++ r)).
  - rewrite Hid. unfold mbind at 1, M_bind at 1, report, sizeof_Shdr.
    repeat (erewrite lift_bind_Ok by eassumption). rewrite tell_bind.
    erewrite lift_bind_Ok by eassumption.
    erewrite lift_bind_Fault; [done |]. apply load_out; lia.
  - by rewrite app_assoc, take_drop.
  - rewrite length_take. lia.
Qed.

(** *** Witnesses *)

(** A file with a section-name table, a symbol table of two symbols and
    their strings, and one program header. *)
Definition sample_header : Elf64_Ehdr :=
  mkEhdr (ELFMAG ++ [2; 1; 1] ++ replicate 9 0) 2 62 1 0x401000 256 64 0 64 56 1 64 3 1.

Definition sample_file : file :=
  mkFile sample_header
    [ mkSection (mkShdr 0 0 0 0 0 0 0 0 0 0) [] [];
      mkSection (mkShdr 1 3 0 0 360 17 0 0 1 0) (chars ".strtab") [];
      mkSection (mkShdr 9 2 0 0 312 48 1 1 8 24) (chars "a")
        [ (mkSym 0 0 0 0 0 0, []); (mkSym 11 0x12 0 1 0x401000 42, chars "main") ] ]
    [ mkPhdr 1 5 0 0x400000 0x400000 100 100 4096 ].

Definition sample_bytes : list Z :=
  let W := struct_wire (host := LittleEndian) in
  ident sample_header ++ W (ehdr_fields sample_header) ++
  concat ((fun s => W (shdr_fields (hdr s))) <$> sections sample_file) ++
  concat ((fun p => W (phdr_fields p)) <$> segments sample_file) ++
  concat ((fun s => concat ((fun x => W (sym_fields x.1)) <$> symbols s)) <$> sections sample_file) ++
  [0] ++ chars ".strtab" ++ [0] ++ chars "a" ++ [0] ++ chars "main" ++ [0; 0].

Example sample_report :
  main (host := LittleEndian) 2 (Some 3) (Some 377) (Some sample_bytes) [] =
  Ok (0, [Open 3; Mmap 377; Sections;
          Section_row 0 [] "NULL" 0 0 0; Section_row 1 (chars ".strtab") "STRTAB" 360 17 0;
          Section_row 2 (chars "a") "SYMTAB" 312 48 0;
          Segments; Segment_row "LOAD" 0x400000 0 100 100 (chars "r-x");
          Symbols; Symbol_head; Symbol_row (chars "main") "FUNC" 0x401000 42;
          Munmap 377; Close 3]).
Proof. vm_compute. reflexivity. Qed.

(** What [stored] and [struct_at] amount to on closed data. *)
Lemma stored_check (mem : list Z) i vs :
  (0 <=? i) && bool_decide (take (length vs) (drop (Z.to_nat i) mem) = vs) &&
    (i <=? Z.of_nat (length mem)) = true ->
  stored mem i vs.
Proof.
  intros H. case_bool_decide as E; [| lia]. set (n := Z.to_nat i) in *.
  exists (take n mem), (drop (length vs) (drop n mem)). split.
  - rewrite <- E at 1. by rewrite take_drop, take_drop.
  - rewrite length_take. lia.
Qed.

Lemma struct_check mem p fs :
  (0 <=? p) && bool_decide (take (length (struct_wire (host := LittleEndian) fs))
    (drop (Z.to_nat p) mem) = struct_wire (host := LittleEndian) fs) && (p <=? Z.of_nat (length mem)) = true ->
  forallb (fun f : nat * Z => (0 <=? f.2) && (f.2 <? 256 ^ Z.of_nat f.1)) fs = true ->
  struct_at (host := LittleEndian) mem p fs.
Proof.
  intros Hs Hok. split; [by apply stored_check |].
  revert Hok. apply Forall_check. intros f Hf. unfold field_ok. lia.
Qed.

Lemma string_check mem p s :
  (0 <=? p) && bool_decide (take (length (s ++ [0])) (drop (Z.to_nat p) mem) = s ++ [0]) &&
    (p <=? Z.of_nat (length mem)) = true ->
  forallb (fun c => negb (c =? 0)) s = true -> string_at mem p s.
Proof. intros Hs Hok. split; [by apply stored_check |]. revert Hok. apply Forall_check. lia. Qed.

Ltac check := first [apply struct_check | apply string_check | apply stored_check]; vm_compute; reflexivity.

Lemma sample_described : describes (host := LittleEndian) sample_bytes sample_file.
Proof.
  split.
  - check.
  - reflexivity.
  - check.
  - reflexivity.
  - reflexivity.
  - reflexivity.
  - reflexivity.
  - intros i s Hs. do 3 (destruct i as [| i]; [injection Hs as <-; check |]). discriminate Hs.
  - intros i s Hs. destruct i as [| i]; [injection Hs as <-; check | discriminate Hs].
  - eexists. split; [reflexivity |].
    intros i s Hs. do 3 (destruct i as [| i]; [injection Hs as <-; check |]). discriminate Hs.
  - intros i s Hs Ht. do 2 (destruct i as [| i]; [injection Hs as <-; discriminate Ht |]).
    destruct i as [| i]; [injection Hs as <- | discriminate Hs].
    split; [reflexivity |]. split; [reflexivity |].
    eexists. split; [reflexivity |]. intros j sym n Hj.
    destruct j as [| [| j]]; [| | discriminate Hj]; injection Hj as <- <-;
      (split; [check |]); [discriminate | intros _; check].
Qed.

Lemma main_reports_witness :
  main (host := LittleEndian) 2 (Some 3) (Some 377) (Some sample_bytes) [] =
  Ok (0, [Open 3; Mmap 377] ++ file_report sample_file ++ [Munmap 377; Close 3]).
Proof. apply (main_reports sample_bytes sample_file 3 377 sample_described). reflexivity. Defined.

Lemma main_exits_witness :
  match main (host := LittleEndian) 2 (Some 3) (Some 6) (Some (ELFMAG ++ [2; 1])) [] with
  | Fault f => mem_fault f
  | Ok _ => False
  end.
Proof.
  pose proof (main_exits 2 (Some 3) (Some 6) (Some (ELFMAG ++ [2; 1]))) as H.
  apply H. intros mem [= <-]. repeat constructor; lia.
Defined.

Lemma main_rejects_witness :
  main (host := LittleEndian) 2 (Some 3) (Some 8) (Some ((ELFMAG ++ [1; 1]) ++ [0; 0])) [] =
  Ok (1, [Open 3; Mmap 8; Stderr "Not a 64-bit ELF"; Munmap 8; Close 3]).
Proof. apply (main_rejects (ELFMAG ++ [1; 1]) [0; 0] 3 8); reflexivity. Defined.

(** A header whose section table is past the one page that is mapped. *)
Definition cut_header : Elf64_Ehdr :=
  mkEhdr (ident sample_header) 2 62 1 0x401000 0 8192 0 64 56 0 64 3 1.

Definition cut_bytes : list Z :=
  ident cut_header ++ struct_wire (host := LittleEndian) (ehdr_fields cut_header) ++ replicate 4032 0.

Lemma main_overreads_witness :
  main (host := LittleEndian) 2 (Some 3) (Some 64) (Some cut_bytes) [] = Fault (OutOfBounds 8280).
Proof.
  apply (main_overreads cut_bytes cut_header 3 64);
    [check | reflexivity | check | reflexivity | vm_compute; discriminate].
Defined.
