(* ===== verification/Reactor.v ===== *)
(** * Reactor

    The epoll echo server of 06-epoll_reactor/reactor.c.  The system is an
    interface: a function [sys] from calls to answers on a state of its own
    ([TIO] of the prelude). *)

From S2P Require Import Prelude.

(** ** System calls *)

Record epoll_event := mkEv { ev_events : Z; ev_fd : Z }.

Inductive call :=
| Socket
| Setsockopt (fd : Z)
| Bind (fd port : Z)
| Listen (fd : Z)
| Fcntl_getfl (fd : Z)
| Fcntl_setfl (fd flags : Z)
| Epoll_create1
| Epoll_add (epfd fd events : Z)
| Epoll_del (epfd fd : Z)
| Epoll_wait (epfd maxevents : Z)
| Accept4 (fd flags : Z)
| Read (fd count : Z)
| Write (fd : Z) (bytes : list Z)
| Close (fd : Z)
| Perror (msg : string)
| Printf_recv (s : list Z)
| Printf_listening (port : Z).

(** The returned value, [errno], the bytes [read] stored and the events
    [epoll_wait] stored. *)
Record answer := mkAns { ret : Z; errno : Z; data : list Z; evs : list epoll_event }.

Definition PORT : Z := 8080.
Definition MAX_EVENTS : Z := 64.
Definition BUF_SIZE : Z := 4096.

Definition EAGAIN : Z := 11.
Definition EWOULDBLOCK : Z := 11.
Definition O_NONBLOCK : Z := 0x800.
Definition SOCK_NONBLOCK : Z := 0x800.
Definition EPOLLIN : Z := 0x1.
Definition EPOLLERR : Z := 0x8.
Definition EPOLLHUP : Z := 0x10.
Definition EPOLLRDHUP : Z := 0x2000.
Definition EPOLLET : Z := 0x80000000.

Definition trace : Type := list (call * answer).

(** Computations over the system's calls. *)
Abbreviation IO := (TIO call answer).

(** ** The program *)

Section reactor.
Context {W : Type} (sys : call -> W -> answer * W).

(** What the stack holds where [buf] is allocated: [buf] is not
    initialised. *)
Context (stack : W -> list Z).

Definition uninitialised : IO W (list Z) := fun '(w, t) => (Ok (stack w), (w, t)).

Definition make_nonblocking (fd : Z) : IO W Z :=
  flag ← syscall sys (Fcntl_getfl fd);
  if ret flag =? -1 then syscall sys (Perror "read flags");; mret (-1)
  else
    r ← syscall sys (Fcntl_setfl fd (Z.lor (ret flag) O_NONBLOCK));
    if ret r =? -1 then syscall sys (Perror "set flags");; mret (-1)
    else mret 0.

Definition create_listen_socket (port : Z) : IO W Z :=
  s ← syscall sys Socket;
  let fd := ret s in
  if fd =? -1 then syscall sys (Perror "create socket");; mret (-1)
  else
    r ← syscall sys (Setsockopt fd);
    if ret r =? -1 then syscall sys (Perror "set socket options");; mret (-1)
    else
      r ← syscall sys (Bind fd (u16 port));
      if ret r =? -1 then syscall sys (Perror "bind");; mret (-1)
      else
        r ← syscall sys (Listen fd);
        if ret r =? -1 then syscall sys (Perror "listen");; mret (-1)
        else
          r ← make_nonblocking fd;
          mret (if r =? -1 then -1 else fd).

Fixpoint handle_new_connection (fuel : nat) (epfd listenfd : Z) : IO W () :=
  match fuel with
  | O => io_fault OutOfFuel
  | S fuel' =>
      a ← syscall sys (Accept4 listenfd SOCK_NONBLOCK);
      let clientfd := ret a in
      if clientfd =? -1 then
        if (errno a =? EAGAIN) || (errno a =? EWOULDBLOCK) then mret ()
        else syscall sys (Perror "accept4");; mret ()
      else
        r ← syscall sys (Epoll_add epfd clientfd (Z.lor (Z.lor EPOLLIN EPOLLET) EPOLLRDHUP));
        (if ret r <? 0
         then syscall sys (Perror "epoll_ctl add client");; syscall sys (Close clientfd);; mret ()
         else mret ());;
        handle_new_connection fuel' epfd listenfd
  end.

Definition drop_client (epfd clientfd : Z) : IO W () :=
  syscall sys (Epoll_del epfd clientfd);; syscall sys (Close clientfd);; mret ().

Fixpoint handle_client_data (fuel : nat) (epfd clientfd : Z) : IO W () :=
  match fuel with
  | O => io_fault OutOfFuel
  | S fuel' =>
      junk ← uninitialised;
      a ← syscall sys (Read clientfd BUF_SIZE);
      let n := ret a in
      let buf := data a ++ drop (length (data a)) junk in
      if n <? 0 then
        if (errno a =? EAGAIN) || (errno a =? EWOULDBLOCK) then mret ()
        else syscall sys (Perror "read");; drop_client epfd clientfd
      else if n =? 0 then drop_client epfd clientfd
      else
        s ← io_lift (c_string buf);
        syscall sys (Printf_recv s);;
        r ← syscall sys (Write clientfd (take (Z.to_nat n) buf));
        if ret r <? 0 then syscall sys (Perror "write");; drop_client epfd clientfd
        else handle_client_data fuel' epfd clientfd
  end.

(** The body of the loop over the events. *)
Definition dispatch (fuel : nat) (epfd listenfd : Z) (e : epoll_event) : IO W () :=
  if negb (Z.land (ev_events e) (Z.lor EPOLLHUP EPOLLERR) =? 0) then
    syscall sys (Epoll_del epfd (ev_fd e));; syscall sys (Close (ev_fd e));; mret ()
  else if ev_fd e =? listenfd then handle_new_connection fuel epfd (ev_fd e)
  else handle_client_data fuel epfd (ev_fd e).

Fixpoint dispatch_all (fuel : nat) (epfd listenfd : Z) (es : list epoll_event) : IO W () :=
  match es with
  | [] => mret ()
  | e :: es' => dispatch fuel epfd listenfd e;; dispatch_all fuel epfd listenfd es'
  end.

(** [rounds] rounds of the endless loop. *)
Fixpoint event_loop (rounds fuel : nat) (epfd listenfd : Z) : IO W Z :=
  match rounds with
  | O => io_fault OutOfFuel
  | S rounds' =>
      a ← syscall sys (Epoll_wait epfd MAX_EVENTS);
      dispatch_all fuel epfd listenfd (take (Z.to_nat (ret a)) (evs a));;
      event_loop rounds' fuel epfd listenfd
  end.

(** The first [rounds] rounds of the program. *)
Definition main (rounds fuel : nat) : IO W Z :=
  listenfd ← create_listen_socket PORT;
  if listenfd <? 0 then syscall sys (Perror "listen");; mret 1
  else
    e ← syscall sys Epoll_create1;
    let epfd := ret e in
    if epfd <? 0 then syscall sys (Perror "epoll_create1");; mret 1
    else
      r ← syscall sys (Epoll_add epfd listenfd (Z.lor EPOLLIN EPOLLET));
      (if ret r <? 0 then syscall sys (Perror "epoll_ctl");; mret () else mret ());;
      syscall sys (Printf_listening PORT);;
      event_loop rounds fuel epfd listenfd.
End reactor.
