(* ===== verification/ReactorSpec.v ===== *)
(** * ReactorSpec

    What the reactor promises: the descriptor discipline of its whole run,
    the echo of a client's data, and the protocol of each handler, against an
    interface of the system's documented behaviour. *)

From S2P Require Import Prelude Reactor.

(** ** Descriptors in a trace *)

(** The descriptors a call is made on. *)
Definition uses (c : call) : list Z :=
  match c with
  | Setsockopt fd | Bind fd _ | Listen fd | Fcntl_getfl fd | Fcntl_setfl fd _
  | Accept4 fd _ | Read fd _ | Write fd _ | Close fd => [fd]
  | Epoll_add e fd _ | Epoll_del e fd => [e; fd]
  | Epoll_wait e _ => [e]
  | Socket | Epoll_create1 | Perror _ | Printf_recv _ | Printf_listening _ => []
  end.

Definition creates (c : call) : bool :=
  match c with Socket | Epoll_create1 | Accept4 _ _ => true | _ => false end.

Definition opened_after (s : gset Z) (c : call) (a : answer) : gset Z :=
  match c with
  | Socket | Epoll_create1 | Accept4 _ _ => if ret a <? 0 then s else {[ret a]} ∪ s
  | Close fd => s ∖ {[fd]}
  | _ => s
  end.

Definition registered_after (s : gset Z) (c : call) (a : answer) : gset Z :=
  match c with
  | Epoll_add _ fd _ => if ret a <? 0 then s else {[fd]} ∪ s
  | Epoll_del _ fd => if ret a <? 0 then s else s ∖ {[fd]}
  | Close fd => s ∖ {[fd]}
  | _ => s
  end.

(** The clients: the descriptors [accept4] gave and that are not closed. *)
Definition clients_after (s : gset Z) (c : call) (a : answer) : gset Z :=
  match c with
  | Accept4 _ _ => if ret a <? 0 then s else {[ret a]} ∪ s
  | Close fd => s ∖ {[fd]}
  | _ => s
  end.

(** The program's own: the open ones that [socket] and [epoll_create1] gave. *)
Definition own_after (s : gset Z) (c : call) (a : answer) : gset Z :=
  match c with
  | Socket | Epoll_create1 => if ret a <? 0 then s else {[ret a]} ∪ s
  | Close fd => s ∖ {[fd]}
  | _ => s
  end.

(** A set of descriptors followed through a trace. *)
Fixpoint after (step : gset Z -> call -> answer -> gset Z) (s : gset Z) (t : trace) : gset Z :=
  match t with
  | [] => s
  | (c, a) :: t' => after step (step s c a) t'
  end.

Definition clients (t : trace) : gset Z := after clients_after ∅ t.
Definition own (t : trace) : gset Z := after own_after ∅ t.

(** Every call of the trace is made on descriptors that are open then. *)
Fixpoint disciplined (s : gset Z) (t : trace) : Prop :=
  match t with
  | [] => True
  | (c, a) :: t' => Forall (fun fd => fd ∈ s) (uses c) /\ disciplined (opened_after s c a) t'
  end.

Lemma after_snoc step t : forall s c a, after step s (t ++ [(c, a)]) = step (after step s t) c a.
Proof. induction t as [| [c' a'] t IH]; intros s c a; [done | apply IH]. Qed.

Lemma disciplined_snoc t : forall s c a, disciplined s t ->
  Forall (fun fd => fd ∈ after opened_after s t) (uses c) -> disciplined s (t ++ [(c, a)]).
Proof.
  induction t as [| [c' a'] t IH]; intros s c a; cbn; [done |].
  intros [? ?] ?. split; [done | by apply IH].
Qed.

(** An open descriptor is a client or one of the program's own. *)
Lemma opened_split t : forall cl ow, after opened_after (cl ∪ ow) t = after clients_after cl t ∪ after own_after ow t.
Proof.
  induction t as [| [c a] t IH]; intros cl ow; cbn [after]; [done |].
  rewrite <- IH. f_equal. clear IH. apply leibniz_equiv.
  destruct c; cbn; repeat case_match; first [done | apply difference_union_distr_l | set_solver].
Qed.

(** ** The system *)

(** The descriptors the program has open and the ones registered with its
    epoll instance, and how the calls change them: a new descriptor is none
    of the open ones, and the events reported are of distinct registered
    descriptors. *)
Class Kernel (W : Type) (sys : call -> W -> answer * W) := {
  opened : W -> gset Z;
  registered : W -> gset Z;
  opened_sys c w : opened (sys c w).2 = opened_after (opened w) c (sys c w).1;
  registered_sys c w : registered (sys c w).2 = registered_after (registered w) c (sys c w).1;
  fresh_fd c w : creates c = true -> 0 <= ret (sys c w).1 -> ret (sys c w).1 ∉ opened w;
  failed_create c w : creates c = true -> ret (sys c w).1 < 0 -> ret (sys c w).1 = -1;
  wait_events e m w :
    let es := take (Z.to_nat (ret (sys (Epoll_wait e m) w).1)) (evs (sys (Epoll_wait e m) w).1) in
    NoDup (ev_fd <$> es) /\ Forall (fun ev => ev_fd ev ∈ registered w) es
}.

Section discipline.
Context {W : Type} (sys : call -> W -> answer * W) `{K : !Kernel W sys} (stack : W -> list Z).

Abbreviation state := (W * trace)%type.

(** The descriptors a state has. *)
#[projections(primitive)]
Record fds := mkFds {
  f_open : gset Z; f_reg : gset Z; f_clients : gset Z; f_own : gset Z
}.

Definition no_fds : fds := mkFds ∅ ∅ ∅ ∅.

Definition fds_after (F : fds) (c : call) (a : answer) : fds :=
  mkFds (opened_after (f_open F) c a) (registered_after (f_reg F) c a)
    (clients_after (f_clients F) c a) (own_after (f_own F) c a).

(** The state has run a disciplined trace and has these descriptors. *)
Definition at_ (s : state) (F : fds) : Prop :=
  disciplined ∅ s.2 /\ after opened_after ∅ s.2 = f_open F /\ opened s.1 = f_open F /\
  registered s.1 = f_reg F /\ clients s.2 = f_clients F /\ own s.2 = f_own F.

Lemma syscall_at c s F : at_ s F -> Forall (fun fd => fd ∈ f_open F) (uses c) ->
  exists a s', syscall sys c s = (Ok a, s') /\
    at_ s' (fds_after F c a) /\
    (creates c = true -> ((0 <= ret a) /\ (ret a ∉ f_open F)) \/ (ret a = -1)) /\
    (forall e m, c = Epoll_wait e m ->
       NoDup (ev_fd <$> take (Z.to_nat (ret a)) (evs a)) /\
       Forall (fun ev => ev_fd ev ∈ f_reg F) (take (Z.to_nat (ret a)) (evs a))).
Proof.
  destruct s as [w t]. intros (Hd & Hop & Ho & Hr & Hcl & Hown) Huses. cbn [fst snd] in *.
  pose proof (opened_sys c w) as H1. pose proof (registered_sys c w) as H2.
  pose proof (fresh_fd c w) as H3. pose proof (failed_create c w) as H4.
  pose proof (fun e m => wait_events e m w) as H5.
  destruct (sys c w) as [a w'] eqn:E. cbn in H1, H2, H3, H4. exists a, (w', t ++ [(c, a)]).
  split; [unfold syscall; by rewrite E |]. split_and!.
  - unfold at_, clients, own in *. cbn. rewrite !after_snoc, Hop, H1, H2, Ho, Hr, Hcl, Hown.
    split_and!; [| done..]. apply disciplined_snoc; [done |]. by rewrite Hop.
  - intros Hc. destruct (Z.le_gt_cases 0 (ret a)); [left | right; auto].
    split; [done |]. rewrite <- Ho. auto.
  - intros e m ->. specialize (H5 e m). rewrite E, Hr in H5. done.
Qed.

(** The invariant between two calls: the epoll instance is open and not
    registered with itself, every client is registered and every registered
    descriptor open, and the program's own descriptors are the epoll
    instance and the listening socket. *)
Definition fds_ok (e l : Z) (R : gset Z) (F : fds) : Prop :=
  e ∈ f_open F /\ (e ∉ f_reg F) /\ f_reg F ⊆ f_open F /\ f_clients F ⊆ f_reg F /\
  f_own F ⊆ {[e; l]} /\ R ⊆ f_reg F.

Definition ends {A} (P : fds -> Prop) (x : res A * state) : Prop := exists F, at_ x.2 F /\ P F.

Lemma ends_intro {A} (P : fds -> Prop) (r : res A) s F : at_ s F -> P F -> ends P (r, s).
Proof. by exists F. Qed.

Lemma ends_mono {A} (P Q : fds -> Prop) (x : res A * state) :
  (forall F, P F -> Q F) -> ends P x -> ends Q x.
Proof. intros HPQ (F & Hat & HP). exists F. auto. Qed.

Lemma ends_bind {A B} P (m : IO W A) (f : A -> IO W B) (s : state) :
  ends P (m s) -> (forall a s' F, at_ s' F -> P F -> ends P (f a s')) ->
  ends P ((m ≫= f) s).
Proof.
  unfold mbind, IO_bind. destruct (m s) as [[a | e] s']; intros (F & Hat & HP) Hf; eauto.
  by exists F.
Qed.
(** Run the first system call of the goal. *)
Ltac run_call H :=
  match goal with
  | |- context [mbind _ (syscall _ ?c)] =>
      match type of H with
      | at_ _ ?F =>
          let a := fresh "a" in let s' := fresh "s" in
          let Hrun := fresh "Hrun" in let H' := fresh H in
          assert (Forall (fun fd => fd ∈ f_open F) (uses c)) as Hrun; [cbn [uses f_open] |
          destruct (syscall_at c _ _ H Hrun) as (a & s' & Hrun' & H' & ? & ?);
          rewrite (io_bind_Ok _ _ _ _ _ Hrun'); clear Hrun Hrun';
          unfold fds_after in H'; cbn [f_open f_reg f_clients f_own opened_after registered_after clients_after own_after] in H' ]
      end
  end.

Lemma uses_client e l R F f :
  fds_ok e l R F -> f ∈ f_reg F -> Forall (fun fd => fd ∈ f_open F) [f].
Proof. intros (_ & _ & Hsub & _) Hf. repeat constructor. by apply Hsub. Qed.

Lemma uses_epoll e l R F : fds_ok e l R F -> Forall (fun fd => fd ∈ f_open F) [e].
Proof. intros (He & _). by repeat constructor. Qed.

Lemma uses_both e l R F f :
  fds_ok e l R F -> f ∈ f_reg F -> Forall (fun fd => fd ∈ f_open F) [e; f].
Proof.
  intros Hok Hf. pose proof (uses_client _ _ _ _ _ Hok Hf). by constructor; [exact (proj1 Hok) |].
Qed.

Ltac fds_solve :=
  split_and!; cbn [f_open f_reg f_clients f_own] in *; set_solver.

Lemma fds_drop e l R F f (b : bool) : fds_ok e l R F -> f ∈ f_reg F -> f ∉ R ->
  fds_ok e l R (mkFds (f_open F ∖ {[f]}) ((if b then f_reg F else f_reg F ∖ {[f]}) ∖ {[f]})
                  (f_clients F ∖ {[f]}) (f_own F ∖ {[f]})).
Proof. intros (H1 & H2 & H3 & H4 & H5 & H6) Hf HR. destruct b; fds_solve. Qed.

Lemma fds_add e l R F c : fds_ok e l R F -> c ∉ f_open F ->
  fds_ok e l R (mkFds ({[c]} ∪ f_open F) ({[c]} ∪ f_reg F) ({[c]} ∪ f_clients F) (f_own F)).
Proof. intros (H1 & H2 & H3 & H4 & H5 & H6) Hc. fds_solve. Qed.

Lemma add_remove (X : gset Z) c : c ∉ X -> ({[c]} ∪ X) ∖ {[c]} = X.
Proof. intros Hc. apply leibniz_equiv. set_solver. Qed.

Lemma remove_absent (X : gset Z) c : c ∉ X -> X ∖ {[c]} = X.
Proof. intros Hc. apply leibniz_equiv. set_solver. Qed.

Lemma fds_reject e l R F c : fds_ok e l R F -> c ∉ f_open F ->
  fds_ok e l R (mkFds (({[c]} ∪ f_open F) ∖ {[c]}) (f_reg F ∖ {[c]})
                  (({[c]} ∪ f_clients F) ∖ {[c]}) (f_own F ∖ {[c]})).
Proof.
  intros (H1 & H2 & H3 & H4 & H5 & H6) Hc.
  assert (Hreg : c ∉ f_reg F) by (intros H; by apply Hc, H3).
  assert (Hcl : c ∉ f_clients F) by (intros H; by apply Hreg, H4).
  rewrite !add_remove, remove_absent by done. split_and!; try done. cbn. set_solver.
Qed.

Ltac uses :=
  first [apply Forall_nil_2 | by eapply uses_client | by eapply uses_epoll | by eapply uses_both].

Lemma drop_client_ends e l R f (s : state) F :
  at_ s F -> fds_ok e l R F -> f ∈ f_reg F -> f ∉ R ->
  ends (fds_ok e l R) (drop_client sys e f s).
Proof.
  intros Hat Hok Hf HR. unfold drop_client.
  run_call Hat; [uses |]. run_call Hat0; [uses |].
  eapply ends_intro; [exact Hat1 |]. by apply fds_drop.
Qed.

Lemma client_ends e l R f : f ∉ R -> forall fuel (s : state) F,
  at_ s F -> fds_ok e l R F -> f ∈ f_reg F ->
  ends (fds_ok e l R) (handle_client_data sys stack fuel e f s).
Proof.
  intros HR. induction fuel as [| fuel IH]; intros s F Hat Hok Hf; [by eapply ends_intro |].
  cbn [handle_client_data].
  assert (Hjunk : uninitialised stack s = (Ok (stack s.1), s)) by (by destruct s).
  rewrite (io_bind_Ok _ _ _ _ _ Hjunk). run_call Hat; [uses |]. cbv zeta.
  case_if.
  - case_if; [by eapply ends_intro |]. run_call Hat0; [uses |]. by eapply drop_client_ends.
  - case_if; [by eapply drop_client_ends |].
    destruct (c_string _) as [r | err]; [| by eapply ends_intro].
    rewrite io_lift_bind.
    run_call Hat0; [uses |]. run_call Hat1; [uses |].
    case_if; [| by eapply IH]. run_call Hat2; [uses |]. by eapply drop_client_ends.
Qed.

Lemma fds_weaken e l R R' F : fds_ok e l R F -> R' ⊆ R -> fds_ok e l R' F.
Proof. intros (H1 & H2 & H3 & H4 & H5 & H6) HR. split_and!; [done.. |]. by etrans. Qed.

Lemma connection_ends e l R : l ∈ R -> forall fuel (s : state) F,
  at_ s F -> fds_ok e l R F -> ends (fds_ok e l R) (handle_new_connection sys fuel e l s).
Proof.
  intros HR. induction fuel as [| fuel IH]; intros s F Hat Hok; [by eapply ends_intro |].
  assert (Hl : l ∈ f_reg F) by (by apply Hok).
  cbn [handle_new_connection]. run_call Hat; [uses |]. cbv zeta.
  destruct (H eq_refl) as [[Hge Hfresh] | Hfail].
  - rewrite (proj2 (Z.eqb_neq (ret a) (-1))) by lia.
    rewrite (proj2 (Z.ltb_ge (ret a) 0)) in Hat0 by lia.
    run_call Hat0; [repeat constructor; [clear -Hok; destruct Hok; set_solver | set_solver] |].
    destruct (Z.ltb_spec (ret a0) 0).
    + apply ends_bind; [| intros _ s2 F' Hat' Hok'; by eapply IH].
      run_call Hat1; [uses |]. run_call Hat2; [repeat constructor; set_solver |].
      eapply ends_intro; [exact Hat3 |]. by apply fds_reject.
    + apply ends_bind; [| intros _ s2 F' Hat' Hok'; by eapply IH].
      eapply ends_intro; [exact Hat1 |]. by apply fds_add.
  - rewrite (proj2 (Z.eqb_eq (ret a) (-1))) by done.
    rewrite (proj2 (Z.ltb_lt (ret a) 0)) in Hat0 by lia.
    case_if; [by eapply ends_intro |]. run_call Hat0; [uses |]. by eapply ends_intro.
Qed.

Lemma dispatch_ends e l R ev fuel (s : state) F :
  at_ s F -> fds_ok e l ({[ev_fd ev]} ∪ R) F -> ev_fd ev ∉ R ->
  ends (fds_ok e l R) (dispatch sys stack fuel e l ev s).
Proof.
  intros Hat Hok HR. assert (Hf : ev_fd ev ∈ f_reg F) by (apply Hok; set_solver).
  assert (Hok' : fds_ok e l R F) by (eapply fds_weaken; [exact Hok | set_solver]).
  unfold dispatch. destruct (negb _).
  - apply (drop_client_ends e l R (ev_fd ev) s F Hat Hok' Hf HR).
  - destruct (Z.eqb_spec (ev_fd ev) l) as [Heq | _]; [| by eapply client_ends].
    rewrite Heq in *.
    destruct (connection_ends e l ({[l]} ∪ R) ltac:(set_solver) fuel s F Hat Hok)
      as (F' & Hat' & Hok2).
    exists F'. split; [done |]. eapply fds_weaken; [exact Hok2 | set_solver].
Qed.

Lemma dispatch_all_ends e l fuel es : forall (s : state) F,
  at_ s F -> NoDup (ev_fd <$> es) -> fds_ok e l (list_to_set (ev_fd <$> es)) F ->
  ends (fds_ok e l ∅) (dispatch_all sys stack fuel e l es s).
Proof.
  induction es as [| ev es IH]; intros s F Hat Hnd Hok; [by eapply ends_intro |].
  cbn [dispatch_all]. cbn in Hnd, Hok. apply list.NoDup_cons in Hnd as [Hev Hnd].
  assert (Hnot : ev_fd ev ∉ (list_to_set (ev_fd <$> es) : gset Z)) by (by rewrite elem_of_list_to_set).
  pose proof (dispatch_ends _ _ _ _ fuel _ _ Hat Hok Hnot) as Hend.
  unfold mbind, IO_bind. destruct (dispatch _ _ _ _ _ _ s) as [[[] | err] s'];
    destruct Hend as (F' & Hat' & Hok'); [by eapply IH |].
  exists F'. split; [done |]. eapply fds_weaken; [exact Hok' | set_solver].
Qed.

Lemma event_loop_ends e l fuel rounds : forall (s : state) F,
  at_ s F -> fds_ok e l ∅ F -> ends (fds_ok e l ∅) (event_loop sys stack rounds fuel e l s).
Proof.
  induction rounds as [| rounds IH]; intros s F Hat Hok; [by eapply ends_intro |].
  cbn [event_loop]. run_call Hat; [uses |].
  destruct (H0 _ _ eq_refl) as [Hnd Hreg].
  apply ends_bind; [| intros _ s2 F' Hat' Hok'; by eapply IH].
  eapply dispatch_all_ends; [done | done |].
  destruct Hok as (H1 & H2 & H3 & H4 & H5 & _). split_and!; [done.. |].
  intros x Hx. apply elem_of_list_to_set, list_elem_of_fmap in Hx as (ev & -> & Hev).
  rewrite list.Forall_forall in Hreg. auto.
Qed.

Lemma make_nonblocking_at fd (s : state) F : at_ s F -> fd ∈ f_open F ->
  exists r s', make_nonblocking sys fd s = (Ok r, s') /\ at_ s' F /\ (r = 0 \/ r = -1).
Proof.
  intros Hat Hfd. unfold make_nonblocking.
  run_call Hat; [by repeat constructor |]. case_if.
  { run_call Hat0; [uses |]. eauto 6. }
  run_call Hat0; [by repeat constructor |]. case_if; [| eauto 6].
  run_call Hat1; [uses |]. eauto 6.
Qed.

(** What [create_listen_socket] leaves: at most the socket, and the socket
    when it is returned. *)
Definition only_socket (op : gset Z) : fds := mkFds op ∅ ∅ op.

Lemma listen_socket_at port (s : state) : at_ s no_fds ->
  exists fd l (op : gset Z) s', create_listen_socket sys port s = (Ok fd, s') /\
    at_ s' (only_socket op) /\ op ⊆ {[ l ]} /\ (fd <> -1 -> 0 <= fd /\ op = {[ fd ]}).
Proof.
  intros Hat. unfold create_listen_socket, no_fds in *. run_call Hat; [uses |]. cbv zeta.
  destruct (H eq_refl) as [[Hge _] | Hfail].
  2: { rewrite Hfail in *. if_true. cbn [Z.ltb Z.compare] in Hat0. run_call Hat0; [uses |].
       exists (-1), 0, ∅, s1. split_and!; [done | exact Hat1 | clear; set_solver | done]. }
  rewrite (proj2 (Z.eqb_neq (ret a) (-1))) by lia.
  rewrite (proj2 (Z.ltb_ge (ret a) 0)) in Hat0 by lia. rewrite !union_empty_r_L in Hat0.
  set (fd := ret a) in *. clear H H0.
  fold (only_socket {[ fd ]}) in Hat0.
  assert (Hfail : forall s' : state, at_ s' (only_socket {[ fd ]}) -> exists fd' l (op : gset Z) s2,
    (Ok (-1) : res Z, s') = (Ok fd', s2) /\ at_ s2 (only_socket op) /\ op ⊆ {[ l ]} /\
    (fd' <> -1 -> 0 <= fd' /\ op = {[ fd' ]})).
  { intros s' Hs'. by exists (-1), fd, {[ fd ]}, s'. }
  assert (Hfd : fd ∈ ({[ fd ]} : gset Z)) by (clear; set_solver).
  run_call Hat0; [by repeat constructor |]. case_if; [run_call Hat1; [uses | by apply Hfail] |].
  run_call Hat1; [by repeat constructor |]. case_if; [run_call Hat2; [uses | by apply Hfail] |].
  run_call Hat2; [by repeat constructor |]. case_if; [run_call Hat3; [uses | by apply Hfail] |].
  destruct (make_nonblocking_at fd _ _ Hat3 Hfd) as (r & s4 & Hrun & Hat4 & Hr).
  rewrite (io_bind_Ok _ _ _ _ _ Hrun). case_if; [by apply Hfail |].
  exists fd, fd, {[ fd ]}, s4. by split_and!.
Qed.

Lemma size_pair (x y : Z) (X : gset Z) : X ⊆ {[x; y]} -> (size X <= 2)%nat.
Proof.
  intros HX%subseteq_size. rewrite size_union_alt, size_singleton in HX.
  pose proof (subseteq_size ({[y]} ∖ {[x]} : gset Z) {[y]} ltac:(set_solver)) as Hy.
  rewrite size_singleton in Hy. lia.
Qed.

(** What holds at the end of a run. *)
Definition fds_end (F : fds) : Prop :=
  f_clients F ⊆ f_reg F /\ f_reg F ⊆ f_open F /\ (size (f_own F) <= 2)%nat.

Lemma fds_ok_end e l R F : fds_ok e l R F -> fds_end F.
Proof. intros (_ & _ & H1 & H2 & H3 & _). split_and!; [done | done | by apply size_pair in H3]. Qed.

Lemma main_ends rounds fuel (s : state) : at_ s no_fds -> ends fds_end (main sys stack rounds fuel s).
Proof.
  intros Hat. unfold main. destruct (listen_socket_at PORT s Hat) as (fd & l & op & s1 & Hrun & Hat1 & Hop & Hfd).
  unfold only_socket in Hat1. rewrite (io_bind_Ok _ _ _ _ _ Hrun). case_if.
  { run_call Hat1; [uses |]. eapply ends_intro; [exact Hat0 |].
    split_and!; [set_solver.. |]. apply (size_pair l l). cbn. set_solver. }
  destruct (Hfd ltac:(lia)) as [Hpos ->]. clear H. run_call Hat1; [uses |]. cbv zeta.
  destruct (H eq_refl) as [[Hae Hfresh] | Hfail].
  2: { rewrite Hfail in *. if_true. cbn [Z.ltb Z.compare] in Hat0. run_call Hat0; [uses |]. eapply ends_intro; [exact Hat2 |].
       split_and!; [set_solver.. |]. apply (size_pair fd fd). cbn. set_solver. }
  rewrite (proj2 (Z.ltb_ge (ret a) 0)) in Hat0 |- * by lia. clear H H0 Hfd Hop.
  cbn [f_open] in Hfresh.
  assert (Hok : fds_ok (ret a) fd ∅ (mkFds ({[ret a]} ∪ {[fd]}) ∅ ∅ ({[ret a]} ∪ {[fd]}))).
  { clear. split_and!; set_solver. }
  run_call Hat0; [repeat constructor; clear; set_solver |].
  apply (ends_mono (fds_ok (ret a) fd ∅)); [apply fds_ok_end |].
  apply ends_bind.
  - case_if; [run_call Hat2; [uses |]; by eapply ends_intro |].
    eapply ends_intro; [exact Hat2 |]. clear -Hfresh. split_and!; cbn; set_solver.
  - intros _ s3 F' Hat' Hok'. run_call Hat'; [uses |]. by eapply event_loop_ends.
Qed.
End discipline.

(** A call at the head of a program. *)
Lemma run_syscall {W B} (sys : call -> W -> answer * W) c w t (f : answer -> IO W B) :
  (syscall sys c ≫= f) (w, t) = f (sys c w).1 ((sys c w).2, t ++ [(c, (sys c w).1)]).
Proof. unfold mbind, IO_bind, syscall. by destruct (sys c w). Qed.

(** ** Echo *)

(** Stream sockets as read(2) and write(2) document them: [rx] is what the
    peer has sent or will send and is not read yet, [tx] what was sent to
    it.  A [read] stores a nonempty part of what comes next, or gives 0 at
    the end of the stream, or fails (with [EAGAIN] when the next bytes have
    not arrived); [write] accepts any number of the bytes it is given, or
    fails.  No other call moves data. *)
Class Sockets (W : Type) (sys : call -> W -> answer * W) := {
  rx : W -> Z -> list Z;
  tx : W -> Z -> list Z;
  read_moves fd n w : let (a, w') := sys (Read fd n) w in
    tx w' fd = tx w fd /\
    ((0 < ret a /\ ret a <= n /\ ret a = Z.of_nat (length (data a)) /\ rx w fd = data a ++ rx w' fd) \/
     (ret a = 0 /\ rx w fd = [] /\ rx w' fd = []) \/
     (ret a < 0 /\ rx w' fd = rx w fd));
  write_moves fd bs w : let (a, w') := sys (Write fd bs) w in
    rx w' fd = rx w fd /\ ret a <= Z.of_nat (length bs) /\
    tx w' fd = tx w fd ++ take (Z.to_nat (ret a)) bs;
  others_keep c w fd : (forall fd n, c <> Read fd n) -> (forall fd bs, c <> Write fd bs) ->
    rx (sys c w).2 fd = rx w fd /\ tx (sys c w).2 fd = tx w fd
}.

(** What the calls of a trace read, and what they were given to write. *)
Definition read_by (x : call * answer) : list Z :=
  match x.1 with Read _ _ => if 0 <? ret x.2 then data x.2 else [] | _ => [] end.
Definition given_by (x : call * answer) : list Z :=
  match x.1 with Write _ bs => bs | _ => [] end.
Definition sent_by (x : call * answer) : list Z :=
  match x.1 with Write _ bs => take (Z.to_nat (ret x.2)) bs | _ => [] end.

Definition reads (t : trace) : list Z := concat (read_by <$> t).
Definition given (t : trace) : list Z := concat (given_by <$> t).
Definition sent (t : trace) : list Z := concat (sent_by <$> t).

(** A [write] that accepts all it is given. *)
Definition whole (x : call * answer) : Prop :=
  match x.1 with Write _ bs => ret x.2 = Z.of_nat (length bs) | _ => True end.

Lemma sent_whole t : Forall whole t -> sent t = given t.
Proof.
  unfold sent, given. induction 1 as [| [c a] t Hx _ IH]; [done |]. cbn. rewrite IH. f_equal.
  destruct c; try done. cbn in *. by rewrite Hx, Nat2Z.id, firstn_all.
Qed.

Lemma c_string_nul l r : 0 ∈ l -> exists s, c_string (l ++ r) = Ok s.
Proof.
  induction l as [| c l IH]; intros Hl; [by apply not_elem_of_nil in Hl |]. cbn [c_string app].
  case_if; [eauto |]. apply elem_of_cons in Hl as [| Hl]; [lia |].
  destruct (IH Hl) as [s ->]. eauto.
Qed.

Lemma c_string_fault l err : c_string l = Fault err -> err = Unterminated.
Proof.
  induction l as [| c l IH]; cbn [c_string]; [by intros [= <-] |]. case_if; [done |].
  destruct (c_string l); [done |]. intros [= <-]. by apply IH.
Qed.

(** How a run of the handler that makes the calls [t] ends: with nothing to
    read for now, which keeps the client; at the end of the stream or on a
    failed call, which closes it; or in [printf], with a chunk that holds
    no NUL. *)
Inductive echo_end (e fd : Z) : trace -> res () -> Prop :=
| end_drained t a :
    ret a < 0 -> errno a = EAGAIN -> echo_end e fd (t ++ [(Read fd BUF_SIZE, a)]) (Ok ())
| end_of_stream t a d c :
    ret a = 0 -> echo_end e fd (t ++ [(Read fd BUF_SIZE, a); (Epoll_del e fd, d); (Close fd, c)]) (Ok ())
| end_read_error t a p d c :
    ret a < 0 -> errno a <> EAGAIN ->
    echo_end e fd (t ++ [(Read fd BUF_SIZE, a); (Perror "read", p); (Epoll_del e fd, d); (Close fd, c)]) (Ok ())
| end_write_error t bs r p d c :
    ret r < 0 ->
    echo_end e fd (t ++ [(Write fd bs, r); (Perror "write", p); (Epoll_del e fd, d); (Close fd, c)]) (Ok ())
| end_unterminated t a :
    0 < ret a -> 0 ∉ data a -> echo_end e fd (t ++ [(Read fd BUF_SIZE, a)]) (Fault Unterminated).

Lemma echo_end_app e fd t1 t2 r : echo_end e fd t2 r -> echo_end e fd (t1 ++ t2) r.
Proof. intros []; rewrite app_assoc; by constructor. Qed.

Section echo.
Context {W : Type} (sys : call -> W -> answer * W) `{S : !Sockets W sys} (stack : W -> list Z).

(** From [w] to [w'] the calls [t] moved the data they report. *)
Definition moved (fd : Z) (w w' : W) (t : trace) : Prop :=
  rx w fd = reads t ++ rx w' fd /\ tx w' fd = tx w fd ++ sent t.

Lemma moved_nil fd w : moved fd w w [].
Proof. split; [done | by rewrite app_nil_r]. Qed.

(** A call that is neither a read nor a write. *)
Lemma moved_other fd c w w' t :
  (forall fd n, c <> Read fd n) -> (forall fd bs, c <> Write fd bs) ->
  moved fd (sys c w).2 w' t -> moved fd w w' ((c, (sys c w).1) :: t).
Proof.
  intros HR HW [Hrx Htx]. destruct (others_keep c w fd HR HW) as [H1 H2].
  assert (read_by (c, (sys c w).1) = [] /\ sent_by (c, (sys c w).1) = []) as [Hr Hs].
  { destruct c as [| | | | | | | | | | | fd' n | fd' bs | | | |]; try done;
      [by destruct (HR fd' n) | by destruct (HW fd' bs)]. }
  unfold moved, reads, sent in *. cbn [fmap list_fmap concat]. rewrite Hr, Hs. cbn [app].
  split; congruence.
Qed.

Lemma moved_read fd n w w' t : moved fd (sys (Read fd n) w).2 w' t ->
  moved fd w w' ((Read fd n, (sys (Read fd n) w).1) :: t).
Proof.
  intros [Hrx Htx]. unfold moved, reads, sent in *. cbn [fmap list_fmap concat].
  pose proof (read_moves fd n w) as H. cbn [read_by sent_by fst snd].
  destruct (sys (Read fd n) w) as [a w1]. cbn [fst snd] in *.
  destruct H as (Ht & [(Hpos & _ & _ & Hr) | [(H0 & Hr & Hr1) | (Hneg & Hr)]]).
  - if_true. rewrite <- app_assoc, <- Hrx. cbn [app]. split; congruence.
  - if_false. cbn [app]. split; congruence.
  - if_false. cbn [app]. split; congruence.
Qed.

Lemma moved_write fd bs w w' t : moved fd (sys (Write fd bs) w).2 w' t ->
  moved fd w w' ((Write fd bs, (sys (Write fd bs) w).1) :: t).
Proof.
  intros [Hrx Htx]. unfold moved, reads, sent in *. cbn [fmap list_fmap concat].
  pose proof (write_moves fd bs w) as H. cbn [read_by sent_by fst snd].
  destruct (sys (Write fd bs) w) as [a w1]. cbn [fst snd] in *. destruct H as (Hr & _ & Ht).
  cbn [app]. split; [congruence |]. by rewrite Htx, Ht, app_assoc.
Qed.

(** The end of a run whose calls are known. *)
Ltac ran := do 3 eexists; split; [rewrite <- ?app_assoc; reflexivity |];
  split; [repeat first [apply moved_read | apply moved_write | apply moved_other; [done.. |]]; apply moved_nil |].

Lemma client_echoes e fd : forall fuel w t, (length (rx w fd) < fuel)%nat ->
  exists r w' t', handle_client_data sys stack fuel e fd (w, t) = (r, (w', t ++ t')) /\
    moved fd w w' t' /\ (r = Ok () -> given t' = reads t') /\ echo_end e fd t' r.
Proof.
  induction fuel as [| fuel IH]; intros w t Hfuel; [lia |].
  cbn [handle_client_data]. unfold mbind at 1, IO_bind at 1, uninitialised. rewrite run_syscall. cbv zeta.
  pose proof (read_moves fd BUF_SIZE w) as Hread.
  set (R := sys (Read fd BUF_SIZE) w) in *. replace R with (R.1, R.2) in Hread by (by destruct R).
  destruct Hread as (_ & [(Hpos & Hle & Hlen & Hrx) | [(H0 & _ & _) | (Hneg & _)]]).
  - if_false. if_false.
    assert (Hsent : take (Z.to_nat (ret R.1)) (data R.1 ++ drop (length (data R.1)) (stack w)) = data R.1).
    { rewrite Hlen, Nat2Z.id. by apply take_app_length'. }
    rewrite Hsent. destruct (c_string _) as [str | err] eqn:Hstr.
    + rewrite io_lift_bind, !run_syscall. case_if.
      * unfold drop_client. rewrite !run_syscall. ran.
        split; [intros _; cbn; if_true; by rewrite !app_nil_r |].
        by apply (end_write_error e fd [_; _]).
      * match goal with |- context [handle_client_data _ _ _ _ _ (?w3, ?t3)] =>
          destruct (IH w3 t3) as (r & w' & t' & Hrun & Hmoved & Hgiven & Hend) end.
        { pose proof (write_moves fd (data R.1) (sys (Printf_recv str) R.2).2) as Hw.
          destruct (sys (Write fd (data R.1)) _) as [? w3]. cbn [snd]. destruct Hw as (-> & _).
          destruct (others_keep (Printf_recv str) R.2 fd ltac:(done) ltac:(done)) as [-> _].
          rewrite Hrx, length_app in Hfuel. lia. }
        rewrite Hrun, <- !app_assoc. do 3 eexists. split; [reflexivity |].
        split; [apply moved_read, moved_other, moved_write; [done.. | exact Hmoved] |]. split.
        -- intros Hr. unfold given, reads in *. cbn. if_true. by rewrite Hgiven.
        -- by apply (echo_end_app e fd [_; _; _]).
    + apply c_string_fault in Hstr as Herr. subst err. ran. split; [done |].
      apply (end_unterminated e fd []); [done |]. intros Hin.
      destruct (c_string_nul _ (drop (length (data R.1)) (stack w)) Hin) as [? ?]. congruence.
  - if_false. if_true. unfold drop_client. rewrite !run_syscall. ran.
    split; [intros _; cbn; by if_false | ]. by apply (end_of_stream e fd []).
  - if_true. destruct (Z.eqb_spec (errno R.1) EAGAIN) as [He | He]; cbn [orb].
    + ran. split; [intros _; cbn; by if_false |]. by apply (end_drained e fd []).
    + rewrite (proj2 (Z.eqb_neq _ EWOULDBLOCK)) by done. unfold drop_client. rewrite !run_syscall. ran.
      split; [intros _; cbn; by if_false |]. by apply (end_read_error e fd []).
Qed.
End echo.

(** ** Accepting *)

(** The connections on the listening socket as accept(2) documents them:
    [waiting] is how many are in its queue and [total] how many there are
    with those still to arrive, which they may do during any call.
    [accept4] takes one, or fails: with [EAGAIN] when the queue is empty, or
    with another error ([EMFILE], [ECONNABORTED], ...), which may also cost
    a connection. *)
Class Backlog (W : Type) (sys : call -> W -> answer * W) := {
  waiting : W -> nat;
  total : W -> nat;
  accept_takes l f w : let (a, w') := sys (Accept4 l f) w in
    0 <= ret a -> total w = S (total w') /\ (waiting w <= S (waiting w'))%nat;
  accept_fails l f w : let (a, w') := sys (Accept4 l f) w in
    ret a < 0 -> ret a = -1 /\ (total w' <= total w)%nat /\ (errno a = EAGAIN -> waiting w = 0%nat);
  others_wait c w : (forall l f, c <> Accept4 l f) ->
    total (sys c w).2 = total w /\ (waiting w <= waiting (sys c w).2)%nat
}.

Definition client_events : Z := Z.lor (Z.lor EPOLLIN EPOLLET) EPOLLRDHUP.

(** The calls of a run of [handle_new_connection] that accepts [n] clients:
    each is registered, or closed when that fails; the last [accept4] found
    the queue empty ([drained]), or failed otherwise and is reported. *)
Inductive accept_run (e l : Z) (drained : bool) : nat -> trace -> Prop :=
| accept_drained a :
    drained = true -> ret a = -1 -> errno a = EAGAIN ->
    accept_run e l drained 0 [(Accept4 l SOCK_NONBLOCK, a)]
| accept_failed a p :
    drained = false -> ret a = -1 -> errno a <> EAGAIN ->
    accept_run e l drained 0 [(Accept4 l SOCK_NONBLOCK, a); (Perror "accept4", p)]
| accept_registered a r n t :
    0 <= ret a -> 0 <= ret r -> accept_run e l drained n t ->
    accept_run e l drained (S n)
      ((Accept4 l SOCK_NONBLOCK, a) :: (Epoll_add e (ret a) client_events, r) :: t)
| accept_refused a r p c n t :
    0 <= ret a -> ret r < 0 -> accept_run e l drained n t ->
    accept_run e l drained (S n)
      ((Accept4 l SOCK_NONBLOCK, a) :: (Epoll_add e (ret a) client_events, r) ::
       (Perror "epoll_ctl add client", p) :: (Close (ret a), c) :: t).

Lemma connections_drained {W} (sys : call -> W -> answer * W) `{B : !Backlog W sys} e l : forall fuel w t,
  (total w < fuel)%nat ->
  exists drained k w' t', handle_new_connection sys fuel e l (w, t) = (Ok (), (w', t ++ t')) /\
    accept_run e l drained k t' /\ (k <= total w)%nat /\ (drained = true -> waiting w <= k)%nat.
Proof.
  induction fuel as [| fuel IH]; intros w t Hfuel; [lia |].
  cbn [handle_new_connection]. rewrite run_syscall. cbv zeta. fold client_events.
  pose proof (accept_takes l SOCK_NONBLOCK w) as Htake. pose proof (accept_fails l SOCK_NONBLOCK w) as Hfail.
  destruct (sys (Accept4 l SOCK_NONBLOCK) w) as [a w1]. cbn [fst snd].
  destruct (Z.le_gt_cases 0 (ret a)) as [Hret | Hret].
  - destruct (Htake Hret) as [Htotal Hwait]. if_false. rewrite run_syscall.
    destruct (others_wait (Epoll_add e (ret a) client_events) w1 ltac:(done)) as [Ht1 Hw1].
    destruct (sys (Epoll_add e (ret a) client_events) w1) as [r w2]. cbn [fst snd] in *.
    destruct (Z.ltb_spec (ret r) 0) as [Hr | Hr].
    + unfold mbind at 1, IO_bind at 1. rewrite !run_syscall. cbn [mret IO_ret].
      set (w3 := (sys (Perror "epoll_ctl add client") w2).2).
      destruct (others_wait (Perror "epoll_ctl add client") w2 ltac:(done)) as [Ht2 Hw2]. fold w3 in Ht2, Hw2.
      destruct (others_wait (Close (ret a)) w3 ltac:(done)) as [Ht3 Hw3].
      edestruct (IH (sys (Close (ret a)) w3).2) as (dr & k & w' & t' & Hrun & Hacc & Hk & Hdr); [lia |].
      exists dr, (S k), w'. eexists. split; [rewrite Hrun, <- !app_assoc; reflexivity |].
      split; [by constructor |]. split; [lia |]. intros Hd. specialize (Hdr Hd). lia.
    + unfold mbind at 1, IO_bind at 1. cbn [mret IO_ret].
      edestruct (IH w2) as (dr & k & w' & t' & Hrun & Hacc & Hk & Hdr); [lia |].
      exists dr, (S k), w'. eexists. split; [rewrite Hrun, <- !app_assoc; reflexivity |].
      split; [by constructor |]. split; [lia |]. intros Hd. specialize (Hdr Hd). lia.
  - destruct (Hfail Hret) as (H1 & Htotal & Hagain). rewrite (proj2 (Z.eqb_eq (ret a) (-1)) H1).
    destruct (Z.eqb_spec (errno a) EAGAIN) as [He | He]; cbn [orb].
    + exists true, 0%nat, w1, [(Accept4 l SOCK_NONBLOCK, a)]. split; [done |].
      split; [by constructor |]. split; [lia |]. intros _. rewrite Hagain by done. lia.
    + rewrite (proj2 (Z.eqb_neq _ EWOULDBLOCK)) by done. rewrite run_syscall.
      exists false, 0%nat. do 2 eexists. split; [rewrite <- app_assoc; reflexivity |].
      split; [by constructor |]. split; [lia | done].
Qed.

(** ** The protocol of the client handler *)

(** The calls of a run of [handle_client_data] and how it ends. *)
Inductive client_run (e fd : Z) : trace -> res () -> Prop :=
| run_echo a s p r t x :
    0 < ret a -> 0 <= ret r -> client_run e fd t x ->
    client_run e fd ((Read fd BUF_SIZE, a) :: (Printf_recv s, p) :: (Write fd (data a), r) :: t) x
| run_drained a :
    ret a < 0 -> errno a = EAGAIN -> client_run e fd [(Read fd BUF_SIZE, a)] (Ok ())
| run_read_error a p d c :
    ret a < 0 -> errno a <> EAGAIN ->
    client_run e fd [(Read fd BUF_SIZE, a); (Perror "read", p); (Epoll_del e fd, d); (Close fd, c)] (Ok ())
| run_eof a d c :
    ret a = 0 -> client_run e fd [(Read fd BUF_SIZE, a); (Epoll_del e fd, d); (Close fd, c)] (Ok ())
| run_write_error a s p r q d c :
    0 < ret a -> ret r < 0 ->
    client_run e fd [(Read fd BUF_SIZE, a); (Printf_recv s, p); (Write fd (data a), r);
                     (Perror "write", q); (Epoll_del e fd, d); (Close fd, c)] (Ok ())
| run_overread a :
    0 < ret a -> client_run e fd [(Read fd BUF_SIZE, a)] (Fault Unterminated)
| run_cut : client_run e fd [] (Fault OutOfFuel).

Section protocol.
Context {W : Type} (sys : call -> W -> answer * W) (stack : W -> list Z).

(** [m] extends the trace by a run that satisfies [P]. *)
Definition traced {A} (m : IO W A) (P : trace -> res A -> Prop) : Prop := forall w t,
  exists w' t', (m (w, t)).2 = (w', t ++ t') /\ P t' (m (w, t)).1.

Lemma traced_ret {A} (a : A) (P : trace -> res A -> Prop) : P [] (Ok a) -> traced (mret a) P.
Proof. intros HP w t. exists w, []. by rewrite app_nil_r. Qed.

Lemma traced_fault {A} err (P : trace -> res A -> Prop) : P [] (Fault err) -> traced (io_fault err) P.
Proof. intros HP w t. exists w, []. by rewrite app_nil_r. Qed.

Lemma traced_call {A} c (f : answer -> IO W A) (P : trace -> res A -> Prop) (L : call -> answer -> Prop) :
  (forall w, L c (sys c w).1) ->
  (forall a, L c a -> traced (f a) (fun t x => P ((c, a) :: t) x)) ->
  traced (syscall sys c ≫= f) P.
Proof.
  intros Hlaw Hf w t. specialize (Hlaw w). unfold mbind, IO_bind, syscall.
  destruct (sys c w) as [a w1]. cbn in Hlaw.
  destruct (Hf a Hlaw w1 (t ++ [(c, a)])) as (w' & t' & Hrun & HP).
  exists w', ((c, a) :: t'). rewrite <- app_assoc in Hrun. split; [exact Hrun | exact HP].
Qed.

Lemma traced_any {A} c (f : answer -> IO W A) (P : trace -> res A -> Prop) :
  (forall a, traced (f a) (fun t x => P ((c, a) :: t) x)) -> traced (syscall sys c ≫= f) P.
Proof. intros Hf. by apply (traced_call c f P (fun _ _ => True)). Qed.

Lemma traced_uninitialised {A} (f : list Z -> IO W A) P :
  (forall junk, traced (f junk) P) -> traced (uninitialised stack ≫= f) P.
Proof. intros Hf w t. apply Hf. Qed.

Lemma traced_io_lift {A B} (r : res A) (f : A -> IO W B) P :
  (forall a, r = Ok a -> traced (f a) P) -> (forall err, r = Fault err -> P [] (Fault err)) ->
  traced (io_lift r ≫= f) P.
Proof.
  intros Hok Herr. destruct r as [a | err]; [by apply Hok |]. by apply traced_fault, Herr.
Qed.

(** [read] returns the number of bytes it stored. *)
Definition read_law (c : call) (a : answer) : Prop :=
  match c with Read _ _ => 0 <= ret a -> ret a = Z.of_nat (length (data a)) | _ => True end.

Context (Hread : forall c w, read_law c (sys c w).1).

Ltac call := eapply (traced_call _ _ _ read_law); [intros; apply Hread |].

Lemma traced_drop_client e fd (P : trace -> res () -> Prop) :
  (forall d c, P [(Epoll_del e fd, d); (Close fd, c)] (Ok ())) -> traced (drop_client sys e fd) P.
Proof. intros HP. unfold drop_client. call. intros d _. call. intros c _. by apply traced_ret. Qed.

Lemma client_traced e fd fuel (P : trace -> res () -> Prop) :
  (forall t x, client_run e fd t x -> P t x) -> traced (handle_client_data sys stack fuel e fd) P.
Proof.
  revert P. induction fuel as [| fuel IH]; intros P HP; cbn [handle_client_data].
  { apply traced_fault, HP. constructor. }
  apply traced_uninitialised. intros junk. call. intros a Ha. cbv zeta. cbn in Ha.
  destruct (Z.ltb_spec (ret a) 0).
  { destruct (Z.eqb_spec (errno a) EAGAIN) as [He | He]; cbn [orb].
    - apply traced_ret, HP. by constructor.
    - rewrite (proj2 (Z.eqb_neq _ EWOULDBLOCK)) by done. call. intros p _.
      apply traced_drop_client. intros d c. apply HP. by constructor. }
  destruct (Z.eqb_spec (ret a) 0).
  { apply traced_drop_client. intros d c. apply HP. by constructor. }
  apply traced_io_lift; [| intros err Herr%c_string_fault; subst err; apply HP; constructor; lia].
  intros s _. call. intros p _.
  rewrite take_app_length' by (rewrite Ha by lia; by rewrite Nat2Z.id). call. intros r _.
  destruct (Z.ltb_spec (ret r) 0).
  - call. intros q _. apply traced_drop_client. intros d c. apply HP. constructor; lia.
  - apply IH. intros t x Hrun. apply HP. constructor; [lia | lia | done].
Qed.

Lemma traced_bind {A B} (m : IO W A) (f : A -> IO W B) (Q : trace -> res A -> Prop) (P : trace -> res B -> Prop) :
  traced m Q -> (forall t err, Q t (Fault err) -> P t (Fault err)) ->
  (forall t a, Q t (Ok a) -> traced (f a) (fun t' x => P (t ++ t') x)) -> traced (m ≫= f) P.
Proof.
  intros Hm Herr Hf w t. destruct (Hm w t) as (w1 & t1 & Hrun & HQ).
  unfold mbind, IO_bind. destruct (m (w, t)) as [[a | err] s1]; cbn in Hrun, HQ; subst s1.
  - destruct (Hf _ _ HQ w1 (t ++ t1)) as (w2 & t2 & Hrun2 & HP). exists w2, (t1 ++ t2).
    rewrite app_assoc. exact (conj Hrun2 HP).
  - exists w1, t1. split; [done |]. by apply Herr.
Qed.

(** The calls of [make_nonblocking]. *)
Lemma make_nonblocking_traced fd : traced (make_nonblocking sys fd) (fun t x => exists flags,
  let calls := [Fcntl_getfl fd; Fcntl_setfl fd (Z.lor flags O_NONBLOCK)] in
  (x = Ok 0 /\ t.*1 = calls) \/
  (x = Ok (-1) /\ (t.*1 = take 1 calls ++ [Perror "read flags"] \/ t.*1 = calls ++ [Perror "set flags"]))).
Proof.
  unfold make_nonblocking. apply traced_any. intros a. case_if.
  { apply traced_any. intros p. apply traced_ret. exists 0. auto. }
  apply traced_any. intros r. case_if.
  - apply traced_any. intros p. apply traced_ret. exists (ret a). auto.
  - apply traced_ret. exists (ret a). auto.
Qed.
End protocol.

(** The calls of [create_listen_socket], and what is printed when each of
    them fails. *)
Definition listen_calls (fd port flags : Z) : list call :=
  [Socket; Setsockopt fd; Bind fd port; Listen fd; Fcntl_getfl fd;
   Fcntl_setfl fd (Z.lor flags O_NONBLOCK)].

Definition listen_messages : list string :=
  ["create socket"; "set socket options"; "bind"; "listen"; "read flags"; "set flags"]%string.

(** All six calls, and the socket; or the calls up to a failed one, its
    message, and -1. *)
Definition listen_outcome (port : Z) (t : trace) (x : res Z) : Prop := exists fd flags,
  let calls := listen_calls fd port flags in
  (x = Ok fd /\ t.*1 = calls) \/
  (x = Ok (-1) /\ exists k msg, listen_messages !! k = Some msg /\
    t.*1 = take (S k) calls ++ [Perror msg]).

Lemma listen_fails fd port flags k msg (t : trace) :
  listen_messages !! k = Some msg -> t.*1 = take (S k) (listen_calls fd port flags) ++ [Perror msg] ->
  listen_outcome port t (Ok (-1)).
Proof. intros Hk Ht. exists fd, flags. right. split; [done |]. by exists k, msg. Qed.

Lemma listen_socket_traced {W} (sys : call -> W -> answer * W) port :
  traced (create_listen_socket sys port) (listen_outcome (u16 port)).
Proof.
  unfold create_listen_socket. apply traced_any. intros a. cbv zeta. set (fd := ret a).
  case_if; [apply traced_any; intros p; apply traced_ret; by eapply (listen_fails fd _ 0 0) |].
  apply traced_any. intros r1.
  case_if; [apply traced_any; intros p; apply traced_ret; by eapply (listen_fails fd _ 0 1) |].
  apply traced_any. intros r2.
  case_if; [apply traced_any; intros p; apply traced_ret; by eapply (listen_fails fd _ 0 2) |].
  apply traced_any. intros r3.
  case_if; [apply traced_any; intros p; apply traced_ret; by eapply (listen_fails fd _ 0 3) |].
  eapply traced_bind; [apply make_nonblocking_traced | |].
  - intros t1 err (flags & [[? _] | [? _]]); discriminate.
  - intros t1 v (flags & [[[= ->] Ht] | [[= ->] [Ht | Ht]]]); cbn [Z.eqb Pos.eqb];
      apply traced_ret; rewrite app_nil_r.
    + exists fd, flags. left. split; [done |]. cbn. by rewrite Ht.
    + eapply (listen_fails fd _ flags 4); [done |]. cbn. by rewrite Ht.
    + eapply (listen_fails fd _ flags 5); [done |]. cbn. by rewrite Ht.
Qed.

(** ** Properties *)

(** C24. Descriptor discipline.  On every system that hands out new
    descriptors and reports events of registered ones, after any number of
    rounds of the event loop, and however they end: no call was ever made on
    a descriptor that was not open then (nothing is used after it is closed,
    or closed twice); the open descriptors are the clients (given by
    [accept4] and not closed since) and at most two that [socket] and
    [epoll_create1] gave; and every client is registered with the epoll
    instance, so none is leaked. *)
Theorem main_descriptors W (sys : call -> W -> answer * W) (K : Kernel W sys) stack rounds fuel w :
  opened w = ∅ -> registered w = ∅ ->
  exists r w' t, main sys stack rounds fuel (w, []) = (r, (w', t)) /\ disciplined ∅ t /\
    opened w' = clients t ∪ own t /\ (size (own t) <= 2)%nat /\
    clients t ⊆ registered w' /\ registered w' ⊆ opened w'.
Proof.
  intros Ho Hr. destruct (main_ends sys stack rounds fuel (w, [])) as (F & Hat & Hcl & Hreg & Hown).
  { by split_and!. }
  destruct (main _ _ _ _ _) as [r [w' t]]. exists r, w', t. split; [done |].
  destruct Hat as (Hd & Hop & Hw & Hwr & Hwc & Hwo). cbn [fst snd] in *.
  rewrite Hw, Hwr, Hwo, Hwc. split_and!; try done.
  rewrite <- Hop, <- Hwc, <- Hwo. rewrite <- (union_empty_l_L ∅) at 1. apply opened_split.
Qed.

(** C25. The server echoes what it reads, whatever the sockets do within
    read(2) and write(2): one call of [handle_client_data] returns, or runs
    off a chunk without a NUL in its [printf]; what it has read is what was
    there to read, in order, however it was cut, and the rest is still to
    be read; what was sent is what the [write]s accepted; when it returns,
    it gave to [write] exactly what it read, so that if every [write]
    accepted all it was given, exactly what was read was sent back; and it
    stopped only on [EAGAIN], the end of the stream or a failed call. *)
Theorem handle_client_data_echoes W (sys : call -> W -> answer * W) (K : Sockets W sys) stack
    fuel e fd w t :
  (length (rx w fd) < fuel)%nat ->
  exists r w' t', handle_client_data sys stack fuel e fd (w, t) = (r, (w', t ++ t')) /\
    rx w fd = reads t' ++ rx w' fd /\
    tx w' fd = tx w fd ++ sent t' /\
    (r = Ok () -> given t' = reads t') /\
    (r = Ok () -> Forall whole t' -> tx w' fd = tx w fd ++ reads t') /\
    echo_end e fd t' r.
Proof.
  intros Hfuel. destruct (client_echoes sys stack e fd fuel w t Hfuel)
    as (r & w' & t' & Hrun & [Hrx Htx] & Hgiven & Hend).
  exists r, w', t'. split_and!; try done. intros Hr Hw. by rewrite <- Hgiven, <- sent_whole.
Qed.

(** C26. The protocol of [handle_client_data], whatever the system answers:
    it writes after each read exactly the bytes read, stops at [EAGAIN]
    leaving the client registered, and on end of file or an error removes
    the client from the epoll instance and then closes it, once and last;
    it can also run over the end of the buffer it prints. *)
Theorem handle_client_data_protocol W (sys : call -> W -> answer * W) stack fuel e fd w t :
  (forall c w, read_law c (sys c w).1) ->
  exists w' t', (handle_client_data sys stack fuel e fd (w, t)).2 = (w', t ++ t') /\
    client_run e fd t' (handle_client_data sys stack fuel e fd (w, t)).1.
Proof. intros Hread. by apply (client_traced sys stack Hread e fd fuel). Qed.

(** The buffer is printed as a string but never terminated: a read that
    fills it with nonzero bytes makes [printf] read past its end. *)
Theorem handle_client_data_overreads W (sys : call -> W -> answer * W) stack fuel e fd w t :
  length (stack w) = 4096%nat ->
  ret (sys (Read fd BUF_SIZE) w).1 = BUF_SIZE ->
  length (data (sys (Read fd BUF_SIZE) w).1) = 4096%nat -> c_chars (data (sys (Read fd BUF_SIZE) w).1) ->
  (handle_client_data sys stack (S fuel) e fd (w, t)).1 = Fault Unterminated.
Proof.
  intros Hstack Hret Hlen Hchars. cbn [handle_client_data].
  unfold mbind, IO_bind, uninitialised, syscall at 1.
  destruct (sys (Read fd BUF_SIZE) w) as [a w1]. cbn in Hret, Hlen, Hchars. rewrite Hret.
  cbn [Z.ltb Z.eqb BUF_SIZE Z.compare].
  rewrite drop_ge, app_nil_r by (rewrite Hlen; lia). by rewrite c_string_unterminated.
Qed.

(** [create_listen_socket] makes its six calls in order and returns the
    non-blocking socket, or stops at the first that fails, naming it, and
    returns -1; it never closes the socket it created. *)
Theorem create_listen_socket_calls W (sys : call -> W -> answer * W) port w t :
  exists w' t', (create_listen_socket sys port (w, t)).2 = (w', t ++ t') /\
    listen_outcome (u16 port) t' (create_listen_socket sys port (w, t)).1 /\
    forall c, c ∈ t'.*1 -> forall fd, c <> Close fd.
Proof.
  destruct (listen_socket_traced sys port w t) as (w' & t' & Hrun & Hout). exists w', t'.
  split_and!; [done | done |]. intros c Hc fd ->.
  destruct Hout as (fd' & flags & [[_ Ht] | (_ & k & msg & _ & Ht)]); rewrite Ht in Hc.
  - apply list_elem_of_In in Hc. cbn in Hc. intuition discriminate.
  - apply elem_of_app in Hc as [Hc%elem_of_take | Hc].
    + destruct Hc as (i & Hi & _). do 6 (destruct i as [| i]; [discriminate Hi |]). discriminate Hi.
    + apply list_elem_of_singleton in Hc. discriminate.
Qed.

(** A short write is taken for success: when [write] accepts only the
    first [m] of the bytes read and nothing more is there to read, the
    handler returns without having sent the rest. *)
Theorem short_write_drops W (sys : call -> W -> answer * W) stack fuel e fd w t bs m s :
  let (a, w1) := sys (Read fd BUF_SIZE) w in
  let (p, w2) := sys (Printf_recv s) w1 in
  let (r, w3) := sys (Write fd bs) w2 in
  let (z, w4) := sys (Read fd BUF_SIZE) w3 in
  data a = bs -> ret a = Z.of_nat (length bs) -> 0 < Z.of_nat (length bs) ->
  c_string (bs ++ drop (length bs) (stack w)) = Ok s ->
  0 <= m < Z.of_nat (length bs) -> ret r = m -> ret z = -1 -> errno z = EAGAIN ->
  handle_client_data sys stack (S (S fuel)) e fd (w, t) =
  (Ok (), (w4, t ++ [(Read fd BUF_SIZE, a); (Printf_recv s, p); (Write fd bs, r); (Read fd BUF_SIZE, z)])).
Proof.
  destruct (sys (Read fd BUF_SIZE) w) as [a w1] eqn:E1.
  destruct (sys (Printf_recv s) w1) as [p w2] eqn:E2.
  destruct (sys (Write fd bs) w2) as [r w3] eqn:E3.
  destruct (sys (Read fd BUF_SIZE) w3) as [z w4] eqn:E4.
  intros Hdata Hret Hpos Hs Hm Hr Hz Herr.
  cbn [handle_client_data]. unfold mbind, IO_bind, uninitialised, syscall at 1. rewrite E1, Hdata, Hs, Hret.
  if_false. if_false. cbn [io_lift mret IO_ret]. unfold syscall at 1. rewrite E2. unfold syscall at 1.
  rewrite Nat2Z.id, take_app_length, E3, Hr. if_false.
  unfold syscall at 1. rewrite E4, Hz, Herr. cbn. by rewrite <- !app_assoc.
Qed.

(** C27. [handle_new_connection] drains the backlog, as an edge-triggered
    listener must, unless [accept4] fails for another reason than an empty
    queue: it returns once connections stop arriving, each client it
    accepted is registered with the epoll instance for edge-triggered input,
    or closed when that fails; if it stopped at [EAGAIN] it accepted at
    least all that were waiting when it was called; otherwise it stopped at
    the first other failure of [accept4], which it reported, whatever was
    still waiting. *)
Theorem handle_new_connection_drains W (sys : call -> W -> answer * W) (B : Backlog W sys) fuel e l w t :
  (total w < fuel)%nat ->
  exists drained k w' t', handle_new_connection sys fuel e l (w, t) = (Ok (), (w', t ++ t')) /\
    accept_run e l drained k t' /\ (k <= total w)%nat /\ (drained = true -> waiting w <= k)%nat.
Proof. apply connections_drained. Qed.

(** *** Witnesses: a system with one client at a time *)

Record toy := mkToy {
  k_open : gset Z; k_reg : gset Z; k_backlog : nat; k_rx : list Z; k_tx : list Z
}.

Definition ans (r : Z) : answer := mkAns r 0 [] [].
Definition again : answer := mkAns (-1) EAGAIN [] [].

(** The least descriptor above all open ones. *)
Definition next_fd (s : gset Z) : Z := 1 + foldr Z.max 2 (elements s).

Lemma next_fd_fresh s : 0 <= next_fd s /\ next_fd s ∉ s.
Proof.
  assert (H : 2 <= foldr Z.max 2 (elements s) /\ forall x, x ∈ elements s -> x <= foldr Z.max 2 (elements s)).
  { induction (elements s) as [| y l IH]; cbn; [split; [lia |]; intros x Hx; by apply not_elem_of_nil in Hx |].
    destruct IH as [H2 IH]. split; [lia |]. intros x [-> | Hx]%elem_of_cons; [lia |]. specialize (IH x Hx). lia. }
  destruct H as [H2 H]. unfold next_fd. split; [lia |]. intros Hin%elem_of_elements%H. lia.
Qed.

Definition toy_answer (c : call) (w : toy) : answer :=
  match c with
  | Socket | Epoll_create1 => ans (next_fd (k_open w))
  | Accept4 _ _ => match k_backlog w with O => again | S _ => ans (next_fd (k_open w)) end
  | Read _ n =>
      let bs := take (Z.to_nat n) (k_rx w) in
      if bool_decide (bs = []) then again else mkAns (Z.of_nat (length bs)) 0 bs []
  | Write _ bs => ans (Z.of_nat (length bs))
  | Epoll_wait _ _ =>
      let es := mkEv EPOLLIN <$> elements (k_reg w) in
      mkAns (Z.of_nat (length es)) 0 [] es
  | _ => ans 0
  end.

Definition toy_sys (c : call) (w : toy) : answer * toy :=
  let a := toy_answer c w in
  (a, mkToy (opened_after (k_open w) c a) (registered_after (k_reg w) c a)
        (match c with Accept4 _ _ => pred (k_backlog w) | _ => k_backlog w end)
        (match c with Read _ _ => drop (length (data a)) (k_rx w) | _ => k_rx w end)
        (match c with Write _ bs => k_tx w ++ bs | _ => k_tx w end)).

Lemma toy_opened c w : k_open (toy_sys c w).2 = opened_after (k_open w) c (toy_sys c w).1.
Proof. done. Qed.

Lemma toy_registered c w : k_reg (toy_sys c w).2 = registered_after (k_reg w) c (toy_sys c w).1.
Proof. done. Qed.

Lemma toy_fresh c w : creates c = true -> 0 <= ret (toy_sys c w).1 -> ret (toy_sys c w).1 ∉ k_open w.
Proof.
  intros Hc Hret. pose proof (next_fd_fresh (k_open w)) as [_ Hf].
  destruct c; try discriminate Hc; cbn in *; try done. destruct (k_backlog w); [cbn in Hret; lia | done].
Qed.

Lemma toy_failed_create c w : creates c = true -> ret (toy_sys c w).1 < 0 -> ret (toy_sys c w).1 = -1.
Proof.
  intros Hc Hret. pose proof (next_fd_fresh (k_open w)) as [Hge _].
  destruct c; try discriminate Hc; cbn in *; try lia. destruct (k_backlog w); cbn in *; lia.
Qed.

Lemma toy_wait_events e m w :
  let es := take (Z.to_nat (ret (toy_sys (Epoll_wait e m) w).1)) (evs (toy_sys (Epoll_wait e m) w).1) in
  NoDup (ev_fd <$> es) /\ Forall (fun ev => ev_fd ev ∈ k_reg w) es.
Proof.
  cbn. rewrite Nat2Z.id, firstn_all. split.
  - rewrite <- list_fmap_compose. cbn.
    replace (ev_fd ∘ mkEv EPOLLIN <$> elements (k_reg w)) with (elements (k_reg w))
      by (symmetry; apply list_fmap_id). apply NoDup_elements.
  - apply list.Forall_forall. intros ev (fd & -> & Hfd)%list_elem_of_fmap. by apply elem_of_elements.
Qed.

#[export] Instance toy_kernel : Kernel toy toy_sys := {|
  opened := k_open; registered := k_reg;
  opened_sys := toy_opened; registered_sys := toy_registered;
  fresh_fd := toy_fresh; failed_create := toy_failed_create; wait_events := toy_wait_events
|}.

Lemma toy_read_moves (fd : Z) n w : let (a, w') := toy_sys (Read fd n) w in
  k_tx w' = k_tx w /\
  ((0 < ret a /\ ret a <= n /\ ret a = Z.of_nat (length (data a)) /\ k_rx w = data a ++ k_rx w') \/
   (ret a = 0 /\ k_rx w = [] /\ k_rx w' = []) \/
   (ret a < 0 /\ k_rx w' = k_rx w)).
Proof.
  unfold toy_sys, toy_answer. set (bs := take (Z.to_nat n) (k_rx w)). case_bool_decide as Hbs; cbn.
  - split; [done |]. by right; right.
  - split; [done |]. left. assert (length bs <> 0%nat) by (by destruct bs).
    assert (length bs <= Z.to_nat n)%nat by (unfold bs; rewrite length_take; lia).
    split_and!; [lia.. |]. rewrite <- (take_drop (Z.to_nat n) (k_rx w)) at 1. fold bs. f_equal.
    unfold bs. rewrite length_take. destruct (Nat.le_ge_cases (Z.to_nat n) (length (k_rx w))).
    + by rewrite Nat.min_l.
    + by rewrite Nat.min_r, !drop_ge by lia.
Qed.

Lemma toy_write_moves (fd : Z) bs w : let (a, w') := toy_sys (Write fd bs) w in
  k_rx w' = k_rx w /\ ret a <= Z.of_nat (length bs) /\ k_tx w' = k_tx w ++ take (Z.to_nat (ret a)) bs.
Proof. cbn. rewrite Nat2Z.id, firstn_all. by split_and!. Qed.

Lemma toy_others_keep c w (fd : Z) : (forall fd n, c <> Read fd n) -> (forall fd bs, c <> Write fd bs) ->
  k_rx (toy_sys c w).2 = k_rx w /\ k_tx (toy_sys c w).2 = k_tx w.
Proof.
  intros HR HW. destruct c as [| | | | | | | | | | | fd' n | fd' bs | | | |]; try done;
    [by destruct (HR fd' n) | by destruct (HW fd' bs)].
Qed.

#[export] Instance toy_sockets : Sockets toy toy_sys :=
  Build_Sockets toy toy_sys (fun w _ => k_rx w) (fun w _ => k_tx w)
    toy_read_moves toy_write_moves toy_others_keep.

Lemma toy_accept_takes (l f : Z) w : let (a, w') := toy_sys (Accept4 l f) w in
  0 <= ret a -> k_backlog w = S (k_backlog w') /\ (k_backlog w <= S (k_backlog w'))%nat.
Proof. cbn. destruct (k_backlog w); cbn; lia. Qed.

Lemma toy_accept_fails (l f : Z) w : let (a, w') := toy_sys (Accept4 l f) w in
  ret a < 0 -> ret a = -1 /\ (k_backlog w' <= k_backlog w)%nat /\ (errno a = EAGAIN -> k_backlog w = 0%nat).
Proof.
  pose proof (next_fd_fresh (k_open w)) as [Hge _]. cbn. destruct (k_backlog w); cbn; [| lia]. intros _. by split_and!.
Qed.

Lemma toy_others_wait c w : (forall l f, c <> Accept4 l f) ->
  k_backlog (toy_sys c w).2 = k_backlog w /\ (k_backlog w <= k_backlog (toy_sys c w).2)%nat.
Proof. intros Hc. destruct c; try done. by destruct (Hc fd flags). Qed.

#[export] Instance toy_backlog : Backlog toy toy_sys :=
  Build_Backlog toy toy_sys k_backlog k_backlog toy_accept_takes toy_accept_fails toy_others_wait.

Lemma toy_read_law c w : read_law c (toy_sys c w).1.
Proof. destruct c; cbn; try done. case_bool_decide; cbn; lia. Qed.

Definition toy_start (backlog : nat) (bs : list Z) : toy := mkToy ∅ ∅ backlog bs [].

(** The stack below [buf] holds zeros. *)
Definition toy_stack (w : toy) : list Z := replicate 4096 0.

(** A client connects and sends five bytes: they are sent back. *)
Example toy_run :
  let '(r, (w, t)) := main toy_sys toy_stack 2 10 (toy_start 1 (chars "hello"), []) in
  r = Fault OutOfFuel /\ k_tx w = chars "hello" /\ k_open w = {[3; 4; 5]} /\ length t = 19%nat.
Proof. vm_compute. auto. Qed.

Lemma main_descriptors_witness :
  exists r w' t, main toy_sys toy_stack 3 10 (toy_start 2 (chars "hello"), []) = (r, (w', t)) /\
    disciplined ∅ t /\ k_open w' = clients t ∪ own t /\ (size (own t) <= 2)%nat /\
    clients t ⊆ k_reg w' /\ k_reg w' ⊆ k_open w'.
Proof. apply (main_descriptors toy toy_sys toy_kernel toy_stack 3 10); reflexivity. Defined.

Lemma handle_client_data_echoes_witness :
  exists r w' t', handle_client_data toy_sys toy_stack 6 4 5 (toy_start 0 (chars "hello"), []) = (r, (w', t')) /\
    chars "hello" = reads t' ++ k_rx w' /\ k_tx w' = sent t' /\ (r = Ok () -> given t' = reads t') /\
    (r = Ok () -> Forall whole t' -> k_tx w' = reads t') /\ echo_end 4 5 t' r.
Proof.
  apply (handle_client_data_echoes toy toy_sys toy_sockets toy_stack 6 4 5 (toy_start 0 (chars "hello")) []).
  cbn. lia.
Defined.

Lemma handle_client_data_protocol_witness :
  exists w' t', (handle_client_data toy_sys toy_stack 6 4 5 (toy_start 0 (chars "hello"), [])).2 = (w', t') /\
    client_run 4 5 t' (Ok ()).
Proof.
  exact (handle_client_data_protocol toy toy_sys toy_stack 6 4 5 (toy_start 0 (chars "hello")) [] toy_read_law).
Defined.

Lemma handle_client_data_overreads_witness :
  (handle_client_data toy_sys toy_stack 2 4 5 (toy_start 0 (replicate 5000 65), [])).1 = Fault Unterminated.
Proof.
  apply (handle_client_data_overreads toy toy_sys toy_stack 1 4 5);
    [vm_compute; reflexivity | vm_compute; reflexivity | vm_compute; reflexivity |].
  apply (Forall_check (fun c => negb (c =? 0))); [intros c Hc; lia | vm_compute; reflexivity].
Defined.

(** The same system, whose [write] accepts one byte at a time. *)
Definition short_sys (c : call) (w : toy) : answer * toy :=
  match c with
  | Write _ bs => (ans 1, mkToy (k_open w) (k_reg w) (k_backlog w) (k_rx w) (k_tx w ++ take 1 bs))
  | _ => toy_sys c w
  end.

Lemma short_write_drops_witness :
  exists w t, handle_client_data short_sys toy_stack 2 4 5 (toy_start 0 (chars "hello"), []) =
    (Ok (), (w, t)) /\ k_tx w = chars "h" /\ k_rx w = [].
Proof.
  do 2 eexists. split; [| split].
  - apply (short_write_drops toy short_sys toy_stack 0 4 5 (toy_start 0 (chars "hello")) [] (chars "hello") 1 (chars "hello"));
      first [reflexivity | split; [discriminate | reflexivity]].
  - reflexivity.
  - reflexivity.
Defined.

Lemma handle_new_connection_drains_witness :
  exists drained k w' t', handle_new_connection toy_sys 4 3 4 (toy_start 3 [], []) = (Ok (), (w', t')) /\
    accept_run 3 4 drained k t' /\ (k <= 3)%nat /\ (drained = true -> 3 <= k)%nat.
Proof. apply (handle_new_connection_drains toy toy_sys toy_backlog 4 3 4 (toy_start 3 []) []). cbn. lia. Defined.
