(* ===== verification/Value.v ===== *)
(** * Value

    The tagged union of 05-gdb_python_pretty_printer/main.c, at the level of
    its bytes, and the printer of value_printer.py that reads it back.  A
    double is its 64-bit pattern. *)

From S2P Require Import Prelude.
From stdpp Require Import pretty.

#[local] Open Scope Z_scope.

Inductive ValueKind := VAL_INT | VAL_FLOAT | VAL_STRING.

Definition kind_value (k : ValueKind) : Z :=
  match k with VAL_INT => 0 | VAL_FLOAT => 1 | VAL_STRING => 2 end.

(** [kind] as the integer stored, and the 16 bytes of the union. *)
Record Value := mkValue { kind : Z; bytes : list Z }.

Section value.
Context {host : ByteOrder}.

(** ** Members of the union *)

Definition as_int (v : Value) : Z := i64 (get (take 8 (bytes v))).
Definition as_float (v : Value) : Z := get (take 8 (bytes v)).
Definition as_str_ptr (v : Value) : Z := get (take 8 (bytes v)).
Definition as_str_len (v : Value) : Z := get (take 8 (drop 8 (bytes v))).

(** Assignments overlay the first bytes of what the union held. *)
Definition set_as_int (n : Z) (v : Value) : Value :=
  mkValue (kind v) (put 8 (u64 n) ++ drop 8 (bytes v)).
Definition set_as_float (d : Z) (v : Value) : Value :=
  mkValue (kind v) (put 8 d ++ drop 8 (bytes v)).
Definition set_as_str_ptr (p : Z) (v : Value) : Value :=
  mkValue (kind v) (put 8 p ++ drop 8 (bytes v)).
Definition set_as_str_len (len : Z) (v : Value) : Value :=
  mkValue (kind v) (take 8 (bytes v) ++ put 8 len ++ drop 16 (bytes v)).
Definition set_kind (k : ValueKind) (v : Value) : Value := mkValue (kind_value k) (bytes v).

(** ** Constructors

    [v] is the uninitialised local each of them starts from; a string is a
    pointer [s] into the memory [mem]. *)

Definition make_int (v : Value) (n : Z) : Value := set_as_int n (set_kind VAL_INT v).

Definition make_float (v : Value) (d : Z) : Value := set_as_float d (set_kind VAL_FLOAT v).

Definition make_str (mem : list Z) (v : Value) (s : Z) : res Value :=
  let v := set_as_str_ptr s (set_kind VAL_STRING v) in
  len ← (if (0 <=? s) && (s <? Z.of_nat (length mem)) then strlen (drop (Z.to_nat s) mem)
         else Fault (OutOfBounds s));
  Ok (set_as_str_len len v).

(** The bits of 3.14. *)
Definition pi_bits : Z := 0x40091EB851EB851F.

(** The values [inspect] is called with; [hello] points at the literal. *)
Definition main (mem : list Z) (v1 v2 v3 : Value) (hello : Z) : res (list Value) :=
  s ← make_str mem v3 hello;
  Ok [make_int v1 42; make_float v2 pi_bits; s].

(** ** The printer *)

Definition string_of (cs : list Z) : string :=
  String.string_of_list_ascii ((fun c => Ascii.ascii_of_N (Z.to_N c)) <$> cs).

Definition quote : string := String (Ascii.ascii_of_nat 34) EmptyString.

(** [n] bytes of [mem] at [p]. *)
Definition read_bytes (mem : list Z) (p n : Z) : res (list Z) :=
  if (0 <=? p) && (0 <=? n) && (p + n <=? Z.of_nat (length mem))
  then Ok (take (Z.to_nat n) (drop (Z.to_nat p) mem))
  else Fault (OutOfBounds p).

(** [format5g] is Python's [.5g] format of a double. *)
Definition to_string (format5g : Z -> string) (mem : list Z) (v : Value) : res string :=
  if kind v =? 0 then Ok ("Value(int, " +:+ pretty (as_int v) +:+ ")")
  else if kind v =? 1 then Ok ("Value(float, " +:+ format5g (as_float v) +:+ ")")
  else if kind v =? 2 then
    text ← read_bytes mem (as_str_ptr v) (as_str_len v);
    Ok ("Value(str, " +:+ quote +:+ string_of text +:+ quote +:+ ")")
  else Ok ("Value(UNKNOWN kind=" +:+ pretty (kind v) +:+ ")").

(** ** Lemmas *)

Definition union_ok (v : Value) : Prop := length (bytes v) = 16%nat.

Lemma get_put8 z rest : 0 <= z < 2 ^ 64 -> get (take 8 (put 8 z ++ rest)) = z.
Proof. intros Hz. rewrite take_app_length' by (by rewrite put_length). by apply get_put. Qed.

Lemma i64_u64 n : - 2 ^ 63 <= n < 2 ^ 63 -> i64 (u64 n) = n.
Proof. intros Hn. rewrite swrap_wrap by lia. apply swrap_small; lia. Qed.

Lemma make_int_value v n : - 2 ^ 63 <= n < 2 ^ 63 ->
  kind (make_int v n) = 0 /\ as_int (make_int v n) = n.
Proof.
  intros Hn. split; [done |]. unfold as_int. cbn [make_int set_as_int bytes].
  rewrite get_put8 by (apply wrap_range; lia). by apply i64_u64.
Qed.

Lemma make_float_value v d : 0 <= d < 2 ^ 64 ->
  kind (make_float v d) = 1 /\ as_float (make_float v d) = d.
Proof. intros Hd. split; [done |]. unfold as_float. by apply get_put8. Qed.

Lemma string_at_drop (mem : list Z) s text : stored mem s (text ++ [0]) ->
  0 <= s /\ s + Z.of_nat (length text) < Z.of_nat (length mem) /\
  exists r, drop (Z.to_nat s) mem = text ++ 0 :: r.
Proof.
  intros Hs. pose proof (stored_nonneg _ _ _ Hs). pose proof (stored_bound _ _ _ Hs) as Hb.
  rewrite length_app in Hb. cbn in Hb. split_and!; [done | lia |].
  destruct Hs as (l & r & -> & ->). exists r. by rewrite Nat2Z.id, drop_app_length, <- app_assoc.
Qed.

Lemma make_str_value mem v s text :
  union_ok v -> stored mem s (text ++ [0]) -> c_chars text -> Z.of_nat (length mem) < 2 ^ 64 ->
  exists w, make_str mem v s = Ok w /\ union_ok w /\ kind w = 2 /\ as_str_ptr w = s /\
    as_str_len w = Z.of_nat (length text) /\
    read_bytes mem (as_str_ptr w) (as_str_len w) = Ok text.
Proof.
  intros Hv Hs Hc Hmem. destruct (string_at_drop _ _ _ Hs) as (H0 & Hlt & r & Hdrop).
  unfold make_str. if_true. rewrite Hdrop, strlen_Ok, res_bind_Ok by done.
  eexists. split; [done |]. set (w := set_as_str_len _ _).
  assert (Hb : bytes w = put 8 s ++ put 8 (Z.of_nat (length text))).
  { unfold w, set_as_str_len, set_as_str_ptr, set_kind. cbn [bytes].
    rewrite take_app_length' by (by rewrite put_length).
    rewrite (drop_ge (put 8 s ++ _)), app_nil_r; [done |].
    unfold union_ok in Hv. rewrite length_app, put_length, length_drop. lia. }
  assert (Hp : as_str_ptr w = s) by (unfold as_str_ptr; rewrite Hb; apply get_put8; lia).
  assert (Hl : as_str_len w = Z.of_nat (length text)).
  { unfold as_str_len. rewrite Hb, drop_app_length' by (by rewrite put_length).
    rewrite <- (app_nil_r (put 8 _)). apply get_put8. lia. }
  split_and!; [| done | done | done |].
  - unfold union_ok. by rewrite Hb, length_app, !put_length.
  - rewrite Hp, Hl. unfold read_bytes. if_true.
    by rewrite Hdrop, Nat2Z.id, take_app_length.
Qed.
End value.

(** ** Properties *)

(** C32. The value made is the value read back, for every host byte order
    and whatever the uninitialised union held: the tag and the integer for
    [make_int] on all of [int64_t], the bits for [make_float], and for
    [make_str] the pointer, the length of the string before its terminator,
    and the bytes those two delimit. *)
Theorem make_reads_back (host : ByteOrder) mem v n d s text :
  - 2 ^ 63 <= n < 2 ^ 63 -> 0 <= d < 2 ^ 64 -> union_ok v ->
  stored mem s (text ++ [0]) -> c_chars text -> Z.of_nat (length mem) < 2 ^ 64 ->
  (kind (make_int v n) = kind_value VAL_INT /\ as_int (make_int v n) = n) /\
  (kind (make_float v d) = kind_value VAL_FLOAT /\ as_float (make_float v d) = d) /\
  exists w, make_str mem v s = Ok w /\ kind w = kind_value VAL_STRING /\ as_str_ptr w = s /\
    as_str_len w = Z.of_nat (length text) /\
    read_bytes mem (as_str_ptr w) (as_str_len w) = Ok text.
Proof.
  intros Hn Hd Hv Hs Hc Hmem. split; [by apply make_int_value |].
  split; [by apply make_float_value |].
  destruct (make_str_value mem v s text Hv Hs Hc Hmem) as (w & H1 & _ & H2 & H3 & H4 & H5).
  by exists w.
Qed.

(** Printed with value_printer.py, the three values [main] inspects are
    an integer 42, the double 3.14 and the string hello in quotes. *)
Theorem main_inspects (host : ByteOrder) format5g mem v1 v2 v3 hello :
  union_ok v3 -> stored mem hello (chars "hello" ++ [0]) -> Z.of_nat (length mem) < 2 ^ 64 ->
  exists vs, main mem v1 v2 v3 hello = Ok vs /\
    to_string format5g mem <$> vs =
    [ Ok "Value(int, 42)"%string; Ok ("Value(float, " +:+ format5g pi_bits +:+ ")")%string;
      Ok ("Value(str, " +:+ quote +:+ "hello" +:+ quote +:+ ")")%string ].
Proof.
  intros Hv Hs Hmem.
  destruct (make_str_value mem v3 hello (chars "hello") Hv Hs) as (w & Hw & _ & Hk & _ & _ & Hr);
    [by repeat constructor | done |].
  unfold main. rewrite Hw, res_bind_Ok. eexists. split; [done |].
  destruct (make_int_value v1 42) as [Hk1 Hi]; [lia |].
  destruct (make_float_value v2 pi_bits) as [Hk2 Hf]; [unfold pi_bits; lia |].
  cbn [fmap list_fmap]. unfold to_string. rewrite Hk, Hk1, Hk2, Hi, Hf, Hr. done.
Qed.

(** *** Witnesses *)

Definition sample_mem : list Z := replicate 8 7 ++ chars "hello" ++ [0; 9].

Lemma sample_stored : stored sample_mem 8 (chars "hello" ++ [0]).
Proof. by exists (replicate 8 7), [9]. Qed.

#[local] Existing Instance BigEndian.

Lemma make_reads_back_witness :
  let v := mkValue 99 (replicate 16 255) in
  (kind (make_int v (-5)) = 0 /\ as_int (make_int v (-5)) = -5) /\
  (kind (make_float v pi_bits) = 1 /\
   as_float (make_float v pi_bits) = pi_bits) /\
  exists w, make_str sample_mem v 8 = Ok w /\ kind w = 2 /\
    as_str_ptr w = 8 /\ as_str_len w = 5 /\
    read_bytes sample_mem (as_str_ptr w) (as_str_len w) = Ok (chars "hello").
Proof.
  apply (make_reads_back BigEndian sample_mem (mkValue 99 (replicate 16 255)) (-5) pi_bits 8 (chars "hello"));
    [lia | unfold pi_bits; lia | reflexivity | exact sample_stored | repeat constructor; discriminate | reflexivity].
Defined.

Lemma main_inspects_witness :
  exists vs, main (host := LittleEndian) sample_mem (mkValue 0 []) (mkValue 0 []) (mkValue 99 (replicate 16 255)) 8 = Ok vs /\
    to_string (host := LittleEndian) (fun _ => "3.14"%string) sample_mem <$> vs =
    [ Ok "Value(int, 42)"%string; Ok "Value(float, 3.14)"%string;
      Ok ("Value(str, " +:+ quote +:+ "hello" +:+ quote +:+ ")")%string ].
Proof.
  apply (main_inspects LittleEndian (fun _ => "3.14"%string) sample_mem (mkValue 0 []) (mkValue 0 []) (mkValue 99 (replicate 16 255)) 8);
    [reflexivity | exact sample_stored | reflexivity].
Defined.
