(* ===== verification/Bloom.v ===== *)
(** * Bloom

    The Bloom filter of 11-bloom_filter/bloom.h: its two hash functions on
    64-bit words, the double hashing of positions, [insert] and [contains].
    The constructor's floating-point derivation of the number of bits and of
    hash functions is an argument of [make]. *)

From S2P Require Import Prelude.

(** ** Hashing; a key is the list of its characters *)

Definition fnv1a_64 (s : list Z) : Z :=
  foldl (fun hash c => u64 (Z.lxor hash c * 1099511628211)) 14695981039346656037 s.

Definition djb2_64 (s : list Z) : Z :=
  foldl (fun hash c => Z.lxor (u64 (u64 (Z.shiftl hash 5) + hash)) c) 5381 s.

(** One finalizer round: [x ^= x >> 33; x *= mul; x ^= x >> 33]. *)
Definition finalize (mul x : Z) : Z :=
  let x := Z.lxor x (Z.shiftr x 33) in
  let x := u64 (x * mul) in
  Z.lxor x (Z.shiftr x 33).

(** ** The filter *)

Record BloomFilter := mkBloom { m_ : Z; k_ : Z; n_inserted_ : Z; bits_ : list bool }.

(** [m] and [k] are the values the constructor derives. *)
Definition make (m k : Z) : BloomFilter :=
  mkBloom m (if k <? 1 then 1 else k) 0 (replicate (Z.to_nat m) false).

Definition hash_i (bf : BloomFilter) (key : list Z) (i : Z) : res Z :=
  let a := finalize 0xff51afd7ed558ccd (fnv1a_64 key) in
  let b := finalize 0xc4ceb9fe1a85ec53 (djb2_64 key) in
  if m_ bf =? 0 then Fault DivByZero else Ok (u64 (a + u64 (i * b)) mod m_ bf).

(** The loops of [insert] and [contains], [n] rounds from [i] on. *)
Fixpoint insert_loop (n : nat) (i : Z) (key : list Z) (bf : BloomFilter) : res BloomFilter :=
  match n with
  | O => Ok bf
  | S n' =>
      g ← hash_i bf key i;
      bits ← wr (bits_ bf) g true;
      insert_loop n' (i + 1) key (mkBloom (m_ bf) (k_ bf) (n_inserted_ bf) bits)
  end.

Definition insert (key : list Z) (bf : BloomFilter) : res BloomFilter :=
  bf ← insert_loop (Z.to_nat (k_ bf)) 0 key bf;
  Ok (mkBloom (m_ bf) (k_ bf) (u64 (n_inserted_ bf + 1)) (bits_ bf)).

Fixpoint contains_loop (n : nat) (i : Z) (key : list Z) (bf : BloomFilter) : res bool :=
  match n with
  | O => Ok true
  | S n' =>
      g ← hash_i bf key i;
      b ← rd (bits_ bf) g;
      if negb b then Ok false else contains_loop n' (i + 1) key bf
  end.

Definition contains (key : list Z) (bf : BloomFilter) : res bool :=
  contains_loop (Z.to_nat (k_ bf)) 0 key bf.

Fixpoint insert_all (keys : list (list Z)) (bf : BloomFilter) : res BloomFilter :=
  match keys with
  | [] => Ok bf
  | key :: keys' => bf ← insert key bf; insert_all keys' bf
  end.

Example fnv_empty_a : fnv1a_64 [] = 0xcbf29ce484222325 /\ fnv1a_64 (chars "a") = 0xaf63dc4c8601ec8c.
Proof. vm_compute. done. Qed.

Example bloom_runs :
  (bf ← insert_all [chars "url-0"; chars "url-1"] (make 97 7);
   a ← contains (chars "url-0") bf; b ← contains (chars "url-1") bf;
   c ← contains (chars "url-7") bf; Ok (n_inserted_ bf, a, b, c)) = Ok (2, true, true, false).
Proof. vm_compute. reflexivity. Qed.

(** ** Specification: a filter is the set of positions of its keys *)

(** The [i]-th position of a key among [m] bits. *)
Definition position (m : Z) (key : list Z) (i : Z) : Z :=
  u64 (finalize 0xff51afd7ed558ccd (fnv1a_64 key) +
       u64 (i * finalize 0xc4ceb9fe1a85ec53 (djb2_64 key))) mod m.

Definition hit (m k : Z) (key : list Z) (g : Z) : Prop :=
  exists i, 0 <= i < k /\ position m key i = g.

(** The filter's bits are the positions of the keys [ks]. *)
Record holds (bf : BloomFilter) (ks : list (list Z)) : Prop := {
  holds_m : 1 <= m_ bf;
  holds_length : Z.of_nat (length (bits_ bf)) = m_ bf;
  holds_bits g : 0 <= g < m_ bf ->
    bits_ bf !! Z.to_nat g = Some true <-> exists key, key ∈ ks /\ hit (m_ bf) (k_ bf) key g
}.

Lemma position_range m key i : 1 <= m -> 0 <= position m key i < m.
Proof. intros. apply Z.mod_pos_bound. lia. Qed.

Lemma hash_i_position bf key i : 1 <= m_ bf -> hash_i bf key i = Ok (position (m_ bf) key i).
Proof. intros Hm. unfold hash_i. by if_false. Qed.

Lemma make_holds m k : 1 <= m -> holds (make m k) [].
Proof.
  intros Hm. split; cbn; [done | by rewrite length_replicate; lia |].
  intros g Hg. rewrite lookup_replicate_2 by lia. split; [done |].
  intros (key & Hkey & _). by apply not_elem_of_nil in Hkey.
Qed.

Lemma insert_loop_ok key n : forall i bf,
  1 <= m_ bf -> Z.of_nat (length (bits_ bf)) = m_ bf -> 0 <= i ->
  exists bits, insert_loop n i key bf = Ok (mkBloom (m_ bf) (k_ bf) (n_inserted_ bf) bits) /\
    length bits = length (bits_ bf) /\
    forall g, 0 <= g < m_ bf -> bits !! Z.to_nat g = Some true <->
      bits_ bf !! Z.to_nat g = Some true \/
      exists j, i <= j < i + Z.of_nat n /\ position (m_ bf) key j = g.
Proof.
  induction n as [| n IH]; intros i bf Hm Hlen Hi; cbn [insert_loop].
  - exists (bits_ bf). split; [by destruct bf |]. split; [done |].
    intros g Hg. split; [by left | intros [H | (j & Hj & _)]; [done | lia]].
  - rewrite hash_i_position, res_bind_Ok by done. cbv beta.
    pose proof (position_range (m_ bf) key i Hm) as Hp. set (p := position (m_ bf) key i) in *.
    unfold wr. if_true. rewrite res_bind_Ok. cbv beta.
    set (bf' := mkBloom (m_ bf) (k_ bf) (n_inserted_ bf) (<[Z.to_nat p:=true]> (bits_ bf))).
    destruct (IH (i + 1) bf') as (bits & Hrun & Hl & Hbits); [done | cbn; by rewrite length_insert | lia |].
    exists bits. split; [done |]. cbn in Hl, Hbits. rewrite length_insert in Hl. split; [done |].
    intros g Hg. rewrite Hbits by done. destruct (decide (g = p)) as [-> | Hne].
    + rewrite list_lookup_insert_eq by lia. split; [| by left].
      intros _. right. exists i. split; [lia | done].
    + rewrite list_lookup_insert_ne by lia. split.
      * intros [H | (j & Hj & <-)]; [by left |]. right. exists j. split; [lia | done].
      * intros [H | (j & Hj & <-)]; [by left |]. right. exists j. split; [| done].
        assert (j <> i) by (intros ->; by apply Hne). lia.
Qed.

Lemma insert_holds bf ks key : holds bf ks -> 0 <= k_ bf ->
  exists bf', insert key bf = Ok bf' /\ holds bf' (ks ++ [key]) /\
    m_ bf' = m_ bf /\ k_ bf' = k_ bf /\ n_inserted_ bf' = u64 (n_inserted_ bf + 1).
Proof.
  intros [Hm Hlen Hbits] Hk.
  destruct (insert_loop_ok key (Z.to_nat (k_ bf)) 0 bf Hm Hlen) as (bits & Hrun & Hl & Hb); [lia |].
  unfold insert. rewrite Hrun, res_bind_Ok. eexists. split; [done |].
  split_and!; [| done | done | done]. split; cbn; [done | lia |].
  intros g Hg. rewrite Hb, Hbits by done. split.
  - intros [(key' & Hin & Hhit) | (j & Hj & Hpos)].
    + exists key'. split; [apply elem_of_app; by left | done].
    + exists key. split; [apply elem_of_app; right; by apply list_elem_of_singleton |].
      exists j. split; [lia | done].
  - intros (key' & [Hin | ->%list_elem_of_singleton]%elem_of_app & Hhit); [left; eauto | right].
    destruct Hhit as (j & Hj & Hpos). exists j. split; [lia | done].
Qed.

Lemma insert_all_holds keys : forall bf ks, holds bf ks -> 0 <= k_ bf ->
  exists bf', insert_all keys bf = Ok bf' /\ holds bf' (ks ++ keys) /\
    m_ bf' = m_ bf /\ k_ bf' = k_ bf /\
    (0 <= n_inserted_ bf -> n_inserted_ bf + Z.of_nat (length keys) < 2 ^ 64 ->
     n_inserted_ bf' = n_inserted_ bf + Z.of_nat (length keys)).
Proof.
  induction keys as [| key keys IH]; intros bf ks Hbf Hk; cbn [insert_all].
  - exists bf. rewrite app_nil_r. split_and!; try done. cbn. lia.
  - destruct (insert_holds bf ks key Hbf Hk) as (bf1 & Hins & H1 & Hm1 & Hk1 & Hn1).
    rewrite Hins, res_bind_Ok.
    destruct (IH bf1 (ks ++ [key]) H1) as (bf2 & Hrun & H2 & Hm2 & Hk2 & Hn2); [lia |].
    exists bf2. rewrite <- app_assoc in H2. split_and!; [done | done | lia | lia |].
    intros H0 Hlt. cbn [length] in *. rewrite wrap_small in Hn1 by lia. lia.
Qed.

Lemma contains_loop_ok bf ks key n : holds bf ks -> forall i,
  exists b, contains_loop n i key bf = Ok b /\
    (b = true <-> forall j, i <= j < i + Z.of_nat n ->
       exists key', key' ∈ ks /\ hit (m_ bf) (k_ bf) key' (position (m_ bf) key j)).
Proof.
  intros [Hm Hlen Hbits]. induction n as [| n IH]; intros i; cbn [contains_loop].
  - exists true. split; [done |]. split; [lia | done].
  - rewrite hash_i_position, res_bind_Ok by done. cbv beta.
    pose proof (position_range (m_ bf) key i Hm) as Hp.
    pose proof (Hbits (position (m_ bf) key i) Hp) as Hbit.
    destruct (rd_Ok (bits_ bf) (position (m_ bf) key i)) as [b Hb]; [lia |].
    rewrite Hb, res_bind_Ok. cbv beta. apply rd_lookup in Hb as [_ Hb]. rewrite Hb in Hbit.
    destruct b; cbn [negb].
    + destruct (IH (i + 1)) as (b & Hrun & Hiff). exists b. split; [done |]. rewrite Hiff. split.
      * intros H j Hj. destruct (decide (j = i)) as [-> |]; [by apply Hbit | apply H; lia].
      * intros H j Hj. apply H. lia.
    + exists false. split; [done |]. split; [done |]. intros H.
      destruct Hbit as [_ Hbit]. specialize (Hbit (H i ltac:(lia))). done.
Qed.

(** ** Properties *)

(** C31. What the filter answers, exactly: after any sequence of insertions
    into a fresh filter of at least one bit, nothing faults, every insertion
    is counted, and [contains key] is true just when each of the key's [k]
    positions is a position of some inserted key.  False positives are the
    keys covered by others; there are no others. *)
Theorem contains_exact m k keys :
  1 <= m -> Z.of_nat (length keys) < 2 ^ 64 ->
  exists bf, insert_all keys (make m k) = Ok bf /\ n_inserted_ bf = Z.of_nat (length keys) /\
    forall key, exists b, contains key bf = Ok b /\
      (b = true <-> forall j, 0 <= j < Z.max 1 k ->
         exists key' i, key' ∈ keys /\ 0 <= i < Z.max 1 k /\ position m key' i = position m key j).
Proof.
  intros Hm Hlen.
  assert (Hk : k_ (make m k) = Z.max 1 k) by (cbn; case_if; lia).
  destruct (insert_all_holds keys (make m k) [] (make_holds m k Hm)) as (bf & Hrun & Hh & Hbm & Hbk & Hn); [lia |].
  exists bf. split; [done |]. split; [by apply Hn |].
  intros key. destruct (contains_loop_ok bf keys key (Z.to_nat (k_ bf)) Hh 0) as (b & Hc & Hiff).
  exists b. split; [done |]. rewrite Hiff, Hbm, Hbk, Hk. cbn [m_ make].
  split; intros H j Hj.
  - destruct (H j) as (key' & Hin & i & Hi & Hp); [lia |]. exists key', i. auto.
  - destruct (H j) as (key' & i & Hin & Hi & Hp); [lia |]. exists key'. split; [done |]. by exists i.
Qed.

(** No false negatives: a key stays in the filter, whatever was inserted
    before it and is inserted after it. *)
Theorem no_false_negatives m k before key after :
  1 <= m -> exists bf, insert_all (before ++ key :: after) (make m k) = Ok bf /\ contains key bf = Ok true.
Proof.
  intros Hm.
  destruct (insert_all_holds (before ++ key :: after) (make m k) [] (make_holds m k Hm))
    as (bf & Hrun & Hh & Hbm & Hbk & _); [cbn; case_if; lia |].
  exists bf. split; [done |].
  destruct (contains_loop_ok bf _ key (Z.to_nat (k_ bf)) Hh 0) as (b & Hc & Hiff).
  unfold contains. rewrite Hc. f_equal. apply Hiff. intros j Hj. exists key.
  split; [apply elem_of_app; right; apply elem_of_app; right; by left |]. exists j. split; [lia | done].
Qed.

(** With no bits ([m_] is 0 when the expected number of elements is 0 or
    the target rate is 1), every [insert] and [contains] divides by zero. *)
Theorem no_bits_divides_by_zero k key :
  insert key (make 0 k) = Fault DivByZero /\ contains key (make 0 k) = Fault DivByZero.
Proof.
  unfold insert, contains. cbn [k_ make].
  destruct (Z.to_nat (if k <? 1 then 1 else k)) as [| n] eqn:E; [| done].
  exfalso. destruct (Z.ltb_spec k 1); lia.
Qed.

(** *** Witnesses *)

Lemma contains_exact_witness :
  exists bf, insert_all [chars "a"; chars "b"] (make 16 3) = Ok bf /\ n_inserted_ bf = 2 /\
    forall key, exists b, contains key bf = Ok b /\
      (b = true <-> forall j, 0 <= j < 3 ->
         exists key' i, key' ∈ [chars "a"; chars "b"] /\ 0 <= i < 3 /\ position 16 key' i = position 16 key j).
Proof. apply (contains_exact 16 3 [chars "a"; chars "b"]); [lia | reflexivity]. Defined.

Lemma no_false_negatives_witness :
  exists bf, insert_all [chars "a"; chars "b"; chars "c"] (make 16 3) = Ok bf /\ contains (chars "b") bf = Ok true.
Proof. apply (no_false_negatives 16 3 [chars "a"] (chars "b") [chars "c"]). lia. Defined.
