(* ===== verification/BloomMain.v ===== *)
(** * BloomMain

    The floating-point part of 11-bloom_filter/bloom.h, the constructor's
    derivation of the number of bits and of hash functions and
    [theoretical_fpr], and the test program main.cpp.  A [double] is the
    IEEE-754 binary64 value of Stdlib's [SpecFloat], with its exact rounded
    operations; [log], [exp] and [pow], whose accuracy C++ leaves open, are
    an interface. *)

From S2P Require Import Prelude Bloom.
From Stdlib Require Import SpecFloat.
From stdpp Require Import pretty.
#[local] Open Scope Z_scope.

(** ** Doubles *)

Abbreviation double := spec_float.

Definition prec : Z := 53.
Definition emax : Z := 1024.

Definition dadd : double -> double -> double := SFadd prec emax.
Definition dsub : double -> double -> double := SFsub prec emax.
Definition dmul : double -> double -> double := SFmul prec emax.
Definition ddiv : double -> double -> double := SFdiv prec emax.

(** The conversion of an integer, rounded to nearest even. *)
Definition of_int (z : Z) : double := binary_normalize prec emax z 0 false.

(** [m * 2^e] rounded to an integer by a division that rounds its way. *)
Definition integral (div : Z -> Z -> Z) (m : positive) (e : Z) : Z :=
  if 0 <=? e then Z.pos m * 2 ^ e else div (Z.pos m) (2 ^ (- e)).

Definition ceil_div (a b : Z) : Z := - ((- a) / b).
Definition round_div (a b : Z) : Z := (2 * a + b) / (2 * b).

(** The signed integer [n] as a double of the sign [s]. *)
Definition of_sign (s : bool) (n : Z) : double := binary_normalize prec emax (if s then - n else n) 0 s.

Definition std_ceil (x : double) : double :=
  match x with
  | S754_finite s m e => of_sign s (integral (if s then Z.div else ceil_div) m e)
  | x => x
  end.

(** Halfway cases away from zero. *)
Definition std_round (x : double) : double :=
  match x with
  | S754_finite s m e => of_sign s (integral round_div m e)
  | x => x
  end.

(** [static_cast<size_t>]: the integer part, if [size_t] can hold it. *)
Definition to_size (x : double) : res Z :=
  match x with
  | S754_zero _ => Ok 0
  | S754_finite s m e =>
      let n := integral Z.div m e in
      if s then (if n =? 0 then Ok 0 else Fault BadCast)
      else if n <? 2 ^ 64 then Ok n else Fault BadCast
  | _ => Fault BadCast
  end.

Class Libm := { std_log : double -> double; std_exp : double -> double; std_pow : double -> double -> double }.

(** ** bloom.h *)

Section program.
Context {libm : Libm}.

Definition ln2 : double := std_log (of_int 2).

(** The constructor. *)
Definition new_filter (expected_n : Z) (fpr : double) : res BloomFilter :=
  m ← to_size (std_ceil (ddiv (dmul (SFopp (of_int expected_n)) (std_log fpr)) (dmul ln2 ln2)));
  k ← to_size (std_round (dmul (ddiv (of_int m) (of_int expected_n)) ln2));
  Ok (make m k).

Definition theoretical_fpr (bf : BloomFilter) : double :=
  let q := std_exp (ddiv (dmul (SFopp (of_int (k_ bf))) (of_int (n_inserted_ bf))) (of_int (m_ bf))) in
  std_pow (dsub (of_int 1) q) (of_int (k_ bf)).

(** ** main.cpp *)

Definition make_url (i : Z) : list Z := chars ("url-" +:+ pretty (Z.to_N i)).

(** The literals 0.01 and 0.005. *)
Definition FPR_TARGET : double := S754_finite false 5764607523034235 (-59).
Definition TOLERANCE : double := S754_finite false 5764607523034235 (-60).

(** What is printed. *)
Inductive line :=
| Sizes (m : Z) (kib : double) (k : Z)
| Puts (s : string)
| Theoretical (percent : double)
| Empirical (percent : double).

(** The three loops, [n] rounds from [i] on. *)
Fixpoint insert_urls (n : nat) (i : Z) (bf : BloomFilter) : res BloomFilter :=
  match n with
  | O => Ok bf
  | S n' => bf ← Bloom.insert (make_url i) bf; insert_urls n' (i + 1) bf
  end.

Fixpoint check_urls (n : nat) (i : Z) (bf : BloomFilter) : res () :=
  match n with
  | O => Ok ()
  | S n' => b ← contains (make_url i) bf; c_assert b;; check_urls n' (i + 1) bf
  end.

Fixpoint count_urls (n : nat) (i : Z) (bf : BloomFilter) (fp : Z) : res Z :=
  match n with
  | O => Ok fp
  | S n' => b ← contains (make_url i) bf; count_urls n' (i + 1) bf (if b : bool then u64 (fp + 1) else fp)
  end.

(** Up to the check for false negatives, for [N] elements. *)
Definition main_inserts (N : Z) : M (list line) BloomFilter :=
  bf ← lift (new_filter N FPR_TARGET);
  tell (Sizes (m_ bf) (ddiv (ddiv (of_int (m_ bf)) (of_int 8)) (of_int 1024)) (k_ bf));;
  bf ← lift (insert_urls (Z.to_nat N) 0 bf);
  lift (check_urls (Z.to_nat N) 0 bf);;
  tell (Puts "No false negatives: PASS");;
  mret bf.

(** The checks of the measured rate. *)
Definition within_tolerance (empirical_fpr theory_fpr : double) : bool :=
  SFltb (SFabs (dsub empirical_fpr theory_fpr)) TOLERANCE.

Definition within_target (empirical_fpr : double) : bool :=
  SFleb empirical_fpr (dmul FPR_TARGET (of_int 2)).

Definition main_measures (N PROBE : Z) (bf : BloomFilter) : M (list line) Z :=
  fp ← lift (count_urls (Z.to_nat PROBE) N bf 0);
  let empirical_fpr := ddiv (of_int fp) (of_int PROBE) in
  let theory_fpr := theoretical_fpr bf in
  tell (Theoretical (dmul theory_fpr (of_int 100)));;
  tell (Empirical (dmul empirical_fpr (of_int 100)));;
  lift (c_assert (within_tolerance empirical_fpr theory_fpr));;
  tell (Puts "FPR within tolerance: PASS");;
  lift (c_assert (within_target empirical_fpr));;
  tell (Puts "FPR within 2x target: PASS");;
  mret 0.

Definition main_of (N PROBE : Z) : M (list line) Z :=
  bf ← main_inserts N;
  main_measures N PROBE bf.

Definition N : Z := 100000.
Definition PROBE : Z := 200000.

Definition main : M (list line) Z := main_of N PROBE.
End program.

(** A [log] right at the two arguments the program uses: the doubles nearest
    to the logarithms of 0.01 and of 2. *)
Definition table_log (x : double) : double :=
  if SFeqb x FPR_TARGET then S754_finite true 5184960683398421 (-50)
  else if SFeqb x (of_int 2) then S754_finite false 6243314768165359 (-53)
  else if SFeqb x (of_int 1) then S754_zero false
  else S754_nan.

Definition table_libm : Libm := {| std_log := table_log; std_exp := fun _ => of_int 0; std_pow := fun x _ => x |}.

(** 958506 bits and 7 hash functions for the program's parameters. *)
Lemma new_filter_sizes : new_filter (libm := table_libm) N FPR_TARGET = Ok (make 958506 7).
Proof.
  unfold new_filter.
  replace (to_size (std_ceil _)) with (Ok 958506 : res Z) by (vm_compute; reflexivity).
  rewrite res_bind_Ok. cbv beta.
  by replace (to_size (std_round _)) with (Ok 7 : res Z) by (vm_compute; reflexivity).
Qed.

(** ** The loops as operations on the list of keys *)

Definition urls (i : Z) (n : nat) : list (list Z) := make_url <$> seqZ i (Z.of_nat n).

Lemma urls_cons i n : urls i (S n) = make_url i :: urls (i + 1) n.
Proof. unfold urls. rewrite seqZ_cons by lia. cbn [fmap list_fmap]. do 3 f_equal; lia. Qed.

Lemma insert_urls_all n : forall i bf, insert_urls n i bf = insert_all (urls i n) bf.
Proof.
  induction n as [| n IH]; intros i bf; [done |]. rewrite urls_cons. cbn [insert_urls insert_all].
  by destruct (Bloom.insert (make_url i) bf); [cbn; rewrite IH |].
Qed.

(** A key whose positions are covered. *)
Definition covered (bf : BloomFilter) (key : list Z) : bool :=
  match contains key bf with Ok b => b | Fault _ => false end.

Lemma contains_covered bf ks key : holds bf ks -> contains key bf = Ok (covered bf key).
Proof.
  intros Hh. destruct (contains_loop_ok bf ks key (Z.to_nat (k_ bf)) Hh 0) as (b & Hc & _).
  unfold covered, contains. by rewrite Hc.
Qed.

Lemma covered_member bf ks key : holds bf ks -> key ∈ ks -> covered bf key = true.
Proof.
  intros Hh Hin. destruct (contains_loop_ok bf ks key (Z.to_nat (k_ bf)) Hh 0) as (b & Hc & Hiff).
  unfold covered, contains. rewrite Hc. apply Hiff. intros j Hj. exists key. split; [done |].
  exists j. split; [lia | done].
Qed.

Lemma check_urls_ok bf ks n : holds bf ks -> forall i, (forall key, key ∈ urls i n -> key ∈ ks) ->
  check_urls n i bf = Ok ().
Proof.
  intros Hh. induction n as [| n IH]; intros i Hin; [done |]. rewrite urls_cons in Hin. cbn [check_urls].
  rewrite (contains_covered bf ks), res_bind_Ok, (covered_member bf ks) by (done || apply Hin; by left).
  cbn. apply IH. intros key Hkey. apply Hin. by right.
Qed.

Lemma count_urls_ok bf ks n : holds bf ks -> forall i fp, 0 <= fp -> fp + Z.of_nat n < 2 ^ 64 ->
  count_urls n i bf fp = Ok (fp + Z.of_nat (length (List.filter (covered bf) (urls i n)))).
Proof.
  intros Hh. induction n as [| n IH]; intros i fp H0 Hlt; [by rewrite Z.add_0_r |].
  rewrite urls_cons. cbn [count_urls List.filter].
  rewrite (contains_covered bf ks), res_bind_Ok by done. cbv beta.
  destruct (covered bf (make_url i)).
  - rewrite wrap_small, IH by lia. cbn [length]. f_equal. lia.
  - by rewrite IH by lia.
Qed.

Lemma to_size_range x n : to_size x = Ok n -> 0 <= n < 2 ^ 64.
Proof.
  destruct x as [s | s | | s m e]; cbn [to_size]; try done; [intros [= <-]; lia |].
  intros Hx. assert (0 <= integral Z.div m e).
  { unfold integral. destruct (Z.leb_spec 0 e); [apply Z.mul_nonneg_nonneg; lia | apply Z.div_pos; lia]. }
  destruct s; [destruct (Z.eqb_spec (integral Z.div m e) 0) | destruct (Z.ltb_spec (integral Z.div m e) (2 ^ 64))];
    try done; injection Hx as <-; lia.
Qed.

(** The constructor makes an empty filter. *)
Lemma new_filter_make `{libm : Libm} n fpr bf : new_filter n fpr = Ok bf ->
  exists m k, bf = make m k /\ 0 <= m < 2 ^ 64 /\ 0 <= k < 2 ^ 64.
Proof.
  unfold new_filter. intros (m & Hm & (k & Hk & [= <-])%res_bind_Ok_inv)%res_bind_Ok_inv.
  apply to_size_range in Hm, Hk. by exists m, k.
Qed.

(** Arithmetic on a zero gives a zero or no number. *)
Definition zero_or_nan (x : double) : Prop := x = S754_nan \/ exists s, x = S754_zero s.

Lemma dmul_zero_r x s : zero_or_nan (dmul x (S754_zero s)).
Proof. destruct x; cbn; unfold zero_or_nan; eauto. Qed.

Lemma dmul_zero_l x s : zero_or_nan (dmul (S754_zero s) x).
Proof. destruct x; cbn; unfold zero_or_nan; eauto. Qed.

Lemma ddiv_zero_l x y : zero_or_nan x -> zero_or_nan (ddiv x y).
Proof. intros [-> | [s ->]]; destruct y; cbn; unfold zero_or_nan; eauto. Qed.

Lemma zero_or_nan_size x : zero_or_nan x -> to_size (std_ceil x) = Fault BadCast \/ to_size (std_ceil x) = Ok 0.
Proof. intros [-> | [s ->]]; auto. Qed.

(** The program for any number of elements and of probes. *)
Lemma main_of_outcome `{libm : Libm} N PROBE bf0 : 0 <= N < 2 ^ 60 -> 0 <= PROBE < 2 ^ 60 ->
  new_filter N FPR_TARGET = Ok bf0 -> 1 <= m_ bf0 ->
  exists bf,
    insert_all (urls 0 (Z.to_nat N)) bf0 = Ok bf /\ n_inserted_ bf = N /\
    let kib := ddiv (ddiv (of_int (m_ bf0)) (of_int 8)) (of_int 1024) in
    let lines := [Sizes (m_ bf0) kib (k_ bf0); Puts "No false negatives: PASS"] in
    let fp := Z.of_nat (length (List.filter (covered bf) (urls N (Z.to_nat PROBE)))) in
    let empirical_fpr := ddiv (of_int fp) (of_int PROBE) in
    main_inserts N [] = Ok (bf, lines) /\
    main_of N PROBE [] =
      if within_tolerance empirical_fpr (theoretical_fpr bf) && within_target empirical_fpr
      then Ok (0, lines ++ [Theoretical (dmul (theoretical_fpr bf) (of_int 100));
                            Empirical (dmul empirical_fpr (of_int 100));
                            Puts "FPR within tolerance: PASS"; Puts "FPR within 2x target: PASS"])
      else Fault AssertFailed.
Proof.
  intros HN HP Hnew Hm. destruct (new_filter_make _ _ _ Hnew) as (m & k & -> & Hmr & Hkr).
  assert (Hlen : Z.of_nat (length (urls 0 (Z.to_nat N))) = N).
  { unfold urls. rewrite length_fmap, length_seqZ. lia. }
  destruct (insert_all_holds (urls 0 (Z.to_nat N)) (make m k) [] (make_holds m k Hm))
    as (bf & Hrun & Hh & _ & _ & Hn); [cbn; case_if; lia |].
  cbn [app] in Hh. cbn [n_inserted_ make] in Hn. rewrite Hlen in Hn.
  exists bf. split; [done |]. split; [apply Hn; lia |]. intros kib lines fp empirical_fpr.
  assert (Hins : main_inserts N [] = Ok (bf, lines)).
  { unfold main_inserts. rewrite (lift_bind_Ok _ _ _ _ Hnew). cbv beta. rewrite tell_bind.
    rewrite insert_urls_all, (lift_bind_Ok _ _ _ _ Hrun). cbv beta.
    rewrite (lift_bind_Ok _ _ _ _ (check_urls_ok bf (urls 0 (Z.to_nat N)) (Z.to_nat N) Hh 0 (fun _ H => H))).
    reflexivity. }
  split; [done |]. unfold main_of. rewrite (M_bind_Ok _ _ _ _ _ Hins). unfold main_measures.
  pose proof (count_urls_ok bf _ (Z.to_nat PROBE) Hh N 0 (Z.le_refl 0) ltac:(lia)) as Hcount.
  rewrite (lift_bind_Ok _ _ _ _ Hcount).
  cbv beta zeta. rewrite Z.add_0_l. fold fp. fold empirical_fpr. rewrite !tell_bind.
  destruct (within_tolerance empirical_fpr (theoretical_fpr bf)); [| done].
  rewrite (lift_bind_Ok (c_assert true)) with (a := ()) by done. rewrite tell_bind.
  destruct (within_target empirical_fpr); [| done].
  by rewrite <- !app_assoc.
Qed.

(** ** Properties *)

(** C39. The test program, for any [log], [exp] and [pow] with which the
    constructor derives at least one bit: no hash, insertion or lookup
    faults, the assertion that there are no false negatives never fails, and
    the program ends in 0 or by a failed assertion on the rates, decided by
    the exact number of probes whose positions are all covered. *)
Theorem bloom_main_outcome (libm : Libm) bf0 :
  new_filter N FPR_TARGET = Ok bf0 -> 1 <= m_ bf0 ->
  exists bf,
    insert_all (urls 0 (Z.to_nat N)) bf0 = Ok bf /\ n_inserted_ bf = N /\
    let kib := ddiv (ddiv (of_int (m_ bf0)) (of_int 8)) (of_int 1024) in
    let lines := [Sizes (m_ bf0) kib (k_ bf0); Puts "No false negatives: PASS"] in
    let fp := Z.of_nat (length (List.filter (covered bf) (urls N (Z.to_nat PROBE)))) in
    let empirical_fpr := ddiv (of_int fp) (of_int PROBE) in
    main_inserts N [] = Ok (bf, lines) /\
    main [] =
      if within_tolerance empirical_fpr (theoretical_fpr bf) && within_target empirical_fpr
      then Ok (0, lines ++ [Theoretical (dmul (theoretical_fpr bf) (of_int 100));
                            Empirical (dmul empirical_fpr (of_int 100));
                            Puts "FPR within tolerance: PASS"; Puts "FPR within 2x target: PASS"])
      else Fault AssertFailed.
Proof. apply (main_of_outcome N PROBE); done. Qed.

(** C40. Degenerate parameters, which the constructor does not reject: with no
    expected elements it converts a NaN to [size_t], whatever [log] gives;
    with a target rate of 1, whose logarithm is 0, a filter has no bits and
    every [insert] and [contains] on it divides by zero. *)
Theorem degenerate_parameters (libm : Libm) :
  (forall fpr, new_filter 0 fpr = Fault BadCast) /\
  (forall n z bf key, std_log (of_int 1) = S754_zero z -> new_filter n (of_int 1) = Ok bf ->
     Bloom.insert key bf = Fault DivByZero /\ contains key bf = Fault DivByZero).
Proof.
  split.
  - intros fpr. unfold new_filter.
    destruct (zero_or_nan_size (ddiv (dmul (SFopp (of_int 0)) (std_log fpr)) (dmul ln2 ln2))) as [-> | ->];
      [apply ddiv_zero_l, dmul_zero_l | done | done].
  - intros n z bf key Hlog Hnew. unfold new_filter in Hnew. rewrite Hlog in Hnew.
    destruct (zero_or_nan_size (ddiv (dmul (SFopp (of_int n)) (S754_zero z)) (dmul ln2 ln2))) as [E | E];
      [apply ddiv_zero_l, dmul_zero_r | by rewrite E in Hnew |].
    rewrite E, res_bind_Ok in Hnew. apply res_bind_Ok_inv in Hnew as (k & _ & [= <-]).
    apply no_bits_divides_by_zero.
Qed.

(** *** Witnesses *)

Lemma bloom_main_outcome_witness :
  let bf0 := make 958506 7 in
  exists bf,
    insert_all (urls 0 (Z.to_nat N)) bf0 = Ok bf /\ n_inserted_ bf = N /\
    let kib := ddiv (ddiv (of_int (m_ bf0)) (of_int 8)) (of_int 1024) in
    let lines := [Sizes (m_ bf0) kib (k_ bf0); Puts "No false negatives: PASS"] in
    let fp := Z.of_nat (length (List.filter (covered bf) (urls N (Z.to_nat PROBE)))) in
    let empirical_fpr := ddiv (of_int fp) (of_int PROBE) in
    main_inserts (libm := table_libm) N [] = Ok (bf, lines) /\
    main (libm := table_libm) [] =
      if within_tolerance empirical_fpr (theoretical_fpr (libm := table_libm) bf) && within_target empirical_fpr
      then Ok (0, lines ++ [Theoretical (dmul (theoretical_fpr (libm := table_libm) bf) (of_int 100));
                            Empirical (dmul empirical_fpr (of_int 100));
                            Puts "FPR within tolerance: PASS"; Puts "FPR within 2x target: PASS"])
      else Fault AssertFailed.
Proof. exact (bloom_main_outcome table_libm (make 958506 7) new_filter_sizes ltac:(cbn [m_ make]; lia)). Defined.

Lemma degenerate_parameters_witness :
  new_filter (libm := table_libm) 0 FPR_TARGET = Fault BadCast /\
  new_filter (libm := table_libm) 10 (of_int 1) = Ok (make 0 1) /\
  Bloom.insert [] (make 0 1) = Fault DivByZero.
Proof.
  split_and!.
  - apply (degenerate_parameters table_libm).
  - vm_compute. reflexivity.
  - apply (degenerate_parameters table_libm) with (n := 10) (z := false); vm_compute; reflexivity.
Defined.
