(* ===== verification/Ring.v ===== *)
(** * Ring

    The heap-allocated ring buffer of 13-heap_ring_buffer/src/lib.rs and its
    demonstration, main.rs.  The allocation is a list of slots; a slot that
    holds no value (not yet written, or moved out) is [None], and using one
    faults.  [usize] is 64 bits wide. *)

From S2P Require Import Prelude.

Section ring.
Context {T : Type}.

Record RingBuffer := mkRing {
  buf : list (option T); cap : Z; head : Z; tail : Z; len : Z
}.

(** The largest size a [Layout] may have: [isize::MAX]. *)
Definition max_layout : Z := 2 ^ 63 - 1.

(** [size] is the size of [T]; [alloc_ok] tells whether the allocator
    returned memory.  [alloc] must not be called with a layout of no bytes:
    the check of the capacity does not exclude that when [T] has size 0. *)
Definition new (size : Z) (alloc_ok : bool) (capacity : Z) : res RingBuffer :=
  if capacity =? 0 then Fault Panicked
  else if max_layout <? size * capacity then Fault Panicked
  else if size * capacity =? 0 then Fault ZeroLayout
  else if negb alloc_ok then Fault Panicked
  else Ok (mkRing (replicate (Z.to_nat capacity) None) capacity 0 0 0).

Definition is_empty (r : RingBuffer) : bool := len r =? 0.
Definition is_full (r : RingBuffer) : bool := len r =? cap r.

(** [x % y] on [usize]. *)
Definition urem (x y : Z) : res Z := if y =? 0 then Fault DivByZero else Ok (x mod y).

Inductive push_result :=
| Pushed
| Err (val : T).

Definition push (val : T) (r : RingBuffer) : res (push_result * RingBuffer) :=
  if is_full r then Ok (Err val, r)
  else
    b ← wr (buf r) (head r) (Some val);
    h ← urem (u64 (head r + 1)) (cap r);
    Ok (Pushed, mkRing b (cap r) h (tail r) (u64 (len r + 1))).

(** Reading a slot moves its value out. *)
Definition take_slot (b : list (option T)) (i : Z) : res (T * list (option T)) :=
  o ← rd b i;
  match o with
  | None => Fault (UninitRead i)
  | Some v => b ← wr b i None; Ok (v, b)
  end.

Definition pop (r : RingBuffer) : res (option T * RingBuffer) :=
  if is_empty r then Ok (None, r)
  else
    '(val, b) ← take_slot (buf r) (tail r);
    t ← urem (u64 (tail r + 1)) (cap r);
    Ok (Some val, mkRing b (cap r) (head r) t (u64 (len r - 1))).

(** [for i in 0..self.len], with [n] rounds left: the values dropped. *)
Fixpoint drop_loop (n : nat) (i : Z) (r : RingBuffer) : res (list T) :=
  match n with
  | O => Ok []
  | S n' =>
      idx ← urem (u64 (tail r + i)) (cap r);
      '(v, b) ← take_slot (buf r) idx;
      vs ← drop_loop n' (i + 1) (mkRing b (cap r) (head r) (tail r) (len r));
      Ok (v :: vs)
  end.

(** The destructor: the values dropped, and the size of the layout freed. *)
Definition drop_ring (size : Z) (r : RingBuffer) : res (list T * Z) :=
  vs ← drop_loop (Z.to_nat (len r)) 0 r;
  Ok (vs, size * cap r).

(** ** Operations in sequence *)





(** ** Specification: a bounded queue *)
















End ring.

(** ** The demonstration: main.rs *)

Inductive printed :=
| Debug (x : option string)      (* println!("{:?}", x) *)
| Line (s : string).             (* println!("{s}") *)

(** [unwrap] on the result of [push]. *)
Definition push_unwrap (v : string) (r : RingBuffer) : res RingBuffer :=
  '(x, r) ← push v r;
  match x with Pushed => Ok r | Err _ => Fault Panicked end.

Fixpoint while_pop (fuel : nat) (r : RingBuffer) : res (list printed * RingBuffer) :=
  match fuel with
  | O => Fault OutOfFuel
  | S fuel' =>
      '(x, r) ← pop r;
      match x with
      | None => Ok ([], r)
      | Some s => '(ps, r) ← while_pop fuel' r; Ok (Line s :: ps, r)
      end
  end.

(** What is printed, what the destructor drops, and the size it frees. *)
Definition main (alloc_ok : bool) : res (list printed * list string * Z) :=
  rb ← new 24 alloc_ok 4;
  rb ← push_unwrap "alpha" rb;
  rb ← push_unwrap "beta" rb;
  rb ← push_unwrap "gamma" rb;
  '(x1, rb) ← pop rb;
  '(x2, rb) ← pop rb;
  rb ← push_unwrap "delta" rb;
  rb ← push_unwrap "epsilon" rb;
  rb ← push_unwrap "zeta" rb;
  '(x3, rb) ← push "omega"%string rb;
  c_assert (match x3 with Err _ => true | Pushed => false end);;
  '(ps, rb) ← while_pop 5 rb;
  '(x4, rb) ← pop rb;
  '(vs, size) ← drop_ring 24 rb;
  Ok ([Debug x1; Debug x2] ++ ps ++ [Debug x4], vs, size).

(** ** Properties *)


(** For elements of no bytes [new] asks for a layout of no bytes, whatever
    the capacity. *)
Theorem new_zero_sized T alloc_ok capacity : 0 < capacity ->
  new (T := T) 0 alloc_ok capacity = Fault ZeroLayout.
Proof. intros Hc. unfold new, max_layout. by do 2 if_false. Qed.

(** The demonstration prints its values in the order they were pushed,
    refuses the fifth, ends empty and leaks nothing; it panics just when the
    allocation fails. *)
Lemma main_prints :
  main true = Ok ([Debug (Some "alpha"%string); Debug (Some "beta"%string); Line "gamma"; Line "delta";
                   Line "epsilon"; Line "zeta"; Debug None], [], 96) /\
  main false = Fault Panicked.
Proof. split; vm_compute; reflexivity. Qed.

(** *** Witness *)

