(* ===== verification/Lsm.v ===== *)
(** * Lsm

    The log-structured merge tree of 08-LSM_tree/main.cpp: the in-memory
    table, the table files it is flushed to, and lookups through both.
    Strings are lists of bytes; the file system is a map from paths to
    contents. *)

From S2P Require Import Prelude.
From stdpp Require Import sorting.

#[local] Open Scope Z_scope.

Abbreviation bytes := (list Z).

(** Paths and the contents of the files there. *)
Abbreviation filesystem := (gmap (list Z) (list Z)).

(** ** Strings *)

(** [std::string::operator<=]: lexicographic on unsigned characters. *)
Fixpoint str_leb (s t : bytes) : bool :=
  match s, t with
  | [], _ => true
  | _ :: _, [] => false
  | a :: s', b :: t' => (a <? b) || ((a =? b) && str_leb s' t')
  end.

Definition str_le (s t : bytes) : Prop := str_leb s t = true.
Definition str_ge (s t : bytes) : Prop := str_le t s.

#[export] Instance str_le_dec : RelDecision str_le.
Proof. intros s t. unfold str_le. apply _. Defined.

#[export] Instance str_ge_dec : RelDecision str_ge.
Proof. intros s t. unfold str_ge. apply _. Defined.

(** A [std::string] made of a literal: its characters before the first 0. *)
Fixpoint of_literal (l : bytes) : bytes :=
  match l with
  | [] => []
  | c :: l' => if c =? 0 then [] else c :: of_literal l'
  end.

Definition TOMBSTONE : bytes := of_literal ([0] ++ chars "TOMBSTONE" ++ [0]).

Definition MEMTABLE_FLUSH_THRESHOLD : nat := 4.

(** Decimal digits of a nonnegative [int], and [setw(4) << setfill('0')]. *)
Fixpoint digits (fuel : nat) (n : Z) : bytes :=
  match fuel with
  | O => []
  | S fuel' => if n <? 10 then [48 + n] else digits fuel' (n / 10) ++ [48 + n mod 10]
  end.

Definition pad4 (n : Z) : bytes :=
  let ds := digits 10 n in replicate (4 - length ds) 48 ++ ds.

(** ** [std::map<std::string, std::string>]: the pairs in key order *)

Definition table : Type := list (bytes * bytes).

Fixpoint map_set (k v : bytes) (l : table) : table :=
  match l with
  | [] => [(k, v)]
  | (k', v') :: l' =>
      if bool_decide (k = k') then (k, v) :: l'
      else if str_leb k k' then (k, v) :: l
      else (k', v') :: map_set k v l'
  end.

Fixpoint table_find (k : bytes) (l : table) : option bytes :=
  match l with
  | [] => None
  | (k', v) :: l' => if bool_decide (k = k') then Some v else table_find k l'
  end.

(** ** Table files *)

Section lsm.
Context {host : ByteOrder}.

(** What a write of a table puts in the file. *)
Definition encode_entry (e : bytes * bytes) : bytes :=
  put 4 (u32 (Z.of_nat (length e.1))) ++ e.1 ++ put 4 (u32 (Z.of_nat (length e.2))) ++ e.2.

Definition encode (data : table) : bytes := concat (encode_entry <$> data).

(** An input stream: the bytes left, and whether it is still good. *)
Definition stream : Type := bytes * bool.

(** [file.read(buf, n)] into a buffer of [n] zeros. *)
Definition stream_read (n : Z) (st : stream) : bytes * stream :=
  let n := Z.to_nat n in
  let (rest, good) := st in
  if negb good then (replicate n 0, st)
  else if (length rest <? n)%nat then (rest ++ replicate (n - length rest) 0, ([], false))
  else (take n rest, (drop n rest, true)).

(** The loop of [readSSTable]. *)
Fixpoint read_entries (fuel : nat) (st : stream) : table :=
  match fuel with
  | O => []
  | S fuel' =>
      if negb (st.2) then []
      else
        let (kl, st) := stream_read 4 st in
        if negb (st.2) then []
        else
          let (key, st) := stream_read (get kl) st in
          let (vl, st) := stream_read 4 st in
          if negb (st.2) then []
          else
            let (val, st) := stream_read (get vl) st in
            (key, val) :: read_entries fuel' st
  end.

(** Every round but the last leaves eight bytes fewer. *)
Definition decode (contents : bytes) : table := read_entries (S (length contents)) (contents, true).

(** ** The tree *)

Record LSMTree := mkLSM {
  memtable_ : table; dataDir_ : bytes; sstableCount_ : Z; sstablePaths_ : list bytes
}.

(** Whether a file can be opened for writing. *)
Context (can_write : bytes -> bool).

Definition sort_newest_first (paths : list bytes) : list bytes := merge_sort str_ge paths.

Definition writeSSTable (data : table) (path : bytes) (s : LSMTree * filesystem) : LSMTree * filesystem :=
  let (t, fs) := s in
  if negb (can_write path) then s
  else
    (mkLSM (memtable_ t) (dataDir_ t) (sstableCount_ t + 1)
       (sort_newest_first (sstablePaths_ t ++ [path])),
     <[path := encode data]> fs).

Definition sstable_path (dir : bytes) (n : Z) : bytes :=
  dir ++ chars "/sstable_" ++ pad4 n ++ chars ".sst".

Definition flush (s : LSMTree * filesystem) : LSMTree * filesystem :=
  let path := sstable_path (dataDir_ s.1) (sstableCount_ s.1) in
  let (t, fs) := writeSSTable (memtable_ s.1) path s in
  (mkLSM [] (dataDir_ t) (sstableCount_ t) (sstablePaths_ t), fs).

Definition maybeFlush (s : LSMTree * filesystem) : LSMTree * filesystem :=
  if (MEMTABLE_FLUSH_THRESHOLD <=? length (memtable_ s.1))%nat then flush s else s.

Definition put_key (key value : bytes) (s : LSMTree * filesystem) : LSMTree * filesystem :=
  let (t, fs) := s in
  maybeFlush (mkLSM (map_set key value (memtable_ t)) (dataDir_ t) (sstableCount_ t) (sstablePaths_ t), fs).

Definition del (key : bytes) (s : LSMTree * filesystem) : LSMTree * filesystem :=
  put_key key TOMBSTONE s.

Definition readSSTable (fs : filesystem) (path : bytes) : table :=
  match fs !! path with None => [] | Some contents => decode contents end.

Fixpoint search (fs : filesystem) (key : bytes) (paths : list bytes) : option bytes :=
  match paths with
  | [] => None
  | path :: paths' =>
      match table_find key (readSSTable fs path) with
      | Some v => Some v
      | None => search fs key paths'
      end
  end.

Definition not_tombstone (v : bytes) : option bytes :=
  if bool_decide (v = TOMBSTONE) then None else Some v.

Definition get_key (key : bytes) (s : LSMTree * filesystem) : option bytes :=
  match table_find key (memtable_ s.1) with
  | Some v => not_tombstone v
  | None => v ← search s.2 key (sstablePaths_ s.1); not_tombstone v
  end.

(** The constructor on an existing directory whose files are listed as
    [names], in whatever order. *)
Definition open_tree (dir : bytes) (names : list bytes) : LSMTree :=
  mkLSM [] dir (Z.of_nat (length names)) (sort_newest_first ((fun n => dir ++ chars "/" ++ n) <$> names)).

(** The constructor when it created the directory. *)
Definition create_tree (dir : bytes) : LSMTree := mkLSM [] dir 0 [].

(** The lookups of [main], [None] printed as NOT FOUND. *)
Definition main : list (option bytes) :=
  let s := (create_tree (chars "./lsm_data"), ∅) in
  let s := put_key (chars "apple") (chars "fruit") s in
  let s := put_key (chars "banana") (chars "yellow") s in
  let s := put_key (chars "cherry") (chars "red") s in
  let s := put_key (chars "date") (chars "sweet") s in
  let s := put_key (chars "elderberry") (chars "dark") s in
  let s := put_key (chars "fig") (chars "chewy") s in
  let s := put_key (chars "grape") (chars "vine") s in
  let s := put_key (chars "apple") (chars "v2") s in
  let s := del (chars "banana") s in
  (fun k => get_key (chars k) s) <$>
    ["apple"; "banana"; "cherry"; "date"; "elderberry"; "missing"]%string.
End lsm.

(** The output the comments of [main] expect. *)
Example main_expected :
  main (host := LittleEndian) (fun _ => true) =
  [Some (chars "v2"); None; Some (chars "red"); Some (chars "sweet"); Some (chars "dark"); None].
Proof. vm_compute. reflexivity. Qed.

Example tombstone_is_empty : TOMBSTONE = [].
Proof. reflexivity. Qed.

(** ** The order of file names *)

Lemma str_leb_total s : forall t, str_leb s t = false -> str_leb t s = true.
Proof.
  induction s as [| a s IH]; intros [| b t]; cbn; try done.
  destruct (Z.ltb_spec a b), (Z.eqb_spec a b), (Z.ltb_spec b a), (Z.eqb_spec b a); cbn; try done; try lia.
  apply IH.
Qed.

Lemma str_leb_trans s : forall t u, str_leb s t = true -> str_leb t u = true -> str_leb s u = true.
Proof.
  induction s as [| a s IH]; intros [| b t] [| c u]; cbn; try done.
  destruct (Z.ltb_spec a b), (Z.eqb_spec a b), (Z.ltb_spec b c), (Z.eqb_spec b c),
    (Z.ltb_spec a c), (Z.eqb_spec a c); cbn; try done; try lia. apply IH.
Qed.

Lemma str_leb_antisym s : forall t, str_leb s t = true -> str_leb t s = true -> s = t.
Proof.
  induction s as [| a s IH]; intros [| b t]; cbn; try done.
  destruct (Z.ltb_spec a b), (Z.eqb_spec a b), (Z.ltb_spec b a), (Z.eqb_spec b a); cbn; try done; try lia.
  intros H1 H2. f_equal; [done | by apply IH].
Qed.

#[export] Instance str_ge_trans : Transitive str_ge.
Proof. intros s t u Hst Htu. by apply (str_leb_trans u t s). Qed.

#[export] Instance str_ge_antisym : AntiSymm (=) str_ge.
Proof. intros s t Hst Hts. by apply str_leb_antisym. Qed.

#[export] Instance str_ge_total : Total str_ge.
Proof.
  intros s t. unfold str_ge, str_le. destruct (str_leb t s) eqn:E; [by left | right].
  by apply str_leb_total.
Qed.

Lemma str_leb_prefix p s t : str_leb (p ++ s) (p ++ t) = str_leb s t.
Proof.
  induction p as [| c p IH]; [done |]. cbn [app str_leb]. by rewrite Z.ltb_irrefl, Z.eqb_refl.
Qed.

Lemma str_leb_suffix s : forall t x, length s = length t ->
  str_leb s t = false -> str_leb (s ++ x) (t ++ x) = false.
Proof.
  induction s as [| a s IH]; intros [| b t] x Hlen; cbn in *; try done.
  destruct (a <? b); [done |]. destruct (a =? b); [| done]. cbn. apply IH. lia.
Qed.

(** Equality of two lists of computed bytes, byte by byte. *)
Ltac bytes_eq := repeat (apply (f_equal2 cons); [div_lia |]); reflexivity.

Lemma digits_last f n : n < 10 -> digits (S f) n = [48 + n].
Proof. intros H. cbn [digits]. by rewrite (proj2 (Z.ltb_lt n 10) H). Qed.

Lemma digits_more f n : 10 <= n -> digits (S f) n = digits f (n / 10) ++ [48 + n mod 10].
Proof. intros H. cbn [digits]. by rewrite (proj2 (Z.ltb_ge n 10) H). Qed.

(** [setw(4)] of a number below 10000 is its four digits, most significant first, so the padded
    numbers are ordered as the numbers are. *)
Lemma pad4_digits n : 0 <= n < 10000 ->
  pad4 n = [48 + n / 1000; 48 + n / 100 mod 10; 48 + n / 10 mod 10; 48 + n mod 10].
Proof.
  intros Hn. unfold pad4.
  destruct (decide (n < 10)); [rewrite digits_last by lia; cbn; bytes_eq |].
  rewrite digits_more by lia.
  destruct (decide (n < 100)); [rewrite digits_last by div_lia; cbn; bytes_eq |].
  rewrite digits_more by div_lia.
  destruct (decide (n < 1000)); [rewrite digits_last by div_lia; cbn; bytes_eq |].
  rewrite digits_more, digits_last by div_lia. cbn. bytes_eq.
Qed.

Lemma pad4_length n : 0 <= n < 10000 -> length (pad4 n) = 4%nat.
Proof. intros Hn. by rewrite pad4_digits. Qed.

Lemma str_leb_cons_false a b s t :
  b < a \/ a = b /\ str_leb s t = false -> str_leb (a :: s) (b :: t) = false.
Proof.
  intros [H | [-> H]]; cbn [str_leb].
  - by rewrite (proj2 (Z.ltb_ge a b)), (proj2 (Z.eqb_neq a b)) by lia.
  - by rewrite Z.ltb_irrefl, Z.eqb_refl.
Qed.

Lemma pad4_lt i j : 0 <= i < j -> j < 10000 -> str_leb (pad4 j) (pad4 i) = false.
Proof.
  intros Hij Hj. rewrite !pad4_digits by lia.
  destruct (decide (i / 1000 < j / 1000)); apply str_leb_cons_false; [left; div_lia | right; split; [div_lia |]].
  destruct (decide (i / 100 < j / 100)); apply str_leb_cons_false; [left; div_lia | right; split; [div_lia |]].
  destruct (decide (i / 10 < j / 10)); apply str_leb_cons_false; [left; div_lia | right; split; [div_lia |]].
  apply str_leb_cons_false. left. div_lia.
Qed.

Lemma sstable_path_lt dir i j : 0 <= i < j -> j < 10000 ->
  str_leb (sstable_path dir j) (sstable_path dir i) = false.
Proof.
  intros Hij Hj. unfold sstable_path. rewrite !str_leb_prefix.
  apply str_leb_suffix; [by rewrite !pad4_length by lia |].
  by apply pad4_lt.
Qed.

(** The first [n] paths, newest first. *)
Fixpoint newest_paths (dir : bytes) (n : nat) : list bytes :=
  match n with
  | O => []
  | S n' => sstable_path dir (Z.of_nat n') :: newest_paths dir n'
  end.

Lemma newest_paths_elem dir n p : p ∈ newest_paths dir n ->
  exists i, 0 <= i < Z.of_nat n /\ p = sstable_path dir i.
Proof.
  induction n as [| n IH]; cbn; intros Hp; [by apply not_elem_of_nil in Hp |].
  apply elem_of_cons in Hp as [-> | Hp]; [exists (Z.of_nat n); split; [lia | done] |].
  destruct (IH Hp) as (i & Hi & ->). exists i. split; [lia | done].
Qed.

Lemma newest_paths_sorted dir n : Z.of_nat n <= 10000 -> StronglySorted str_ge (newest_paths dir n).
Proof.
  induction n as [| n IH]; intros Hn; cbn; constructor; [apply IH; lia |].
  apply list.Forall_forall. intros p (i & Hi & ->)%newest_paths_elem.
  apply str_leb_total, sstable_path_lt; lia.
Qed.

(** Sorting any arrangement of the first [n] paths puts the newest first. *)
Lemma sort_newest dir n paths : Z.of_nat n <= 10000 -> paths ≡ₚ newest_paths dir n ->
  sort_newest_first paths = newest_paths dir n.
Proof.
  intros Hn Hperm. apply (StronglySorted_unique str_ge).
  - apply StronglySorted_merge_sort; apply _.
  - by apply newest_paths_sorted.
  - unfold sort_newest_first. by rewrite merge_sort_Permutation.
Qed.

Lemma newest_path_fresh dir n : Z.of_nat n < 10000 ->
  Forall (fun p => p <> sstable_path dir (Z.of_nat n)) (newest_paths dir n).
Proof.
  intros Hn. apply list.Forall_forall. intros p (i & Hi & ->)%newest_paths_elem Heq.
  pose proof (sstable_path_lt dir i (Z.of_nat n) ltac:(lia) ltac:(lia)) as H. rewrite Heq in H.
  pose proof (str_leb_total _ _ H). congruence.
Qed.

(** ** Table files read back *)

Definition sizes_ok (data : table) : Prop :=
  Forall (fun e => Z.of_nat (length e.1) < 2 ^ 32 /\ Z.of_nat (length e.2) < 2 ^ 32) data.

Section files.
Context {host : ByteOrder}.

Lemma stream_read_app n x r : n = Z.of_nat (length x) -> stream_read n (x ++ r, true) = (x, (r, true)).
Proof.
  intros ->. unfold stream_read. cbn [negb]. rewrite Nat2Z.id.
  rewrite (proj2 (Nat.ltb_ge _ _)) by (rewrite length_app; lia).
  by rewrite take_app_length, drop_app_length.
Qed.

Lemma get_length32 (x : bytes) : Z.of_nat (length x) < 2 ^ 32 ->
  get (put 4 (u32 (Z.of_nat (length x)))) = Z.of_nat (length x).
Proof. intros Hx. rewrite wrap_small by lia. apply get_put. cbn. lia. Qed.

Lemma read_entries_encode data : forall fuel, sizes_ok data -> (length data < fuel)%nat ->
  read_entries fuel (encode data, true) = data.
Proof.
  induction data as [| [k v] data IH]; intros [| fuel] Hs Hf; cbn [length] in Hf; try lia; [done |].
  apply list.Forall_cons in Hs as [[Hk Hv] Hs]. cbn [fst snd] in Hk, Hv.
  unfold encode. cbn [fmap list_fmap concat]. unfold encode_entry at 1. cbn [fst snd].
  rewrite <- !app_assoc. cbn [read_entries snd negb].
  rewrite stream_read_app by (by rewrite put_length). cbn [snd negb].
  rewrite stream_read_app by (by rewrite get_length32).
  rewrite stream_read_app by (by rewrite put_length). cbn [snd negb].
  rewrite stream_read_app by (by rewrite get_length32).
  f_equal. apply IH; [done | lia].
Qed.

Lemma encode_length data : (length data <= length (encode data))%nat.
Proof.
  unfold encode. induction data as [| e data IH]; cbn; [lia |].
  unfold encode_entry at 1. rewrite !length_app, put_length. lia.
Qed.

Lemma decode_encode data : sizes_ok data -> decode (encode data) = data.
Proof. intros Hs. apply read_entries_encode; [done |]. pose proof (encode_length data). lia. Qed.
End files.

(** ** Lookups *)

(** The first value for a key in a list of tables. *)
Fixpoint lookup_all (key : bytes) (ts : list table) : option bytes :=
  match ts with
  | [] => None
  | t :: ts' => match table_find key t with Some v => Some v | None => lookup_all key ts' end
  end.

Lemma table_find_set k v key l :
  table_find key (map_set k v l) = if bool_decide (key = k) then Some v else table_find key l.
Proof.
  induction l as [| [k' v'] l IH]; [done |]. cbn [map_set].
  destruct (bool_decide_reflect (k = k')) as [<- | Hne].
  - cbn. by destruct (bool_decide (key = k)).
  - destruct (str_leb k k'); [done |]. cbn [table_find]. rewrite IH.
    destruct (bool_decide_reflect (key = k')) as [-> |]; [| done].
    by rewrite bool_decide_false by congruence.
Qed.

Lemma map_set_length k v l : (length (map_set k v l) <= S (length l))%nat.
Proof.
  induction l as [| [k' v'] l IH]; cbn; [lia |]. repeat case_match; cbn; lia.
Qed.

Lemma map_set_sizes k v l : sizes_ok l -> Z.of_nat (length k) < 2 ^ 32 -> Z.of_nat (length v) < 2 ^ 32 ->
  sizes_ok (map_set k v l).
Proof.
  intros Hl Hk Hv. induction Hl as [| [k' v'] l Hx Hl IH]; cbn; [by repeat constructor |].
  repeat case_match; repeat constructor; cbn; try done; apply Hx.
Qed.

(** ** The invariant *)

Section tree.
Context {host : ByteOrder} (can_write : bytes -> bool) (Hwrite : forall p, can_write p = true).

Definition file_holds (fs : filesystem) (p : bytes) (tb : table) : Prop :=
  fs !! p = Some (encode tb) /\ sizes_ok tb.

(** The files hold the tables [ts], newest first. *)
Record wf (s : LSMTree * filesystem) (ts : list table) : Prop := {
  wf_count : sstableCount_ s.1 = Z.of_nat (length ts);
  wf_paths : sstablePaths_ s.1 = newest_paths (dataDir_ s.1) (length ts);
  wf_files : Forall2 (file_holds s.2) (sstablePaths_ s.1) ts;
  wf_mem : sizes_ok (memtable_ s.1);
  wf_small : (length (memtable_ s.1) < 4)%nat
}.

Lemma search_tables fs key paths ts : Forall2 (file_holds fs) paths ts ->
  search fs key paths = lookup_all key ts.
Proof.
  induction 1 as [| p tb paths ts [Hp Hs] _ IH]; [done |]. cbn [search lookup_all].
  unfold readSSTable. by rewrite Hp, decode_encode, IH.
Qed.

Lemma get_key_raw s ts key : Forall2 (file_holds s.2) (sstablePaths_ s.1) ts ->
  get_key key s = v ← lookup_all key (memtable_ s.1 :: ts); not_tombstone v.
Proof.
  intros Hf. unfold get_key. cbn [lookup_all]. rewrite (search_tables _ _ _ _ Hf).
  by destruct (table_find key (memtable_ s.1)).
Qed.

Lemma files_insert fs p x ps ts : Forall2 (file_holds fs) ps ts -> Forall (fun q => q <> p) ps ->
  Forall2 (file_holds (<[p := x]> fs)) ps ts.
Proof.
  induction 1 as [| q tb ps ts [Hq Hs] _ IH]; intros Hne; [done |].
  apply list.Forall_cons in Hne as [Hqp Hne]. constructor; [| by apply IH].
  split; [by rewrite lookup_insert_ne | done].
Qed.

Lemma flush_wf t fs ts : 
  sstableCount_ t = Z.of_nat (length ts) -> sstablePaths_ t = newest_paths (dataDir_ t) (length ts) ->
  Forall2 (file_holds fs) (sstablePaths_ t) ts -> sizes_ok (memtable_ t) ->
  Z.of_nat (length ts) < 10000 ->
  wf (flush can_write (t, fs)) (memtable_ t :: ts) /\ memtable_ (flush can_write (t, fs)).1 = [].
Proof.
  intros Hcount Hpaths Hfiles Hmem Hlt. unfold flush, writeSSTable. cbn [fst].
  rewrite Hwrite. cbn [negb]. split; [| done].
  assert (Hsort : sort_newest_first (sstablePaths_ t ++ [sstable_path (dataDir_ t) (sstableCount_ t)]) =
    newest_paths (dataDir_ t) (S (length ts))).
  { apply sort_newest; [lia |]. rewrite Hpaths, Hcount. symmetry. apply Permutation_cons_append. }
  split; cbn [fst snd sstableCount_ sstablePaths_ dataDir_ memtable_]; [| exact Hsort | | by constructor | cbn; lia].
  - rewrite Hcount. cbn [length]. lia.
  - rewrite Hsort, Hcount. cbn [newest_paths]. constructor; [split; [by rewrite lookup_insert_eq | done] |].
    rewrite <- Hpaths. apply files_insert; [done |]. rewrite Hpaths. by apply newest_path_fresh.
Qed.

(** One [put]: the invariant, and the values seen through it. *)
Lemma put_key_wf s ts k v : wf s ts -> Z.of_nat (length ts) < 10000 ->
  Z.of_nat (length k) < 2 ^ 32 -> Z.of_nat (length v) < 2 ^ 32 ->
  exists ts', wf (put_key can_write k v s) ts' /\
    (4 * length ts' + length (memtable_ (put_key can_write k v s).1) <=
     4 * length ts + length (memtable_ s.1) + 1)%nat /\
    forall key, lookup_all key (memtable_ (put_key can_write k v s).1 :: ts') =
      if bool_decide (key = k) then Some v else lookup_all key (memtable_ s.1 :: ts).
Proof.
  destruct s as [t fs]. intros [Hcount Hpaths Hfiles Hmem Hsmall] Hlt Hk Hv. cbn [fst snd] in *.
  assert (Hfind : forall key, lookup_all key (map_set k v (memtable_ t) :: ts) =
    if bool_decide (key = k) then Some v else lookup_all key (memtable_ t :: ts)).
  { intros key. cbn [lookup_all]. rewrite table_find_set. by destruct (bool_decide (key = k)). }
  pose proof (map_set_length k v (memtable_ t)). pose proof (map_set_sizes k v (memtable_ t) Hmem Hk Hv).
  unfold put_key, maybeFlush, MEMTABLE_FLUSH_THRESHOLD. cbn [fst memtable_].
  destruct (Nat.leb_spec 4 (length (map_set k v (memtable_ t)))) as [Hfull | Hroom].
  - set (t' := mkLSM _ _ _ _). destruct (flush_wf t' fs ts) as [Hwf Hempty]; [done.. |].
    exists (map_set k v (memtable_ t) :: ts). split; [done |]. rewrite Hempty. split.
    + cbn [length]. lia.
    + intros key. apply Hfind.
  - exists ts. split; [by split |]. split; [cbn [fst memtable_]; lia | done].
Qed.
End tree.

(** ** Operations in sequence, and the map they implement *)

Inductive op := Put (k v : bytes) | Del (k : bytes).

Definition run_op {host : ByteOrder} (can_write : bytes -> bool) (s : LSMTree * filesystem) (o : op) :
    LSMTree * filesystem :=
  match o with Put k v => put_key can_write k v s | Del k => del can_write k s end.

(** Putting an empty value deletes the key: [TOMBSTONE] is empty. *)
Definition map_op (m : gmap (list Z) (list Z)) (o : op) : gmap (list Z) (list Z) :=
  match o with
  | Put k v => if bool_decide (v = []) then delete k m else <[k := v]> m
  | Del k => delete k m
  end.

Definition op_ok (o : op) : Prop :=
  match o with
  | Put k v => Z.of_nat (length k) < 2 ^ 32 /\ Z.of_nat (length v) < 2 ^ 32
  | Del k => Z.of_nat (length k) < 2 ^ 32
  end.

(** The map a state stands for. *)
Definition agrees (s : LSMTree * filesystem) (ts : list table) (m : gmap (list Z) (list Z)) : Prop :=
  forall key, (v ← lookup_all key (memtable_ s.1 :: ts); not_tombstone v) = m !! key.

Lemma not_tombstone_eq v : not_tombstone v = if bool_decide (v = []) then None else Some v.
Proof. unfold not_tombstone. by rewrite (bool_decide_ext (v = TOMBSTONE) (v = [])). Qed.

Section run.
Context {host : ByteOrder} (can_write : bytes -> bool) (Hwrite : forall p, can_write p = true).

Lemma create_wf (dir : list Z) (fs : filesystem) : wf (create_tree dir, fs) [].
Proof. split; cbn; [done | done | constructor | constructor | lia]. Qed.

Lemma run_op_wf s ts m o : wf s ts -> agrees s ts m -> op_ok o -> Z.of_nat (length ts) < 10000 ->
  exists ts', wf (run_op can_write s o) ts' /\ agrees (run_op can_write s o) ts' (map_op m o) /\
    (4 * length ts' + length (memtable_ (run_op can_write s o).1) <=
     4 * length ts + length (memtable_ s.1) + 1)%nat.
Proof.
  intros Hwf Hag Hok Hlt.
  assert (Hput : forall k v, run_op can_write s o = put_key can_write k v s ->
    Z.of_nat (length k) < 2 ^ 32 -> Z.of_nat (length v) < 2 ^ 32 ->
    map_op m o = (if bool_decide (v = []) then delete k m else <[k := v]> m) ->
    exists ts', wf (run_op can_write s o) ts' /\ agrees (run_op can_write s o) ts' (map_op m o) /\
    (4 * length ts' + length (memtable_ (run_op can_write s o).1) <=
     4 * length ts + length (memtable_ s.1) + 1)%nat).
  { intros k v -> Hk Hv ->. destruct (put_key_wf can_write Hwrite s ts k v Hwf Hlt Hk Hv) as (ts' & H1 & H2 & H3).
    exists ts'. split; [done |]. split; [| done]. intros key. rewrite H3.
    case_bool_decide as Hkey; [subst key | rewrite Hag].
    - cbn. rewrite not_tombstone_eq.
      case_bool_decide; [by rewrite lookup_delete_eq | by rewrite lookup_insert_eq].
    - case_bool_decide; [by rewrite lookup_delete_ne | by rewrite lookup_insert_ne]. }
  destruct o as [k v | k].
  - by apply (Hput k v); [| apply Hok | apply Hok |].
  - by apply (Hput k TOMBSTONE); [| apply Hok | |].
Qed.

Lemma run_op_dir s o : dataDir_ (run_op can_write s o).1 = dataDir_ s.1.
Proof.
  assert (Hput : forall k v, dataDir_ (put_key can_write k v s).1 = dataDir_ s.1); [| destruct o; [apply Hput | exact (Hput _ _)]].
  intros k v. destruct s as [t fs]. unfold put_key, maybeFlush, flush, writeSSTable.
  cbn [fst snd dataDir_]. destruct (_ <=? _)%nat; [| done]. by destruct (negb _).
Qed.

(** Forty thousand operations make at most ten thousand files. *)
Lemma run_wf ops : forall s ts m, wf s ts -> agrees s ts m -> Forall op_ok ops ->
  4 * Z.of_nat (length ts) + Z.of_nat (length (memtable_ s.1)) + Z.of_nat (length ops) <= 40000 ->
  exists ts', wf (foldl (run_op can_write) s ops) ts' /\
    agrees (foldl (run_op can_write) s ops) ts' (foldl map_op m ops) /\
    Z.of_nat (length ts') <= 10000 /\ dataDir_ (foldl (run_op can_write) s ops).1 = dataDir_ s.1.
Proof.
  induction ops as [| o ops IH]; intros s ts m Hwf Hag Hok Hlen; cbn [foldl].
  - exists ts. split_and!; [done | done | cbn in Hlen; lia | done].
  - apply list.Forall_cons in Hok as [Ho Hok]. cbn [length] in Hlen.
    destruct (run_op_wf s ts m o Hwf Hag Ho ltac:(lia)) as (ts1 & Hwf1 & Hag1 & Hlen1).
    destruct (IH _ _ _ Hwf1 Hag1 Hok) as (ts2 & Hwf2 & Hag2 & Hlen2 & Hdir); [lia |].
    exists ts2. split_and!; [done | done | done |]. by rewrite Hdir, run_op_dir.
Qed.

Lemma run_created ops (dir : list Z) : Forall op_ok ops -> Z.of_nat (length ops) <= 40000 ->
  let s := foldl (run_op can_write) (create_tree dir, ∅) ops in
  exists ts, wf s ts /\ agrees s ts (foldl map_op ∅ ops) /\ Z.of_nat (length ts) <= 10000 /\ dataDir_ s.1 = dir.
Proof.
  intros Hok Hlen s. apply (run_wf ops (create_tree dir, ∅) [] ∅); [apply create_wf | | done | cbn; lia].
  intros key. cbn. by rewrite lookup_empty.
Qed.
End run.

(** ** Properties *)

(** C17. The tree implements a map: on a system where files can be written,
    after up to forty thousand operations with keys and values shorter than
    4 GiB, [get] gives what a map gives that was updated in the same order,
    whichever tables the pairs were flushed to; a put of the empty value
    counts as a deletion, because [TOMBSTONE] is the empty string. *)
Theorem lsm_is_map (host : ByteOrder) can_write dir ops :
  (forall p, can_write p = true) -> Forall op_ok ops -> Z.of_nat (length ops) <= 40000 ->
  forall key, get_key key (foldl (run_op can_write) (create_tree dir, ∅) ops) = foldl map_op ∅ ops !! key.
Proof.
  intros Hw Hok Hlen key. destruct (run_created can_write Hw ops dir Hok Hlen) as (ts & Hwf & Hag & _).
  rewrite (get_key_raw _ ts) by apply Hwf. apply Hag.
Qed.

(** A table file reads back as the table written, for every host byte
    order, when no key or value reaches 4 GiB. *)
Theorem sstable_roundtrip (host : ByteOrder) data : sizes_ok data -> decode (encode data) = data.
Proof. apply decode_encode. Qed.

(** The names of the first [n] files, without their directory. *)
Definition file_names (n : nat) : list (list Z) :=
  (fun i => chars "sstable_" ++ pad4 i ++ chars ".sst") <$> seqZ 0 (Z.of_nat n).

Lemma newest_paths_names dir n :
  (fun name => dir ++ chars "/" ++ name) <$> file_names n ≡ₚ newest_paths dir n.
Proof.
  unfold file_names. induction n as [| n IH]; [done |].
  rewrite Nat2Z.inj_succ, <- Z.add_1_r, seqZ_app, !fmap_app by lia.
  rewrite (Permutation_app_comm _ _). rewrite IH. cbn [newest_paths].
  replace (seqZ (0 + Z.of_nat n) 1) with [Z.of_nat n] by (rewrite seqZ_cons by lia; done). done.
Qed.

(** C28. What was flushed survives: on a system where files can be written,
    after up to forty thousand operations (at most ten thousand files, whose
    four-digit names sort in order), a tree opened on the directory of an
    earlier one, whatever order the directory is listed in, has the same
    table files in the same order and the same count, and gives the same
    value for every key that was not waiting in memory. *)
Theorem reopened_same (host : ByteOrder) can_write dir ops names :
  (forall p, can_write p = true) -> Forall op_ok ops -> Z.of_nat (length ops) <= 40000 ->
  let (t, fs) := foldl (run_op can_write) (create_tree dir, ∅) ops in
  names ≡ₚ file_names (Z.to_nat (sstableCount_ t)) ->
  let t' := open_tree dir names in
  sstablePaths_ t' = sstablePaths_ t /\ sstableCount_ t' = sstableCount_ t /\
  forall key, table_find key (memtable_ t) = None -> get_key key (t', fs) = get_key key (t, fs).
Proof.
  intros Hw Hok Hlen. pose proof (run_created can_write Hw ops dir Hok Hlen) as Hrun. cbv zeta in Hrun.
  destruct (foldl _ _ ops) as [t fs]. destruct Hrun as (ts & [Hcount Hpaths _ _ _] & _ & Hts & Hdir).
  cbn [fst snd] in *. intros Hnames. rewrite Hcount, Nat2Z.id in Hnames.
  assert (Hsame : sstablePaths_ (open_tree dir names) = sstablePaths_ t).
  { cbn [open_tree sstablePaths_]. rewrite Hpaths, Hdir. apply sort_newest; [done |].
    rewrite Hnames. apply newest_paths_names. }
  split; [done |]. split.
  - cbn. rewrite Hnames, Hcount. unfold file_names. rewrite length_fmap, length_seqZ. lia.
  - intros key Hkey. unfold get_key. cbn [fst snd]. by rewrite Hkey, Hsame.
Qed.

(** A flush whose file cannot be opened loses what it was to write: the
    table in memory is cleared all the same, and every key in it reads as
    before it was put there. *)
Theorem failed_flush_loses (host : ByteOrder) can_write t fs k v key :
  (MEMTABLE_FLUSH_THRESHOLD <= length (map_set k v (memtable_ t)))%nat ->
  can_write (sstable_path (dataDir_ t) (sstableCount_ t)) = false ->
  let s := put_key can_write k v (t, fs) in
  s = (mkLSM [] (dataDir_ t) (sstableCount_ t) (sstablePaths_ t), fs) /\
  get_key key s = v ← search fs key (sstablePaths_ t); not_tombstone v.
Proof.
  intros Hfull Hfail s. assert (Hs : s = (mkLSM [] (dataDir_ t) (sstableCount_ t) (sstablePaths_ t), fs)).
  { unfold s, put_key, maybeFlush. cbn [fst memtable_].
    rewrite (proj2 (Nat.leb_le _ _)) by done. unfold flush, writeSSTable.
    cbn [fst dataDir_ sstableCount_]. by rewrite Hfail. }
  split; [done |]. by rewrite Hs.
Qed.

(** *** Witnesses *)

Definition sample_ops : list op :=
  [Put (chars "a") (chars "1"); Put (chars "b") (chars "2"); Put (chars "c") (chars "3");
   Put (chars "d") (chars "4"); Del (chars "a"); Put (chars "b") (chars "5"); Put (chars "c") []].

Lemma sample_ops_ok : Forall op_ok sample_ops.
Proof. repeat constructor. Qed.

Lemma lsm_is_map_witness :
  let s := foldl (run_op (host := LittleEndian) (fun _ => true)) (create_tree (chars "d"), ∅) sample_ops in
  get_key (host := LittleEndian) (chars "a") s = None /\ get_key (host := LittleEndian) (chars "b") s = Some (chars "5") /\
  get_key (host := LittleEndian) (chars "c") s = None /\ get_key (host := LittleEndian) (chars "d") s = Some (chars "4").
Proof.
  pose proof (lsm_is_map LittleEndian (fun _ => true) (chars "d") sample_ops (fun _ => eq_refl) sample_ops_ok) as H.
  split_and!; (etransitivity; [apply H; vm_compute; discriminate | vm_compute; reflexivity]).
Defined.

Lemma sstable_roundtrip_witness :
  decode (host := BigEndian) (encode (host := BigEndian) [(chars "k", chars "v"); (chars "l", [])]) =
  [(chars "k", chars "v"); (chars "l", [])].
Proof. apply (sstable_roundtrip BigEndian). repeat constructor. Defined.

Lemma reopened_same_witness :
  let (t, fs) := foldl (run_op (host := LittleEndian) (fun _ => true)) (create_tree (chars "d"), ∅) sample_ops in
  let t' := open_tree (chars "d") (file_names 1) in
  sstablePaths_ t' = sstablePaths_ t /\ sstableCount_ t' = sstableCount_ t /\
  forall key, table_find key (memtable_ t) = None ->
    get_key (host := LittleEndian) key (t', fs) = get_key (host := LittleEndian) key (t, fs).
Proof.
  pose proof (reopened_same LittleEndian (fun _ => true) (chars "d") sample_ops (file_names 1)
    (fun _ => eq_refl) sample_ops_ok ltac:(vm_compute; discriminate)) as H.
  assert (Hcount : sstableCount_ (foldl (run_op (host := LittleEndian) (fun _ => true)) (create_tree (chars "d"), ∅) sample_ops).1 = 1)
    by (vm_compute; reflexivity).
  destruct (foldl _ _ sample_ops) as [t fs]. cbn [fst] in Hcount. apply H. rewrite Hcount. reflexivity.
Defined.

Lemma failed_flush_loses_witness :
  let t := mkLSM [(chars "a", chars "1"); (chars "b", chars "2"); (chars "c", chars "3")] (chars "d") 0 [] in
  get_key (host := LittleEndian) (chars "a") (put_key (host := LittleEndian) (fun _ => false) (chars "d") (chars "4") (t, ∅)) = None.
Proof.
  pose proof (failed_flush_loses LittleEndian (fun _ => false)
    (mkLSM [(chars "a", chars "1"); (chars "b", chars "2"); (chars "c", chars "3")] (chars "d") 0 [])
    ∅ (chars "d") (chars "4") (chars "a")) as H.
  apply H; [vm_compute; lia | reflexivity].
Defined.
