(* ===== verification/Sha256.v ===== *)
(** * Sha256

    SHA-256 as FIPS 180-4 specifies it, the reference that the
    length-extension attack of 10-HMAC_length_extension is proved against:
    the padding, the chain of compressions over 64-byte blocks, and the
    digest.  The compression function is an argument of the chain; [compress]
    below is the standard's, used where concrete digests are evaluated. *)

From S2P Require Import Prelude.
#[local] Open Scope Z_scope.

(** ** Padding *)

(** The padding of a message of [n] bytes: a 1 bit, zeros up to 8 bytes short
    of a block, the length in bits in 8 bytes, most significant first. *)
Definition fips_pad (n : Z) : list Z :=
  0x80 :: replicate (Z.to_nat ((55 - n) mod 64)) 0 ++ be_put 8 (8 * n).

Lemma fips_pad_length n : Z.of_nat (length (fips_pad n)) = 9 + (55 - n) mod 64.
Proof.
  unfold fips_pad. cbn [length]. rewrite length_app, length_replicate, be_put_length.
  pose proof (Z.mod_pos_bound (55 - n) 64). lia.
Qed.

(** A padded message is a whole number of blocks. *)
Lemma fips_pad_aligned n : (n + Z.of_nat (length (fips_pad n))) mod 64 = 0.
Proof.
  rewrite fips_pad_length.
  replace (n + (9 + (55 - n) mod 64)) with ((n + 9) + (55 - n) mod 64) by lia.
  rewrite Zplus_mod_idemp_r. replace (n + 9 + (55 - n)) with (1 * 64) by lia.
  by rewrite Z.mod_mul.
Qed.

(** ** The chain of compressions *)

(** Eight 32-bit words: the chaining value. *)
Definition words8 (h : list Z) : Prop := length h = 8%nat /\ Forall (is_u 32) h.

(** The words of a chaining value as bytes: the digest. *)
Definition digest (h : list Z) : list Z := concat (be_put 4 <$> h).

Section chain.
Context (compress : list Z -> list Z -> list Z).

Fixpoint chain_n (n : nat) (h m : list Z) : list Z :=
  match n with
  | O => h
  | S n' => chain_n n' (compress h (take 64 m)) (drop 64 m)
  end.

Definition chain (h m : list Z) : list Z := chain_n (length m / 64) h m.

Lemma chain_nil h : chain h [] = h.
Proof. done. Qed.

Lemma chain_n_app n k h a b : length a = (64 * n)%nat ->
  chain_n (n + k) h (a ++ b) = chain_n k (chain_n n h a) b.
Proof.
  revert h a. induction n as [| n IH]; intros h a Ha.
  - apply nil_length_inv in Ha as ->. done.
  - cbn [chain_n Nat.add]. rewrite take_app_le, drop_app_le by lia.
    apply IH. rewrite length_drop. lia.
Qed.

(** Whole blocks can be compressed ahead of the rest. *)
Lemma chain_app h a b : Z.of_nat (length a) mod 64 = 0 -> chain h (a ++ b) = chain (chain h a) b.
Proof.
  intros Ha. assert (length a = (64 * (length a / 64))%nat) as Hlen.
  { pose proof (Nat.div_mod_eq (length a) 64). enough (length a mod 64 = 0)%nat by lia.
    apply Nat2Z.inj. rewrite Nat2Z.inj_mod. done. }
  unfold chain. rewrite <- chain_n_app by done. f_equal.
  rewrite length_app. rewrite Hlen at 1. rewrite (Nat.mul_comm 64), Nat.add_comm, Nat.div_add by done. lia.
Qed.

Context (compress_words8 : forall h b, words8 h -> length b = 64%nat -> words8 (compress h b)).

Lemma chain_n_words8 n : forall h m, (64 * n <= length m)%nat -> words8 h -> words8 (chain_n n h m).
Proof.
  induction n as [| n IH]; intros h m Hn Hh; cbn [chain_n]; [done |].
  apply IH; [rewrite length_drop; lia |]. apply compress_words8; [done |]. rewrite length_take. lia.
Qed.

Lemma chain_words8 h m : words8 h -> words8 (chain h m).
Proof. intros. apply chain_n_words8; [| done]. pose proof (Nat.div_mod_eq (length m) 64). lia. Qed.
End chain.

(** ** Digests *)

Lemma digest_length h : length (digest h) = (4 * length h)%nat.
Proof.
  induction h as [| w h IH]; [done |]. unfold digest in *. cbn [fmap list_fmap concat length].
  rewrite length_app, IH, be_put_length. lia.
Qed.

Lemma digest_bytes h : Forall is_byte (digest h).
Proof.
  induction h as [| w h IH]; [constructor |]. unfold digest in *. cbn [fmap list_fmap concat].
  apply Forall_app. split; [apply be_put_bytes | done].
Qed.

Lemma digest_app l r : digest (l ++ r) = digest l ++ digest r.
Proof. unfold digest. by rewrite fmap_app, concat_app. Qed.

(** The word [i] of a digest as four reads. *)
Lemma digest_rd h i w : Forall (is_u 32) h -> h !! i = Some w ->
  exists b0 b1 b2 b3,
    (forall j b, [b0; b1; b2; b3] !! j = Some b -> rd (digest h) (Z.of_nat i * 4 + Z.of_nat j) = Ok b) /\
    u32 (Z.lor (Z.lor (Z.lor (Z.shiftl b0 24) (Z.shiftl b1 16)) (Z.shiftl b2 8)) b3) = w.
Proof.
  intros Hall Hi. pose proof (proj1 (list.Forall_lookup _ _) Hall _ _ Hi) as Hw.
  destruct (be32_put w Hw) as (b0 & b1 & b2 & b3 & Hput & H0 & H1 & H2 & H3 & Hv).
  exists b0, b1, b2, b3. split; [| by rewrite be32_value].
  intros j b Hj. apply list_elem_of_split_length in Hi as (l & r & -> & ->).
  apply list_elem_of_split_length in Hj as (bl & br & Hbs & ->).
  rewrite (cons_middle w), !digest_app. unfold digest at 2. cbn [fmap list_fmap concat].
  rewrite app_nil_r, Hput, Hbs, <- (app_assoc bl), <- app_comm_cons, app_assoc.
  apply rd_mid. rewrite length_app, digest_length. lia.
Qed.

(** ** The compression function of FIPS 180-4, section 6.2.2

    The constants are the fractional parts of the square and cube roots of
    the first primes, and are computed so. *)

Definition is_prime (p : Z) : bool := forallb (fun d => negb (p mod d =? 0)) (seqZ 2 (p - 2)).

Definition primes64 : list Z := Eval vm_compute in List.filter is_prime (seqZ 2 310).

(** The cube root of [n] below [2^36], bit by bit. *)
Definition icbrt (n : Z) : Z :=
  fold_left (fun r i => if (r + 2 ^ i) ^ 3 <=? n then r + 2 ^ i else r) (reverse (seqZ 0 36)) 0.

Definition fips_K : list Z :=
  Eval vm_compute in (fun p => wrap 32 (icbrt (p * 2 ^ 96))) <$> primes64.

Definition fips_IV : list Z :=
  Eval vm_compute in (fun p => wrap 32 (Z.sqrt (p * 2 ^ 64))) <$> take 8 primes64.

Definition ror (x n : Z) : Z := Z.lor (Z.shiftr x n) (u32 (Z.shiftl x (32 - n))).
Definition xor3 (a b c : Z) : Z := Z.lxor (Z.lxor a b) c.

Definition Ch (x y z : Z) : Z := Z.lxor (Z.land x y) (Z.land (not_w 32 x) z).
Definition Maj (x y z : Z) : Z := xor3 (Z.land x y) (Z.land x z) (Z.land y z).
Definition Sigma0 (x : Z) : Z := xor3 (ror x 2) (ror x 13) (ror x 22).
Definition Sigma1 (x : Z) : Z := xor3 (ror x 6) (ror x 11) (ror x 25).
Definition sigma0 (x : Z) : Z := xor3 (ror x 7) (ror x 18) (Z.shiftr x 3).
Definition sigma1 (x : Z) : Z := xor3 (ror x 17) (ror x 19) (Z.shiftr x 10).

Fixpoint be_words (bs : list Z) : list Z :=
  match bs with
  | b0 :: b1 :: b2 :: b3 :: bs' => be_get [b0; b1; b2; b3] :: be_words bs'
  | _ => []
  end.

(** The schedule is kept as a window of its next 16 words. *)
Definition next_word (w : list Z) : Z :=
  u32 (sigma1 (nth 14 w 0) + nth 9 w 0 + sigma0 (nth 1 w 0) + nth 0 w 0).

Definition round (s : list Z * list Z) (k : Z) : list Z * list Z :=
  match s with
  | ([a; b; c; d; e; f; g; h], w) =>
      let t1 := h + Sigma1 e + Ch e f g + k + nth 0 w 0 in
      let t2 := Sigma0 a + Maj a b c in
      ([u32 (t1 + t2); a; b; c; u32 (d + t1); e; f; g], drop 1 w ++ [next_word w])
  | s => s
  end.

Definition compress (h block : list Z) : list Z :=
  zip_with (fun x y => u32 (x + y)) h (fst (fold_left round fips_K (h, be_words block))).

Definition sha256 (m : list Z) : list Z :=
  digest (chain compress fips_IV (m ++ fips_pad (Z.of_nat (length m)))).

Lemma round_length s k : length (fst s) = 8%nat -> length (fst (round s k)) = 8%nat.
Proof. destruct s as [l w]. do 9 (destruct l as [| ? l]; try done). Qed.

Lemma compress_words8 h b : words8 h -> length b = 64%nat -> words8 (compress h b).
Proof.
  intros [Hl _] _. unfold compress. split.
  - rewrite length_zip_with, Hl.
    enough (forall ks s, length (fst s) = 8%nat -> length (fst (fold_left round ks s)) = 8%nat) as ->; [done | done |].
    induction ks as [| k ks IH]; intros s Hs; cbn [fold_left]; [done | by apply IH, round_length].
  - apply list.Forall_lookup. intros i x. rewrite lookup_zip_with_Some.
    intros (y & z & -> & _). by apply wrap_range.
Qed.

(** The test vectors of the standard, one and two blocks, and the empty
    message. *)
Example sha256_abc : be_words (sha256 (chars "abc")) =
  [0xba7816bf; 0x8f01cfea; 0x414140de; 0x5dae2223; 0xb00361a3; 0x96177a9c; 0xb410ff61; 0xf20015ad].
Proof. vm_compute. reflexivity. Qed.

Example sha256_two_blocks :
  be_words (sha256 (chars "abcdbcdecdefdefgefghfghighijhijkijkljklmklmnlmnomnopnopq")) =
  [0x248d6a61; 0xd20638b8; 0xe5c02693; 0x0c3e6039; 0xa33ce459; 0x64ff2167; 0xf6ecedd4; 0x19db06c1].
Proof. vm_compute. reflexivity. Qed.
