(* ===== verification/Hmac.v ===== *)
(** * Hmac

    The length-extension exercise of 10-HMAC_length_extension/main.cpp: the
    MAC that hashes the key and the message, the attack that forges it, the
    HMAC check, and [main].  libcrypto is an interface: a context with the
    fields the attack writes, and its functions; [Sha256Laws] states that they
    compute SHA-256 ([Sha256.chain]) for a compression function the theorems
    leave open.  The secret key is an argument. *)

From S2P Require Import Prelude Sha256.
#[local] Open Scope Z_scope.

(** ** libcrypto *)

(** The chaining value, the number of bits hashed in two 32-bit halves, and
    the bytes of the block begun, of which [num] count. *)
Record SHA256_CTX := mkCtx { h : list Z; Nl : Z; Nh : Z; data : list Z; num : Z }.

Class Libcrypto := {
  SHA256_Init : SHA256_CTX;
  SHA256_Update : SHA256_CTX -> list Z -> SHA256_CTX;
  SHA256_Final : SHA256_CTX -> list Z;
  HMAC : list Z -> list Z -> list Z
}.

(** The number of bytes a context has hashed, and what it means that it is at
    the end of a block. *)
Definition ctx_bytes (c : SHA256_CTX) : Z := (Nh c * 2 ^ 32 + Nl c) / 8.

Record block_end (c : SHA256_CTX) : Prop := {
  end_words : words8 (h c);
  end_count : is_u 32 (Nl c) /\ is_u 32 (Nh c);
  end_whole : (Nh c * 2 ^ 32 + Nl c) mod 512 = 0;
  end_num : num c = 0
}.

(** What libcrypto documents: an initial context is at the end of a block and
    has hashed nothing; data may be given in pieces; the digest of data
    hashed from the end of a block on is that of FIPS 180-4. *)
Class Sha256Laws (lib : Libcrypto) (compress : list Z -> list Z -> list Z) : Prop := {
  compress_ok hv b : words8 hv -> length b = 64%nat -> words8 (compress hv b);
  init_end : block_end SHA256_Init;
  init_bytes : ctx_bytes SHA256_Init = 0;
  update_app c a b : SHA256_Final (SHA256_Update (SHA256_Update c a) b) =
    SHA256_Final (SHA256_Update c (a ++ b));
  final_digest c m : block_end c -> Forall is_byte m -> ctx_bytes c + Z.of_nat (length m) < 2 ^ 61 ->
    SHA256_Final (SHA256_Update c m) =
    digest (chain compress (h c) (m ++ fips_pad (ctx_bytes c + Z.of_nat (length m))))
}.

(** ** The program *)

Definition KEY_LEN : Z := 16.

Definition SECRET_KEY : list Z :=
  [0x0f; 0x1e; 0x2d; 0x3c; 0x4b; 0x5a; 0x69; 0x78;
   0x87; 0x96; 0xa5; 0xb4; 0xc3; 0xd2; 0xe1; 0xf0].

Section program.
Context {lib : Libcrypto}.

Definition naive_mac (key msg : list Z) : list Z :=
  SHA256_Final (SHA256_Update (SHA256_Update SHA256_Init key) msg).

Definition server_verify_naive (key msg token : list Z) : bool :=
  bool_decide (naive_mac key msg = token).

Definition hmac_sha256_mac (key msg : list Z) : list Z := HMAC key msg.

Definition server_verify_hmac (key msg token : list Z) : bool :=
  bool_decide (hmac_sha256_mac key msg = token).

(** One word of the token, and the loop over the eight. *)
Definition token_word (token : list Z) (i : Z) : res Z :=
  b0 ← rd token (i * 4);
  b1 ← rd token (i * 4 + 1);
  b2 ← rd token (i * 4 + 2);
  b3 ← rd token (i * 4 + 3);
  Ok (u32 (Z.lor (Z.lor (Z.lor (Z.shiftl b0 24) (Z.shiftl b1 16)) (Z.shiftl b2 8)) b3)).

Fixpoint token_words (n : nat) (i : Z) (token : list Z) : res (list Z) :=
  match n with
  | O => Ok []
  | S n' => w ← token_word token i; ws ← token_words n' (i + 1) token; Ok (w :: ws)
  end.

(** [while ((length + padding_1.size()) % 64 != 56) padding_1.push_back(0)] *)
Fixpoint pad_zeros (fuel : nat) (length_ : Z) (padding_1 : list Z) : res (list Z) :=
  if u64 (length_ + Z.of_nat (length padding_1)) mod 64 =? 56 then Ok padding_1
  else match fuel with
       | O => Fault OutOfFuel
       | S fuel' => pad_zeros fuel' length_ (padding_1 ++ [0])
       end.

(** The length in bits, which the code computes in 32 bits. *)
Definition length_bytes (length_ : Z) : list Z :=
  (fun i => u8 (Z.shiftr (u32 (length_ * 8)) (i * 8))) <$> [7; 6; 5; 4; 3; 2; 1; 0].

Definition make_padding (size : Z) : res (list Z) :=
  let length_ := u32 (u64 (KEY_LEN + size)) in
  padding_1 ← pad_zeros 64 length_ [0x80];
  Ok (padding_1 ++ length_bytes length_).

Definition length_extension_attack (original_msg valid_token extension : list Z)
  : res (list Z * list Z) :=
  state ← token_words 8 0 valid_token;
  padding_1 ← make_padding (Z.of_nat (length original_msg));
  let extended_msg := original_msg ++ padding_1 ++ extension in
  let Nl := u32 (u64 (u64 (KEY_LEN + Z.of_nat (length original_msg) + Z.of_nat (length padding_1)) * 8)) in
  let ctx := mkCtx state Nl 0 (data SHA256_Init) 0 in
  Ok (extended_msg, SHA256_Final (SHA256_Update ctx extension)).

(** Returns the exit code; the output is the lines printed. *)
Definition main (key : list Z) : M (list (string * string)) Z :=
  let msg := chars "command=reboot" in
  let token := naive_mac key msg in
  '(ext_msg, forged_token) ← lift (length_extension_attack msg token (chars "&admin=1"));
  let part_a := server_verify_naive key ext_msg forged_token in
  tell ("Part A (length extension forgery)",
        if part_a then "PASS — server accepted forged token" else "FAIL")%string;;
  let hmac_token := hmac_sha256_mac key msg in
  let part_b := negb (server_verify_hmac key ext_msg forged_token) in
  tell ("Part B (HMAC rejects forgery)",
        if part_b then "PASS — server rejected forged token" else "FAIL")%string;;
  mret (if part_a && part_b then 0 else 1).
End program.

(** ** A libcrypto that computes SHA-256 *)

(** The pending bytes are kept in [data]; whole blocks are compressed as they
    fill, as the library does. *)
Definition ref_update (c : SHA256_CTX) (m : list Z) : SHA256_CTX :=
  let buf := take (Z.to_nat (num c)) (data c) ++ m in
  let whole := (64 * (length buf / 64))%nat in
  let bits := Nh c * 2 ^ 32 + Nl c + 8 * Z.of_nat (length m) in
  mkCtx (chain compress (h c) (take whole buf)) (u32 bits) (u32 (bits / 2 ^ 32))
    (drop whole buf) (Z.of_nat (length (drop whole buf))).

Definition ref_final (c : SHA256_CTX) : list Z :=
  digest (chain compress (h c) (take (Z.to_nat (num c)) (data c) ++ fips_pad (ctx_bytes c))).

(** RFC 2104, for keys of at most a block. *)
Definition ref_hmac (key m : list Z) : list Z :=
  let k := key ++ replicate (64 - length key) 0 in
  sha256 ((Z.lxor 0x5c <$> k) ++ sha256 ((Z.lxor 0x36 <$> k) ++ m)).

Definition ref_libcrypto : Libcrypto := {|
  SHA256_Init := mkCtx fips_IV 0 0 [] 0;
  SHA256_Update := ref_update;
  SHA256_Final := ref_final;
  HMAC := ref_hmac
|}.

(** Two 32-bit halves hold a 64-bit count. *)
Lemma halves_count z : u32 (z / 2 ^ 32) * 2 ^ 32 + u32 z = u64 z.
Proof.
  unfold wrap. change (2 ^ 64) with (2 ^ 32 * 2 ^ 32).
  rewrite Z.rem_mul_r by lia. ring.
Qed.

Lemma whole_blocks n : Z.of_nat (64 * n) mod 64 = 0.
Proof. rewrite Nat2Z.inj_mul, Z.mul_comm. by rewrite Z.mod_mul. Qed.

(** The context after data, as what was pending and the count. *)
Lemma ref_update_final c m :
  ref_final (ref_update c m) =
  digest (chain compress (h c) ((take (Z.to_nat (num c)) (data c) ++ m) ++
            fips_pad (u64 (Nh c * 2 ^ 32 + Nl c + 8 * Z.of_nat (length m)) / 8))).
Proof.
  unfold ref_final, ref_update, ctx_bytes. cbn [h Nl Nh data num].
  rewrite halves_count, Nat2Z.id, firstn_all.
  set (buf := take (Z.to_nat (num c)) (data c) ++ m). set (whole := (64 * (length buf / 64))%nat).
  rewrite <- chain_app.
  - by rewrite app_assoc, take_drop.
  - rewrite length_take, Nat.min_l by (apply Nat.Div0.mul_div_le).
    apply whole_blocks.
Qed.

Lemma ref_update_app c a b :
  ref_final (ref_update (ref_update c a) b) = ref_final (ref_update c (a ++ b)).
Proof.
  rewrite !ref_update_final. unfold ref_update. cbn [h Nl Nh data num].
  rewrite halves_count, Nat2Z.id, firstn_all.
  set (buf := take (Z.to_nat (num c)) (data c) ++ a). set (whole := (64 * (length buf / 64))%nat).
  rewrite <- !app_assoc. rewrite <- (chain_app compress (h c)).
  - rewrite (app_assoc _ a), (app_assoc (take whole buf)), take_drop. fold buf. do 4 f_equal.
    do 2 f_equal. unfold wrap. rewrite Zplus_mod_idemp_l, length_app. f_equal. lia.
  - rewrite length_take, Nat.min_l by (apply Nat.Div0.mul_div_le).
    apply whole_blocks.
Qed.

Lemma ref_laws : Sha256Laws ref_libcrypto compress.
Proof.
  split.
  - apply compress_words8.
  - split; [| split | |]; cbn; try done.
    split; [done |]. repeat constructor; done.
  - done.
  - apply ref_update_app.
  - intros c m [_ Hcount Hwhole Hnum] _ Hlen. cbn [SHA256_Final SHA256_Update ref_libcrypto].
    rewrite ref_update_final, Hnum. cbn [Z.to_nat take app]. do 4 f_equal.
    unfold ctx_bytes in *. pose proof Hwhole as H8.
    destruct Hcount as [HNl HNh]. unfold is_u in *.
    rewrite wrap_small by div_lia.
    div_lia.
Qed.

(** ** The padding *)

Lemma pad_zeros_ok fuel : forall length_ p,
  0 <= length_ < 2 ^ 32 -> Z.of_nat (length p) + Z.of_nat fuel < 2 ^ 32 ->
  (55 - length_ - Z.of_nat (length p) + 1) mod 64 <= Z.of_nat fuel ->
  pad_zeros fuel length_ p =
  Ok (p ++ replicate (Z.to_nat ((56 - length_ - Z.of_nat (length p)) mod 64)) 0).
Proof.
  induction fuel as [| fuel IH]; intros length_ p Hl Hp Hfuel; cbn [pad_zeros];
    rewrite (wrap_small 64) by lia; case_if.
  - replace ((56 - length_ - Z.of_nat (length p)) mod 64) with 0 by div_lia.
    by rewrite app_nil_r.
  - exfalso. div_lia.
  - replace ((56 - length_ - Z.of_nat (length p)) mod 64) with 0 by div_lia.
    by rewrite app_nil_r.
  - assert (Z.of_nat (length (p ++ [0])) = Z.of_nat (length p) + 1) as Hlen by len.
    assert ((56 - length_ - Z.of_nat (length p)) mod 64 =
            1 + (56 - length_ - Z.of_nat (length (p ++ [0]))) mod 64) as Hm
      by (rewrite Hlen; div_lia).
    rewrite IH; [| done | lia |].
    + rewrite Hm, Z.add_comm, Z2Nat.inj_add by (try apply Z.mod_pos_bound; lia).
      rewrite Nat.add_comm. by rewrite <- app_assoc.
    + revert Hfuel Hm. replace (55 - length_ - Z.of_nat (length p) + 1) with (56 - length_ - Z.of_nat (length p)) by lia.
      replace (55 - length_ - Z.of_nat (length (p ++ [0])) + 1) with (56 - length_ - Z.of_nat (length (p ++ [0]))) by lia.
      lia.
Qed.

Lemma length_bytes_put length_ : length_bytes length_ = be_put 8 (u32 (length_ * 8)).
Proof.
  unfold length_bytes, be_put. cbn [le_put fmap list_fmap].
  rewrite !Z.shiftr_div_pow2 by lia. generalize (u32 (length_ * 8)). intros z.
  rewrite !Z.div_div by lia. cbn [reverse rev_append]. unfold wrap.
  change (2 ^ (0 * 8)) with 1. by rewrite (Z.div_1_r z).
Qed.

(** What the code computes for any size: the zeros of the standard, and the
    bit length reduced to 32 bits. *)
Lemma make_padding_ok size : 0 <= size -> 16 + size < 2 ^ 64 ->
  make_padding size =
  Ok (0x80 :: replicate (Z.to_nat ((55 - (16 + size)) mod 64)) 0 ++ be_put 8 (u32 (8 * (16 + size)))).
Proof.
  intros H0 Hs. unfold make_padding, KEY_LEN. rewrite (wrap_small 64) by lia.
  pose proof (wrap_range 32 (16 + size) ltac:(lia)).
  rewrite pad_zeros_ok; [| lia | cbn [length]; lia |].
  - rewrite res_bind_Ok, length_bytes_put. cbv beta. cbn [length].
    rewrite <- app_assoc. cbn [app]. do 4 f_equal.
    + f_equal. unfold wrap. div_lia.
    + unfold wrap. rewrite Zmult_mod_idemp_l. f_equal. lia.
  - pose proof (Z.mod_pos_bound (55 - u32 (16 + size) - Z.of_nat (length [128]) + 1) 64). lia.
Qed.

(** ** The token *)

Lemma token_words_digest ws : forall l n i,
  Forall (is_u 32) (l ++ ws) -> n = length ws -> i = Z.of_nat (length l) ->
  token_words n i (digest (l ++ ws)) = Ok ws.
Proof.
  induction ws as [| w ws IH]; intros l n i Hall -> ->; cbn [length token_words]; [done |].
  destruct (digest_rd (l ++ w :: ws) (length l) w Hall) as (b0 & b1 & b2 & b3 & Hrd & Hv);
    [by apply list_lookup_middle |].
  unfold token_word. set (i := Z.of_nat (length l)) in *. set (d := digest _) in *.
  replace (rd d (i * 4)) with (Ok b0) by (rewrite <- (Hrd 0%nat b0 eq_refl); f_equal; lia).
  rewrite (Hrd 1%nat b1 eq_refl : rd d (i * 4 + 1) = _), (Hrd 2%nat b2 eq_refl : rd d (i * 4 + 2) = _),
    (Hrd 3%nat b3 eq_refl : rd d (i * 4 + 3) = _), !res_bind_Ok, Hv. subst i d.
  rewrite (cons_middle w), app_assoc in *. by rewrite IH by (done || rewrite ?length_app; cbn; lia).
Qed.

(** The token of a context whose final words are [hv]. *)
Lemma token_words_all hv : words8 hv -> token_words 8 0 (digest hv) = Ok hv.
Proof. intros [Hl Hall]. by apply (token_words_digest hv []). Qed.

(** ** Properties *)

Section forgery.
Context {lib : Libcrypto} {compress : list Z -> list Z -> list Z} {laws : Sha256Laws lib compress}.

(** The naive MAC is the digest of the key followed by the message. *)
Lemma naive_mac_digest key msg :
  Forall is_byte key -> Forall is_byte msg -> Z.of_nat (length key + length msg) < 2 ^ 61 ->
  naive_mac key msg =
  digest (chain compress (h SHA256_Init)
            (key ++ msg ++ fips_pad (Z.of_nat (length key + length msg)))).
Proof.
  intros Hk Hm Hlen. unfold naive_mac.
  rewrite update_app, final_digest; [| apply init_end | by apply Forall_app | rewrite init_bytes, length_app; lia].
  rewrite init_bytes, length_app, <- app_assoc. done.
Qed.

Lemma fips_pad_bytes n : Forall is_byte (fips_pad n).
Proof.
  constructor; [done |]. apply Forall_app. split; [| apply be_put_bytes].
  apply Forall_replicate. done.
Qed.

(** The attack computes the MAC of the extended message, for any key. *)
Lemma attack_token key msg ext :
  length key = 16%nat -> Forall is_byte key -> Forall is_byte msg -> Forall is_byte ext ->
  16 + Z.of_nat (length msg) < 2 ^ 29 - 72 -> Z.of_nat (length ext) < 2 ^ 60 ->
  let pad := fips_pad (16 + Z.of_nat (length msg)) in
  length_extension_attack msg (naive_mac key msg) ext =
  Ok (msg ++ pad ++ ext, naive_mac key (msg ++ pad ++ ext)).
Proof.
  intros Hkl Hk Hm He Hlen Hext pad. set (n := 16 + Z.of_nat (length msg)) in *.
  assert (Hn : Z.of_nat (length key + length msg) = n) by lia.
  pose proof (fips_pad_length n) as Hpl. pose proof (fips_pad_aligned n) as Hal.
  pose proof (Z.mod_pos_bound (55 - n) 64 ltac:(lia)) as Hmod. fold pad in Hpl, Hal.
  pose proof (chain_words8 compress compress_ok (h SHA256_Init) (key ++ msg ++ pad)
    (end_words _ init_end)) as Hw.
  unfold length_extension_attack.
  rewrite (naive_mac_digest key msg), Hn by (done || lia). fold pad.
  rewrite token_words_all, res_bind_Ok by done. cbv beta.
  rewrite make_padding_ok by lia. fold n.
  rewrite (wrap_small 32 (8 * n)) by lia. change (_ :: _ ++ _) with (fips_pad n). fold pad.
  rewrite res_bind_Ok. cbv beta zeta. unfold KEY_LEN. fold n.
  rewrite (wrap_small 64 (n + _)), (wrap_small 64), (wrap_small 32) by lia.
  do 2 f_equal. rewrite naive_mac_digest.
  - set (c := mkCtx _ _ _ _ _). assert (Hc : ctx_bytes c = n + Z.of_nat (length pad)).
    { unfold ctx_bytes. subst c. cbn [Nh Nl]. rewrite Z.mul_0_l, Z.add_0_l. by rewrite Z.div_mul. }
    rewrite final_digest; [| | done | lia].
    + rewrite Hc. subst c. cbn [h]. rewrite <- chain_app.
      * replace (n + _ + _) with (Z.of_nat (length key + length (msg ++ pad ++ ext)))
          by (rewrite !length_app; lia).
        by rewrite <- !app_assoc.
      * rewrite !length_app. rewrite <- Hal. f_equal. lia.
    + subst c. split; cbn [h Nl Nh num]; [done | split; unfold is_u; lia | | done].
      rewrite Z.mul_0_l, Z.add_0_l, (Z.mul_comm _ 8). change 512 with (8 * 64).
      by rewrite Z.mul_mod_distr_l, Hal by lia.
  - done.
  - repeat (apply Forall_app; split); try done. apply fips_pad_bytes.
  - rewrite !length_app. lia.
Qed.
End forgery.

(** C16. The attack forges the naive MAC.  From a message and its token alone,
    for any 16-byte key the server may hold and any extension, it returns the
    message, the padding of SHA-256 and the extension, with a token the
    server accepts; the message may be up to 72 bytes short of 512 MiB. *)
Theorem attack_forges (lib : Libcrypto) compress (laws : Sha256Laws lib compress) key msg ext :
  length key = 16%nat -> Forall is_byte key -> Forall is_byte msg -> Forall is_byte ext ->
  16 + Z.of_nat (length msg) < 2 ^ 29 - 72 -> Z.of_nat (length ext) < 2 ^ 60 ->
  exists ext_msg forged,
    length_extension_attack msg (naive_mac key msg) ext = Ok (ext_msg, forged) /\
    ext_msg = msg ++ fips_pad (16 + Z.of_nat (length msg)) ++ ext /\
    server_verify_naive key ext_msg forged = true.
Proof.
  intros. rewrite attack_token by done. do 2 eexists. split_and!; [done | done |].
  unfold server_verify_naive. by apply bool_decide_eq_true.
Qed.

(** C38. The padding the attack writes ends for every message size, and is the
    padding of the standard exactly when key and message are shorter than
    512 MiB: from there on the length in bits, computed in 32 bits, loses its
    high part. *)
Theorem padding_is_fips size :
  0 <= size -> 16 + size < 2 ^ 61 ->
  exists padding, make_padding size = Ok padding /\
    (padding = fips_pad (16 + size) <-> 16 + size < 2 ^ 29).
Proof.
  intros H0 Hs. rewrite make_padding_ok by lia. eexists. split; [done |]. split.
  - intros [= Heq%app_inv_head%(f_equal be_get)].
    pose proof (wrap_range 32 (8 * (16 + size)) ltac:(lia)).
    rewrite !be_get_put in Heq by (change (256 ^ Z.of_nat 8) with (2 ^ 64); lia). lia.
  - intros Hlt. by rewrite wrap_small by lia.
Qed.

(** [main], for any key: Part A passes, and the exit code is 0 just when
    the HMAC of the extended message is not the forged token. *)
Theorem hmac_main_verdict (lib : Libcrypto) compress (laws : Sha256Laws lib compress) key :
  length key = 16%nat -> Forall is_byte key ->
  let ext_msg := chars "command=reboot" ++ fips_pad 30 ++ chars "&admin=1" in
  exists code b_line,
    main key [] = Ok (code, [("Part A (length extension forgery)", "PASS — server accepted forged token");
                             ("Part B (HMAC rejects forgery)", b_line)]%string) /\
    (code = 0 <-> HMAC key ext_msg <> naive_mac key ext_msg) /\
    b_line = (if bool_decide (HMAC key ext_msg = naive_mac key ext_msg) then "FAIL"
              else "PASS — server rejected forged token")%string.
Proof.
  intros Hl Hk ext_msg. unfold main.
  assert (Hb : forallb (fun b => (0 <=? b) && (b <? 256)) (chars "command=reboot" ++ chars "&admin=1") = true)
    by reflexivity.
  apply (Forall_check _ is_byte) in Hb as [Hm He]%Forall_app; [| unfold is_byte; lia].
  rewrite (lift_bind_Ok _ _ _ _ (attack_token key _ _ Hl Hk Hm He ltac:(done) ltac:(done))).
  cbv beta zeta. change (16 + _) with 30. change (_ ++ fips_pad 30 ++ _) with ext_msg.
  unfold server_verify_naive, server_verify_hmac, hmac_sha256_mac.
  rewrite bool_decide_true by done. rewrite !tell_bind.
  destruct (bool_decide_reflect (HMAC key ext_msg = naive_mac key ext_msg)); do 2 eexists;
    split_and!; done.
Qed.

(** *** Witnesses *)

#[local] Existing Instance ref_libcrypto.

(** Test case 2 of RFC 4231. *)
Example hmac_jefe : be_words (HMAC (chars "Jefe") (chars "what do ya want for nothing?")) =
  [0x5bdcc146; 0xbf60754e; 0x6a042426; 0x089575c7; 0x5a003f08; 0x9d273983; 0x9dec58b9; 0x64ec3843].
Proof. vm_compute. reflexivity. Qed.

Example hmac_main_runs : main SECRET_KEY [] = Ok (0,
  [("Part A (length extension forgery)", "PASS — server accepted forged token");
   ("Part B (HMAC rejects forgery)", "PASS — server rejected forged token")]%string).
Proof. vm_compute. reflexivity. Qed.

Lemma attack_forges_witness :
  exists ext_msg forged,
    length_extension_attack (chars "hi") (naive_mac SECRET_KEY (chars "hi")) (chars "!") = Ok (ext_msg, forged) /\
    ext_msg = chars "hi" ++ fips_pad 18 ++ chars "!" /\
    server_verify_naive SECRET_KEY ext_msg forged = true.
Proof.
  apply (attack_forges ref_libcrypto compress ref_laws SECRET_KEY (chars "hi") (chars "!"));
    [reflexivity | repeat constructor; done .. | done | done].
Defined.

Lemma padding_is_fips_witness :
  exists padding, make_padding (2 ^ 29) = Ok padding /\
    (padding = fips_pad (16 + 2 ^ 29) <-> 16 + 2 ^ 29 < 2 ^ 29).
Proof. apply (padding_is_fips (2 ^ 29)); lia. Defined.

Lemma hmac_main_verdict_witness :
  let ext_msg := chars "command=reboot" ++ fips_pad 30 ++ chars "&admin=1" in
  exists code b_line,
    main SECRET_KEY [] = Ok (code, [("Part A (length extension forgery)", "PASS — server accepted forged token");
                                    ("Part B (HMAC rejects forgery)", b_line)]%string) /\
    (code = 0 <-> HMAC SECRET_KEY ext_msg <> naive_mac SECRET_KEY ext_msg) /\
    b_line = (if bool_decide (HMAC SECRET_KEY ext_msg = naive_mac SECRET_KEY ext_msg) then "FAIL"
              else "PASS — server rejected forged token")%string.
Proof.
  apply (hmac_main_verdict ref_libcrypto compress ref_laws SECRET_KEY); [reflexivity | repeat constructor; done].
Defined.
