(* ===== verification/AesGcm.v ===== *)
(** * AesGcm

    The AES-GCM functions of 03-aes_gcm_AEAD_nonce_reuse: [aes_gcm_encrypt]
    and [aes_gcm_decrypt] of aes_gcm.cpp, and main.cpp.  OpenSSL's EVP
    functions are calls to a system, answered by a function [sys]; the class
    [Gcm] states what the library documents of AES-128-GCM for a keystream
    and a tag function the theorems leave open.  A pointer with its length is
    the list of the bytes; the null pointer of length 0 is the empty list. *)

From S2P Require Import Prelude.
#[local] Open Scope Z_scope.

(** ** Calls *)

(** [EVP_{En,De}cryptInit_ex] is given a cipher, or a key and an IV;
    [EVP_{En,De}cryptUpdate] has an output buffer ([true]), or none, for
    additional data; it is told the number of input bytes as an [int]. *)
Inductive call :=
| EVP_CIPHER_CTX_new
| EVP_EncryptInit_ex (ctx : Z) (aes_128_gcm : bool) (key_iv : option (list Z * list Z))
| EVP_EncryptUpdate (ctx : Z) (to_out : bool) (input : list Z) (inl : Z)
| EVP_EncryptFinal_ex (ctx : Z)
| EVP_CTRL_GCM_GET_TAG (ctx len : Z)
| EVP_DecryptInit_ex (ctx : Z) (aes_128_gcm : bool) (key_iv : option (list Z * list Z))
| EVP_DecryptUpdate (ctx : Z) (to_out : bool) (input : list Z) (inl : Z)
| EVP_CTRL_GCM_SET_TAG (ctx len : Z) (tag : list Z)
| EVP_DecryptFinal_ex (ctx : Z)
| EVP_CIPHER_CTX_free (ctx : Z)
| Cout (line : string)
| Cerr (line : string).

(** The returned value, what is stored in [len], and the bytes stored
    through the output pointer. *)
Record answer := mkAns { ret : Z; outl : Z; out : list Z }.

Abbreviation IO := (TIO call answer).

(** ** aes_gcm.cpp *)

Section program.
Context {W : Type} (sys : call -> W -> answer * W).

(** The result is the value returned and what the output buffers then
    hold. *)
Definition aes_gcm_encrypt (key iv aad plaintext ciphertext tag_out : list Z)
  : IO W (Z * list Z * list Z) :=
  a ← syscall sys EVP_CIPHER_CTX_new;
  let ctx := ret a in
  if ctx =? 0 then mret (-1, ciphertext, tag_out) else
  a ← syscall sys (EVP_EncryptInit_ex ctx true None);
  if negb (1 =? ret a) then mret (-1, ciphertext, tag_out) else
  a ← syscall sys (EVP_EncryptInit_ex ctx false (Some (key, iv)));
  if negb (1 =? ret a) then mret (-1, ciphertext, tag_out) else
  a ← syscall sys (EVP_EncryptUpdate ctx false aad (i32 (Z.of_nat (length aad))));
  if negb (1 =? ret a) then mret (-1, ciphertext, tag_out) else
  a ← syscall sys (EVP_EncryptUpdate ctx true plaintext (i32 (Z.of_nat (length plaintext))));
  ciphertext ← io_lift (wr_all ciphertext 0 (out a));
  if negb (1 =? ret a) then mret (-1, ciphertext, tag_out) else
  let len := outl a in
  let ciphertext_len := len in
  a ← syscall sys (EVP_EncryptFinal_ex ctx);
  ciphertext ← io_lift (wr_all ciphertext len (out a));
  if negb (1 =? ret a) then mret (-1, ciphertext, tag_out) else
  let ciphertext_len := i32 (ciphertext_len + outl a) in
  a ← syscall sys (EVP_CTRL_GCM_GET_TAG ctx 16);
  tag_out ← io_lift (wr_all tag_out 0 (out a));
  if negb (1 =? ret a) then mret (-1, ciphertext, tag_out) else
  syscall sys (EVP_CIPHER_CTX_free ctx);;
  mret (ciphertext_len, ciphertext, tag_out).

Definition aes_gcm_decrypt (key iv aad ciphertext tag_in plaintext_out : list Z)
  : IO W (Z * list Z) :=
  a ← syscall sys EVP_CIPHER_CTX_new;
  let ctx := ret a in
  if ctx =? 0 then mret (-1, plaintext_out) else
  a ← syscall sys (EVP_DecryptInit_ex ctx true None);
  if ret a =? 0 then mret (-1, plaintext_out) else
  a ← syscall sys (EVP_DecryptInit_ex ctx false (Some (key, iv)));
  if ret a =? 0 then mret (-1, plaintext_out) else
  a ← syscall sys (EVP_DecryptUpdate ctx false aad (i32 (Z.of_nat (length aad))));
  if ret a =? 0 then mret (-1, plaintext_out) else
  a ← syscall sys (EVP_DecryptUpdate ctx true ciphertext (i32 (Z.of_nat (length ciphertext))));
  plaintext_out ← io_lift (wr_all plaintext_out 0 (out a));
  if ret a =? 0 then mret (-1, plaintext_out) else
  let len := outl a in
  let plaintext_len := len in
  a ← syscall sys (EVP_CTRL_GCM_SET_TAG ctx 16 tag_in);
  if ret a =? 0 then mret (-1, plaintext_out) else
  a ← syscall sys (EVP_DecryptFinal_ex ctx);
  plaintext_out ← io_lift (wr_all plaintext_out len (out a));
  syscall sys (EVP_CIPHER_CTX_free ctx);;
  if 0 <? ret a then mret (i32 (plaintext_len + outl a), plaintext_out)
  else
    plaintext_out ← io_lift (wr_all plaintext_out 0 (replicate (length ciphertext) 0));
    mret (-1, plaintext_out).

(** ** main.cpp *)

Inductive forced_issue :=
| NORMAL_TRIP | NORMAL_TRIP_WITH_AAD | CHANGE_CIPHER | CHANGE_TAG | CHANGE_AAD.

Definition trip_aad : list Z := [0xAA; 0xBB; 0xCC; 0xDD; 0; 0; 0; 0].
Definition wrong_aad : list Z := [0x1].

(** The first [n] bytes at a pointer into [buf]. *)
Definition span (buf : list Z) (n : Z) : res (list Z) :=
  if n <=? Z.of_nat (length buf) then Ok (take (Z.to_nat n) buf) else Fault (OutOfBounds n).

(** [stack] is what the uninitialised [tag] holds. *)
Definition round_trip (stack key iv pt : list Z) (issue : forced_issue) : IO W bool :=
  let ct := replicate (length pt) 0 in
  '(ct_len, ct, tag) ←
    match issue with
    | NORMAL_TRIP_WITH_AAD => aes_gcm_encrypt key iv trip_aad pt ct stack
    | _ => aes_gcm_encrypt key iv [] pt ct stack
    end;
  if ct_len <? 0 then syscall sys (Cerr "encrypt failed");; mret false else
  let out := replicate (length pt) 0 in
  ct ← match issue with CHANGE_CIPHER => io_lift (wr ct 0 0x0) | _ => mret ct end;
  tag ← match issue with CHANGE_TAG => io_lift (wr tag 0 0x1) | _ => mret tag end;
  ct_in ← io_lift (span ct ct_len);
  '(pt_len_out, out) ←
    match issue with
    | NORMAL_TRIP_WITH_AAD => aes_gcm_decrypt key iv trip_aad ct_in tag out
    | CHANGE_AAD => aes_gcm_decrypt key iv wrong_aad ct_in tag out
    | _ => aes_gcm_decrypt key iv [] ct_in tag out
    end;
  if pt_len_out <? 0 then syscall sys (Cerr "decrypt/auth failed");; mret false else
  if negb (u64 pt_len_out =? Z.of_nat (length pt)) then
    syscall sys (Cerr "length mismatch");; mret false
  else mret (bool_decide (pt = out)).

Definition main_key : list Z :=
  [0x60; 0x3d; 0xeb; 0x10; 0x15; 0xca; 0x71; 0xbe; 0x2b; 0x73; 0xae; 0xf0; 0x85; 0x7d; 0x77; 0x81;
   0x1f; 0x35; 0x2c; 0x07; 0x3b; 0x61; 0x08; 0xd7; 0x2d; 0x98; 0x10; 0xa3; 0x09; 0x14; 0xdf; 0xf4].
Definition main_iv : list Z :=
  [0xca; 0xfe; 0xba; 0xbe; 0xfa; 0xce; 0xdb; 0xad; 0xde; 0xca; 0xf8; 0x88].
Definition msg1 : list Z :=
  [0x3a; 0xd7; 0x7b; 0xb4; 0x0d; 0x7a; 0x36; 0x60; 0xa8; 0x9e; 0xca; 0xf3; 0x24; 0x66; 0xef; 0x97].
Definition msg2 : list Z :=
  [0x6b; 0xc1; 0xbe; 0xe2; 0x2e; 0x40; 0x9f; 0x96; 0xe9; 0x3d; 0x7e; 0x11; 0x73; 0x93; 0x17; 0x2a;
   0xae; 0x2d; 0x8a; 0x57; 0x1e; 0x03; 0xac; 0x9c; 0x9e; 0xb7; 0x6f; 0xac; 0x45; 0xaf; 0x8e; 0x51;
   0x30; 0xc8; 0x1c; 0x46; 0xa3; 0x5c; 0xe4; 0x11; 0xe5; 0xfb; 0xc1; 0x19; 0x1a; 0x0a; 0x52].
Definition msg4 : list Z := msg1.
Definition msg5 : list Z :=
  [0xa8; 0x9e; 0xca; 0xf3; 0x24; 0x66; 0xef; 0x97; 0x3a; 0xd7; 0x7b; 0xb4; 0x0d; 0x7a; 0x36; 0x60].

Definition verdict_line (label : string) (ok : bool) : string :=
  label +:+ (if ok then "OK" else "FAIL").

Definition print_trip (label : string) (stack pt : list Z) (issue : forced_issue) : IO W () :=
  ok ← round_trip stack main_key main_iv pt issue;
  syscall sys (Cout (verdict_line label ok));;
  mret ().

(** [for (int i = 0; i < 16; ++i) recovered[i] = ct1[i] ^ ct2[i] ^ msg4[i]] *)
Fixpoint xor_loop (n : nat) (i : Z) (recovered ct1 ct2 m : list Z) : res (list Z) :=
  match n with
  | O => Ok recovered
  | S n' =>
      a ← rd ct1 i; b ← rd ct2 i; c ← rd m i;
      recovered ← wr recovered i (Z.lxor (Z.lxor a b) c);
      xor_loop n' (i + 1) recovered ct1 ct2 m
  end.

Definition main (stack : list Z) : IO W Z :=
  print_trip "msg0 round-trip: " stack [] NORMAL_TRIP;;
  print_trip "msg1 round-trip: " stack msg1 NORMAL_TRIP;;
  print_trip "msg2 round-trip: " stack msg2 NORMAL_TRIP;;
  print_trip "msg2 round-trip (WRONG CYPHERTEXT - FAIL): " stack msg2 CHANGE_CIPHER;;
  print_trip "msg2 round-trip (WRONG TAG - FAIL): " stack msg2 CHANGE_TAG;;
  print_trip "msg2 round-trip (WRONG AAD - FAIL): " stack msg2 CHANGE_AAD;;
  print_trip "msg2 round-trip (WITH AAD - OK): " stack msg2 NORMAL_TRIP_WITH_AAD;;
  '(_, ct1, tag) ← aes_gcm_encrypt main_key main_iv [] msg4 (replicate 16 0) stack;
  '(_, ct2, tag) ← aes_gcm_encrypt main_key main_iv [] msg5 (replicate 16 0) tag;
  recovered ← io_lift (xor_loop 16 0 (replicate 16 0) ct1 ct2 msg4);
  syscall sys (Cout ("nonce reuse recovered: " +:+ (if bool_decide (recovered = msg5) then "YES" else "NO")));;
  mret 0.
End program.

(** ** What OpenSSL documents of AES-128-GCM *)

(** A context: the direction it is set up for, its key and IV, the additional
    data and the ciphertext it has seen, and the tag to check. *)
Record gcm := mkGcm {
  encrypting : option bool;
  key_iv : option (list Z * list Z);
  aad_seen : list Z;
  ct_seen : list Z;
  tag_set : list Z
}.

Definition gcm_new : gcm := mkGcm None None [] [] [].

Section gcm.
(** The byte of the keystream at a position, and the tag of additional data
    and a ciphertext, for a key and an IV. *)
Context (keystream : list Z -> list Z -> nat -> Z).
Context (gcm_tag : list Z -> list Z -> list Z -> list Z -> list Z).

(** Counter mode: the input xored with the keystream from a position on. *)
Definition ctr (key iv : list Z) (pos : nat) (input : list Z) : list Z :=
  imap (fun i b => Z.lxor b (keystream key iv (pos + i))) input.

Definition ctx_of (c : call) : option Z :=
  match c with
  | EVP_EncryptInit_ex k _ _ | EVP_EncryptUpdate k _ _ _ | EVP_EncryptFinal_ex k
  | EVP_CTRL_GCM_GET_TAG k _ | EVP_DecryptInit_ex k _ _ | EVP_DecryptUpdate k _ _ _
  | EVP_CTRL_GCM_SET_TAG k _ _ | EVP_DecryptFinal_ex k => Some k
  | _ => None
  end.

Definition done_ (len : Z) (bytes : list Z) (g : gcm) : option (answer * gcm) :=
  Some (mkAns 1 len bytes, g).

(** The key is the first 16 bytes at its pointer, the IV the first 12. *)
Definition set_key (key iv : list Z) (g : gcm) : option (answer * gcm) :=
  if (16 <=? length key)%nat && (12 <=? length iv)%nat
  then done_ 0 [] (mkGcm (encrypting g) (Some (take 16 key, take 12 iv)) [] [] [])
  else None.

(** The calls on a context in the order the documentation gives, and what
    they do; [None] where it says nothing. *)
Definition gcm_step (c : call) (g : gcm) : option (answer * gcm) :=
  match c, encrypting g, key_iv g with
  | EVP_EncryptInit_ex _ true None, _, _ => done_ 0 [] (mkGcm (Some true) None [] [] [])
  | EVP_DecryptInit_ex _ true None, _, _ => done_ 0 [] (mkGcm (Some false) None [] [] [])
  | EVP_EncryptInit_ex _ false (Some (key, iv)), Some true, _ => set_key key iv g
  | EVP_DecryptInit_ex _ false (Some (key, iv)), Some false, _ => set_key key iv g
  | EVP_EncryptUpdate _ false input n, Some true, Some _
  | EVP_DecryptUpdate _ false input n, Some false, Some _ =>
      if n =? Z.of_nat (length input) then
        done_ n [] (mkGcm (encrypting g) (key_iv g) (aad_seen g ++ input) (ct_seen g) (tag_set g))
      else None
  | EVP_EncryptUpdate _ true input n, Some true, Some (key, iv) =>
      let ct := ctr key iv (length (ct_seen g)) input in
      if n =? Z.of_nat (length input) then
        done_ n ct (mkGcm (encrypting g) (key_iv g) (aad_seen g) (ct_seen g ++ ct) (tag_set g))
      else None
  | EVP_DecryptUpdate _ true input n, Some false, Some (key, iv) =>
      if n =? Z.of_nat (length input) then
        done_ n (ctr key iv (length (ct_seen g)) input)
          (mkGcm (encrypting g) (key_iv g) (aad_seen g) (ct_seen g ++ input) (tag_set g))
      else None
  | EVP_EncryptFinal_ex _, Some true, Some _ => done_ 0 [] g
  | EVP_CTRL_GCM_GET_TAG _ 16, Some true, Some (key, iv) =>
      done_ 0 (gcm_tag key iv (aad_seen g) (ct_seen g)) g
  | EVP_CTRL_GCM_SET_TAG _ 16 tag, Some false, Some _ =>
      if (16 <=? length tag)%nat then
        done_ 0 [] (mkGcm (encrypting g) (key_iv g) (aad_seen g) (ct_seen g) (take 16 tag))
      else None
  | EVP_DecryptFinal_ex _, Some false, Some (key, iv) =>
      Some (mkAns (if bool_decide (tag_set g = gcm_tag key iv (aad_seen g) (ct_seen g)) then 1 else 0) 0 [], g)
  | _, _, _ => None
  end.

(** A library with memory to give: it keeps the contexts allocated and not
    freed, and a call on one does what is documented. *)
Class Gcm (W : Type) (sys : call -> W -> answer * W) := {
  ctxs : W -> gmap Z gcm;
  tag_length key iv aad ct : length (gcm_tag key iv aad ct) = 16%nat;
  new_ctx w : ret (sys EVP_CIPHER_CTX_new w).1 <> 0 /\
    ctxs w !! ret (sys EVP_CIPHER_CTX_new w).1 = None /\
    ctxs (sys EVP_CIPHER_CTX_new w).2 = <[ret (sys EVP_CIPHER_CTX_new w).1 := gcm_new]> (ctxs w);
  step_ctx c k g a g' w : ctx_of c = Some k -> ctxs w !! k = Some g -> gcm_step c g = Some (a, g') ->
    (sys c w).1 = a /\ ctxs (sys c w).2 = <[k := g']> (ctxs w);
  free_ctx k w : ctxs (sys (EVP_CIPHER_CTX_free k) w).2 = delete k (ctxs w);
  cout_ctx line w : ctxs (sys (Cout line) w).2 = ctxs w;
  cerr_ctx line w : ctxs (sys (Cerr line) w).2 = ctxs w
}.

Lemma ctr_length key iv pos input : length (ctr key iv pos input) = length input.
Proof. apply length_imap. Qed.

Lemma ctr_lookup key iv pos input i :
  ctr key iv pos input !! i = (fun b => Z.lxor b (keystream key iv (pos + i))) <$> input !! i.
Proof. apply list_lookup_imap. Qed.

(** The keystream undoes itself. *)
Lemma ctr_involutive key iv pos input : ctr key iv pos (ctr key iv pos input) = input.
Proof.
  apply list_eq. intros i. rewrite !ctr_lookup.
  destruct (input !! i) as [b |]; [cbn | done]. by rewrite Z.lxor_assoc, Z.lxor_nilpotent, Z.lxor_0_r.
Qed.

Lemma ctr_inj key iv pos a b : ctr key iv pos a = ctr key iv pos b -> a = b.
Proof. intros H. by rewrite <- (ctr_involutive key iv pos a), H, ctr_involutive. Qed.

(** ** Runs against such a library *)

(** What is printed on the standard output. *)
Definition printed (t : list (call * answer)) : list string :=
  omap (fun '(c, _) => match c with Cout line => Some line | _ => None end) t.

Section runs.
Context {W : Type} (sys : call -> W -> answer * W) {K : Gcm W sys}.

(** A run gives [x], with these contexts allocated and these lines printed. *)
Definition gives {X} (o : res X * (W * list (call * answer))) (x : X) (cs : gmap Z gcm)
    (lines : list string) : Prop :=
  exists s', o = (Ok x, s') /\ ctxs s'.1 = cs /\ printed s'.2 = lines.

(** From any state, [m] gives [x], prints [lines] and leaves the allocated
    contexts as they were. *)
Definition runs {X} (m : IO W X) (x : X) (lines : list string) : Prop :=
  forall s, gives (m s) x (ctxs s.1) (printed s.2 ++ lines).

Lemma runs_ret {X} (x : X) : runs (mret x) x [].
Proof. intros s. exists s. by rewrite app_nil_r. Qed.

Lemma runs_bind {X Y} (m : IO W X) (f : X -> IO W Y) x y l1 l2 :
  runs m x l1 -> runs (f x) y l2 -> runs (m ≫= f) y (l1 ++ l2).
Proof.
  intros Hm Hf s. destruct (Hm s) as (s1 & E1 & C1 & P1).
  destruct (Hf s1) as (s2 & E2 & C2 & P2). exists s2.
  rewrite (io_bind_Ok _ _ _ _ _ E1), C2, C1, P2, P1. by rewrite <- app_assoc.
Qed.

Lemma runs_lift {X Y} (r : res X) (f : X -> IO W Y) x y l :
  r = Ok x -> runs (f x) y l -> runs (io_lift r ≫= f) y l.
Proof. by intros ->. Qed.

(** During a run with one context [k] of state [g] besides [cs]. *)
Definition holding (cs : gmap Z gcm) (k : Z) (g : gcm) (lines : list string)
    (s : W * list (call * answer)) : Prop :=
  cs !! k = None /\ ctxs s.1 = <[k := g]> cs /\ printed s.2 = lines.

(** One documented call on that context. *)
Lemma holding_call {Y} cs k g lines s c a g' (f : answer -> IO W Y) y cs0 l :
  holding cs k g lines s -> ctx_of c = Some k -> gcm_step c g = Some (a, g') ->
  (forall s', holding cs k g' lines s' -> gives (f a s') y cs0 l) ->
  gives ((syscall sys c ≫= f) s) y cs0 l.
Proof.
  destruct s as [w t]. intros (Hk & Hc & Hp) Hof Hstep HQ. cbn in Hc, Hp.
  destruct (step_ctx c k g a g' w Hof) as [Ha Hw]; [by rewrite Hc, lookup_insert_eq | done |].
  unfold mbind, IO_bind, syscall. destruct (sys c w) as [a1 w1]. cbn in Ha, Hw. subst a1.
  apply HQ. split; [done |]. cbn. rewrite Hw, Hc, insert_insert_eq. split; [done |].
  unfold printed in *. rewrite omap_app, Hp. destruct c; try discriminate Hof; cbn; by rewrite app_nil_r.
Qed.
Lemma holding_new {Y} (f : answer -> IO W Y) s y cs0 l :
  (forall a s', ret a <> 0 -> holding (ctxs s.1) (ret a) gcm_new (printed s.2) s' ->
     gives (f a s') y cs0 l) ->
  gives ((syscall sys EVP_CIPHER_CTX_new ≫= f) s) y cs0 l.
Proof.
  destruct s as [w t]. intros HQ. destruct (new_ctx w) as (H0 & Hnone & Hw).
  unfold mbind, IO_bind, syscall. destruct (sys EVP_CIPHER_CTX_new w) as [a w']. cbn in H0, Hnone, Hw.
  apply HQ; [done |]. split; [done |]. split; [done |].
  cbn. unfold printed. rewrite omap_app. cbn. by rewrite app_nil_r.
Qed.

Lemma holding_free {Y} cs k g lines (f : answer -> IO W Y) s y cs0 l :
  holding cs k g lines s ->
  (forall a s', ctxs s'.1 = cs -> printed s'.2 = lines -> gives (f a s') y cs0 l) ->
  gives ((syscall sys (EVP_CIPHER_CTX_free k) ≫= f) s) y cs0 l.
Proof.
  destruct s as [w t]. intros (Hk & Hc & Hp) HQ. cbn in Hc, Hp. pose proof (free_ctx k w) as Hf.
  unfold mbind, IO_bind, syscall. destruct (sys (EVP_CIPHER_CTX_free k) w) as [a w']. cbn in Hf.
  apply HQ; cbn.
  - rewrite Hf, Hc. by apply delete_insert_id.
  - unfold printed in *. rewrite omap_app, Hp. cbn. by rewrite app_nil_r.
Qed.

Lemma runs_cout {Y} line (f : answer -> IO W Y) y l :
  (forall a, runs (f a) y l) -> runs (syscall sys (Cout line) ≫= f) y (line :: l).
Proof.
  intros Hf [w t]. pose proof (cout_ctx line w) as Hc. unfold mbind, IO_bind, syscall.
  destruct (sys (Cout line) w) as [a w']. cbn in Hc.
  destruct (Hf a (w', t ++ [(Cout line, a)])) as (s2 & E & C2 & P2). exists s2.
  split; [done |]. cbn in C2, P2. rewrite C2, Hc, P2. split; [done |].
  unfold printed. rewrite omap_app. cbn. by rewrite <- app_assoc.
Qed.

Lemma runs_cerr {Y} line (f : answer -> IO W Y) y l :
  (forall a, runs (f a) y l) -> runs (syscall sys (Cerr line) ≫= f) y l.
Proof.
  intros Hf [w t]. pose proof (cerr_ctx line w) as Hc. unfold mbind, IO_bind, syscall.
  destruct (sys (Cerr line) w) as [a w']. cbn in Hc.
  destruct (Hf a (w', t ++ [(Cerr line, a)])) as (s2 & E & C2 & P2). exists s2.
  split; [done |]. cbn in C2, P2. rewrite C2, Hc, P2. split; [done |].
  unfold printed. rewrite omap_app. cbn. by rewrite app_nil_r.
Qed.

(** The caller's obligations: a key, an IV, and lengths that are [int]s. *)
Definition valid_args (key iv aad text : list Z) : Prop :=
  (16 <= length key)%nat /\ (12 <= length iv)%nat /\
  Z.of_nat (length aad) < 2 ^ 31 /\ Z.of_nat (length text) < 2 ^ 31.

(** AES-128 takes 16 bytes of the key and GCM 12 of the IV. *)
Definition stream (key iv text : list Z) : list Z := ctr (take 16 key) (take 12 iv) 0 text.
Definition tag_of (key iv aad ct : list Z) : list Z := gcm_tag (take 16 key) (take 12 iv) aad ct.

Lemma stream_length key iv text : length (stream key iv text) = length text.
Proof. apply ctr_length. Qed.

Lemma stream_involutive key iv text : stream key iv (stream key iv text) = text.
Proof. apply ctr_involutive. Qed.

Lemma tag_of_length key iv aad ct : length (tag_of key iv aad ct) = 16%nat.
Proof. apply tag_length. Qed.

Lemma set_key_valid key iv aad text g : valid_args key iv aad text ->
  set_key key iv g = done_ 0 [] (mkGcm (encrypting g) (Some (take 16 key, take 12 iv)) [] [] []).
Proof.
  intros (Hk & Hi & _). unfold set_key.
  by rewrite (proj2 (Nat.leb_le _ _) Hk), (proj2 (Nat.leb_le _ _) Hi).
Qed.

Ltac evp_call Hargs H :=
  eapply holding_call;
    [exact H | reflexivity | cbn; rewrite ?Z.eqb_refl, ?(set_key_valid _ _ _ _ _ Hargs); reflexivity |];
  clear H; intros ? H; cbn [ret outl out];
  repeat first [ change (1 =? 1) with true | change (1 =? 0) with false ];
  cbn [negb]; cbv beta iota zeta.

(** Bytes stored at the head of a buffer. *)
Lemma wr_head (buf vs : list Z) : (length vs <= length buf)%nat ->
  wr_all buf 0 vs = Ok (vs ++ drop (length vs) buf).
Proof. intros. by apply (wr_all_out []). Qed.

Lemma encrypt_runs key iv aad text buf tag_out : valid_args key iv aad text ->
  (length text <= length buf)%nat -> (16 <= length tag_out)%nat ->
  let ct := stream key iv text in
  runs (aes_gcm_encrypt sys key iv aad text buf tag_out)
    (Z.of_nat (length text), ct ++ drop (length text) buf, tag_of key iv aad ct ++ drop 16 tag_out) [].
Proof.
  intros Hargs Hbuf Htag ct s. unfold aes_gcm_encrypt.
  pose proof Hargs as (_ & _ & Haad & Htext).
  rewrite (swrap_small 32 (Z.of_nat (length aad))), (swrap_small 32 (Z.of_nat (length text))) by lia.
  apply holding_new. intros a s1 Ha H. cbv zeta.
  destruct (Z.eqb_spec (ret a) 0); [done |].
  do 3 evp_call Hargs H.
  evp_call Hargs H. rewrite wr_head, io_lift_bind by (rewrite ctr_length; lia).
  rewrite ctr_length. cbn [length]. fold (stream key iv text). fold ct.
  evp_call Hargs H. cbn [wr_all]. rewrite io_lift_bind.
  evp_call Hargs H. rewrite wr_head, io_lift_bind by (rewrite tag_length; lia).
  rewrite tag_length. cbn [negb]. fold (tag_of key iv aad ct).
  eapply holding_free; [exact H |]. intros _ s6 Hc Hp.
  rewrite Z.add_0_r, swrap_small by lia. exists s6. by rewrite app_nil_r.
Qed.

(** What decryption gives for any ciphertext and tag. *)
Lemma decrypt_runs key iv aad ct tag buf : valid_args key iv aad ct ->
  (length ct <= length buf)%nat -> length tag = 16%nat ->
  runs (aes_gcm_decrypt sys key iv aad ct tag buf)
    (if bool_decide (tag = tag_of key iv aad ct)
     then (Z.of_nat (length ct), stream key iv ct ++ drop (length ct) buf)
     else (-1, replicate (length ct) 0 ++ drop (length ct) buf)) [].
Proof.
  intros Hargs Hbuf Htag s. unfold aes_gcm_decrypt.
  pose proof Hargs as (_ & _ & Haad & Htext).
  rewrite (swrap_small 32 (Z.of_nat (length aad))), (swrap_small 32 (Z.of_nat (length ct))) by lia.
  apply holding_new. intros a s1 Ha H. cbv zeta.
  destruct (Z.eqb_spec (ret a) 0); [done |].
  do 3 evp_call Hargs H.
  evp_call Hargs H. rewrite wr_head, io_lift_bind by (rewrite ctr_length; lia).
  rewrite ctr_length. cbn [length]. fold (stream key iv ct).
  eapply holding_call; [exact H | reflexivity | cbn; by rewrite Htag |]. clear H. intros ? H.
  rewrite (take_ge tag) in H by lia. cbn [ret outl out].
  change (1 =? 0) with false. cbv iota zeta.
  evp_call Hargs H. cbn [wr_all]. rewrite io_lift_bind. fold (tag_of key iv aad ct).
  eapply holding_free; [exact H |]. intros _ s6 Hc Hp. rewrite app_nil_r.
  destruct (bool_decide_reflect (tag = tag_of key iv aad ct)).
  - change (0 <? 1) with true. cbv iota.
    rewrite Z.add_0_r, swrap_small by lia. by exists s6.
  - change (0 <? 0) with false. cbv iota. pose proof (stream_length key iv ct) as Hs.
    rewrite wr_head, io_lift_bind by (rewrite length_replicate, length_app, Hs, length_drop; lia).
    exists s6. split; [| done]. rewrite length_replicate. by rewrite <- Hs, drop_app_length.
Qed.

(** ** The round trips of main.cpp *)

Definition enc_aad (issue : forced_issue) : list Z :=
  match issue with NORMAL_TRIP_WITH_AAD => trip_aad | _ => [] end.
Definition dec_aad (issue : forced_issue) : list Z :=
  match issue with NORMAL_TRIP_WITH_AAD => trip_aad | CHANGE_AAD => wrong_aad | _ => [] end.
Definition changed_ct (issue : forced_issue) (ct : list Z) : list Z :=
  match issue with CHANGE_CIPHER => <[0%nat := 0]> ct | _ => ct end.
Definition changed_tag (issue : forced_issue) (tag : list Z) : list Z :=
  match issue with CHANGE_TAG => <[0%nat := 1]> tag | _ => tag end.

(** The verdict: the tag presented is that of what is presented, and the
    ciphertext is the one made. *)
Definition verdict (key iv pt : list Z) (issue : forced_issue) : bool :=
  let ct := stream key iv pt in
  let tag := tag_of key iv (enc_aad issue) ct in
  bool_decide (changed_tag issue tag = tag_of key iv (dec_aad issue) (changed_ct issue ct)) &&
  bool_decide (changed_ct issue ct = ct).

Lemma changed_ct_length issue (ct : list Z) : length (changed_ct issue ct) = length ct.
Proof. destruct issue; try done. apply length_insert. Qed.

Lemma wr_0 (l : list Z) v : l <> [] -> wr l 0 v = Ok (<[0%nat := v]> l).
Proof. destruct l; [done |]. intros _. unfold wr. cbn [length]. by if_true. Qed.

Lemma change_ct_lift issue (pt ct : list Z) : pt <> [] \/ issue <> CHANGE_CIPHER -> length ct = length pt ->
  match issue with CHANGE_CIPHER => io_lift (wr ct 0 0) | _ => mret ct end =
  @io_lift call answer W _ (Ok (changed_ct issue ct)).
Proof.
  intros Hpt Hl. destruct issue; try done. cbn [changed_ct]. rewrite wr_0; [done |].
  destruct Hpt as [Hpt |]; [| done]. intros ->. by destruct pt.
Qed.

Lemma change_tag_lift issue (tag : list Z) : length tag = 16%nat ->
  match issue with CHANGE_TAG => io_lift (wr tag 0 1) | _ => mret tag end =
  @io_lift call answer W _ (Ok (changed_tag issue tag)).
Proof. intros Hl. destruct issue; try done. cbn [changed_tag]. rewrite wr_0; [done |]. by intros ->. Qed.

Lemma round_trip_runs stack key iv pt issue :
  (16 <= length key)%nat -> (12 <= length iv)%nat -> Z.of_nat (length pt) < 2 ^ 31 ->
  length stack = 16%nat -> pt <> [] \/ issue <> CHANGE_CIPHER ->
  runs (round_trip sys stack key iv pt issue) (verdict key iv pt issue) [].
Proof.
  intros Hkey Hiv Hlen Hstack Hpt. unfold round_trip, verdict.
  set (ct := stream key iv pt). set (tag := tag_of key iv (enc_aad issue) ct).
  assert (Hct : length ct = length pt) by apply stream_length.
  assert (Htag : length tag = 16%nat) by apply tag_of_length.
  assert (Hcl : length (changed_ct issue ct) = length pt) by (by rewrite changed_ct_length).
  apply (runs_bind _ _ (Z.of_nat (length pt), ct, tag) _ [] []).
  { pose proof (encrypt_runs key iv (enc_aad issue) pt (replicate (length pt) 0) stack) as He.
    cbv zeta in He.
    rewrite (drop_ge (replicate _ _)), (drop_ge stack), !app_nil_r in He by (rewrite ?length_replicate; lia).
    replace (match issue with NORMAL_TRIP_WITH_AAD => _ | _ => _ end) with
      (aes_gcm_encrypt sys key iv (enc_aad issue) pt (replicate (length pt) 0) stack) by (by destruct issue).
    apply He; [| rewrite length_replicate; lia | lia]. split_and!; try done. by destruct issue. }
  cbv beta iota. if_false. rewrite (change_ct_lift issue pt) by done.
  eapply runs_lift; [done |]. rewrite change_tag_lift by done. eapply runs_lift; [done |].
  eapply runs_lift; [unfold span; by if_true |]. rewrite take_ge by lia.
  pose proof (decrypt_runs key iv (dec_aad issue) (changed_ct issue ct) (changed_tag issue tag)
    (replicate (length pt) 0)) as Hd.
  rewrite (drop_ge (replicate _ _)), !app_nil_r, Hcl in Hd by (rewrite ?length_replicate; lia).
  eapply (runs_bind _ _ _ _ [] []).
  { replace (match issue with NORMAL_TRIP_WITH_AAD => _ | CHANGE_AAD => _ | _ => _ end) with
      (aes_gcm_decrypt sys key iv (dec_aad issue) (changed_ct issue ct) (changed_tag issue tag)
         (replicate (length pt) 0)) by (by destruct issue).
    apply Hd; [| rewrite length_replicate; lia | by destruct issue; cbn; rewrite ?length_insert].
    split_and!; try done; [by destruct issue | by rewrite Hcl]. }
  case_bool_decide; cbv beta iota.
  - if_false. rewrite wrap_small, Z.eqb_refl by lia. cbn [negb andb].
    rewrite (bool_decide_ext (pt = _) (changed_ct issue ct = ct)); [apply runs_ret |].
    subst ct. split; [| intros ->; symmetry; apply ctr_involutive].
    intros Heq. rewrite Heq at 2. symmetry. apply ctr_involutive.
  - change (-1 <? 0) with true. cbv iota. apply runs_cerr. intros _. apply runs_ret.
Qed.

(** ** Nonce reuse *)

Lemma xor_loop_zip a : forall n d old p1 p2 p3 b c i,
  n = length a -> length b = n -> length c = n -> length old = n ->
  length p1 = length d -> length p2 = length d -> length p3 = length d -> i = Z.of_nat (length d) ->
  xor_loop n i (d ++ old) (p1 ++ a) (p2 ++ b) (p3 ++ c) =
  Ok (d ++ zip_with Z.lxor (zip_with Z.lxor a b) c).
Proof.
  induction a as [| x a IH]; intros n d old p1 p2 p3 b c i -> Hb Hc Ho H1 H2 H3 ->.
  - by destruct b, c, old.
  - destruct b as [| y b], c as [| z c], old as [| o old]; try discriminate.
    cbn [length xor_loop] in *. injection Hb as Hb. injection Hc as Hc. injection Ho as Ho.
    rewrite !rd_mid, !res_bind_Ok, wr_mid, res_bind_Ok by (done || lia).
    rewrite (cons_middle _ d), (cons_middle x), (cons_middle y), (cons_middle z), !app_assoc.
    rewrite IH; try done; rewrite ?length_app; cbn [length]; try lia.
    by rewrite <- app_assoc.
Qed.

Lemma lxor_reuse a b k : Z.lxor (Z.lxor (Z.lxor a k) (Z.lxor b k)) a = b.
Proof.
  apply Z.bits_inj'. intros i _. rewrite !Z.lxor_spec.
  by destruct (Z.testbit a i), (Z.testbit b i), (Z.testbit k i).
Qed.

(** Two ciphertexts under one key and IV give one plaintext from the other. *)
Lemma stream_reuse key iv m1 m2 : length m1 = length m2 ->
  zip_with Z.lxor (zip_with Z.lxor (stream key iv m1) (stream key iv m2)) m1 = m2.
Proof.
  intros Hlen. apply list_eq. intros i. rewrite !lookup_zip_with. unfold stream. rewrite !ctr_lookup.
  destruct (m1 !! i) as [a |] eqn:E1, (m2 !! i) as [b |] eqn:E2; cbn.
  - f_equal. apply lxor_reuse.
  - apply lookup_lt_Some in E1. apply lookup_ge_None in E2. lia.
  - apply lookup_ge_None in E1. apply lookup_lt_Some in E2. lia.
  - done.
Qed.

Lemma print_trip_bind {Y} label stack pt issue b (f : () -> IO W Y) y l :
  length stack = 16%nat -> Z.of_nat (length pt) < 2 ^ 31 -> pt <> [] \/ issue <> CHANGE_CIPHER ->
  verdict main_key main_iv pt issue = b -> runs (f ()) y l ->
  runs (print_trip sys label stack pt issue ≫= f) y (verdict_line label b :: l).
Proof.
  intros Hs Hlen Hpt <- Hf. apply (runs_bind _ _ () _ [_] l); [| done]. unfold print_trip.
  eapply (runs_bind _ _ _ _ [] [_]); [apply round_trip_runs; try done; cbn; lia |].
  apply runs_cout. intros _. apply runs_ret.
Qed.

(** What the verdict of each kind of round trip comes down to. *)
Lemma verdict_same key iv pt issue : issue = NORMAL_TRIP \/ issue = NORMAL_TRIP_WITH_AAD ->
  verdict key iv pt issue = true.
Proof. intros [-> | ->]; unfold verdict; cbn; by rewrite !bool_decide_true. Qed.

Lemma verdict_cipher key iv pt x pt' : pt = x :: pt' ->
  verdict key iv pt CHANGE_CIPHER =
  bool_decide (Z.lxor x (keystream (take 16 key) (take 12 iv) 0) = 0).
Proof.
  intros ->. unfold verdict. cbn [changed_ct changed_tag enc_aad dec_aad].
  change (stream key iv (x :: pt')) with
    (Z.lxor x (keystream (take 16 key) (take 12 iv) 0) :: imap (fun i b => Z.lxor b (keystream (take 16 key) (take 12 iv) (0 + S i)%nat)) pt').
  generalize (imap (fun i b => Z.lxor b (keystream (take 16 key) (take 12 iv) (0 + S i)%nat)) pt').
  generalize (Z.lxor x (keystream (take 16 key) (take 12 iv) 0)). intros y l. cbn [insert list_insert].
  destruct (bool_decide_reflect (y = 0)) as [-> | Hne]; [by rewrite !bool_decide_true |].
  rewrite (bool_decide_false (0 :: l = y :: l)) by congruence. apply andb_false_r.
Qed.

Lemma verdict_tag key iv pt : 
  verdict key iv pt CHANGE_TAG =
  bool_decide (head (tag_of key iv [] (stream key iv pt)) = Some 1).
Proof.
  unfold verdict. cbn [changed_ct changed_tag enc_aad dec_aad].
  rewrite (bool_decide_true (_ = stream key iv pt)), andb_true_r by done.
  apply bool_decide_ext. pose proof (tag_of_length key iv [] (stream key iv pt)) as Hl.
  destruct (tag_of key iv [] (stream key iv pt)) as [| y l]; [done |]. cbn.
  split; [by intros [= <-] | by intros [= ->]].
Qed.

Lemma verdict_aad key iv pt :
  verdict key iv pt CHANGE_AAD =
  bool_decide (tag_of key iv [] (stream key iv pt) = tag_of key iv wrong_aad (stream key iv pt)).
Proof.
  unfold verdict. cbn [changed_ct changed_tag enc_aad dec_aad].
  by rewrite (bool_decide_true (stream key iv pt = _)), andb_true_r by done.
Qed.

(** ** Properties *)

(** C14. Round trip: for any key, IV, additional data and text (lengths that
    fit an [int]), what [aes_gcm_encrypt] makes [aes_gcm_decrypt] accepts and
    turns back into the text; both return its length, and no context is left
    allocated. *)
Theorem encrypt_decrypt_roundtrip stack key iv aad pt :
  valid_args key iv aad pt -> length stack = 16%nat ->
  runs ('(n, ct, tag) ← aes_gcm_encrypt sys key iv aad pt (replicate (length pt) 0) stack;
        '(r, out) ← aes_gcm_decrypt sys key iv aad ct tag (replicate (length pt) 0);
        mret (n, r, out))
    (Z.of_nat (length pt), Z.of_nat (length pt), pt) [].
Proof.
  intros Hargs Hs. set (ct := stream key iv pt).
  assert (Hct : length ct = length pt) by apply stream_length.
  pose proof (encrypt_runs key iv aad pt (replicate (length pt) 0) stack Hargs) as He. cbv zeta in He.
  pose proof (decrypt_runs key iv aad ct (tag_of key iv aad ct) (replicate (length pt) 0)) as Hd.
  fold ct in He. rewrite Hct, bool_decide_true in Hd by done.
  rewrite drop_ge, app_nil_r in Hd by (rewrite length_replicate; lia).
  rewrite !drop_ge, !app_nil_r in He by (rewrite ?length_replicate; lia).
  eapply (runs_bind _ _ _ _ [] []); [apply He; rewrite ?length_replicate; lia |]. cbv beta iota.
  eapply (runs_bind _ _ _ _ [] []); [apply Hd; [| rewrite length_replicate; lia | apply tag_of_length] |].
  - unfold valid_args in *. by rewrite Hct.
  - cbv beta iota. subst ct. rewrite stream_involutive. apply runs_ret.
Qed.

(** C15. Authentication, for any bytes presented: [aes_gcm_decrypt] returns the
    length and the decrypted text when the tag is that of the additional data
    and the ciphertext; otherwise it returns -1 and the whole output is
    zeroed.  Either way the context is freed. *)
Theorem decrypt_authenticates key iv aad ct tag buf :
  valid_args key iv aad ct -> length ct = length buf -> length tag = 16%nat ->
  (tag = tag_of key iv aad ct ->
   runs (aes_gcm_decrypt sys key iv aad ct tag buf) (Z.of_nat (length ct), stream key iv ct) []) /\
  (tag <> tag_of key iv aad ct ->
   runs (aes_gcm_decrypt sys key iv aad ct tag buf) (-1, replicate (length ct) 0) []).
Proof.
  intros Hargs Hbuf Htag. pose proof (decrypt_runs key iv aad ct tag buf Hargs ltac:(lia) Htag) as H.
  rewrite (drop_ge buf), !app_nil_r in H by lia.
  split; intros Ht; [rewrite bool_decide_true in H by done | rewrite bool_decide_false in H by done]; done.
Qed.

(** C36. [main] of main.cpp prints, for any keystream and tag function: the
    plain round trips and the one with additional data succeed; the one with
    the changed ciphertext fails unless its first byte was already 0, the one
    with the changed tag unless its first byte was already 1, the one with
    other additional data unless the tags coincide; and the nonce reused
    gives the second message away.  It returns 0 and every context is
    freed. *)
Theorem aes_main_prints stack : length stack = 16%nat ->
  let ct := stream main_key main_iv msg2 in
  runs (main sys stack) 0
    [verdict_line "msg0 round-trip: " true; verdict_line "msg1 round-trip: " true; verdict_line "msg2 round-trip: " true;
     verdict_line "msg2 round-trip (WRONG CYPHERTEXT - FAIL): "
       (bool_decide (Z.lxor 0x6b (keystream (take 16 main_key) (take 12 main_iv) 0) = 0));
     verdict_line "msg2 round-trip (WRONG TAG - FAIL): "
       (bool_decide (head (tag_of main_key main_iv [] ct) = Some 1));
     verdict_line "msg2 round-trip (WRONG AAD - FAIL): "
       (bool_decide (tag_of main_key main_iv [] ct = tag_of main_key main_iv wrong_aad ct));
     verdict_line "msg2 round-trip (WITH AAD - OK): " true;
     "nonce reuse recovered: YES"]%string.
Proof.
  intros Hs ct. unfold main.
  do 3 (apply print_trip_bind; [done | done | by right | by apply verdict_same; auto |]).
  apply print_trip_bind; [done | done | by left | by apply (verdict_cipher _ _ msg2 0x6b (drop 1 msg2)) |].
  apply print_trip_bind; [done | done | by right | apply verdict_tag |].
  apply print_trip_bind; [done | done | by right | apply verdict_aad |].
  apply print_trip_bind; [done | done | by right | by apply verdict_same; auto |].
  pose proof (encrypt_runs main_key main_iv [] msg4 (replicate 16 0) stack) as H4. cbv zeta in H4.
  pose proof (encrypt_runs main_key main_iv [] msg5 (replicate 16 0)) as H5. cbv zeta in H5.
  rewrite !(drop_ge stack), !app_nil_r in H4 by lia.
  eapply (runs_bind _ _ _ _ [] [_]); [apply H4; [split_and!; cbn; lia | cbn; lia | lia] |]. cbv beta iota.
  eapply (runs_bind _ _ _ _ [] [_]); [apply H5; [split_and!; cbn; lia | cbn; lia | rewrite tag_of_length; lia] |].
  cbv beta iota. 
  pose proof (xor_loop_zip (stream main_key main_iv msg4) 16 [] (replicate 16 0) [] [] []
    (stream main_key main_iv msg5) msg4 0) as Hx. rewrite !stream_length in Hx. cbn [app] in Hx.
  rewrite stream_reuse in Hx by done.
  eapply runs_lift; [rewrite !(drop_ge (replicate _ _)), !app_nil_r by (cbn; lia); by apply Hx |].
  rewrite bool_decide_true by done. apply runs_cout. intros _. apply runs_ret.
Qed.
End runs.
End gcm.

(** ** The protocol of the calls, for any library *)

(** The answer the code goes on from. *)
Definition accepted (c : call) (a : answer) : bool :=
  match c with
  | EVP_EncryptInit_ex _ _ _ | EVP_EncryptUpdate _ _ _ _ | EVP_EncryptFinal_ex _
  | EVP_CTRL_GCM_GET_TAG _ _ => 1 =? ret a
  | EVP_CIPHER_CTX_new | EVP_DecryptInit_ex _ _ _ | EVP_DecryptUpdate _ _ _ _
  | EVP_CTRL_GCM_SET_TAG _ _ _ => negb (ret a =? 0)
  | EVP_DecryptFinal_ex _ | EVP_CIPHER_CTX_free _ | Cout _ | Cerr _ => true
  end.

Definition all_accepted (calls : list (call * answer)) : bool :=
  forallb (fun '(c, a) => accepted c a) calls.

(** The calls are those of the script, up to the first answer not accepted. *)
Fixpoint follows (script : list call) (calls : list (call * answer)) : Prop :=
  match script, calls with
  | [], [] => True
  | c :: script', (c', a) :: calls' =>
      c' = c /\ if accepted c a then follows script' calls' else calls' = []
  | _, _ => False
  end.

Definition encrypt_script (ctx : Z) (key iv aad pt : list Z) : list call :=
  [EVP_EncryptInit_ex ctx true None; EVP_EncryptInit_ex ctx false (Some (key, iv));
   EVP_EncryptUpdate ctx false aad (i32 (Z.of_nat (length aad)));
   EVP_EncryptUpdate ctx true pt (i32 (Z.of_nat (length pt)));
   EVP_EncryptFinal_ex ctx; EVP_CTRL_GCM_GET_TAG ctx 16].

Definition decrypt_script (ctx : Z) (key iv aad ct tag : list Z) : list call :=
  [EVP_DecryptInit_ex ctx true None; EVP_DecryptInit_ex ctx false (Some (key, iv));
   EVP_DecryptUpdate ctx false aad (i32 (Z.of_nat (length aad)));
   EVP_DecryptUpdate ctx true ct (i32 (Z.of_nat (length ct)));
   EVP_CTRL_GCM_SET_TAG ctx 16 tag; EVP_DecryptFinal_ex ctx].

(** A call the code makes last, and always accepts, is not made when it stops
    earlier. *)
Lemma follows_stopped script last : forall calls,
  follows (script ++ [last]) calls -> (forall a, accepted last a = true) -> last ∉ script ->
  all_accepted calls = false -> last ∉ fst <$> calls.
Proof.
  induction script as [| c script IH]; intros [| [c' a] calls] Hf Hlast Hnin Hacc; try done.
  - destruct Hf as [-> Hf]. unfold all_accepted in Hacc. cbn in Hacc. rewrite Hlast in Hf, Hacc.
    by destruct calls.
  - destruct Hf as [-> Hf]. unfold all_accepted in Hacc. cbn in Hacc.
    apply not_elem_of_cons in Hnin as [Hne Hnin]. cbn [fmap list_fmap fst].
    apply not_elem_of_cons. split; [done |].
    destruct (accepted c a); [by apply IH | subst calls; apply not_elem_of_nil].
Qed.

Section protocol.
Context {W X : Type} (sys : call -> W -> answer * W) (bad : X -> Prop).

(** Every run of [m] that gives a value made calls that follow the script,
    and a value that is [bad] if it stopped early. *)
Definition protocol (script : list call) (m : IO W X) : Prop := forall w t x w' t',
  m (w, t) = (Ok x, (w', t')) ->
  exists calls, t' = t ++ calls /\ follows script calls /\ (all_accepted calls = false -> bad x).

(** [m] makes no call, and gives a [bad] value if any. *)
Definition stops (m : IO W X) : Prop := forall s x s', m s = (Ok x, s') -> s' = s /\ bad x.

Lemma protocol_ret x : protocol [] (mret x).
Proof. intros w t y w' t' [= <- <- <-]. exists []. by rewrite app_nil_r. Qed.

Lemma protocol_call c script f :
  (forall a, accepted c a = true -> protocol script (f a)) ->
  (forall a, accepted c a = false -> stops (f a)) ->
  protocol (c :: script) (syscall sys c ≫= f).
Proof.
  intros Hgo Hstop w t x w' t'. unfold mbind, IO_bind, syscall. destruct (sys c w) as [a w1].
  intros Hrun. destruct (accepted c a) eqn:E.
  - destruct (Hgo a E _ _ _ _ _ Hrun) as (calls & -> & Hf & Hb). exists ((c, a) :: calls).
    unfold all_accepted. cbn. by rewrite E, <- app_assoc.
  - destruct (Hstop a E _ _ _ Hrun) as [[= -> ->] Hb]. exists [(c, a)]. cbn. by rewrite E.
Qed.

Lemma protocol_lift {Y} (r : res Y) script f :
  (forall y, protocol script (f y)) -> protocol script (io_lift r ≫= f).
Proof. intros Hf. destruct r; [apply Hf | done]. Qed.

Lemma stops_ret x : bad x -> stops (mret x).
Proof. intros Hb s y s' [= <- <-]. done. Qed.

Lemma stops_lift {Y} (r : res Y) f : (forall y, stops (f y)) -> stops (io_lift r ≫= f).
Proof. intros Hf. destruct r; [apply Hf | done]. Qed.

Lemma protocol_if (b : bool) script m1 m2 : b = false -> protocol script m2 ->
  protocol script (if b then m1 else m2).
Proof. by intros ->. Qed.

Lemma stops_if (b : bool) m1 m2 : b = true -> stops m1 -> stops (if b then m1 else m2).
Proof. by intros ->. Qed.
End protocol.

(** One call of a protocol, stopping at an answer not accepted. *)
Ltac protocol_step :=
  let Hacc := fresh "Hacc" in
  apply protocol_call; intros ? Hacc; cbn [accepted] in Hacc;
  [ repeat (apply protocol_lift; intros ?);
    try (apply protocol_if; [by rewrite Hacc || by apply negb_true_iff | cbv zeta])
  | repeat (apply stops_lift; intros ?);
    apply stops_if; [by rewrite Hacc || by apply negb_false_iff | by apply stops_ret] ].

Section bodies.
Context {W : Type} (sys : call -> W -> answer * W).

(** The functions after the allocation of the context. *)
Lemma run_new {X} (f : answer -> IO W X) (dflt x : X) w t w' t' :
  (a ← syscall sys EVP_CIPHER_CTX_new; if ret a =? 0 then mret dflt else f a)
    (w, t) = (Ok x, (w', t')) ->
  exists a w1, (ret a = 0 /\ x = dflt /\ t' = t ++ [(EVP_CIPHER_CTX_new, a)]) \/
    (ret a <> 0 /\ f a (w1, t ++ [(EVP_CIPHER_CTX_new, a)]) = (Ok x, (w', t'))).
Proof.
  unfold mbind, IO_bind, syscall. destruct (sys EVP_CIPHER_CTX_new w) as [a w1].
  destruct (Z.eqb_spec (ret a) 0); intros Hrun; exists a, w1; [left | by right].
  by injection Hrun as <- <- <-.
Qed.

(** A function that allocates a context and then follows a script that ends
    by freeing it. *)
Lemma new_protocol {X} (f : answer -> IO W X) (dflt x : X) (bad : X -> Prop) (script : Z -> list call) w t w' t' :
  (forall a, protocol bad (script (ret a) ++ [EVP_CIPHER_CTX_free (ret a)]) (f a)) -> bad dflt ->
  (forall ctx, Forall (fun c => ctx_of c = Some ctx) (script ctx)) ->
  (a ← syscall sys EVP_CIPHER_CTX_new; if ret a =? 0 then mret dflt else f a)
    (w, t) = (Ok x, (w', t')) ->
  exists ctx calls, t' = t ++ calls /\
    follows (EVP_CIPHER_CTX_new :: script ctx ++ [EVP_CIPHER_CTX_free ctx]) calls /\
    (all_accepted calls = false -> bad x /\ (EVP_CIPHER_CTX_free ctx ∉ fst <$> calls)).
Proof.
  intros Hf Hbad Hscript (a & w1 & [(H0 & -> & ->) | (H0 & Hrun)])%run_new; exists (ret a).
  - exists [(EVP_CIPHER_CTX_new, a)]. cbn. rewrite H0. split_and!; try done. intros _. split; [done |].
    apply not_elem_of_cons. split; [done | apply not_elem_of_nil].
  - destruct (Hf _ _ _ _ _ _ Hrun) as (calls & -> & Hfol & Hb).
    exists ((EVP_CIPHER_CTX_new, a) :: calls). split; [by rewrite <- app_assoc |].
    assert (accepted EVP_CIPHER_CTX_new a = true) as E by (cbn; lia).
    split; [split; [done |]; by rewrite E |]. unfold all_accepted in *. cbn [forallb]. rewrite E.
    intros Hacc. split; [by apply Hb |]. cbn [fmap list_fmap fst]. apply not_elem_of_cons. split; [done |].
    apply (follows_stopped (script (ret a))); [done | done | | done].
    intros Hin. pose proof (proj1 (list.Forall_forall _ _) (Hscript (ret a)) _ Hin). done.
Qed.
End bodies.

(** C37. The error protocol of [aes_gcm_encrypt], whatever the library
    answers: the calls are made in the documented order and stop at the first
    one that fails, which makes the function return -1; the context is then
    not freed: an error leaks it. *)
Theorem encrypt_stops_and_leaks {W} (sys : call -> W -> answer * W) key iv aad pt buf tag_out w t r ct tag w' t' :
  aes_gcm_encrypt sys key iv aad pt buf tag_out (w, t) = (Ok (r, ct, tag), (w', t')) ->
  exists ctx calls, t' = t ++ calls /\
    follows (EVP_CIPHER_CTX_new :: encrypt_script ctx key iv aad pt ++ [EVP_CIPHER_CTX_free ctx]) calls /\
    (all_accepted calls = false -> r = -1 /\ (EVP_CIPHER_CTX_free ctx ∉ fst <$> calls)).
Proof.
  unfold aes_gcm_encrypt. cbv zeta. intros Hrun.
  eapply (new_protocol sys _ _ _ (fun x => x.1.1 = -1) (fun ctx => encrypt_script ctx key iv aad pt)) in Hrun;
    [exact Hrun | intros a | done | intros ctx; by repeat constructor].
  do 6 protocol_step. apply protocol_call; [| done]. intros _ _. apply protocol_ret.
Qed.

(** The same of [aes_gcm_decrypt]; when every call before the final check
    is accepted the context is freed, whether or not the tag is right. *)
Theorem decrypt_stops_and_leaks {W} (sys : call -> W -> answer * W) key iv aad ct tag buf w t r out_ w' t' :
  aes_gcm_decrypt sys key iv aad ct tag buf (w, t) = (Ok (r, out_), (w', t')) ->
  exists ctx calls, t' = t ++ calls /\
    follows (EVP_CIPHER_CTX_new :: decrypt_script ctx key iv aad ct tag ++ [EVP_CIPHER_CTX_free ctx]) calls /\
    (all_accepted calls = false -> r = -1 /\ (EVP_CIPHER_CTX_free ctx ∉ fst <$> calls)).
Proof.
  unfold aes_gcm_decrypt. cbv zeta. intros Hrun.
  eapply (new_protocol sys _ _ _ (fun x => x.1 = -1) (fun ctx => decrypt_script ctx key iv aad ct tag)) in Hrun;
    [exact Hrun | intros a | done | intros ctx; by repeat constructor].
  do 5 protocol_step. apply protocol_call; [| done]. intros a' _. apply protocol_lift. intros out1.
  apply protocol_call; [| done]. intros _ _. destruct (0 <? ret a'); [apply protocol_ret |].
  apply protocol_lift. intros out2. apply protocol_ret.
Qed.

(** ** A library to run the program on

    The contexts are the world; the keystream and the tag are a toy. *)

Definition toy_keystream (key iv : list Z) (i : nat) : Z :=
  (le_get (take 2 key) * (Z.of_nat i + 7) + le_get (take 2 iv)) mod 251 + 1.

Definition toy_tag (key iv aad ct : list Z) : list Z :=
  be_put 16 (foldl (fun acc b => (acc * 65537 + b + 1) mod (2 ^ 127 - 1)) 5 (key ++ iv ++ aad ++ [256] ++ ct)).

Definition toy_sys (c : call) (w : gmap Z gcm) : answer * gmap Z gcm :=
  match c with
  | EVP_CIPHER_CTX_new => let k := fresh ({[0]} ∪ dom w) in (mkAns k 0 [], <[k := gcm_new]> w)
  | EVP_CIPHER_CTX_free k => (mkAns 0 0 [], delete k w)
  | _ =>
      match ctx_of c with
      | Some k =>
          match w !! k ≫= gcm_step toy_keystream toy_tag c with
          | Some (a, g) => (a, <[k := g]> w)
          | None => (mkAns 0 0 [], w)
          end
      | None => (mkAns 0 0 [], w)
      end
  end.

Definition toy_gcm : Gcm toy_keystream toy_tag (gmap Z gcm) toy_sys.
Proof.
  refine (Build_Gcm _ _ _ toy_sys id _ _ _ _ _ _).
  - intros. apply be_put_length.
  - intros w. cbn [toy_sys fst snd ret id]. pose proof (is_fresh ({[0]} ∪ dom w : gset Z)) as Hf.
    set (k := fresh _) in *. apply not_elem_of_union in Hf as [H0 Hd].
    split; [intros E; apply H0; rewrite E; by apply elem_of_singleton |].
    split; [by apply not_elem_of_dom | done].
  - intros c k g a g' w Hof Hg Hstep. unfold toy_sys. cbn [id] in *.
    destruct c; try discriminate Hof; rewrite Hof, Hg; cbn [mbind option_bind]; by rewrite Hstep.
  - done.
  - done.
  - done.
Defined.

Example aes_main_runs :
  (fun r => (fst r, printed (snd (snd r)))) (main toy_sys (replicate 16 0) (∅, [])) =
  (Ok 0, [verdict_line "msg0 round-trip: " true; verdict_line "msg1 round-trip: " true;
          verdict_line "msg2 round-trip: " true;
          verdict_line "msg2 round-trip (WRONG CYPHERTEXT - FAIL): " false;
          verdict_line "msg2 round-trip (WRONG TAG - FAIL): " false;
          verdict_line "msg2 round-trip (WRONG AAD - FAIL): " false;
          verdict_line "msg2 round-trip (WITH AAD - OK): " true;
          "nonce reuse recovered: YES"]%string).
Proof. vm_compute. reflexivity. Qed.

(** *** Witnesses *)

#[local] Existing Instance toy_gcm.

Lemma encrypt_decrypt_roundtrip_witness :
  runs toy_keystream toy_tag toy_sys
    ('(n, ct, tag) ← aes_gcm_encrypt toy_sys main_key main_iv [1; 2; 3] msg2 (replicate 47 0) (replicate 16 0);
     '(r, out) ← aes_gcm_decrypt toy_sys main_key main_iv [1; 2; 3] ct tag (replicate 47 0);
     mret (n, r, out)) (47, 47, msg2) [].
Proof.
  apply (encrypt_decrypt_roundtrip toy_keystream toy_tag toy_sys (replicate 16 0) main_key main_iv [1; 2; 3] msg2);
    [split_and!; cbn; lia | reflexivity].
Defined.

Lemma decrypt_authenticates_witness :
  (replicate 16 0 = tag_of toy_tag main_key main_iv [] msg1 ->
   runs toy_keystream toy_tag toy_sys
     (aes_gcm_decrypt toy_sys main_key main_iv [] msg1 (replicate 16 0) (replicate 16 7))
     (16, stream toy_keystream main_key main_iv msg1) []) /\
  (replicate 16 0 <> tag_of toy_tag main_key main_iv [] msg1 ->
   runs toy_keystream toy_tag toy_sys
     (aes_gcm_decrypt toy_sys main_key main_iv [] msg1 (replicate 16 0) (replicate 16 7))
     (-1, replicate 16 0) []).
Proof.
  apply (decrypt_authenticates toy_keystream toy_tag toy_sys main_key main_iv [] msg1 (replicate 16 0) (replicate 16 7));
    [split_and!; cbn; lia | reflexivity | reflexivity].
Defined.

Lemma aes_main_prints_witness :
  runs toy_keystream toy_tag toy_sys (main toy_sys (replicate 16 0)) 0
    [verdict_line "msg0 round-trip: " true; verdict_line "msg1 round-trip: " true;
     verdict_line "msg2 round-trip: " true;
     verdict_line "msg2 round-trip (WRONG CYPHERTEXT - FAIL): "
       (bool_decide (Z.lxor 0x6b (toy_keystream (take 16 main_key) (take 12 main_iv) 0) = 0));
     verdict_line "msg2 round-trip (WRONG TAG - FAIL): "
       (bool_decide (head (tag_of toy_tag main_key main_iv [] (stream toy_keystream main_key main_iv msg2)) = Some 1));
     verdict_line "msg2 round-trip (WRONG AAD - FAIL): "
       (bool_decide (tag_of toy_tag main_key main_iv [] (stream toy_keystream main_key main_iv msg2) =
                     tag_of toy_tag main_key main_iv wrong_aad (stream toy_keystream main_key main_iv msg2)));
     verdict_line "msg2 round-trip (WITH AAD - OK): " true;
     "nonce reuse recovered: YES"]%string.
Proof. apply (aes_main_prints toy_keystream toy_tag toy_sys (replicate 16 0)). reflexivity. Defined.

(** A library whose key setup fails. *)
Definition failing_sys (c : call) (w : Z) : answer * Z :=
  match c with EVP_EncryptInit_ex _ false _ | EVP_DecryptInit_ex _ false _ => (mkAns 0 0 [], w) | _ => (mkAns 1 0 [], w) end.

Lemma encrypt_stops_and_leaks_witness :
  exists ctx calls,
    [(EVP_CIPHER_CTX_new, mkAns 1 0 []); (EVP_EncryptInit_ex 1 true None, mkAns 1 0 []);
     (EVP_EncryptInit_ex 1 false (Some ([], [])), mkAns 0 0 [])] = [] ++ calls /\
    follows (EVP_CIPHER_CTX_new :: encrypt_script ctx [] [] [] [] ++ [EVP_CIPHER_CTX_free ctx]) calls /\
    (all_accepted calls = false -> -1 = -1 /\ (EVP_CIPHER_CTX_free ctx ∉ fst <$> calls)).
Proof.
  apply (encrypt_stops_and_leaks failing_sys [] [] [] [] [] [] 0 [] (-1) [] [] 0). reflexivity.
Defined.

Lemma decrypt_stops_and_leaks_witness :
  exists ctx calls,
    [(EVP_CIPHER_CTX_new, mkAns 1 0 []); (EVP_DecryptInit_ex 1 true None, mkAns 1 0 []);
     (EVP_DecryptInit_ex 1 false (Some ([], [])), mkAns 0 0 [])] = [] ++ calls /\
    follows (EVP_CIPHER_CTX_new :: decrypt_script ctx [] [] [] [] [] ++ [EVP_CIPHER_CTX_free ctx]) calls /\
    (all_accepted calls = false -> -1 = -1 /\ (EVP_CIPHER_CTX_free ctx ∉ fst <$> calls)).
Proof.
  apply (decrypt_stops_and_leaks failing_sys [] [] [] [] [] [] 0 [] (-1) [] 0). reflexivity.
Defined.
