(* ===== verification/Treiber.v ===== *)
(** * Treiber

    The lock-free stack of 02-treiber_lock_free_stack/main.cpp: [push] and
    [pop] as the atomic steps of threads over a shared heap, the interleavings
    of any number of threads, and the destructor.  Steps interleave in a total
    order (sequential consistency): the memory orders the code passes to its
    atomics are not modelled.  A compare-and-exchange may fail spuriously and
    the allocator may return any address not in use: both are part of a
    step's choice, [act]. *)

From S2P Require Import Prelude.
From stdpp Require Import functions.
#[local] Open Scope Z_scope.

Abbreviation loc := positive.

Section treiber.
Context {T : Type} `{EqDecision T}.

(** ** The shared state *)

Record Node := mkNode { value : T; next : option loc }.

Record TreiberStack := mkStack { heap : gmap loc Node; head : option loc; trash : option loc }.

(** Access to a node; it faults where there is none. *)
Definition deref (h : gmap loc Node) (l : loc) : res Node :=
  match h !! l with Some n => Ok n | None => Fault (OutOfBounds (Z.pos l)) end.

Definition set_next (h : gmap loc Node) (l : loc) (nx : option loc) : res (gmap loc Node) :=
  n ← deref h l; Ok (<[l := mkNode (value n) nx]> h).

(** ** Threads

    Where a thread stands in [push] or [pop], with its local variables; each
    constructor is the access to shared memory it does next. *)

Inductive pc :=
| Idle
| PushNew (v : T)                                  (* new Node(val) *)
| PushLoad (v : T) (newHead : loc)                 (* oldHead = head.load() *)
| PushLink (v : T) (newHead : loc) (oldHead : option loc)  (* newHead->next = oldHead *)
| PushCas (v : T) (newHead : loc) (oldHead : option loc)   (* head.compare_exchange_weak *)
| PushRet (v : T)
| PopLoad                                          (* oldHead = head.load() *)
| PopTest (oldHead : option loc)                   (* the null test; newHead = oldHead->next *)
| PopCas (oldHead : loc) (newHead : option loc)    (* head.compare_exchange_weak *)
| PopValue (oldHead : loc)                         (* val = move(oldHead->value) *)
| PopTrashLoad (val : T) (oldHead : loc)           (* old_trash = trash.load() *)
| PopTrashLink (val : T) (oldHead : loc) (old_trash : option loc)  (* oldHead->next = old_trash *)
| PopTrashCas (val : T) (oldHead : loc) (old_trash : option loc)   (* trash.compare_exchange_weak *)
| PopRet (r : option T).

Inductive op := OPush (v : T) | OPop.

(** A step may be where an operation takes effect, with its result.  Reading
    a null [head] in [pop] is an empty pop. *)
Definition pop_sees (p : option loc) : option (op * option T) :=
  match p with None => Some (OPop, None) | Some _ => None end.

(** One step.  [sp] makes a compare-and-exchange fail spuriously; [l] is the
    address the allocator returns.  [None]: the step is not possible. *)
Definition push_step (c : pc) (sp : bool) (l : loc) (g : TreiberStack)
  : option (res (pc * TreiberStack * option (op * option T))) :=
  match c with
  | PushNew v =>
      match heap g !! l with
      | Some _ => None
      | None => Some (Ok (PushLoad v l, mkStack (<[l := mkNode v None]> (heap g)) (head g) (trash g), None))
      end
  | PushLoad v n => Some (Ok (PushLink v n (head g), g, None))
  | PushLink v n old =>
      Some (h ← set_next (heap g) n old; Ok (PushCas v n old, mkStack h (head g) (trash g), None))
  | PushCas v n old =>
      Some (Ok (if negb sp && bool_decide (head g = old)
                then (PushRet v, mkStack (heap g) (Some n) (trash g), Some (OPush v, None))
                else (PushLink v n (head g), g, None)))
  | _ => None
  end.

Definition pop_step (c : pc) (sp : bool) (g : TreiberStack)
  : option (res (pc * TreiberStack * option (op * option T))) :=
  match c with
  | PopLoad => Some (Ok (PopTest (head g), g, pop_sees (head g)))
  | PopTest None => Some (Ok (PopRet None, g, None))
  | PopTest (Some old) => Some (n ← deref (heap g) old; Ok (PopCas old (next n), g, None))
  | PopCas old new =>
      Some (if negb sp && bool_decide (head g = Some old)
            then n ← deref (heap g) old;
                 Ok (PopValue old, mkStack (heap g) new (trash g), Some (OPop, Some (value n)))
            else Ok (PopTest (head g), g, pop_sees (head g)))
  | PopValue old => Some (n ← deref (heap g) old; Ok (PopTrashLoad (value n) old, g, None))
  | PopTrashLoad x old => Some (Ok (PopTrashLink x old (trash g), g, None))
  | PopTrashLink x old t =>
      Some (h ← set_next (heap g) old t; Ok (PopTrashCas x old t, mkStack h (head g) (trash g), None))
  | PopTrashCas x old t =>
      Some (Ok (if negb sp && bool_decide (trash g = t)
                then (PopRet (Some x), mkStack (heap g) (head g) (Some old), None)
                else (PopTrashLink x old (trash g), g, None)))
  | _ => None
  end.

Definition tstep (c : pc) (sp : bool) (l : loc) (g : TreiberStack) :=
  match c with
  | PushNew _ | PushLoad _ _ | PushLink _ _ _ | PushCas _ _ _ => push_step c sp l g
  | _ => pop_step c sp g
  end.

(** ** Interleavings

    Any number of threads call, step and return.  The history records calls,
    effects and returns. *)

Inductive event :=
| ECall (i : nat) (o : op)
| EEff (i : nat) (o : op) (r : option T)
| ERet (i : nat) (o : op) (r : option T).

Record system := mkSys { stack : TreiberStack; threads : nat -> pc; hist : list event }.

Inductive act :=
| ACall (i : nat) (o : op)
| AStep (i : nat) (sp : bool) (l : loc)
| ARet (i : nat).

Definition start (o : op) : pc := match o with OPush v => PushNew v | OPop => PopLoad end.

Definition returning (c : pc) : option (op * option T) :=
  match c with PushRet v => Some (OPush v, None) | PopRet r => Some (OPop, r) | _ => None end.

Definition is_idle (c : pc) : bool := match c with Idle => true | _ => false end.

Definition exec (a : act) (s : system) : option (res system) :=
  match a with
  | ACall i o =>
      if is_idle (threads s i)
      then Some (Ok (mkSys (stack s) (<[i := start o]> (threads s)) (hist s ++ [ECall i o])))
      else None
  | AStep i sp l =>
      r ← tstep (threads s i) sp l (stack s);
      Some ('(c, g, e) ← r;
            Ok (mkSys g (<[i := c]> (threads s))
                  (hist s ++ match e with Some (o, x) => [EEff i o x] | None => [] end)))
  | ARet i =>
      '(o, r) ← returning (threads s i);
      Some (Ok (mkSys (stack s) (<[i := Idle]> (threads s)) (hist s ++ [ERet i o r])))
  end.

Definition step (s s' : system) : Prop := exists a, exec a s = Some (Ok s').

Definition init : system := mkSys (mkStack ∅ None None) (fun _ => Idle) [].

Definition empty (g : TreiberStack) : bool := bool_decide (head g = None).

(** ** The destructor *)

(** [while (cur) { next = cur->next; delete cur; cur = next; }] *)
Fixpoint free_list (fuel : nat) (cur : option loc) (h : gmap loc Node) : res (gmap loc Node) :=
  match cur with
  | None => Ok h
  | Some l =>
      match fuel with
      | O => Fault OutOfFuel
      | S fuel' => n ← deref h l; free_list fuel' (next n) (delete l h)
      end
  end.

Definition destroy (fuel : nat) (g : TreiberStack) : res (gmap loc Node) :=
  h ← free_list fuel (head g) (heap g);
  free_list fuel (trash g) h.

(** ** Specification

    The history, read at the points where operations take effect, is a run of
    a stack; and each thread's part of it is a sequence of operations, each
    called, then taking effect, then returning the result it had. *)

Definition abs_step (st : option (list T)) (e : event) : option (list T) :=
  match st, e with
  | Some vs, EEff _ (OPush v) None => Some (v :: vs)
  | Some (v' :: vs), EEff _ OPop (Some v) => if decide (v = v') then Some vs else None
  | Some [], EEff _ OPop None => Some []
  | _, EEff _ _ _ => None
  | st, _ => st
  end.

Definition abs (h : list event) : option (list T) := fold_left abs_step h (Some []).

Inductive status := Out | Called (o : op) | Done (o : op) (r : option T).

#[global] Instance op_eq_dec : EqDecision op.
Proof. solve_decision. Defined.

Definition track_step (i : nat) (st : option status) (e : event) : option status :=
  match e with
  | ECall j o => if decide (j = i) then match st with Some Out => Some (Called o) | _ => None end else st
  | EEff j o r =>
      if decide (j = i) then
        match st with Some (Called o') => if decide (o = o') then Some (Done o r) else None | _ => None end
      else st
  | ERet j o r =>
      if decide (j = i) then
        match st with
        | Some (Done o' r') => if decide ((o, r) = (o', r')) then Some Out else None
        | _ => None
        end
      else st
  end.

Definition track (i : nat) (h : list event) : option status := fold_left (track_step i) h (Some Out).

Lemma abs_snoc h e : abs (h ++ [e]) = abs_step (abs h) e.
Proof. unfold abs. by rewrite fold_left_app. Qed.

Lemma track_snoc i h e : track i (h ++ [e]) = track_step i (track i h) e.
Proof. unfold track. by rewrite fold_left_app. Qed.

(** ** The chains of nodes *)

(** From [p], the nodes at these addresses hold these values. *)
Fixpoint chain (h : gmap loc Node) (p : option loc) (ls : list (loc * T)) : Prop :=
  match ls with
  | [] => p = None
  | (l, v) :: ls' => p = Some l /\ exists nx, h !! l = Some (mkNode v nx) /\ chain h nx ls'
  end.

Lemma chain_frame h h' p ls : chain h p ls ->
  (forall l, l ∈ ls.*1 -> h' !! l = h !! l) -> chain h' p ls.
Proof.
  revert p. induction ls as [| [l v] ls IH]; intros p; cbn; [done |].
  intros [-> (nx & Hl & Hc)] Hf. split; [done |]. exists nx. split.
  - rewrite Hf; [done | by left].
  - apply IH; [done |]. intros l' Hl'. apply Hf. by right.
Qed.

Lemma chain_alloc h p ls l : chain h p ls -> l ∈ ls.*1 -> is_Some (h !! l).
Proof.
  revert p. induction ls as [| [l' v] ls IH]; intros p; cbn; [by intros _ ?%not_elem_of_nil |].
  intros [-> (nx & Hl & Hc)] [-> | Hin]%elem_of_cons; eauto.
Qed.

(** ** The invariant *)

(** The node a thread owns: the one it is pushing, or has popped. *)
Definition pushing (c : pc) : option loc :=
  match c with PushLoad _ n | PushLink _ n _ | PushCas _ n _ => Some n | _ => None end.

Definition owns (c : pc) : option loc :=
  match c with
  | PushLoad _ n | PushLink _ n _ | PushCas _ n _ => Some n
  | PopValue old | PopTrashLoad _ old | PopTrashLink _ old _ | PopTrashCas _ old _ => Some old
  | _ => None
  end.

(** The node a thread has read from [head] and may dereference. *)
Definition refs (c : pc) : option loc :=
  match c with PopTest (Some old) | PopCas old _ => Some old | _ => None end.

(** What a thread knows of its nodes.  In particular the [next] that [PopCas]
    read is still that of its node if the node is on the stack. *)
Definition pc_ok (h : gmap loc Node) (stk : list loc) (c : pc) : Prop :=
  match c with
  | PushLoad v n | PushLink v n _ => exists nx, h !! n = Some (mkNode v nx)
  | PushCas v n old => h !! n = Some (mkNode v old)
  | PopTest (Some old) => is_Some (h !! old)
  | PopCas old new => is_Some (h !! old) /\ (old ∈ stk -> exists v, h !! old = Some (mkNode v new))
  | PopValue old | PopTrashLoad _ old | PopTrashLink _ old _ => is_Some (h !! old)
  | PopTrashCas _ old t => exists v, h !! old = Some (mkNode v t)
  | _ => True
  end.

(** Where a thread is in its operation, as the history must show it. *)
Definition status_of (h : gmap loc Node) (c : pc) : status :=
  match c with
  | Idle => Out
  | PushNew v | PushLoad v _ | PushLink v _ _ | PushCas v _ _ => Called (OPush v)
  | PushRet v => Done (OPush v) None
  | PopLoad | PopTest (Some _) | PopCas _ _ => Called OPop
  | PopTest None => Done OPop None
  | PopValue old => Done OPop (value <$> h !! old)
  | PopTrashLoad x _ | PopTrashLink x _ _ | PopTrashCas x _ _ => Done OPop (Some x)
  | PopRet r => Done OPop r
  end.

Record inv (s : system) (stk trs : list (loc * T)) : Prop := {
  inv_stack : chain (heap (stack s)) (head (stack s)) stk;
  inv_trash : chain (heap (stack s)) (trash (stack s)) trs;
  inv_nodup : NoDup (stk.*1 ++ trs.*1);
  inv_pc i : pc_ok (heap (stack s)) stk.*1 (threads s i);
  inv_own i l : owns (threads s i) = Some l -> l ∉ stk.*1 ++ trs.*1;
  inv_own_ne i j l : owns (threads s i) = Some l -> owns (threads s j) = Some l -> i = j;
  inv_ref i j l : refs (threads s i) = Some l -> pushing (threads s j) <> Some l;
  inv_heap l : is_Some (heap (stack s) !! l) ->
    l ∈ stk.*1 ++ trs.*1 \/ exists i, owns (threads s i) = Some l;
  inv_abs : abs (hist s) = Some stk.*2;
  inv_track i : track i (hist s) = Some (status_of (heap (stack s)) (threads s i))
}.

Lemma pushing_owns c l : pushing c = Some l -> owns c = Some l.
Proof. by destruct c. Qed.

Lemma pc_ok_owns h stk c l : pc_ok h stk c -> owns c = Some l -> is_Some (h !! l).
Proof. destruct c; cbn; intros Hok [= <-]; try done; try destruct Hok; eauto. Qed.

Lemma pc_ok_refs h stk c l : pc_ok h stk c -> refs c = Some l -> is_Some (h !! l).
Proof. destruct c as [| | | | | | | [old |] | | | | | |]; cbn; intros Hok [= <-]; [done | by destruct Hok]. Qed.

(** What a thread knows survives the steps of the others. *)
Lemma pc_ok_frame h h' stk stk' c : pc_ok h stk c ->
  (forall l, owns c = Some l -> h' !! l = h !! l) ->
  (forall l, refs c = Some l -> is_Some (h' !! l) /\ (l ∈ stk' -> l ∈ stk /\ h' !! l = h !! l)) ->
  pc_ok h' stk' c.
Proof.
  intros Hok Ho Hr. destruct c as [| | | | | | | [old |] | | | | | |]; cbn in *; try done;
    try (by rewrite Ho).
  - by apply Hr.
  - destruct Hok as [_ Hn]. destruct (Hr _ eq_refl) as [Hs Hin]. split; [done |].
    intros Hold. destruct (Hin Hold) as [Hold' ->]. auto.
Qed.

Lemma status_frame h h' c : (forall l, owns c = Some l -> h' !! l = h !! l) -> status_of h' c = status_of h c.
Proof. intros Ho. destruct c; cbn in *; try done. by rewrite Ho. Qed.

Section update.
Context (s : system) (stk trs : list (loc * T)) (Hinv : inv s stk trs).
Context (i : nat) (c' : pc) (g' : TreiberStack) (e : option (op * option T)) (stk' trs' : list (loc * T)).

Let h := heap (stack s).
Let c := threads s i.

(** A step of thread [i] to [c'] with shared state [g'] keeps the invariant
    when it changes nodes that the thread owns only, and hands nodes on
    between the threads, the stack and the trash. *)
Record update : Prop := {
  up_stack : chain (heap g') (head g') stk';
  up_trash : chain (heap g') (trash g') trs';
  up_nodup : NoDup (stk'.*1 ++ trs'.*1);
  up_pc : pc_ok (heap g') stk'.*1 c';
  up_frame l : is_Some (h !! l) -> owns c <> Some l -> heap g' !! l = h !! l;
  up_grow l : is_Some (h !! l) -> is_Some (heap g' !! l);
  up_own l : owns c' = Some l -> (l ∉ stk'.*1 ++ trs'.*1) /\
    (owns c = Some l \/ h !! l = None \/ l ∈ stk.*1);
  up_heap l : is_Some (heap g' !! l) -> l ∈ stk'.*1 ++ trs'.*1 \/ owns c' = Some l \/
    (is_Some (h !! l) /\ (l ∉ stk.*1 ++ trs.*1) /\ owns c <> Some l);
  up_members l : l ∈ stk'.*1 ++ trs'.*1 -> l ∈ stk.*1 ++ trs.*1 \/ owns c = Some l;
  up_pushed l : l ∈ stk'.*1 -> l ∈ stk.*1 \/ pushing c = Some l;
  up_refs l : refs c' = Some l -> refs c = Some l \/ l ∈ stk.*1;
  up_pushing l : pushing c' = Some l -> pushing c = Some l \/ h !! l = None;
  up_effect : match e with
    | None => stk'.*2 = stk.*2 /\ status_of (heap g') c' = status_of h c
    | Some (o, r) => abs_step (Some stk.*2) (EEff i o r) = Some stk'.*2 /\
        status_of h c = Called o /\ status_of (heap g') c' = Done o r
    end
}.

Definition updated : system :=
  mkSys g' (<[i := c']> (threads s))
    (hist s ++ match e with Some (o, x) => [EEff i o x] | None => [] end).

Context (Hup : update).

Lemma owned_frame j l : j <> i -> owns (threads s j) = Some l -> heap g' !! l = h !! l.
Proof.
  intros Hj Ho. apply (up_frame Hup).
  - eapply pc_ok_owns; [apply (inv_pc _ _ _ Hinv j) | done].
  - intros Hc. apply Hj. by apply (inv_own_ne _ _ _ Hinv j i l).
Qed.

Lemma threads_eq : threads updated i = c'.
Proof. apply fn_lookup_insert. Qed.

Lemma threads_ne j : j <> i -> threads updated j = threads s j.
Proof. intros. by apply fn_lookup_insert_ne. Qed.

Lemma update_pc j : pc_ok (heap g') stk'.*1 (threads updated j).
Proof.
  destruct (decide (j = i)) as [-> | Hj]; [rewrite threads_eq; apply (up_pc Hup) | rewrite threads_ne by done].
  pose proof (inv_pc _ _ _ Hinv j) as Hok.
  apply (pc_ok_frame h _ stk.*1); [done | intros l; by apply owned_frame |].
  intros l Hl. split; [eapply (up_grow Hup), pc_ok_refs; done |].
  intros [Hin | Hp]%(up_pushed Hup); [| exfalso; by eapply (inv_ref _ _ _ Hinv j i l)].
  split; [done |]. apply (up_frame Hup); [by eapply pc_ok_refs |].
  intros Ho. apply (inv_own _ _ _ Hinv i l Ho). apply elem_of_app. by left.
Qed.

Lemma update_own j l : owns (threads updated j) = Some l -> l ∉ stk'.*1 ++ trs'.*1.
Proof.
  destruct (decide (j = i)) as [-> | Hj]; [rewrite threads_eq; by intros [? _]%(up_own Hup) | rewrite threads_ne by done].
  intros Ho [Hin | Hc]%(up_members Hup); [by apply (inv_own _ _ _ Hinv j l Ho) |].
  apply Hj. by apply (inv_own_ne _ _ _ Hinv j i l).
Qed.

Lemma update_own_new j l : j <> i -> owns c' = Some l -> owns (threads s j) <> Some l.
Proof.
  intros Hj [_ Hl]%(up_own Hup) Ho. destruct Hl as [Hl | [Hl | Hl]].
  - apply Hj. by apply (inv_own_ne _ _ _ Hinv j i l).
  - pose proof (pc_ok_owns _ _ _ _ (inv_pc _ _ _ Hinv j) Ho) as [n Hn]. fold h in Hn. congruence.
  - apply (inv_own _ _ _ Hinv j l Ho). apply elem_of_app. by left.
Qed.

Lemma update_own_ne j k l :
  owns (threads updated j) = Some l -> owns (threads updated k) = Some l -> j = k.
Proof.
  destruct (decide (j = i)) as [-> | Hj], (decide (k = i)) as [-> | Hk];
    rewrite ?threads_eq, ?threads_ne by done; intros H1 H2; [done | | | by apply (inv_own_ne _ _ _ Hinv j k l)].
  - by destruct (update_own_new k l Hk H1).
  - by destruct (update_own_new j l Hj H2).
Qed.

Lemma update_ref j k l : refs (threads updated j) = Some l -> pushing (threads updated k) <> Some l.
Proof.
  destruct (decide (j = i)) as [-> | Hj], (decide (k = i)) as [-> | Hk];
    rewrite ?threads_eq, ?threads_ne by done; intros H1 H2.
  - by destruct c'.
  - destruct (up_refs Hup l H1) as [Hr | Hin]; [by apply (inv_ref _ _ _ Hinv i k l) |].
    apply pushing_owns in H2. apply (inv_own _ _ _ Hinv k l H2). apply elem_of_app. by left.
  - destruct (up_pushing Hup l H2) as [Hp | Hn]; [by apply (inv_ref _ _ _ Hinv j i l) |].
    destruct (pc_ok_refs _ _ _ _ (inv_pc _ _ _ Hinv j) H1) as [n Hs]. fold h in Hs. congruence.
  - by apply (inv_ref _ _ _ Hinv j k l).
Qed.

Lemma update_heap l : is_Some (heap g' !! l) ->
  l ∈ stk'.*1 ++ trs'.*1 \/ exists j, owns (threads updated j) = Some l.
Proof.
  intros [Hin | [Ho | (Hs & Hnin & Hne)]]%(up_heap Hup); [by left | right; exists i; by rewrite threads_eq |].
  destruct (inv_heap _ _ _ Hinv l Hs) as [Hin | [j Hj]]; [done |].
  right. exists j. rewrite threads_ne; [done |]. by intros ->.
Qed.

Lemma update_track j : track j (hist updated) = Some (status_of (heap g') (threads updated j)).
Proof.
  pose proof (inv_track _ _ _ Hinv j) as Ht. pose proof (up_effect Hup) as He.
  cbn [updated hist]. destruct (decide (j = i)) as [-> | Hj].
  - rewrite threads_eq. destruct e as [[o r] |].
    + destruct He as (_ & H1 & H2). rewrite track_snoc, Ht. fold h c. rewrite H1, H2. cbn.
      by rewrite !decide_True.
    + destruct He as [_ H2]. rewrite app_nil_r, Ht. fold h c. by rewrite H2.
  - rewrite threads_ne by done. rewrite (status_frame h) by (intros l; by apply owned_frame).
    destruct e as [[o r] |]; [rewrite track_snoc; cbn; by rewrite decide_False by done | by rewrite app_nil_r].
Qed.

Lemma update_inv : inv updated stk' trs'.
Proof.
  split; cbn [stack updated].
  - apply (up_stack Hup).
  - apply (up_trash Hup).
  - apply (up_nodup Hup).
  - apply update_pc.
  - apply update_own.
  - apply update_own_ne.
  - apply update_ref.
  - apply update_heap.
  - pose proof (up_effect Hup) as He. cbn [hist updated]. pose proof (inv_abs _ _ _ Hinv) as Ha.
    destruct e as [[o r] |]; destruct He as [He _].
    + by rewrite abs_snoc, Ha.
    + by rewrite app_nil_r, Ha, He.
  - apply update_track.
Qed.
End update.

(** ** Every step keeps the invariant, and none faults *)

Section steps.
Context (s : system) (stk trs : list (loc * T)) (Hinv : inv s stk trs) (i : nat).

Let g := stack s.
Let c := threads s i.

(** The effect of a step on the abstract stack and on the thread's status. *)
Definition effect_ok (h' : gmap loc Node) (c' : pc) (e : option (op * option T)) (stk' : list (loc * T)) : Prop :=
  match e with
  | None => stk'.*2 = stk.*2 /\ status_of h' c' = status_of (heap g) c
  | Some (o, r) => abs_step (Some stk.*2) (EEff i o r) = Some stk'.*2 /\
      status_of (heap g) c = Called o /\ status_of h' c' = Done o r
  end.

(** A step that only reads shared memory. *)
Lemma update_read c' e :
  pc_ok (heap g) stk.*1 c' -> owns c' = owns c -> pushing c' = pushing c ->
  (forall l, refs c' = Some l -> refs c = Some l \/ l ∈ stk.*1) ->
  effect_ok (heap g) c' e stk -> update s stk trs i c' g e stk trs.
Proof.
  intros Hpc Ho Hp Hr He.
  split; fold c g; try done.
  - apply (inv_stack _ _ _ Hinv).
  - apply (inv_trash _ _ _ Hinv).
  - apply (inv_nodup _ _ _ Hinv).
  - intros l Hl. rewrite Ho in Hl. split; [by apply (inv_own _ _ _ Hinv i) | by left].
  - intros l Hl. destruct (decide (owns c = Some l)) as [E | E]; [right; left; by rewrite Ho |].
    destruct (decide (l ∈ stk.*1 ++ trs.*1)) as [Hin | Hin]; [by left | right; right; done].
  - auto.
  - auto.
  - intros l Hl. left. by rewrite <- Hp.
Qed.

(** A step that writes the node the thread owns. *)
Lemma update_write c' n nd : owns c = Some n ->
  pc_ok (<[n := nd]> (heap g)) stk.*1 c' -> owns c' = owns c -> pushing c' = pushing c -> refs c' = None ->
  status_of (<[n := nd]> (heap g)) c' = status_of (heap g) c ->
  update s stk trs i c' (mkStack (<[n := nd]> (heap g)) (head g) (trash g)) None stk trs.
Proof.
  intros Hn Hpc Ho Hp Hr Hst.
  pose proof (inv_own _ _ _ Hinv i n Hn) as Hnin. apply not_elem_of_app in Hnin as [Hn1 Hn2].
  assert (forall l, l <> n -> <[n := nd]> (heap g) !! l = heap g !! l) as Hne
    by (intros; by apply lookup_insert_ne).
  split; cbn [heap head trash]; fold c g; try done.
  - apply (chain_frame (heap g)); [apply (inv_stack _ _ _ Hinv) |]. intros l Hl. apply Hne. by intros ->.
  - apply (chain_frame (heap g)); [apply (inv_trash _ _ _ Hinv) |]. intros l Hl. apply Hne. by intros ->.
  - apply (inv_nodup _ _ _ Hinv).
  - intros l _ Hl. apply Hne. congruence.
  - intros l Hl. destruct (decide (l = n)) as [-> |]; [rewrite lookup_insert_eq; eauto | by rewrite Hne].
  - intros l Hl. rewrite Ho in Hl. split; [by apply (inv_own _ _ _ Hinv i) | by left].
  - intros l Hl. destruct (decide (l = n)) as [-> |]; [right; left; by rewrite Ho |].
    rewrite Hne in Hl by done.
    destruct (decide (l ∈ stk.*1 ++ trs.*1)) as [Hin | Hin]; [by left | right; right].
    split_and!; [done | done | congruence].
  - auto.
  - auto.
  - rewrite Hr. done.
  - rewrite Hp. auto.
Qed.

Lemma deref_ok h l n : h !! l = Some n -> deref h l = Ok n.
Proof. unfold deref. by intros ->. Qed.

(** The node at [head] is the first of the chain. *)
Lemma head_on_stack l : head g = Some l -> l ∈ stk.*1.
Proof.
  intros Hl. pose proof (inv_stack _ _ _ Hinv) as Hc. fold g in Hc. rewrite Hl in Hc.
  destruct stk as [| [l' v] ?]; [done |]. destruct Hc as [[= ->] _]. by left.
Qed.

Lemma head_none : head g = None -> stk = [].
Proof.
  intros Hl. pose proof (inv_stack _ _ _ Hinv) as Hc. fold g in Hc. rewrite Hl in Hc.
  destruct stk as [| [l' v] ?]; [done |]. by destruct Hc.
Qed.

(** Reading [head] in [pop], at the first load or at a failed exchange. *)
Lemma update_see : status_of (heap g) c = Called OPop -> owns c = None ->
  update s stk trs i (PopTest (head g)) g (pop_sees (head g)) stk trs.
Proof.
  intros Hst Hown. apply update_read; cbn [owns pushing].
  - destruct (head g) as [l |] eqn:E; cbn; [| done].
    apply (chain_alloc _ _ _ _ (inv_stack _ _ _ Hinv)), head_on_stack. done.
  - by rewrite Hown.
  - destruct (pushing c) eqn:E; [| done]. apply pushing_owns in E. congruence.
  - intros l Hl. right. apply head_on_stack. by destruct (head g).
  - destruct (head g) eqn:E; cbn [pop_sees effect_ok]; [done |].
    rewrite (head_none E). done.
Qed.

(** Changes of what the stack, the trash and the threads hold. *)
Lemma update_alloc v l : c = PushNew v -> heap g !! l = None ->
  update s stk trs i (PushLoad v l) (mkStack (<[l := mkNode v None]> (heap g)) (head g) (trash g)) None stk trs.
Proof.
  intros Hc Hl.
  assert (forall l', is_Some (heap g !! l') -> <[l := mkNode v None]> (heap g) !! l' = heap g !! l') as Hne
    by (intros l' [n Hn]; apply lookup_insert_ne; congruence).
  assert (l ∉ stk.*1 ++ trs.*1) as Hnin.
  { intros [Hin | Hin]%elem_of_app.
    - destruct (chain_alloc _ _ _ _ (inv_stack _ _ _ Hinv) Hin) as [n Hn]. fold g in Hn. congruence.
    - destruct (chain_alloc _ _ _ _ (inv_trash _ _ _ Hinv) Hin) as [n Hn]. fold g in Hn. congruence. }
  split; cbn [heap head trash]; fold c g; rewrite ?Hc; try done.
  - apply (chain_frame (heap g)); [apply (inv_stack _ _ _ Hinv) |]. intros l' Hl'.
    apply Hne. by apply (chain_alloc _ _ _ _ (inv_stack _ _ _ Hinv)).
  - apply (chain_frame (heap g)); [apply (inv_trash _ _ _ Hinv) |]. intros l' Hl'.
    apply Hne. by apply (chain_alloc _ _ _ _ (inv_trash _ _ _ Hinv)).
  - apply (inv_nodup _ _ _ Hinv).
  - cbn. rewrite lookup_insert_eq. eauto.
  - intros l' Hl' _. by apply Hne.
  - intros l' Hl'. by rewrite Hne.
  - intros l' [= <-]. auto.
  - intros l' Hl'. destruct (decide (l' = l)) as [-> | Hd]; [by right; left |].
    rewrite lookup_insert_ne in Hl' by done.
    destruct (decide (l' ∈ stk.*1 ++ trs.*1)) as [Hin | Hin]; [by left | right; right; done].
  - auto.
  - auto.
  - intros l' [= <-]. auto.
Qed.

Lemma update_push v n old : c = PushCas v n old -> head g = old ->
  update s stk trs i (PushRet v) (mkStack (heap g) (Some n) (trash g)) (Some (OPush v, None)) ((n, v) :: stk) trs.
Proof.
  intros Hc Hh. pose proof (inv_pc _ _ _ Hinv i) as Hok. fold c g in Hok. rewrite Hc in Hok. cbn in Hok.
  assert (Hown : owns c = Some n) by (by rewrite Hc).
  pose proof (inv_own _ _ _ Hinv i n Hown) as Hnin.
  split; cbn [heap head trash fmap list_fmap fst snd app]; fold c g; try done.
  - cbn. split; [done |]. exists old. split; [done |]. rewrite <- Hh. apply (inv_stack _ _ _ Hinv).
  - apply (inv_trash _ _ _ Hinv).
  - apply list.NoDup_cons. split; [done | apply (inv_nodup _ _ _ Hinv)].
  - intros l Hl. destruct (decide (l = n)) as [-> |]; [left; by left |].
    destruct (decide (l ∈ stk.*1 ++ trs.*1)) as [Hin | Hin]; [left; by right | right; right].
    split_and!; [done | done | congruence].
  - intros l [-> | Hin]%elem_of_cons; [by right | by left].
  - intros l [-> | Hin]%elem_of_cons; [right; by rewrite Hc | by left].
  - rewrite Hc. split; [by destruct stk | done].
Qed.

Lemma update_pop old new v nx stk' : c = PopCas old new -> stk = (old, v) :: stk' ->
  heap g !! old = Some (mkNode v nx) -> new = nx ->
  update s stk trs i (PopValue old) (mkStack (heap g) new (trash g)) (Some (OPop, Some v)) stk' trs.
Proof.
  intros Hc Hstk Hold ->. pose proof (inv_nodup _ _ _ Hinv) as Hnd.
  pose proof (inv_stack _ _ _ Hinv) as Hch. fold g in Hch.
  split; cbn [heap head trash]; fold c g; rewrite ?Hc, ?Hstk; rewrite Hstk in Hnd, Hch;
    cbn [fmap list_fmap fst snd app] in *; apply list.NoDup_cons in Hnd as [Hnin Hnd]; try done.
  - destruct Hch as [_ (nx' & Hl & Hch)]. congruence.
  - apply (inv_trash _ _ _ Hinv).
  - cbn. by rewrite Hold.
  - intros l [= <-]. split; [done |]. right. right. by left.
  - intros l Hl. destruct (decide (l = old)) as [-> | Hd]; [by right; left |].
    destruct (decide (l ∈ stk'.*1 ++ trs.*1)) as [Hin | Hin]; [by left | right; right].
    split_and!; [done | | done]. by apply not_elem_of_cons.
  - intros l Hl. left. by right.
  - intros l Hl. left. by right.
  - cbn. rewrite decide_True by done. by rewrite Hold.
Qed.

Lemma update_trash x old t v : c = PopTrashCas x old t -> trash g = t ->
  heap g !! old = Some (mkNode v t) ->
  update s stk trs i (PopRet (Some x)) (mkStack (heap g) (head g) (Some old)) None stk ((old, v) :: trs).
Proof.
  intros Hc Ht Hold.
  assert (Hown : owns c = Some old) by (by rewrite Hc).
  pose proof (inv_own _ _ _ Hinv i old Hown) as Hnin.
  assert (Hp : stk.*1 ++ old :: trs.*1 ≡ₚ old :: stk.*1 ++ trs.*1) by (symmetry; apply Permutation_middle).
  split; cbn [heap head trash fmap list_fmap fst snd app]; fold c g; try done.
  - apply (inv_stack _ _ _ Hinv).
  - cbn. split; [done |]. exists t. split; [done |]. rewrite <- Ht. apply (inv_trash _ _ _ Hinv).
  - rewrite Hp. apply list.NoDup_cons. split; [done | apply (inv_nodup _ _ _ Hinv)].
  - intros l Hl. rewrite Hp. destruct (decide (l = old)) as [-> |]; [left; by left |].
    destruct (decide (l ∈ stk.*1 ++ trs.*1)) as [Hin | Hin]; [left; by right | right; right].
    split_and!; [done | done | congruence].
  - intros l. rewrite Hp. intros [-> | Hin]%elem_of_cons; [by right | by left].
  - auto.
  - rewrite Hc. split_and!; done.
Qed.

(** Some update of the invariant's lists accounts for the step. *)
Definition accounted (r : res (pc * TreiberStack * option (op * option T))) : Prop :=
  exists c' g' e stk' trs', r = Ok (c', g', e) /\ update s stk trs i c' g' e stk' trs'.

Lemma accounted_intro c' g' e stk' trs' : update s stk trs i c' g' e stk' trs' -> accounted (Ok (c', g', e)).
Proof. intros. by exists c', g', e, stk', trs'. Qed.

Ltac by_read Hc :=
  eapply accounted_intro, update_read; unfold effect_ok; fold c g; rewrite ?Hc; try done.
Ltac by_write Hc :=
  eapply accounted_intro, update_write; fold c g; rewrite ?Hc; try done; cbn; rewrite ?lookup_insert_eq; eauto.

Lemma push_step_ok sp l r : push_step c sp l g = Some r -> accounted r.
Proof.
  pose proof (inv_pc _ _ _ Hinv i) as Hok. fold g c in Hok.
  intros Hs. destruct c eqn:Hc; try discriminate Hs; cbn [push_step] in Hs.
  - destruct (heap g !! l) eqn:Hl; [done |]. injection Hs as <-.
    eapply accounted_intro, update_alloc; done.
  - injection Hs as <-. by_read Hc.
  - injection Hs as <-. destruct Hok as [nx Hn]. unfold set_next. rewrite (deref_ok _ _ _ Hn). by_write Hc.
  - injection Hs as <-. destruct (negb sp && bool_decide (head g = oldHead)) eqn:E.
    + apply andb_true_iff in E as [_ E%bool_decide_eq_true].
      eapply accounted_intro, update_push; done.
    + by_read Hc. cbn in *. eauto.
Qed.

Lemma pop_cas_ok old new n : c = PopCas old new -> head g = Some old ->
  deref (heap g) old = Ok n -> accounted (Ok (PopValue old, mkStack (heap g) new (trash g), Some (OPop, Some (value n)))).
Proof.
  intros Hc E Hd. pose proof (inv_pc _ _ _ Hinv i) as Hok. fold g c in Hok. rewrite Hc in Hok.
  destruct Hok as [_ Hn]. destruct (Hn (head_on_stack _ E)) as [v Hv].
  rewrite (deref_ok _ _ _ Hv) in Hd. injection Hd as <-.
  pose proof (inv_stack _ _ _ Hinv) as Hch. fold g in Hch. rewrite E in Hch.
  assert (stk = [] \/ exists lv stk', stk = lv :: stk') as [Hstk | ([l' v'] & stk' & Hstk)]
    by (destruct stk; eauto); rewrite Hstk in Hch; [done |].
  destruct Hch as [[= <-] (nx & Hl & Hch)]. rewrite Hv in Hl. injection Hl as <- <-.
  eapply accounted_intro, update_pop; done.
Qed.

Lemma pop_step_ok sp r : pop_step c sp g = Some r -> accounted r.
Proof.
  pose proof (inv_pc _ _ _ Hinv i) as Hok. fold g c in Hok.
  intros Hs. destruct c as [| | | | | | | [old |] | old new | old | x old | x old t | x old t |] eqn:Hc;
    try discriminate Hs; cbn [pop_step] in Hs; injection Hs as <-.
  - eapply accounted_intro, update_see; fold c; rewrite ?Hc; done.
  - destruct Hok as [n Hn]. rewrite (deref_ok _ _ _ Hn), res_bind_Ok. by_read Hc; [| intros; by left].
    split; [eauto |]. intros _. exists (value n). by destruct n.
  - by_read Hc.
  - destruct (negb sp && bool_decide (head g = Some old)) eqn:E.
    + apply andb_true_iff in E as [_ E%bool_decide_eq_true]. destruct Hok as [[n Hn] _].
      rewrite (deref_ok _ _ _ Hn), res_bind_Ok. eapply pop_cas_ok; [done | done | by apply deref_ok].
    + eapply accounted_intro, update_see; fold c; rewrite ?Hc; done.
  - destruct Hok as [n Hn]. rewrite (deref_ok _ _ _ Hn), res_bind_Ok. by_read Hc.
    + cbn. eauto.
    + cbn. by rewrite Hn.
  - by_read Hc.
  - destruct Hok as [n Hn]. unfold set_next. rewrite (deref_ok _ _ _ Hn). by_write Hc.
  - destruct (negb sp && bool_decide (trash g = t)) eqn:E.
    + apply andb_true_iff in E as [_ E%bool_decide_eq_true]. destruct Hok as [v Hv].
      eapply accounted_intro, update_trash; done.
    + by_read Hc. cbn in *. destruct Hok; eauto.
Qed.

Lemma tstep_ok sp l r : tstep c sp l g = Some r -> accounted r.
Proof. intros Hs. unfold tstep in Hs. destruct c eqn:E; rewrite <- E in *; eauto using push_step_ok, pop_step_ok. Qed.
End steps.

(** A call or a return: the thread holds no node before and after it. *)
Lemma inv_boundary s stk trs i c' ev : inv s stk trs ->
  owns (threads s i) = None -> refs (threads s i) = None ->
  owns c' = None -> refs c' = None -> pc_ok (heap (stack s)) stk.*1 c' ->
  (forall st, abs_step st ev = st) ->
  (forall j, j <> i -> forall st, track_step j st ev = st) ->
  track_step i (Some (status_of (heap (stack s)) (threads s i))) ev = Some (status_of (heap (stack s)) c') ->
  inv (mkSys (stack s) (<[i := c']> (threads s)) (hist s ++ [ev])) stk trs.
Proof.
  intros Hinv Ho Hr Ho' Hr' Hpc Habs Hj Hi.
  assert (Hth : forall (A : Type) (f : pc -> option A), f (threads s i) = None -> f c' = None ->
            forall j, f (<[i := c']> (threads s) j) = f (threads s j)).
  { intros A f H1 H2 j. destruct (decide (j = i)) as [-> |]; [by rewrite fn_lookup_insert, H1 | by rewrite fn_lookup_insert_ne]. }
  assert (Hp : forall c, owns c = None -> pushing c = None) by (by intros []).
  split; cbn [stack threads hist].
  - apply (inv_stack _ _ _ Hinv).
  - apply (inv_trash _ _ _ Hinv).
  - apply (inv_nodup _ _ _ Hinv).
  - intros j. destruct (decide (j = i)) as [-> |]; [by rewrite fn_lookup_insert |].
    rewrite fn_lookup_insert_ne by done. apply (inv_pc _ _ _ Hinv).
  - intros j l. rewrite (Hth _ owns) by done. apply (inv_own _ _ _ Hinv).
  - intros j k l. rewrite !(Hth _ owns) by done. apply (inv_own_ne _ _ _ Hinv).
  - intros j k l. rewrite (Hth _ refs), (Hth _ pushing) by auto. apply (inv_ref _ _ _ Hinv).
  - intros l Hl. destruct (inv_heap _ _ _ Hinv l Hl) as [? | [j Hown]]; [by left | right].
    exists j. by rewrite (Hth _ owns).
  - rewrite abs_snoc, Habs. apply (inv_abs _ _ _ Hinv).
  - intros j. rewrite track_snoc, (inv_track _ _ _ Hinv). destruct (decide (j = i)) as [-> |].
    + by rewrite fn_lookup_insert.
    + rewrite fn_lookup_insert_ne by done. by apply Hj.
Qed.

Lemma inv_init : inv init [] [].
Proof.
  split; cbn; try done.
  - constructor.
  - intros l. rewrite lookup_empty. by intros [? ?].
Qed.

(** No action faults, and each keeps the invariant. *)
Lemma inv_exec a s stk trs r : inv s stk trs -> exec a s = Some r ->
  exists s' stk' trs', r = Ok s' /\ inv s' stk' trs'.
Proof.
  intros Hinv Hex. destruct a as [i o | i sp l | i]; cbn [exec] in Hex.
  - destruct (threads s i) eqn:Hc; try discriminate Hex. injection Hex as <-.
    eexists _, stk, trs. split; [done |].
    apply inv_boundary; rewrite ?Hc; try done; try (by destruct o).
    + intros [[|] |]; done.
    + intros j Hj st. cbn. by rewrite decide_False.
    + cbn. rewrite decide_True by done. by destruct o.
  - destruct (tstep (threads s i) sp l (stack s)) as [r' |] eqn:Hs; [| done].
    destruct (tstep_ok s stk trs Hinv i sp l r' Hs) as (c' & g' & e & stk' & trs' & -> & Hup).
    injection Hex as <-. eexists _, stk', trs'. split; [done |]. by apply (update_inv s stk trs).
  - destruct (returning (threads s i)) as [[o x] |] eqn:Hret; [| done]. injection Hex as <-.
    eexists _, stk, trs. split; [done |].
    destruct (threads s i) eqn:Hc; try discriminate Hret; injection Hret as <- <-;
      (apply inv_boundary; rewrite ?Hc; try done;
       [by intros [[|] |] | intros j Hj st; cbn; by rewrite decide_False |
        cbn; rewrite decide_True by done; by rewrite decide_True]).
Qed.

Lemma inv_reachable s : star step init s -> exists stk trs, inv s stk trs.
Proof.
  apply (star_invariant step (fun s => exists stk trs, inv s stk trs)); [| exists [], []; apply inv_init].
  intros s1 s2 (stk & trs & Hinv) (a & Ha).
  destruct (inv_exec a s1 stk trs _ Hinv Ha) as (s' & stk' & trs' & [= ->] & Hinv'). eauto.
Qed.

(** ** The destructor *)

Lemma free_list_ok ls : forall fuel p h, chain h p ls -> NoDup ls.*1 -> (length ls <= fuel)%nat ->
  exists h', free_list fuel p h = Ok h' /\
    forall l, h' !! l = if decide (l ∈ ls.*1) then None else h !! l.
Proof.
  induction ls as [| [l v] ls IH]; intros fuel p h Hc Hnd Hf.
  - cbn in Hc. subst p. exists h. split; [by destruct fuel |]. intros l. by rewrite decide_False by apply not_elem_of_nil.
  - destruct Hc as [-> (nx & Hl & Hc)]. destruct fuel as [| fuel]; [cbn in Hf; lia |]. cbn [free_list].
    rewrite (deref_ok _ _ _ Hl), res_bind_Ok. cbv beta. cbn [next].
    apply list.NoDup_cons in Hnd as [Hnin Hnd].
    destruct (IH fuel nx (delete l h)) as (h' & Hrun & Hh'); [| done | cbn in Hf; lia |].
    + apply (chain_frame h); [done |]. intros l' Hl'. apply lookup_delete_ne. by intros ->.
    + exists h'. split; [done |]. intros l'. rewrite Hh'. cbn [fmap list_fmap fst].
      destruct (decide (l' = l)) as [-> | Hd].
      * rewrite (decide_True (P := l ∈ l :: _)) by (by left). case_decide; [done | apply lookup_delete_eq].
      * rewrite lookup_delete_ne by done. destruct (decide (l' ∈ ls.*1)) as [Hin | Hin].
        -- by rewrite decide_True by (by right).
        -- rewrite decide_False; [done |]. by apply not_elem_of_cons.
Qed.

(** A chain without repetition is no longer than the heap. *)
Lemma chain_length h p ls : chain h p ls -> NoDup ls.*1 -> (length ls <= size h)%nat.
Proof.
  intros Hc Hnd. rewrite <- (length_fmap fst ls), <- (size_list_to_set (C := gset loc)) by done.
  rewrite <- size_dom. apply subseteq_size. intros l Hl%elem_of_list_to_set.
  apply elem_of_dom. by apply (chain_alloc h p ls).
Qed.

Lemma destroy_ok s stk trs : inv s stk trs -> (forall i, threads s i = Idle) ->
  destroy (size (heap (stack s))) (stack s) = Ok ∅.
Proof.
  intros Hinv Hidle. unfold destroy.
  pose proof (inv_nodup _ _ _ Hinv) as (Hnd1 & Hdisj & Hnd2)%list.NoDup_app.
  pose proof (inv_stack _ _ _ Hinv) as Hs. pose proof (inv_trash _ _ _ Hinv) as Ht.
  destruct (free_list_ok stk (size (heap (stack s))) _ _ Hs Hnd1) as (h1 & -> & Hh1);
    [by eapply chain_length |].
  rewrite res_bind_Ok. cbv beta.
  destruct (free_list_ok trs (size (heap (stack s))) (trash (stack s)) h1) as (h2 & -> & Hh2); [| done | |].
  - apply (chain_frame _ _ _ _ Ht). intros l Hl. rewrite Hh1, decide_False; [done |].
    intros Hin. by apply (Hdisj l).
  - by eapply (chain_length _ _ _ Ht).
  - f_equal. apply map_eq. intros l. rewrite Hh2, Hh1, lookup_empty.
    do 2 (case_decide; [done |]). destruct (heap (stack s) !! l) eqn:E; [exfalso | done].
    destruct (inv_heap _ _ _ Hinv l) as [[? | ?]%elem_of_app | [i Hi]]; [by eexists | done | done |].
    by rewrite Hidle in Hi.
Qed.

(** ** A thread that runs alone *)

(** A schedule; [None] when an action of it is not possible. *)
Fixpoint run (acts : list act) (s : system) : option (res system) :=
  match acts with
  | [] => Some (Ok s)
  | a :: acts' =>
      match exec a s with
      | Some (Ok s') => run acts' s'
      | r => r
      end
  end.

Lemma run_star acts : forall s s', run acts s = Some (Ok s') -> star step s s'.
Proof.
  induction acts as [| a acts IH]; intros s s' Hr; cbn in Hr.
  - injection Hr as <-. apply star_refl.
  - destruct (exec a s) as [[s1 |] |] eqn:E; try done. eapply star_step; [by exists a | by apply IH].
Qed.

Section solo.
Context (l : loc).

(** In at most [n] steps of its own the thread is about to return. *)
Fixpoint solo (n : nat) (c : pc) (g : TreiberStack) : bool :=
  match returning c, n with
  | Some _, _ => true
  | None, O => false
  | None, S n' =>
      match tstep c false l g with Some (Ok (c', g', _)) => solo n' c' g' | _ => false end
  end.

Lemma solo_step n c g c' g' e : tstep c false l g = Some (Ok (c', g', e)) -> solo n c' g' = true ->
  solo (S n) c g = true.
Proof. intros Hs Hn. cbn [solo]. destruct (returning c); [done |]. by rewrite Hs. Qed.

Lemma solo_returning n c g : is_Some (returning c) -> solo n c g = true.
Proof. intros [x Hx]. destruct n; cbn [solo]; by rewrite Hx. Qed.

Lemma solo_mono n : forall m c g, (n <= m)%nat -> solo n c g = true -> solo m c g = true.
Proof.
  induction n as [| n IH]; intros m c g Hle Hs; cbn [solo] in Hs.
  - destruct (returning c) eqn:E; [| done]. apply solo_returning. by rewrite E.
  - destruct m as [| m]; [lia |]. cbn [solo]. destruct (returning c); [done |].
    destruct (tstep c false l g) as [[[[c' g'] e] |] |]; [| done..]. apply (IH m); [lia | done].
Qed.

Definition has (g : TreiberStack) (n : loc) : Prop := is_Some (heap g !! n).

Lemma cas_taken (p : option loc) : negb false && bool_decide (p = p) = true.
Proof. by rewrite bool_decide_true. Qed.

Lemma solo_push_link v n g : has g n -> solo 2 (PushLink v n (head g)) g = true.
Proof.
  intros [nd Hn]. eapply solo_step; [cbn; unfold set_next; by rewrite (deref_ok _ _ _ Hn) |].
  eapply solo_step; [cbn [tstep push_step head]; by rewrite cas_taken |]. by apply solo_returning.
Qed.

Lemma solo_push_cas v n old g : has g n -> solo 3 (PushCas v n old) g = true.
Proof.
  intros Hn. cbn [solo returning tstep push_step]. case_if; [done | by apply solo_push_link].
Qed.

Lemma solo_trash_link x old g : has g old -> solo 2 (PopTrashLink x old (trash g)) g = true.
Proof.
  intros [nd Hn]. eapply solo_step; [cbn; unfold set_next; by rewrite (deref_ok _ _ _ Hn) |].
  eapply solo_step; [cbn [tstep pop_step trash]; by rewrite cas_taken |]. by apply solo_returning.
Qed.

Lemma solo_trash_cas x old t g : has g old -> solo 3 (PopTrashCas x old t) g = true.
Proof.
  intros Hn. cbn [solo returning tstep pop_step]. case_if; [done | by apply solo_trash_link].
Qed.

Lemma solo_value old g : has g old -> solo 4 (PopValue old) g = true.
Proof.
  intros Hn. pose proof Hn as [nd Hd].
  eapply solo_step; [cbn; by rewrite (deref_ok _ _ _ Hd) |].
  eapply solo_step; [done |]. by apply solo_trash_link.
Qed.

(** [head] points at a node, if anywhere. *)
Definition head_ok (g : TreiberStack) : Prop := forall n, head g = Some n -> has g n.

Lemma solo_test g : head_ok g -> solo 6 (PopTest (head g)) g = true.
Proof.
  intros Hh. destruct (head g) as [old |] eqn:E; [| done].
  destruct (Hh old E) as [nd Hd].
  eapply solo_step; [cbn; by rewrite (deref_ok _ _ _ Hd) |].
  eapply solo_step; [cbn [tstep pop_step]; rewrite E, cas_taken; cbn; by rewrite (deref_ok _ _ _ Hd) |].
  apply solo_value. by exists nd.
Qed.

Lemma solo_pop_cas old new g : head_ok g -> has g old -> solo 7 (PopCas old new) g = true.
Proof.
  intros Hh [nd Hd]. cbn [tstep pop_step].
  destruct (bool_decide_reflect (head g = Some old)) as [E |].
  - eapply solo_step; [cbn [tstep pop_step]; rewrite E, cas_taken; cbn; by rewrite (deref_ok _ _ _ Hd) |].
    apply (solo_mono 4); [lia |]. apply solo_value. by exists nd.
  - eapply solo_step; [cbn [tstep pop_step]; by rewrite bool_decide_false by done |]. by apply solo_test.
Qed.

Lemma solo_any g stk c : head_ok g -> pc_ok (heap g) stk c -> heap g !! l = None -> c <> Idle ->
  solo 8 c g = true.
Proof.
  intros Hh Hok Hl Hne.
  destruct c as [| v | v n | v n old | v n old | v | | [old |] | old new | old | x old | x old t | x old t | r];
    try done; cbn in Hok.
  - eapply solo_step; [cbn; by rewrite Hl |]. eapply solo_step; [done |].
    apply (solo_mono 2); [lia |]. apply solo_push_link. unfold has. cbn. rewrite lookup_insert_eq. eauto.
  - eapply solo_step; [done |]. apply (solo_mono 2); [lia |]. apply solo_push_link. destruct Hok. eexists. done.
  - destruct Hok as [nx Hn]. eapply solo_step; [cbn; unfold set_next; by rewrite (deref_ok _ _ _ Hn) |].
    apply (solo_mono 3); [lia |]. apply solo_push_cas. unfold has. cbn. rewrite lookup_insert_eq. eauto.
  - apply (solo_mono 3); [lia |]. apply solo_push_cas. eexists. done.
  - eapply solo_step; [done |]. apply (solo_mono 6); [lia |]. by apply solo_test.
  - destruct Hok as [nd Hd]. eapply solo_step; [cbn; by rewrite (deref_ok _ _ _ Hd) |].
    apply solo_pop_cas; [done | by exists nd].
  - apply (solo_mono 7); [lia |]. apply solo_pop_cas; [done | by destruct Hok].
  - apply (solo_mono 4); [lia |]. by apply solo_value.
  - eapply solo_step; [done |]. apply (solo_mono 2); [lia |]. by apply solo_trash_link.
  - destruct Hok as [nd Hd]. eapply solo_step; [cbn; unfold set_next; by rewrite (deref_ok _ _ _ Hd) |].
    apply (solo_mono 3); [lia |]. apply solo_trash_cas. unfold has. cbn. rewrite lookup_insert_eq. eauto.
  - apply (solo_mono 3); [lia |]. apply solo_trash_cas. destruct Hok. eexists. done.
Qed.

Lemma solo_run i n : forall s, solo n (threads s i) (stack s) = true ->
  exists k s', (k <= n)%nat /\ run (replicate k (AStep i false l)) s = Some (Ok s') /\
    is_Some (returning (threads s' i)).
Proof.
  induction n as [| n IH]; intros s Hs; cbn [solo] in Hs; destruct (returning (threads s i)) eqn:E.
  - exists 0%nat, s. rewrite E. eauto.
  - done.
  - exists 0%nat, s. rewrite E. split; [lia | eauto].
  - destruct (tstep (threads s i) false l (stack s)) as [[[[c' g'] e] |] |] eqn:Hst; [| done..].
    destruct (IH (mkSys g' (<[i := c']> (threads s))
      (hist s ++ match e with Some (o, x) => [EEff i o x] | None => [] end))) as (k & s' & Hk & Hr & Hret).
    { cbn. by rewrite fn_lookup_insert. }
    exists (S k), s'. split; [lia |]. split; [| done].
    cbn [replicate run exec]. rewrite Hst. cbn. done.
Qed.
End solo.
End treiber.

(** ** Properties *)

Section properties.
Context {T : Type} `{EqDecision T}.

(** C11. Linearizability.  In every interleaving of any number of threads,
    with spurious failures and any choice of addresses, the operations in the
    order in which they take effect are a run of a stack, which holds what
    the nodes from [head] on hold; and each thread's operations take effect
    once, between call and return, with the result returned. *)
Theorem treiber_linearizable (s : system (T := T)) : star step init s ->
  exists stk, chain (heap (stack s)) (head (stack s)) stk /\
    abs (hist s) = Some stk.*2 /\
    forall i, track i (hist s) = Some (status_of (heap (stack s)) (threads s i)).
Proof.
  intros (stk & trs & Hinv)%inv_reachable. exists stk.
  split_and!; [apply Hinv | apply Hinv | apply Hinv].
Qed.

(** C13. Well-formedness of every reachable state: each allocated node is in
    exactly one place, the stack, the trash, or the hands of one thread (so
    none leaks and none is retired twice), and no step of any thread touches
    memory that is not a node. *)
Theorem treiber_well_formed (s : system (T := T)) : star step init s ->
  exists stk trs,
    chain (heap (stack s)) (head (stack s)) stk /\ chain (heap (stack s)) (trash (stack s)) trs /\
    NoDup (stk.*1 ++ trs.*1) /\
    (forall l, is_Some (heap (stack s) !! l) <->
       l ∈ stk.*1 ++ trs.*1 \/ exists i, owns (threads s i) = Some l) /\
    (forall i l, owns (threads s i) = Some l ->
       (l ∉ stk.*1 ++ trs.*1) /\ forall j, owns (threads s j) = Some l -> j = i) /\
    (forall a r, exec a s = Some r -> exists s', r = Ok s').
Proof.
  intros (stk & trs & Hinv)%inv_reachable. exists stk, trs.
  split_and!; [apply Hinv | apply Hinv | apply Hinv | | |].
  - intros l. split; [apply Hinv |]. intros [[Hin | Hin]%elem_of_app | [i Hi]].
    + by apply (chain_alloc _ _ _ _ (inv_stack _ _ _ Hinv)).
    + by apply (chain_alloc _ _ _ _ (inv_trash _ _ _ Hinv)).
    + by apply (pc_ok_owns _ _ _ _ (inv_pc _ _ _ Hinv i)).
  - intros i l Hi. split; [by apply (inv_own _ _ _ Hinv i) |].
    intros j Hj. by apply (inv_own_ne _ _ _ Hinv j i l).
  - intros a r Hr. destruct (inv_exec a s stk trs r Hinv Hr) as (s' & _ & _ & -> & _). eauto.
Qed.

(** C35. Once every thread has returned, the destructor frees every node
    exactly once, the retired ones included, and touches no freed one. *)
Theorem destroy_frees_all (s : system (T := T)) : star step init s ->
  (forall i, threads s i = Idle) ->
  destroy (size (heap (stack s))) (stack s) = Ok ∅.
Proof. intros (stk & trs & Hinv)%inv_reachable. by apply (destroy_ok s stk trs). Qed.

(** C33. Progress without interference: from any reachable state, a thread in
    the middle of an operation that runs alone, its exchanges not failing
    spuriously, is about to return within 8 of its own steps, whatever the
    others were doing when they stopped. *)
Theorem solo_progress (s : system (T := T)) i l : star step init s ->
  threads s i <> Idle -> heap (stack s) !! l = None ->
  exists k s', (k <= 8)%nat /\ run (replicate k (AStep i false l)) s = Some (Ok s') /\
    is_Some (returning (threads s' i)).
Proof.
  intros (stk & trs & Hinv)%inv_reachable Hne Hl. apply solo_run.
  apply (solo_any l _ stk.*1); [| apply (inv_pc _ _ _ Hinv) | done | done].
  intros n Hn. by eapply (chain_alloc _ _ _ _ (inv_stack _ _ _ Hinv)), head_on_stack.
Qed.
End properties.

(** *** Witnesses

    Two threads: thread 0 pushes 5; thread 1 starts a pop and reads the node;
    thread 0 pops it and pushes 6; thread 1's exchange fails, it retries and
    pops 6. *)

Definition race : list (act (T := Z)) :=
  [ACall 0 (OPush 5); AStep 0 false 1; AStep 0 false 1; AStep 0 false 1; AStep 0 true 1; AStep 0 false 1;
   AStep 0 false 1; ARet 0; ACall 1 OPop; AStep 1 false 1; AStep 1 false 1; ACall 0 OPop] ++
  replicate 7 (AStep 0 false 1) ++ [ARet 0; ACall 0 (OPush 6)] ++ replicate 4 (AStep 0 false 2) ++
  [ARet 0] ++ replicate 7 (AStep 1 false 3).

Definition after (acts : list (act (T := Z))) : system :=
  match run acts init with Some (Ok s) => s | _ => init end.

Definition raced : system := after race.

Lemma raced_reachable : star step init raced.
Proof. apply (run_star race). vm_compute. reflexivity. Qed.

Example raced_result :
  threads raced 1%nat = PopRet (Some 6) /\ abs (hist raced) = Some [] /\ threads raced 0%nat = Idle.
Proof. vm_compute. done. Qed.

Lemma treiber_linearizable_witness :
  exists stk, chain (heap (stack raced)) (head (stack raced)) stk /\
    abs (hist raced) = Some stk.*2 /\
    forall i, track i (hist raced) = Some (status_of (heap (stack raced)) (threads raced i)).
Proof. apply (treiber_linearizable raced). apply raced_reachable. Defined.

Lemma treiber_well_formed_witness :
  exists stk trs,
    chain (heap (stack raced)) (head (stack raced)) stk /\ chain (heap (stack raced)) (trash (stack raced)) trs /\
    NoDup (stk.*1 ++ trs.*1) /\
    (forall l, is_Some (heap (stack raced) !! l) <->
       l ∈ stk.*1 ++ trs.*1 \/ exists i, owns (threads raced i) = Some l) /\
    (forall i l, owns (threads raced i) = Some l ->
       (l ∉ stk.*1 ++ trs.*1) /\ forall j, owns (threads raced j) = Some l -> j = i) /\
    (forall a r, exec a raced = Some r -> exists s', r = Ok s').
Proof. apply (treiber_well_formed raced). apply raced_reachable. Defined.

(** The same run, the second pop returned. *)
Definition raced_done : system := after (race ++ [ARet 1]).

Lemma destroy_frees_all_witness :
  size (heap (stack raced_done)) = 2%nat /\ destroy (size (heap (stack raced_done))) (stack raced_done) = Ok ∅.
Proof.
  split; [vm_compute; reflexivity |]. apply (destroy_frees_all raced_done).
  - apply (run_star (race ++ [ARet 1])). vm_compute. reflexivity.
  - intros [| [| i]]; vm_compute; reflexivity.
Defined.

(** Thread 1 stopped in the middle of its pop, its node popped by thread 0. *)
Definition raced_mid : system := after (take 20 race).

Lemma solo_progress_witness :
  exists k s', (k <= 8)%nat /\ run (replicate k (AStep 1 false 7)) raced_mid = Some (Ok s') /\
    is_Some (returning (threads s' 1%nat)).
Proof.
  apply (solo_progress raced_mid 1 7).
  - apply (run_star (take 20 race)). vm_compute. reflexivity.
  - vm_compute. discriminate.
  - vm_compute. reflexivity.
Defined.
