(* ===== verification/TreiberMain.v ===== *)
(** * TreiberMain

    The stress test of 02-treiber_lock_free_stack/main.cpp: four producers,
    four consumers and [main], as threads that use the stack of [Treiber];
    every interleaving of their steps with those of the stack. *)

From S2P Require Import Prelude Treiber.
From stdpp Require Import functions.
#[local] Open Scope Z_scope.

(** [#define STRESS_TEST_N 10000] *)
Definition STRESS_TEST_N : Z := 10000.

Section stress.
(** The number of values of each producer; [STRESS_TEST_N] in the program. *)
Context (N : Z).

(** ** The threads of the test *)

(** Where a thread of the test stands.  Threads 0 to 3 are the producers, 4
    to 7 the consumers. *)
Inductive client :=
| Producing (i limit : Z)      (* the loop test of producer *)
| Pushing (i limit : Z)        (* stack.push(i) *)
| Produced                     (* producer has returned *)
| ConsTest (cons_set : gset Z)   (* !done.load() *)
| ConsEmpty (cons_set : gset Z)  (* done was set: !stack.empty() *)
| ConsPop (cons_set : gset Z)    (* stack.pop() *)
| Consumed (cons_set : gset Z)   (* consumer has returned its set *)
| Absent.

(** [main]: joining the producers, merging what the consumers return, and
    what it printed; at the end the stack is destroyed. *)
Inductive report := PASS (expected : Z) | FAIL (got expected : Z).

Inductive main_pc :=
| Joining (k : nat)
| Getting (k : nat) (all_sets : gset Z)
| Printed (r : report)
| Exited (r : report) (h : gmap loc (Node (T := Z))).

Record world := mkWorld {
  sys : system (T := Z); clients : nat -> client; done : bool; main_at : main_pc
}.

Definition set_sys (w : world) (s : system (T := Z)) : world := mkWorld s (clients w) (done w) (main_at w).
Definition set_client (w : world) (i : nat) (c : client) : world :=
  mkWorld (sys w) (<[i := c]> (clients w)) (done w) (main_at w).
Definition set_main (w : world) (m : main_pc) : world := mkWorld (sys w) (clients w) (done w) m.

(** A call of thread [i] into the stack, and the return from it. *)
Definition call (i : nat) (o : op (T := Z)) (c : client) (w : world) : option (res world) :=
  r ← exec (ACall i o) (sys w); Some (s ← r; Ok (set_client (set_sys w s) i c)).

Definition return_ (i : nat) (c : option Z -> client) (w : world) : option (res world) :=
  '(_, x) ← returning (threads (sys w) i);
  r ← exec (ARet i) (sys w); Some (s ← r; Ok (set_client (set_sys w s) i (c x))).

Definition insert_value (x : option Z) (cons_set : gset Z) : gset Z :=
  match x with Some v => {[v]} ∪ cons_set | None => cons_set end.

(** A step of the code of [producer] or [consumer]. *)
Definition client_step (i : nat) (w : world) : option (res world) :=
  match clients w i with
  | Producing v limit =>
      if v <? limit then call i (OPush v) (Pushing v limit) w
      else Some (Ok (set_client w i Produced))
  | Pushing v limit => return_ i (fun _ => Producing (v + 1) limit) w
  | ConsTest set =>
      if negb (done w) then call i OPop (ConsPop set) w
      else Some (Ok (set_client w i (ConsEmpty set)))
  | ConsEmpty set =>
      if negb (Treiber.empty (stack (sys w))) then call i OPop (ConsPop set) w
      else Some (Ok (set_client w i (Consumed set)))
  | ConsPop set => return_ i (fun x => ConsTest (insert_value x set)) w
  | Produced | Consumed _ | Absent => None
  end.

(** The checks on the merged set. *)
Definition check (all_sets : gset Z) : report :=
  let expected := i32 (4 * N) in
  let ok := (i32 (Z.of_nat (size all_sets)) =? expected) &&
            forallb (fun i => bool_decide (i ∈ all_sets)) (seqZ 0 expected) in
  if ok then PASS expected else FAIL (Z.of_nat (size all_sets)) expected.

Definition main_step (w : world) : option (res world) :=
  match main_at w with
  | Joining k =>
      if (k <? 4)%nat then
        match clients w k with Produced => Some (Ok (set_main w (Joining (S k)))) | _ => None end
      else Some (Ok (mkWorld (sys w) (clients w) true (Getting 0 ∅)))
  | Getting k all_sets =>
      if (k <? 4)%nat then
        match clients w (4 + k)%nat with
        | Consumed set => Some (Ok (set_main w (Getting (S k) (all_sets ∪ set))))
        | _ => None
        end
      else Some (Ok (set_main w (Printed (check all_sets))))
  | Printed r =>
      let g := stack (sys w) in
      Some (h ← destroy (size (heap g)) g; Ok (set_main w (Exited r h)))
  | Exited _ _ => None
  end.

(** ** Interleavings *)

Inductive move :=
| InStack (i : nat) (sp : bool) (l : loc)   (* a step inside push or pop *)
| InClient (i : nat)
| InMain.

Definition wexec (a : move) (w : world) : option (res world) :=
  match a with
  | InStack i sp l => r ← exec (AStep i sp l) (sys w); Some (s ← r; Ok (set_sys w s))
  | InClient i => client_step i w
  | InMain => main_step w
  end.

Definition wstep (w w' : world) : Prop := exists a, wexec a w = Some (Ok w').

Definition winit : world :=
  mkWorld init
    (fun i => if (i <? 4)%nat then Producing (0 + Z.of_nat i * N) (N + Z.of_nat i * N)
              else if (i <? 8)%nat then ConsTest ∅ else Absent)
    false (Joining 0).

Fixpoint wrun (acts : list move) (w : world) : option (res world) :=
  match acts with
  | [] => Some (Ok w)
  | a :: acts' => match wexec a w with Some (Ok w') => wrun acts' w' | r => r end
  end.

Lemma wrun_star acts : forall w w', wrun acts w = Some (Ok w') -> star wstep w w'.
Proof.
  induction acts as [| a acts IH]; intros w w' Hr; cbn in Hr.
  - injection Hr as <-. apply star_refl.
  - destruct (wexec a w) as [[w1 |] |] eqn:E; try done. eapply star_step; [by exists a | by apply IH].
Qed.
End stress.

(** ** Threads in a history *)

Section histories.
Context {T : Type} `{EqDecision T}.

Definition calls (i : nat) (h : list (event (T := T))) : list (op (T := T)) :=
  omap (fun e => match e with ECall j o => if decide (j = i) then Some o else None | _ => None end) h.

Definition effects (i : nat) (h : list (event (T := T))) : list (op (T := T) * option T) :=
  omap (fun e => match e with EEff j o r => if decide (j = i) then Some (o, r) else None | _ => None end) h.

Definition returns (i : nat) (h : list (event (T := T))) : list (op (T := T) * option T) :=
  omap (fun e => match e with ERet j o r => if decide (j = i) then Some (o, r) else None | _ => None end) h.

(** The values pushed and popped by all threads, in order. *)
Definition pushed (h : list (event (T := T))) : list T :=
  omap (fun e => match e with EEff _ (OPush v) _ => Some v | _ => None end) h.

Definition popped (h : list (event (T := T))) : list T :=
  omap (fun e => match e with EEff _ OPop (Some v) => Some v | _ => None end) h.

(** Out of an operation, a thread has returned what took effect, which is
    what it called. *)
Lemma track_lists i h st : track i h = Some st ->
  calls i h = (effects i h).*1 ++ match st with Called o => [o] | _ => [] end /\
  effects i h = returns i h ++ match st with Done o r => [(o, r)] | _ => [] end.
Proof.
  revert st. induction h as [| e h IH] using rev_ind; intros st Ht.
  - injection Ht as <-. done.
  - rewrite track_snoc in Ht. unfold calls, effects, returns in *. rewrite !omap_app, fmap_app.
    destruct e as [j o | j o r | j o r]; cbn in Ht |- *;
      (destruct (decide (j = i)) as [-> |]; [| cbn; rewrite !app_nil_r; by apply IH]);
      destruct (track i h) as [[| o' | o' r'] |]; try discriminate Ht;
      destruct (IH _ eq_refl) as [H1 H2]; rewrite H1, H2.
    + injection Ht as <-. cbn. by rewrite !app_nil_r.
    + destruct (decide (o = o')) as [-> |]; [| done]. injection Ht as <-. cbn.
      rewrite !app_nil_r. done.
    + destruct (decide ((o, r) = (o', r'))) as [[= -> ->] |]; [| done]. injection Ht as <-. cbn.
      rewrite !app_nil_r. done.
Qed.

(** What was pushed is what was popped and what is on the stack. *)
Lemma abs_conserves h vs : abs h = Some vs -> pushed h ≡ₚ popped h ++ vs.
Proof.
  revert vs. induction h as [| e h IH] using rev_ind; intros vs Ha.
  - injection Ha as <-. done.
  - rewrite abs_snoc in Ha. unfold pushed, popped in *. rewrite !omap_app.
    destruct (abs h) as [vs0 |] eqn:E; [| by destruct e as [| ? [] [] |]]. specialize (IH _ eq_refl).
    destruct e as [j o | j [v |] [x |] | j o r]; cbn in Ha |- *; rewrite ?app_nil_r.
    + destruct vs0; injection Ha as <-; done.
    + destruct vs0; discriminate Ha.
    + assert (vs = v :: vs0) as -> by (destruct vs0; congruence).
      rewrite IH, <- app_assoc. by rewrite <- Permutation_cons_append.
    + destruct vs0 as [| v' vs0]; [done |]. destruct (decide (x = v')) as [-> |]; [| done].
      injection Ha as <-. by rewrite IH, <- app_assoc.
    + destruct vs0; [| done]. injection Ha as <-. done.
    + destruct vs0; injection Ha as <-; done.
Qed.

Lemma elem_of_popped v h : v ∈ popped h <-> exists i, (OPop, Some v) ∈ effects i h.
Proof.
  unfold popped, effects. setoid_rewrite list_elem_of_omap. split.
  - intros (e & He & Hv). destruct e as [| j [v' |] [x |] |]; try discriminate Hv. injection Hv as ->.
    exists j, (EEff j OPop (Some v)). split; [done |]. by rewrite decide_True.
  - intros (i & e & He & Hv). destruct e as [| j o r |]; try discriminate Hv.
    destruct (decide (j = i)); [| done]. injection Hv as -> ->. eauto.
Qed.

Definition push_value (o : op (T := T)) : option T := match o with OPush v => Some v | OPop => None end.

(** The values a thread pushed. *)
Definition pushes_of (i : nat) (h : list (event (T := T))) : list T := omap push_value (effects i h).*1.

Lemma concat_insert (f g : nat -> list T) n : forall k j x, (k <= j < k + n)%nat ->
  (forall i, i <> j -> f i = g i) -> f j = x ++ g j ->
  concat (f <$> seq k n) ≡ₚ x ++ concat (g <$> seq k n).
Proof.
  induction n as [| n IH]; intros k j x Hj Hne Heq; [lia |]. cbn [seq fmap list_fmap concat].
  destruct (decide (k = j)) as [-> | Hk].
  - rewrite Heq, <- app_assoc. rewrite (Forall_fmap_ext_1 f g (seq (S j) n)); [done |].
    apply list.Forall_forall. intros i Hi%elem_of_seq. apply Hne. lia.
  - rewrite Hne by done. rewrite (IH (S k) j x); [| lia | done | done]. by rewrite Permutation_app_swap_app.
Qed.

(** The pushes of the first [n] threads, if no other has any. *)
Lemma pushed_by_thread n h : (forall i, (n <= i)%nat -> effects i h = []) ->
  pushed h ≡ₚ concat ((fun i => pushes_of i h) <$> seq 0 n).
Proof.
  induction h as [| e h IH]; intros Hn.
  - unfold pushed. cbn. generalize 0%nat. clear Hn. induction n as [| n IH]; intros k; [done |].
    cbn. apply (IH (S k)).
  - assert (Hother : forall i, effects i (e :: h) = effects i h \/
              exists o r, e = EEff i o r /\ effects i (e :: h) = (o, r) :: effects i h).
    { intros i. unfold effects. destruct e as [| j o r |]; cbn; try by left.
      destruct (decide (j = i)) as [-> |]; [right; eauto | by left]. }
    assert (Hh : forall i, (n <= i)%nat -> effects i h = []).
    { intros i Hi. specialize (Hn i Hi). destruct (Hother i) as [<- | (o & r & _ & E)]; [done | congruence]. }
    specialize (IH Hh). destruct e as [| j o r |]; try exact IH.
    rewrite (concat_insert _ (fun i => pushes_of i h) n 0 j (omap push_value [o])).
    + rewrite <- IH. by destruct o.
    + destruct (decide (n <= j)%nat) as [Hle |]; [| lia]. specialize (Hn j Hle). revert Hn.
      unfold effects. cbn. by rewrite decide_True.
    + intros i Hi. unfold pushes_of, effects. cbn. by rewrite decide_False by congruence.
    + unfold pushes_of, effects. cbn. rewrite decide_True by done. cbn. by destruct (push_value o).
Qed.

(** An event of another thread is nothing to a thread. *)
Definition thread_of (e : event (T := T)) : nat :=
  match e with ECall i _ | EEff i _ _ | ERet i _ _ => i end.

Definition same_for (i : nat) (h h' : list (event (T := T))) : Prop :=
  track i h' = track i h /\ calls i h' = calls i h /\ returns i h' = returns i h.

Lemma same_for_other i h e : thread_of e <> i -> same_for i h (h ++ [e]).
Proof.
  intros Hne. unfold same_for. rewrite track_snoc. unfold calls, returns. rewrite !omap_app.
  destruct e; cbn in *; rewrite !decide_False, !app_nil_r by done; cbn; by rewrite ?app_nil_r.
Qed.
End histories.

(** ** The invariant of the test *)

Section invariant.
Context (N : Z) (HN : 0 <= N).

Abbreviation history := (list (event (T := Z))).

(** The first value of a producer. *)
Definition first (i : nat) : Z := Z.of_nat i * N.

(** What a consumer has collected is what its pops returned. *)
Definition collected (set : gset Z) (rs : list (op (T := Z) * option Z)) : Prop :=
  forall v, v ∈ set <-> (OPop, Some v) ∈ rs.

Definition is_consumer (i : nat) (set : gset Z) (cs : list (op (T := Z))) (rs : list (op (T := Z) * option Z)) : Prop :=
  (4 <= i < 8)%nat /\ Forall (eq OPop) cs /\ collected set rs.

Definition is_producer (i : nat) (n : Z) (cs : list (op (T := Z))) : Prop :=
  (i < 4)%nat /\ 0 <= n <= N /\ cs = OPush <$> seqZ (first i) n.

(** Where a thread of the test stands agrees with the history of its
    operations. *)
Definition client_ok (i : nat) (cl : client) (h : history) : Prop :=
  let cs := calls i h in
  let rs := returns i h in
  match cl with
  | Producing v limit => track i h = Some Out /\ limit = first i + N /\ is_producer i (v - first i) cs
  | Pushing v limit => (track i h = Some (Called (OPush v)) \/ track i h = Some (Done (OPush v) None)) /\
      limit = first i + N /\ v < limit /\ is_producer i (v + 1 - first i) cs
  | Produced => track i h = Some Out /\ is_producer i N cs
  | ConsTest set | ConsEmpty set | Consumed set => track i h = Some Out /\ is_consumer i set cs rs
  | ConsPop set => (track i h = Some (Called OPop) \/ exists r, track i h = Some (Done OPop r)) /\
      is_consumer i set cs rs
  | Absent => track i h = Some Out /\ (8 <= i)%nat /\ cs = []
  end.

Lemma client_ok_same i cl h h' : same_for i h h' -> client_ok i cl h -> client_ok i cl h'.
Proof. intros (H1 & H2 & H3). unfold client_ok. by rewrite H1, H2, H3. Qed.

Definition all_consumed (w : world) (k : nat) : Prop :=
  forall c, (c < k)%nat -> exists set, clients w (4 + c) = Consumed set.

Definition all_produced (w : world) : Prop := forall p, (p < 4)%nat -> clients w p = Produced.

Definition main_ok (w : world) : Prop :=
  match main_at w with
  | Joining k => (k <= 4)%nat /\ forall p, (p < k)%nat -> clients w p = Produced
  | Getting k all => done w = true /\ (k <= 4)%nat /\ all_consumed w k /\
      forall v, v ∈ all <-> exists c set, (c < k)%nat /\ clients w (4 + c) = Consumed set /\ v ∈ set
  | Printed r => done w = true /\ all_consumed w 4 /\ r = PASS (4 * N)
  | Exited r h => done w = true /\ all_consumed w 4 /\ r = PASS (4 * N) /\ h = ∅
  end.

Record winv (w : world) : Prop := {
  w_sys : exists stk trs, inv (sys w) stk trs;
  w_client i : client_ok i (clients w i) (hist (sys w));
  w_done : done w = true -> all_produced w;
  w_seen i set : clients w i = ConsEmpty set -> done w = true;
  w_gone i set : clients w i = Consumed set -> done w = true /\ Treiber.head (stack (sys w)) = None;
  w_main : main_ok w
}.

(** Steps of a client: its own state changes, the other threads' history does
    not. *)
Definition finished (c : client) : bool :=
  match c with Produced | Consumed _ => true | _ => false end.

Lemma client_inv w w' i : winv w -> (exists stk trs, inv (sys w') stk trs) ->
  done w' = done w -> main_at w' = main_at w -> (forall j, j <> i -> clients w' j = clients w j) ->
  (forall j, j <> i -> same_for j (hist (sys w)) (hist (sys w'))) ->
  client_ok i (clients w' i) (hist (sys w')) -> finished (clients w i) = false ->
  (done w = true -> Treiber.head (stack (sys w)) = None -> Treiber.head (stack (sys w')) = None) ->
  (forall set, clients w' i = ConsEmpty set -> done w = true) ->
  (forall set, clients w' i = Consumed set -> done w = true /\ Treiber.head (stack (sys w')) = None) ->
  winv w'.
Proof.
  intros [_ Hcl Hdone Hseen Hgone Hmain] Hs' Hd' Hm' Hne Hsame Hok Hfin Hhead He Hc.
  assert (Hkeep : forall j c, clients w j = c -> finished c = true -> clients w' j = c).
  { intros j c Hj Hf. rewrite Hne; [done |]. intros ->. congruence. }
  assert (Hback : forall j c, clients w' j = c -> (j = i /\ clients w' i = c) \/ clients w j = c).
  { intros j c. destruct (decide (j = i)) as [-> | Hj]; [auto |]. rewrite Hne by done. auto. }
  assert (Hold : forall k, all_consumed w k -> all_consumed w' k).
  { intros k Hk c Hlt. destruct (Hk c Hlt) as [set Hset]. exists set. by apply Hkeep. }
  split; rewrite ?Hd'; try done.
  - intros j. destruct (decide (j = i)) as [-> | Hj]; [done |].
    rewrite Hne by done. apply (client_ok_same _ _ (hist (sys w))); auto.
  - intros Hd p Hp. apply Hkeep; [by apply Hdone | done].
  - intros j set [[_ Hj] | Hj]%Hback; eauto.
  - intros j set [[_ Hj] | Hj]%Hback; [eauto |]. destruct (Hgone j set Hj). auto.
  - unfold main_ok in *. rewrite Hm', Hd'. destruct (main_at w) as [k | k all | r | r h].
    + destruct Hmain as [Hk Hp]. split; [done |]. intros p Hlt. apply Hkeep; [by apply Hp | done].
    + destruct Hmain as (Hd & Hk & Hall & Hv). split_and!; [done | done | auto |].
      intros v. rewrite Hv. split; intros (c & set & Hlt & Hset & Hin); exists c, set; (split_and!; [done | | done]).
      * by apply Hkeep.
      * destruct (Hback _ _ Hset) as [[Hci _] | ?]; [| done].
        destruct (Hall c Hlt) as [set0 Hset0]. rewrite Hci in Hset0. by rewrite Hset0 in Hfin.
    + destruct Hmain as (Hd & Hall & Hr). auto.
    + destruct Hmain as (Hd & Hall & Hr & Hh). auto.
Qed.

Lemma set_client_inv w i c' s' : winv w -> (exists stk trs, inv s' stk trs) ->
  stack s' = stack (sys w) ->
  (forall j, j <> i -> same_for j (hist (sys w)) (hist s')) ->
  client_ok i c' (hist s') -> finished (clients w i) = false ->
  (forall set, c' = ConsEmpty set -> done w = true) ->
  (forall set, c' = Consumed set -> done w = true /\ Treiber.head (stack (sys w)) = None) ->
  winv (set_client (set_sys w s') i c').
Proof.
  intros Hw Hs Hstk Hsame Hok Hfin He Hc.
  apply (client_inv w _ i); cbn [sys clients done main_at set_client set_sys]; rewrite ?fn_lookup_insert, ?Hstk; try done.
  intros j Hj. by apply fn_lookup_insert_ne.
Qed.

(** Calls and returns in a thread's own history. *)
Lemma own_call i (h : history) o : track i h = Some Out ->
  track i (h ++ [ECall i o]) = Some (Called o) /\
  calls i (h ++ [ECall i o]) = calls i h ++ [o] /\ returns i (h ++ [ECall i o]) = returns i h.
Proof.
  intros Ht. rewrite track_snoc, Ht. unfold calls, returns. rewrite !omap_app. cbn.
  by rewrite !decide_True, app_nil_r.
Qed.

Lemma own_return i (h : history) o r : track i h = Some (Done o r) ->
  track i (h ++ [ERet i o r]) = Some Out /\
  calls i (h ++ [ERet i o r]) = calls i h /\ returns i (h ++ [ERet i o r]) = returns i h ++ [(o, r)].
Proof.
  intros Ht. rewrite track_snoc, Ht. unfold calls, returns. rewrite !omap_app. cbn.
  by rewrite !decide_True, app_nil_r by done.
Qed.

Lemma call_ok w i o c' r : winv w -> call i o c' w = Some r -> finished (clients w i) = false ->
  (track i (hist (sys w)) = Some Out -> client_ok i c' (hist (sys w) ++ [ECall i o])) ->
  (forall set, c' <> ConsEmpty set /\ c' <> Consumed set) ->
  exists w', r = Ok w' /\ winv w'.
Proof.
  intros Hw Hcall Hfin Hok Hc'. destruct (w_sys _ Hw) as (stk & trs & Hinv).
  unfold call in Hcall. destruct (exec (ACall i o) (sys w)) as [r0 |] eqn:E; [| done].
  destruct (inv_exec _ _ _ _ _ Hinv E) as (s' & stk' & trs' & -> & Hinv').
  injection Hcall as <-. eexists. split; [done |].
  cbn [exec] in E. destruct (is_idle (threads (sys w) i)) eqn:Hi; [| done]. injection E as <-.
  apply set_client_inv; try done.
  - eauto.
  - intros j Hj. apply same_for_other. cbn. congruence.
  - apply Hok. rewrite (inv_track _ _ _ Hinv). by destruct (threads (sys w) i).
  - intros set Hs. by destruct (Hc' set).
  - intros set Hs. by destruct (Hc' set).
Qed.

Lemma return_ok w i c' r : winv w -> return_ i c' w = Some r -> finished (clients w i) = false ->
  (forall o x, track i (hist (sys w)) = Some (Done o x) -> client_ok i (c' x) (hist (sys w) ++ [ERet i o x])) ->
  (forall x set, c' x <> ConsEmpty set /\ c' x <> Consumed set) ->
  exists w', r = Ok w' /\ winv w'.
Proof.
  intros Hw Hret Hfin Hok Hc'. destruct (w_sys _ Hw) as (stk & trs & Hinv).
  unfold return_ in Hret. destruct (returning (threads (sys w) i)) as [[o x] |] eqn:Hr; [| done].
  cbn [mbind option_bind] in Hret.
  destruct (exec (ARet i) (sys w)) as [r0 |] eqn:E; [| done].
  destruct (inv_exec _ _ _ _ _ Hinv E) as (s' & stk' & trs' & -> & Hinv').
  injection Hret as <-. eexists. split; [done |].
  cbn [exec] in E. rewrite Hr in E. injection E as <-.
  apply set_client_inv; try done.
  - eauto.
  - intros j Hj. apply same_for_other. cbn. congruence.
  - apply Hok. rewrite (inv_track _ _ _ Hinv).
    destruct (threads (sys w) i); try discriminate Hr; by injection Hr as <- <-.
  - intros set Hs. by destruct (Hc' x set).
  - intros set Hs. by destruct (Hc' x set).
Qed.

Lemma producer_snoc i n cs : is_producer i n cs -> n < N ->
  is_producer i (n + 1) (cs ++ [OPush (first i + n)]).
Proof.
  intros (Hi & Hn & ->) Hlt. split_and!; [done | lia | lia |].
  rewrite seqZ_app by lia. rewrite fmap_app. done.
Qed.

Lemma collected_snoc set rs x : collected set rs -> collected (insert_value x set) (rs ++ [(OPop, x)]).
Proof.
  intros Hc v. rewrite elem_of_app, <- (Hc v), list_elem_of_singleton.
  destruct x as [y |]; cbn.
  - rewrite elem_of_union, elem_of_singleton. split; [intros [-> | ?]; auto | intros [? | [= ->]]; auto].
  - split; [auto | by intros [? | ?]].
Qed.

Lemma client_step_ok w i r : winv w -> client_step i w = Some r -> exists w', r = Ok w' /\ winv w'.
Proof.
  intros Hw Hs. unfold client_step in Hs. pose proof (w_client _ Hw i) as Hok.
  assert (Hown : forall c', finished (clients w i) = false -> client_ok i c' (hist (sys w)) ->
    (forall set, c' = ConsEmpty set -> done w = true) ->
    (forall set, c' = Consumed set -> done w = true /\ Treiber.head (stack (sys w)) = None) ->
    winv (set_client w i c')).
  { intros c' Hf Hc' H1 H2. apply (set_client_inv w i c' (sys w)); try done. apply Hw. }
  destruct (clients w i) as [v lim | v lim | | set | set | set | set |] eqn:Hcl; try discriminate Hs;
    cbn [client_ok] in Hok.
  - destruct Hok as (Ht & -> & Hp). destruct (Z.ltb_spec v (first i + N)).
    + apply (call_ok w i _ _ _ Hw Hs); [by rewrite Hcl | | done]. intros _.
      destruct (own_call i (hist (sys w)) (OPush v) Ht) as (T1 & C1 & R1). cbn. rewrite T1, C1.
      split_and!; [by left | done | done |].
      replace (v + 1 - first i) with (v - first i + 1) by lia.
      replace v with (first i + (v - first i)) at 2 by lia. apply producer_snoc; [done | lia].
    + injection Hs as <-. eexists. split; [done |]. apply Hown; try done. cbn. split; [done |].
      destruct Hp as (? & ? & Hcs). split_and!; [done | lia | lia |]. rewrite Hcs. do 2 f_equal. lia.
  - destruct Hok as (Ht & -> & Hlt & Hp).
    apply (return_ok w i _ _ Hw Hs); [by rewrite Hcl | | done]. intros o x Hdone.
    destruct (own_return i (hist (sys w)) o x Hdone) as (T1 & C1 & R1). cbn. by rewrite T1, C1.
  - destruct Hok as (Ht & Hi & Hcs & Hcol). destruct (negb (done w)) eqn:Hd.
    + apply (call_ok w i _ _ _ Hw Hs); [by rewrite Hcl | | done]. intros _.
      destruct (own_call i (hist (sys w)) OPop Ht) as (T1 & C1 & R1). cbn. rewrite T1, C1, R1.
      split; [by left |]. split_and!; [lia | lia | | done]. apply Forall_app. split; [done |]. by constructor.
    + injection Hs as <-. eexists. split; [done |]. apply Hown; try done. by apply negb_false_iff in Hd.
  - destruct Hok as (Ht & Hi & Hcs & Hcol).
    destruct (negb (Treiber.empty (stack (sys w)))) eqn:Hd.
    + apply (call_ok w i _ _ _ Hw Hs); [by rewrite Hcl | | done]. intros _.
      destruct (own_call i (hist (sys w)) OPop Ht) as (T1 & C1 & R1). cbn. rewrite T1, C1, R1.
      split; [by left |]. split_and!; [lia | lia | | done]. apply Forall_app. split; [done |]. by constructor.
    + injection Hs as <-. eexists. split; [done |]. apply Hown; try done.
      intros _ _. split; [by apply (w_seen _ Hw i set) |].
      by apply negb_false_iff, bool_decide_eq_true in Hd.
  - destruct Hok as (Ht & Hi & Hcs & Hcol).
    apply (return_ok w i _ _ Hw Hs); [by rewrite Hcl | | done]. intros o x Hdone.
    destruct (own_return i (hist (sys w)) o x Hdone) as (T1 & C1 & R1). cbn. rewrite T1, C1, R1.
    assert (o = OPop) as -> by (destruct Ht as [Ht | [r' Ht]]; rewrite Hdone in Ht; congruence).
    split; [done |]. split_and!; [lia | lia | done |]. by apply collected_snoc.
Qed.

(** ** Steps inside the stack *)

(** An empty stack stays empty unless a push takes effect. *)
Lemma head_stays (c c' : pc (T := Z)) sp l g g' e : tstep c sp l g = Some (Ok (c', g', e)) ->
  Treiber.head g = None -> (forall v n old, c <> PushCas v n old) -> Treiber.head g' = None.
Proof.
  intros Hs Hh Hc.
  destruct c as [| v | v n | v n old | v n old | v | | [old |] | old new | old | x old | x old t | x old t |];
    cbn in Hs; try discriminate Hs; try (by injection Hs as <- <- <-).
  - destruct (heap g !! l); [done |]. by injection Hs as <- <- <-.
  - destruct (set_next (heap g) n old); [| done]. by injection Hs as <- <- <-.
  - by destruct (Hc v n old).
  - destruct (deref (heap g) old); [| done]. by injection Hs as <- <- <-.
  - rewrite Hh, andb_false_r in Hs. by injection Hs as <- <- <-.
  - destruct (deref (heap g) old); [| done]. by injection Hs as <- <- <-.
  - destruct (set_next (heap g) old t); [| done]. by injection Hs as <- <- <-.
  - case_match; by injection Hs as <- <- <-.
Qed.

Lemma status_push (h : gmap loc (Node (T := Z))) c v r : status_of h c = Done (OPush v) r -> r = None.
Proof. by destruct c as [| | | | | | | [|] | | | | | |]; intros [= <- <-]. Qed.

(** An effect moves the thread on in the operation it has called. *)
Lemma own_effect i (h : history) o r st' : track i (h ++ [EEff i o r]) = Some st' ->
  track i h = Some (Called o) /\ st' = Done o r /\
  calls i (h ++ [EEff i o r]) = calls i h /\ returns i (h ++ [EEff i o r]) = returns i h.
Proof.
  rewrite track_snoc. cbn. rewrite decide_True by done.
  destruct (track i h) as [[| o' |] |]; try done. destruct (decide (o = o')) as [<- |]; [| done].
  intros [= <-]. unfold calls, returns. by rewrite !omap_app, !app_nil_r.
Qed.

Lemma stack_step_ok w i sp l r : winv w -> exec (AStep i sp l) (sys w) = Some r ->
  exists s', r = Ok s' /\ winv (set_sys w s').
Proof.
  intros Hw E. destruct (w_sys _ Hw) as (stk & trs & Hinv).
  destruct (inv_exec _ _ _ _ _ Hinv E) as (s' & stk' & trs' & -> & Hinv'). exists s'. split; [done |].
  cbn [exec] in E. destruct (tstep (threads (sys w) i) sp l (stack (sys w))) as [r |] eqn:Hst; [| done].
  destruct r as [[[c' g'] e] |]; [| done]. injection E as <-.
  pose proof (inv_track _ _ _ Hinv i) as Ht. pose proof (inv_track _ _ _ Hinv' i) as Ht'.
  cbn [hist stack threads] in Ht'. rewrite fn_lookup_insert in Ht'.
  pose proof (w_client _ Hw i) as Hok.
  assert (Hrun : status_of (heap (stack (sys w))) (threads (sys w) i) <> Out)
    by (destruct (threads (sys w) i) as [| | | | | | | [|] | | | | | |]; done).
  set (c := clients w i) in *.
  apply (client_inv w _ i); cbn [sys clients done main_at set_sys hist stack]; try done.
  - eauto.
  - intros j Hj. destruct e as [[o x] |]; [by apply same_for_other; cbn; congruence | by rewrite app_nil_r].
  - fold c. destruct e as [[o x] |]; [| by rewrite app_nil_r].
    destruct (own_effect _ _ _ _ _ Ht') as (T1 & T2 & C1 & R1).
    destruct c; cbn [client_ok] in Hok |- *; rewrite ?C1, ?R1;
      try (destruct Hok as [Hout _]; rewrite Hout in Ht; congruence).
    + destruct Hok as [Hst' Hrest]. split; [right | done]. rewrite Ht'.
      rewrite T1 in Hst'. destruct Hst' as [[= ->] |]; [| done]. 
      rewrite (status_push _ _ _ _ T2) in T2. by rewrite T2.
    + destruct Hok as [Hst' Hrest]. split; [right | done]. exists x. rewrite Ht'.
      rewrite T1 in Hst'. destruct Hst' as [[= ->] | [r' [=]]]. by rewrite T2.
  - fold c. destruct c; try done; cbn [client_ok] in Hok; destruct Hok as [Hout _]; rewrite Hout in Ht; congruence.
  - intros Hd Hh. apply (head_stays _ _ _ _ _ _ _ Hst Hh). intros v n old Hpc.
    rewrite Hpc in Ht. cbn in Ht. fold c in Hok.
    pose proof (w_done _ Hw Hd) as Hprod.
    assert (Hp : forall u m, c <> Pushing u m).
    { intros u m Hc. destruct c eqn:Hcc; try done. destruct Hok as (_ & _ & _ & Hi & _).
      specialize (Hprod i Hi). fold c in Hprod. congruence. }
    destruct c; cbn [client_ok] in Hok; try (destruct Hok as [Hout _]; rewrite Hout in Ht; congruence).
    + by destruct (Hp i0 limit).
    + destruct Hok as [[Hc | [r' Hc]] _]; rewrite Hc in Ht; congruence.
  - intros set Hc. by apply (w_seen _ Hw i set).
  - intros set Hc. fold c in Hc. rewrite Hc in Hok. destruct Hok as [Hout _]. rewrite Hout in Ht. congruence.
Qed.

(** ** What the consumers have received when all have returned *)

Lemma omap_push_values vs : omap push_value (OPush <$> vs : list (op (T := Z))) = vs.
Proof. induction vs as [| v vs IH]; cbn; [done | by f_equal]. Qed.

Lemma omap_pops cs : Forall (eq OPop) cs -> omap push_value (cs : list (op (T := Z))) = [].
Proof. induction 1 as [| o cs <- _ IH]; [done | exact IH]. Qed.

Section finished.
Context (w : world) (Hw : winv w) (Hdone : done w = true) (Hall : all_consumed w 4).

Lemma client_cases i :
  ((i < 4)%nat /\ clients w i = Produced) \/
  ((4 <= i < 8)%nat /\ exists set, clients w i = Consumed set) \/
  ((8 <= i)%nat /\ clients w i = Absent).
Proof.
  destruct (decide (i < 4)%nat); [left; split; [done | by apply (w_done _ Hw)] |].
  destruct (decide (i < 8)%nat).
  - right. left. split; [lia |]. replace i with (4 + (i - 4))%nat by lia. apply Hall. lia.
  - right. right. split; [lia |]. pose proof (w_client _ Hw i) as Hok.
    destruct (clients w i); cbn in Hok; try done; exfalso; unfold is_producer, is_consumer in Hok;
      destruct_and?; lia.
Qed.

Lemma all_out i : track i (hist (sys w)) = Some Out.
Proof.
  pose proof (w_client _ Hw i) as Hok.
  destruct (client_cases i) as [[_ Hc] | [[_ [set Hc]] | [_ Hc]]]; rewrite Hc in Hok; by destruct Hok.
Qed.

Lemma out_lists i : calls i (hist (sys w)) = (effects i (hist (sys w))).*1 /\
  effects i (hist (sys w)) = returns i (hist (sys w)).
Proof.
  destruct (track_lists i _ _ (all_out i)) as [H1 H2]. by rewrite !app_nil_r in *.
Qed.

Lemma all_idle i : threads (sys w) i = Idle.
Proof.
  destruct (w_sys _ Hw) as (stk & trs & Hinv). pose proof (inv_track _ _ _ Hinv i) as Ht.
  rewrite all_out in Ht. injection Ht as Ht.
  by destruct (threads (sys w) i) as [| | | | | | | [|] | | | | | |].
Qed.

Lemma pushes_of_client i : pushes_of i (hist (sys w)) = if decide (i < 4)%nat then seqZ (first i) N else [].
Proof.
  unfold pushes_of. destruct (out_lists i) as [<- _]. pose proof (w_client _ Hw i) as Hok.
  destruct (client_cases i) as [[Hi Hc] | [[Hi [set Hc]] | [Hi Hc]]]; rewrite Hc in Hok.
  - destruct Hok as (_ & _ & _ & ->). rewrite decide_True by done. apply omap_push_values.
  - destruct Hok as (_ & _ & Hcs & _). rewrite decide_False by lia. by apply omap_pops.
  - destruct Hok as (_ & _ & ->). by rewrite decide_False by lia.
Qed.

Lemma pushed_all : pushed (hist (sys w)) ≡ₚ seqZ 0 (4 * N).
Proof.
  rewrite (pushed_by_thread 8).
  - cbn [seq fmap list_fmap concat]. rewrite !pushes_of_client.
    repeat (rewrite decide_True by lia). repeat (rewrite decide_False by lia).
    rewrite !app_nil_r. unfold first.
    replace (4 * N) with (N + (N + (N + N))) by lia. rewrite !seqZ_app by lia.
    replace (Z.of_nat 0 * N) with 0 by lia. replace (Z.of_nat 1 * N) with (0 + N) by lia.
    replace (Z.of_nat 2 * N) with (0 + N + N) by lia. by replace (Z.of_nat 3 * N) with (0 + N + N + N) by lia.
  - intros i Hi. pose proof (w_client _ Hw i) as Hok. destruct (out_lists i) as [H1 _].
    destruct (client_cases i) as [[? Hc] | [[? [set Hc]] | [_ Hc]]]; [lia | lia |].
    rewrite Hc in Hok. destruct Hok as (_ & _ & Hcs). rewrite Hcs in H1. symmetry in H1.
    by apply fmap_nil_inv in H1.
Qed.

Lemma stack_drained : Treiber.head (stack (sys w)) = None.
Proof. destruct (Hall 0%nat ltac:(lia)) as [set Hset]. by destruct (w_gone _ Hw _ _ Hset). Qed.

(** Every value was popped exactly once. *)
Lemma popped_all : popped (hist (sys w)) ≡ₚ seqZ 0 (4 * N).
Proof.
  destruct (w_sys _ Hw) as (stk & trs & Hinv).
  rewrite <- pushed_all, (abs_conserves _ _ (inv_abs _ _ _ Hinv)).
  rewrite (head_none _ _ _ Hinv stack_drained). cbn. by rewrite app_nil_r.
Qed.

Lemma received_all v :
  (exists c set, (c < 4)%nat /\ clients w (4 + c) = Consumed set /\ v ∈ set) <-> 0 <= v < 4 * N.
Proof.
  trans (v ∈ popped (hist (sys w))); [| rewrite popped_all, elem_of_seqZ; lia].
  rewrite elem_of_popped. split.
  - intros (c & set & Hc & Hset & Hv). pose proof (w_client _ Hw (4 + c)%nat) as Hok. rewrite Hset in Hok.
    destruct Hok as (_ & _ & _ & Hcol). apply Hcol in Hv. exists (4 + c)%nat.
    by destruct (out_lists (4 + c)%nat) as [_ ->].
  - intros (i & Hi). pose proof (w_client _ Hw i) as Hok. destruct (out_lists i) as [H1 H2].
    assert (OPop ∈ calls i (hist (sys w))) as Hpop
      by (rewrite H1; apply (list_elem_of_fmap_2 fst _ _ Hi)).
    destruct (client_cases i) as [[Hlt Hc] | [[Hlt [set Hc]] | [Hlt Hc]]]; rewrite Hc in Hok.
    + destruct Hok as (_ & _ & _ & Hcs). rewrite Hcs in Hpop.
      apply list_elem_of_fmap_1 in Hpop as (v' & ? & _). done.
    + destruct Hok as (_ & _ & _ & Hcol). exists (i - 4)%nat, set. split; [lia |].
      replace (4 + (i - 4))%nat with i by lia. split; [done |]. apply Hcol. by rewrite <- H2.
    + destruct Hok as (_ & _ & Hcs). rewrite Hcs in Hpop. by apply not_elem_of_nil in Hpop.
Qed.
End finished.

(** The checks pass on the set of all the values. *)
Lemma check_passes all : 4 * N < 2 ^ 31 -> (forall v, v ∈ all <-> 0 <= v < 4 * N) ->
  check N all = PASS (4 * N).
Proof.
  intros HN31 Hv. assert (all = list_to_set (seqZ 0 (4 * N))) as ->.
  { apply set_eq. intros v. rewrite Hv, elem_of_list_to_set, elem_of_seqZ. lia. }
  unfold check. rewrite size_list_to_set, length_seqZ by apply NoDup_seqZ.
  rewrite Z2Nat.id, swrap_small, Z.eqb_refl by lia. cbn [andb].
  replace (forallb _ _) with true; [done |]. symmetry. apply forallb_forall.
  intros v Hin%list_elem_of_In. apply bool_decide_eq_true, elem_of_list_to_set. done.
Qed.

Lemma set_main_inv w m : winv w -> main_ok (set_main w m) -> winv (set_main w m).
Proof. intros Hw Hm. split; [apply Hw.. | done]. Qed.

Lemma main_step_ok w r : 4 * N < 2 ^ 31 -> winv w -> main_step N w = Some r ->
  exists w', r = Ok w' /\ winv w'.
Proof.
  intros HN31 Hw Hs. pose proof (w_main _ Hw) as Hm. unfold main_step in Hs. unfold main_ok in Hm.
  destruct (main_at w) as [k | k all | rp | rp h] eqn:Hat; [| | | done].
  - destruct Hm as [Hk Hp]. destruct (Nat.ltb_spec k 4).
    + destruct (clients w k) eqn:Hc; try done. injection Hs as <-. eexists. split; [done |].
      apply set_main_inv; [done |]. cbn. split; [lia |]. intros p Hlt.
      destruct (decide (p = k)) as [-> |]; [done | apply Hp; lia].
    + injection Hs as <-. eexists. split; [done |].
      assert (Hprod : all_produced w) by (intros p Hlt; apply Hp; lia).
      split; cbn; try done; try apply Hw.
      * intros i set Hc. by destruct (w_gone _ Hw i set Hc).
      * unfold main_ok. cbn. split_and!; [done | lia | intros c Hc; lia |].
        intros v. rewrite elem_of_empty. split; [done | intros (c & ? & ? & _); lia].
  - destruct Hm as (Hd & Hk & Hall & Hv). destruct (Nat.ltb_spec k 4).
    + destruct (clients w (4 + k)) as [| | | | | | set |] eqn:Hc; try done. injection Hs as <-.
      eexists. split; [done |]. apply set_main_inv; [done |]. unfold main_ok.
      cbn [set_main main_at done clients]. split_and!; [done | lia | |].
      * intros c Hlt. destruct (decide (c = k)) as [-> |]; [by exists set | apply Hall; lia].
      * intros v. rewrite elem_of_union, Hv. split.
        -- intros [(c & set' & Hlt & Hc' & Hin) | Hin]; [exists c, set' | exists k, set]; split_and!; (done || lia).
        -- intros (c & set' & Hlt & Hc' & Hin). destruct (decide (c = k)) as [-> |].
           ++ rewrite Hc in Hc'. injection Hc' as <-. by right.
           ++ left. exists c, set'. split_and!; (done || lia).
    + injection Hs as <-. eexists. split; [done |]. apply set_main_inv; [done |].
      assert (k = 4%nat) as -> by lia. unfold main_ok. cbn [set_main main_at done].
      split_and!; [done | done |]. apply check_passes; [done |]. intros v. rewrite Hv.
      by apply received_all.
  - destruct Hm as (Hd & Hall & ->). destruct (w_sys _ Hw) as (stk & trs & Hinv).
    rewrite (destroy_ok _ _ _ Hinv) in Hs by (apply all_idle; done).
    injection Hs as <-. eexists. split; [done |]. by apply set_main_inv.
Qed.

Lemma winv_init : winv (winit N).
Proof.
  split; cbn [sys clients done main_at winit]; try done.
  - exists [], []. apply inv_init.
  - intros i. cbn [hist init]. destruct (Nat.ltb_spec i 4); [| destruct (Nat.ltb_spec i 8)]; cbn [client_ok].
    + split_and!; [done | unfold first; lia |]. split_and!; [done | unfold first; lia.. |].
      unfold first. replace (0 + _ - _) with 0 by lia. done.
    + split; [done |]. split_and!; [lia | lia | constructor |]. intros v.
      rewrite elem_of_empty, elem_of_nil. done.
    + done.
  - intros i set. destruct (i <? 4)%nat, (i <? 8)%nat; done.
  - intros i set. destruct (i <? 4)%nat, (i <? 8)%nat; done.
  - cbn. split; [lia | intros; lia].
Qed.

Lemma wexec_ok a w r : 4 * N < 2 ^ 31 -> winv w -> wexec N a w = Some r -> exists w', r = Ok w' /\ winv w'.
Proof.
  intros HN31 Hw Hs. destruct a as [i sp l | i |].
  - cbn [wexec] in Hs. destruct (exec (AStep i sp l) (sys w)) as [r0 |] eqn:E; [| done].
    destruct (stack_step_ok w i sp l r0 Hw E) as (s' & -> & Hw'). injection Hs as <-. eauto.
  - by apply (client_step_ok w i).
  - by apply (main_step_ok w).
Qed.

Lemma winv_reachable w : 4 * N < 2 ^ 31 -> star (wstep N) (winit N) w -> winv w.
Proof.
  intros HN31. apply (star_invariant (wstep N) winv); [| apply winv_init].
  intros w1 w2 Hw (a & Ha). destruct (wexec_ok a w1 _ HN31 Hw Ha) as (w' & [= ->] & Hw'). done.
Qed.

(** ** The test can always finish *)

(** Reachable from [w] by steps that leave the other threads of the test,
    [done] and [main] where they are. *)
Definition others_same (i : nat) (w w' : world) : Prop :=
  star (wstep N) w w' /\ done w' = done w /\ main_at w' = main_at w /\
  (forall j, j <> i -> clients w' j = clients w j) /\
  exists es, hist (sys w') = hist (sys w) ++ es /\ Forall (fun e => thread_of e = i) es.

Lemma others_same_refl i w : others_same i w w.
Proof. split_and!; try done; [apply star_refl | exists []; by rewrite app_nil_r]. Qed.

Lemma others_same_trans i w1 w2 w3 : others_same i w1 w2 -> others_same i w2 w3 -> others_same i w1 w3.
Proof.
  intros (S1 & D1 & M1 & C1 & es1 & H1 & F1) (S2 & D2 & M2 & C2 & es2 & H2 & F2). split_and!.
  - by eapply star_trans.
  - congruence.
  - congruence.
  - intros j Hj. by rewrite C2, C1.
  - exists (es1 ++ es2). rewrite H2, H1, app_assoc. split; [done |]. by apply Forall_app.
Qed.

Definition act_thread (a : act (T := Z)) : nat := match a with ACall i _ | AStep i _ _ | ARet i => i end.

Lemma exec_hist a (s s' : system (T := Z)) : exec a s = Some (Ok s') ->
  exists es, hist s' = hist s ++ es /\ Forall (fun e => thread_of e = act_thread a) es.
Proof.
  intros E. destruct a as [i o | i sp l | i]; cbn [exec] in E.
  - destruct (is_idle _); [| done]. injection E as <-. eexists. split; [done | by repeat constructor].
  - destruct (tstep _ _ _ _) as [[[[c g] e] |] |]; try done. injection E as <-.
    eexists. split; [done |]. destruct e as [[o x] |]; by repeat constructor.
  - destruct (returning _) as [[o r] |]; [| done]. injection E as <-. eexists. split; [done | by repeat constructor].
Qed.

Lemma run_cons i l acts c g e (s : system (T := Z)) : tstep (threads s i) false l (stack s) = Some (Ok (c, g, e)) ->
  run (AStep i false l :: acts) s =
  run acts (mkSys g (<[i := c]> (threads s)) (hist s ++ match e with Some (o, x) => [EEff i o x] | None => [] end)).
Proof. intros Hs. cbn [run exec]. by rewrite Hs. Qed.

(** Steps of one thread inside the stack are steps of the test. *)
Lemma stack_run i l k : forall w s', run (replicate k (AStep i false l)) (sys w) = Some (Ok s') ->
  others_same i w (set_sys w s').
Proof.
  induction k as [| k IH]; intros w s' Hr; cbn [replicate run] in Hr.
  - injection Hr as <-. destruct w. apply others_same_refl.
  - destruct (exec (AStep i false l) (sys w)) as [[s1 |] |] eqn:E; [| done..].
    eapply others_same_trans; [| apply (IH (set_sys w s1) s'); by rewrite <- Hr].
    split_and!; try done; [| by apply (exec_hist _ _ _ E)].
    apply star_one. exists (InStack i false l). cbn [wexec]. by rewrite E.
Qed.

(** Steps inside the stack keep the test's invariant. *)
Lemma stack_run_inv i l k : forall w s', winv w ->
  run (replicate k (AStep i false l)) (sys w) = Some (Ok s') -> winv (set_sys w s').
Proof.
  induction k as [| k IH]; intros w s' Hw Hr; cbn [replicate run] in Hr.
  - injection Hr as <-. by destruct w.
  - destruct (exec (AStep i false l) (sys w)) as [[s1 |] |] eqn:E; [| done..].
    destruct (stack_step_ok w i false l _ Hw E) as (s2 & [= <-] & Hw2).
    apply (IH (set_sys w s1) s' Hw2 Hr).
Qed.

(** An operation in progress comes to its return. *)
Lemma op_returns w i : winv w -> track i (hist (sys w)) <> Some Out ->
  exists s', others_same i w (set_sys w s') /\ is_Some (returning (threads s' i)) /\ winv (set_sys w s').
Proof.
  intros Hw Ht. destruct (w_sys _ Hw) as (stk & trs & Hinv).
  assert (Hne : threads (sys w) i <> Idle) by (intros E; rewrite (inv_track _ _ _ Hinv), E in Ht; done).
  set (l := fresh (dom (heap (stack (sys w))))).
  destruct (solo_run l i 8 (sys w)) as (k & s' & _ & Hrun & Hret).
  - apply (solo_any l _ stk.*1); [| apply (inv_pc _ _ _ Hinv) | | done].
    + intros n Hn. by eapply (chain_alloc _ _ _ _ (inv_stack _ _ _ Hinv)), head_on_stack.
    + apply (not_elem_of_dom (D := gset loc)), is_fresh.
  - exists s'. split_and!; [by apply (stack_run i l k) | done | by apply (stack_run_inv i l k)].
Qed.

(** The steps of a client's own code. *)
Lemma client_others w i s c :
  client_step i w = Some (Ok (set_client (set_sys w s) i c)) ->
  (exists es, hist s = hist (sys w) ++ es /\ Forall (fun e => thread_of e = i) es) ->
  others_same i w (set_client (set_sys w s) i c).
Proof.
  intros Hs Hes. split_and!; try done.
  - apply star_one. by exists (InClient i).
  - intros j Hj. by apply fn_lookup_insert_ne.
Qed.

Lemma call_step w i o c : winv w -> track i (hist (sys w)) = Some Out -> client_step i w = call i o c w ->
  exists w', others_same i w w' /\ winv w' /\ clients w' i = c /\
    threads (sys w') i = start o /\ stack (sys w') = stack (sys w).
Proof.
  intros Hw Ht Hs. destruct (w_sys _ Hw) as (stk & trs & Hinv). rewrite (inv_track _ _ _ Hinv) in Ht.
  injection Ht as Ht. unfold call in Hs. cbn [exec] in Hs.
  assert (is_idle (threads (sys w) i) = true) as Hi
    by (by destruct (threads (sys w) i) as [| | | | | | | [|] | | | | | |]).
  rewrite Hi in Hs. cbn in Hs.
  destruct (client_step_ok w i _ Hw Hs) as (w' & [= <-] & Hw'). eexists. split; [| split; [exact Hw' |]].
  - apply client_others; [done |]. eexists. split; [done | by repeat constructor].
  - cbn. by rewrite !fn_lookup_insert.
Qed.

Lemma return_step w i c : winv w -> is_Some (returning (threads (sys w) i)) -> client_step i w = return_ i c w ->
  exists w' x, others_same i w w' /\ winv w' /\ clients w' i = c x.
Proof.
  intros Hw [[o x] Hr] Hs. unfold return_ in Hs. cbn [exec] in Hs. rewrite Hr in Hs. cbn in Hs.
  destruct (client_step_ok w i _ Hw Hs) as (w' & [= <-] & Hw'). eexists _, x.
  split; [| split; [exact Hw' | cbn; by rewrite fn_lookup_insert]].
  apply client_others; [done |]. eexists. split; [done | by repeat constructor].
Qed.

Lemma own_step w i c : winv w -> client_step i w = Some (Ok (set_client w i c)) ->
  exists w', others_same i w w' /\ winv w' /\ clients w' i = c.
Proof.
  intros Hw Hs. destruct (client_step_ok w i _ Hw Hs) as (w' & [= <-] & Hw'). exists (set_client w i c).
  split; [| split; [done | apply fn_lookup_insert]]. destruct w as [s cl d m].
  apply (client_others (mkWorld s cl d m) i s c); [done | exists []; by rewrite app_nil_r].
Qed.

Lemma op_completes w i c : winv w -> track i (hist (sys w)) <> Some Out ->
  (forall w', clients w' i = clients w i -> client_step i w' = return_ i c w') ->
  exists w' x, others_same i w w' /\ winv w' /\ clients w' i = c x.
Proof.
  intros Hw Ht Hs. destruct (op_returns w i Hw Ht) as (s' & Ho & Hret & Hw').
  destruct (return_step (set_sys w s') i c Hw' Hret) as (w2 & x & Ho2 & Hw2 & Hc2); [by apply Hs |].
  exists w2, x. split; [by eapply others_same_trans | done].
Qed.

(** *** A producer finishes *)

Definition to_push (c : client) : nat :=
  match c with
  | Producing v limit => S (Z.to_nat (2 * (limit - v)))
  | Pushing v limit => Z.to_nat (2 * (limit - v))
  | _ => 0%nat
  end.

Lemma producer_finishes p n : forall w, winv w -> (p < 4)%nat -> (to_push (clients w p) <= n)%nat ->
  exists w', others_same p w w' /\ winv w' /\ clients w' p = Produced.
Proof.
  induction n as [| n IH]; intros w Hw Hp Hn; pose proof (w_client _ Hw p) as Hok;
    destruct (clients w p) as [v lim | v lim | | set | set | set | set |] eqn:Hc;
    try (exists w; split; [apply others_same_refl | done]);
    cbn [client_ok] in Hok; unfold is_producer, is_consumer in Hok; destruct_and?; try lia; cbn [to_push] in Hn; try lia.
  - destruct (Z.ltb_spec v lim) as [Hlt | Hge].
    + destruct (call_step w p (OPush v) (Pushing v lim) Hw) as (w1 & Ho & Hw1 & Hc1 & _);
        [done | unfold client_step; rewrite Hc; by if_true |].
      destruct (IH w1 Hw1 Hp) as (w2 & Ho2 & Hw2 & Hc2); [rewrite Hc1; cbn; lia |].
      exists w2. split; [by eapply others_same_trans | done].
    + apply own_step; [done |]. unfold client_step. rewrite Hc. by if_false.
  - destruct (op_completes w p (fun _ => Producing (v + 1) lim) Hw) as (w1 & x & Ho & Hw1 & Hc1).
    + match goal with H : _ \/ _ |- _ => by destruct H as [-> | ->] end.
    + intros w' Hw'. unfold client_step. by rewrite Hw', Hc.
    + destruct (IH w1 Hw1 Hp) as (w2 & Ho2 & Hw2 & Hc2); [rewrite Hc1; cbn; lia |].
      exists w2. split; [by eapply others_same_trans | done].
Qed.

(** *** A consumer finishes once [done] is set *)

(** What is pushed and not popped; no step of a consumer adds to it. *)
Definition left_over (w : world) : nat := length (pushed (hist (sys w))) - length (popped (hist (sys w))).

Lemma left_over_stack w vs : abs (hist (sys w)) = Some vs -> left_over w = length vs.
Proof.
  intros Ha. unfold left_over. rewrite (Permutation_length (abs_conserves _ _ Ha)), length_app. lia.
Qed.

Lemma consumer_pushes w i : winv w -> (4 <= i)%nat -> forall v r, (OPush v, r) ∉ effects i (hist (sys w)).
Proof.
  intros Hw Hi v r Hin. pose proof (w_client _ Hw i) as Hok.
  destruct (w_sys _ Hw) as (stk & trs & Hinv).
  destruct (track_lists i _ _ (inv_track _ _ _ Hinv i)) as [Hcs _].
  assert (OPush v ∈ calls i (hist (sys w))) as Hcall.
  { rewrite Hcs. apply elem_of_app. left. apply (list_elem_of_fmap_2 fst _ _ Hin). }
  destruct (clients w i); cbn [client_ok] in Hok; unfold is_producer, is_consumer in Hok; destruct_and?; try lia;
    try match goal with H : Forall _ _ |- _ => by apply (proj1 (list.Forall_forall _ _) H) in Hcall end.
  match goal with H : _ = [] |- _ => rewrite H in Hcall end. by apply not_elem_of_nil in Hcall.
Qed.

Lemma left_over_mono w w' i : others_same i w w' -> winv w' -> (4 <= i)%nat ->
  exists es, hist (sys w') = hist (sys w) ++ es /\
    (left_over w' = left_over w - length (popped es))%nat.
Proof.
  intros (_ & _ & _ & _ & es & Hes & Hth) Hw' Hi. exists es. split; [done |].
  assert (pushed es = []) as Hnil.
  { destruct (pushed es) as [| v vs] eqn:E; [done |]. exfalso.
    assert (v ∈ pushed es) as Hv by (rewrite E; by left). unfold pushed in Hv.
    apply list_elem_of_omap in Hv as (e & He & Hpv).
    pose proof (proj1 (list.Forall_forall _ _) Hth _ He) as Hte.
    destruct e as [| j [v' |] r |]; try discriminate Hpv. cbn in Hte. subst j.
    apply (consumer_pushes w' i Hw' Hi v' r). rewrite Hes. unfold effects. rewrite omap_app.
    apply elem_of_app. right. apply list_elem_of_omap. exists (EEff i (OPush v') r). split; [done |].
    by rewrite decide_True. }
  unfold left_over. rewrite Hes. unfold pushed, popped in *. rewrite !omap_app, Hnil, app_nil_r, length_app. lia.
Qed.

(** A pop that has just been called on a stack that is not empty takes
    effect. *)
Lemma pop_takes w i : winv w -> threads (sys w) i = PopLoad -> Treiber.head (stack (sys w)) <> None ->
  exists s' v, run (replicate 3 (AStep i false 1)) (sys w) = Some (Ok s') /\
    hist s' = hist (sys w) ++ [EEff i OPop (Some v)] /\ (exists old, threads s' i = PopValue old).
Proof.
  intros Hw Hpc Hne. destruct (w_sys _ Hw) as (stk & trs & Hinv).
  destruct (Treiber.head (stack (sys w))) as [old |] eqn:Hh; [| done].
  destruct (chain_alloc _ _ _ _ (inv_stack _ _ _ Hinv) (head_on_stack _ _ _ Hinv _ Hh)) as [nd Hn].
  pose proof (deref_ok _ _ _ Hn) as Hd.
  cbn [replicate].
  rewrite (run_cons _ _ _ (PopTest (Some old)) (stack (sys w)) None) by (rewrite Hpc; cbn; by rewrite Hh).
  rewrite (run_cons _ _ _ (PopCas old (next nd)) (stack (sys w)) None)
    by (cbn [threads stack]; rewrite fn_lookup_insert; cbn; by rewrite Hd).
  erewrite (run_cons _ _ _ (PopValue old) _ (Some (OPop, Some (value nd))))
    by (cbn [threads stack]; rewrite fn_lookup_insert; cbn [tstep pop_step negb andb];
        rewrite Hh, bool_decide_true, Hd by done; done).
  eexists _, (value nd). split; [done |]. cbn [hist threads]. rewrite !app_nil_r. split; [done |].
  exists old. apply fn_lookup_insert.
Qed.
(** The rounds left to a consumer. *)
Definition to_consume (w : world) (i : nat) : nat :=
  (3 * left_over w + match clients w i with ConsPop _ => 3 | ConsTest _ => 2 | ConsEmpty _ => 1 | _ => 0 end)%nat.

(** A pop of a stack that is not empty leaves less. *)
Lemma pop_round w i set : winv w -> (4 <= i)%nat -> clients w i = ConsEmpty set ->
  Treiber.head (stack (sys w)) <> None ->
  exists w' set', others_same i w w' /\ winv w' /\ clients w' i = ConsTest set' /\ (left_over w' < left_over w)%nat.
Proof.
  intros Hw Hi Hc Hh. pose proof (w_client _ Hw i) as Hok. rewrite Hc in Hok. destruct Hok as [Ht _].
  destruct (call_step w i OPop (ConsPop set) Hw Ht) as (w1 & Ho1 & Hw1 & Hc1 & Hpc & Hstk).
  { unfold client_step. rewrite Hc. unfold Treiber.empty. by rewrite bool_decide_false. }
  destruct (pop_takes w1 i Hw1 Hpc) as (s2 & v & Hrun & Hhist & old & Hpv); [by rewrite Hstk |].
  pose proof (stack_run i _ _ _ _ Hrun) as Ho2. pose proof (stack_run_inv i _ _ _ _ Hw1 Hrun) as Hw2.
  set (w2 := set_sys w1 s2) in *.
  destruct (op_completes w2 i (fun x => ConsTest (insert_value x set)) Hw2) as (w3 & x & Ho3 & Hw3 & Hc3).
  { destruct (w_sys _ Hw2) as (stk & trs & Hinv). rewrite (inv_track _ _ _ Hinv). cbn. by rewrite Hpv. }
  { intros w' Hw'. unfold client_step. rewrite Hw'. change (clients w2 i) with (clients w1 i). by rewrite Hc1. }
  exists w3, (insert_value x set). split_and!; [| done | done |].
  - eapply others_same_trans; [exact Ho1 | by eapply others_same_trans].
  - destruct (left_over_mono w w1 i Ho1 Hw1 Hi) as (e1 & _ & L1).
    destruct (left_over_mono w1 w2 i Ho2 Hw2 Hi) as (e2 & E2 & L2).
    destruct (left_over_mono w2 w3 i Ho3 Hw3 Hi) as (e3 & _ & L3).
    cbn [w2 sys set_sys] in E2. rewrite Hhist in E2. apply app_inv_head in E2. subst e2.
    change (popped [EEff i OPop (Some v)]) with [v] in L2. cbn [length] in L2.
    destruct (w_sys _ Hw1) as (stk & trs & Hinv1).
    assert (left_over w1 <> 0%nat).
    { rewrite (left_over_stack _ _ (inv_abs _ _ _ Hinv1)). pose proof (inv_stack _ _ _ Hinv1) as Hch.
      destruct stk; [cbn in Hch; congruence | done]. }
    lia.
Qed.

Lemma consumer_finishes i n : forall w, winv w -> (4 <= i < 8)%nat -> done w = true ->
  (to_consume w i <= n)%nat -> exists w' set, others_same i w w' /\ winv w' /\ clients w' i = Consumed set.
Proof.
  induction n as [n IH] using lt_wf_ind. intros w Hw Hi Hd Hn. pose proof (w_client _ Hw i) as Hok.
  assert (Hnext : forall w1, others_same i w w1 -> winv w1 -> (to_consume w1 i < to_consume w i)%nat ->
    exists w' set, others_same i w w' /\ winv w' /\ clients w' i = Consumed set).
  { intros w1 Ho Hw1 Hlt. destruct (IH (to_consume w1 i) ltac:(lia) w1 Hw1 Hi) as (w2 & set & Ho2 & Hw2 & Hc2); [| done |].
    - destruct Ho as (_ & Hd1 & _). congruence.
    - exists w2, set. split; [by eapply others_same_trans | done]. }
  assert (Hless : forall w1, others_same i w w1 -> winv w1 -> (left_over w1 <= left_over w)%nat).
  { intros w1 Ho Hw1. destruct (left_over_mono w w1 i Ho Hw1 ltac:(lia)) as (es & _ & ->). lia. }
  unfold to_consume in Hnext.
  destruct (clients w i) as [v lim | v lim | | set | set | set | set |] eqn:Hc; cbn [client_ok] in Hok;
    unfold is_producer, is_consumer in Hok; destruct_and?; try lia.
  - destruct (own_step w i (ConsEmpty set) Hw) as (w1 & Ho & Hw1 & Hc1); [unfold client_step; by rewrite Hc, Hd |].
    apply (Hnext w1 Ho Hw1). rewrite Hc1. specialize (Hless w1 Ho Hw1). lia.
  - destruct (decide (Treiber.head (stack (sys w)) = None)) as [Hh | Hh].
    + destruct (own_step w i (Consumed set) Hw) as (w1 & Ho & Hw1 & Hc1); [| by exists w1, set].
      unfold client_step. rewrite Hc. unfold Treiber.empty. by rewrite bool_decide_true.
    + destruct (pop_round w i set Hw ltac:(lia) Hc Hh) as (w1 & set' & Ho & Hw1 & Hc1 & Hlt).
      apply (Hnext w1 Ho Hw1). rewrite Hc1. lia.
  - destruct (op_completes w i (fun x => ConsTest (insert_value x set)) Hw) as (w1 & x & Ho & Hw1 & Hc1).
    + match goal with H : _ \/ _ |- _ => by destruct H as [-> | [? ->]] end.
    + intros w' Hw'. unfold client_step. by rewrite Hw', Hc.
    + apply (Hnext w1 Ho Hw1). rewrite Hc1. specialize (Hless w1 Ho Hw1). lia.
  - exists w, set. split; [apply others_same_refl | done].
Qed.

(** *** All of them, and [main] *)

(** What holds of thread [i] can be brought about one thread after another. *)
Lemma each_finishes (P : client -> Prop) d lo n :
  (forall i w, (lo <= i < lo + n)%nat -> winv w -> done w = d -> exists w', others_same i w w' /\ winv w' /\ P (clients w' i)) ->
  forall w, winv w -> done w = d -> exists w', star (wstep N) w w' /\ winv w' /\ done w' = d /\ main_at w' = main_at w /\
    (forall i, (lo <= i < lo + n)%nat -> P (clients w' i)) /\
    (forall i, ~ (lo <= i < lo + n)%nat -> clients w' i = clients w i).
Proof.
  induction n as [| n IH]; intros Hone w Hw Hd.
  - exists w. split_and!; try done; [apply star_refl | lia].
  - destruct (IH ltac:(intros; apply Hone; [lia | done..]) w Hw Hd) as (w1 & S1 & Hw1 & D1 & M1 & P1 & C1).
    destruct (Hone (lo + n)%nat w1 ltac:(lia) Hw1 D1) as (w2 & (S2 & D2 & M2 & C2 & _) & Hw2 & P2).
    exists w2. split_and!; [by eapply star_trans | done | congruence | congruence | |].
    + intros i Hi. destruct (decide (i = lo + n)%nat) as [-> |]; [done |]. rewrite C2 by done. apply P1. lia.
    + intros i Hi. rewrite C2, C1 by lia. done.
Qed.
Lemma main_clients w w' : main_step N w = Some (Ok w') -> clients w' = clients w /\ (done w = true -> done w' = true).
Proof.
  intros Hs. unfold main_step in Hs. destruct (main_at w); try discriminate Hs.
  - destruct (_ <? _)%nat; [destruct (clients w k); try discriminate Hs |]; injection Hs as <-; done.
  - destruct (_ <? _)%nat; [destruct (clients w _); try discriminate Hs |]; injection Hs as <-; done.
  - destruct (destroy _ _); [| done]. injection Hs as <-. done.
Qed.

Lemma main_star w w' : main_step N w = Some (Ok w') -> star (wstep N) w w'.
Proof. intros Hs. apply star_one. by exists InMain. Qed.

Lemma main_joins n : 4 * N < 2 ^ 31 -> forall w k, winv w -> all_produced w -> main_at w = Joining k -> (5 - k <= n)%nat ->
  exists w', star (wstep N) w w' /\ winv w' /\ done w' = true.
Proof.
  intros HN31. induction n as [| n IH]; intros w k Hw Hp Hat Hn.
  - pose proof (w_main _ Hw) as Hm. unfold main_ok in Hm. rewrite Hat in Hm. lia.
  - assert (Hs : exists w1, main_step N w = Some (Ok w1) /\ (done w1 = true \/ main_at w1 = Joining (S k) /\ (k < 4)%nat)).
    { unfold main_step. rewrite Hat. destruct (Nat.ltb_spec k 4).
      - rewrite Hp by done. eexists. split; [done | by right].
      - eexists. split; [done | by left]. }
    destruct Hs as (w1 & Hs & Hcase).
    destruct (main_step_ok w _ HN31 Hw Hs) as (w1' & [= <-] & Hw1).
    destruct (main_clients w w1 Hs) as [Hcl _]. pose proof (main_star _ _ Hs) as Hstar.
    destruct Hcase as [Hd | [Hat1 Hk]]; [by exists w1 |].
    destruct (IH w1 (S k) Hw1) as (w2 & S2 & Hw2 & Hd2); [intros p Hlt; rewrite Hcl; by apply Hp | done | lia |].
    exists w2. split; [by eapply star_trans | done].
Qed.

Definition main_left (m : main_pc) : nat :=
  match m with Joining k => 11 - k | Getting k _ => 6 - k | Printed _ => 1 | Exited _ _ => 0 end.

Lemma main_finishes n : 4 * N < 2 ^ 31 -> forall w, winv w -> all_produced w -> all_consumed w 4 ->
  (main_left (main_at w) <= n)%nat ->
  exists w' rp h, star (wstep N) w w' /\ main_at w' = Exited rp h.
Proof.
  intros HN31. induction n as [| n IH]; intros w Hw Hp Hc Hn; pose proof (w_main _ Hw) as Hm; unfold main_ok in Hm.
  - destruct (main_at w) as [k | k all | rp | rp h] eqn:Hat; cbn in Hn; destruct_and?; try lia.
    exists w, rp, h. split; [apply star_refl | done].
  - destruct (decide (main_left (main_at w) = 0%nat)) as [H0 |]; [apply (IH w); (done || lia) |].
    assert (Hs : exists r, main_step N w = Some r).
    { unfold main_step. destruct (main_at w) as [k | k all | rp | rp h] eqn:Hat; [| | by eexists | done].
      - destruct (Nat.ltb_spec k 4); [rewrite Hp by done |]; by eexists.
      - destruct (Nat.ltb_spec k 4) as [Hk |]; [destruct (Hc k Hk) as [set ->] |]; by eexists. }
    destruct Hs as (r & Hs). destruct (main_step_ok w r HN31 Hw Hs) as (w1 & -> & Hw1).
    destruct (main_clients w w1 Hs) as [Hcl _].
    destruct (IH w1 Hw1) as (w2 & rp & h & S2 & Hat2).
    + intros p Hlt. rewrite Hcl. by apply Hp.
    + intros c Hlt. rewrite Hcl. by apply Hc.
    + enough (main_left (main_at w1) < main_left (main_at w))%nat by lia.
      unfold main_step in Hs. destruct (main_at w) as [k | k all | rp | rp h] eqn:Hat; [| | | done].
      * destruct (Nat.ltb_spec k 4); [destruct (clients w k); try discriminate Hs |]; injection Hs as <-; cbn; destruct_and?; lia.
      * destruct (Nat.ltb_spec k 4); [destruct (clients w _); try discriminate Hs |]; injection Hs as <-; cbn; destruct_and?; lia.
      * destruct (destroy _ _); [| done]. injection Hs as <-. cbn. lia.
    + exists w2, rp, h. split; [by eapply star_trans; [apply (main_star _ _ Hs) |] | done].
Qed.

(** From any state of the invariant the test can come to its end. *)
Lemma can_finish w : 4 * N < 2 ^ 31 -> winv w ->
  exists w' rp h, star (wstep N) w w' /\ main_at w' = Exited rp h.
Proof.
  intros HN31 Hw.
  destruct (each_finishes (fun c => c = Produced) (done w) 0 4) with (w := w) as (w1 & S1 & Hw1 & D1 & M1 & P1 & _); [| done | done |].
  { intros p w0 Hp Hw0 _. by apply (producer_finishes p (to_push (clients w0 p))); [| lia |]. }
  assert (Hp1 : all_produced w1) by (intros p Hp; apply P1; lia).
  assert (exists w2, star (wstep N) w1 w2 /\ winv w2 /\ done w2 = true) as (w2 & S2 & Hw2 & D2).
  { pose proof (w_main _ Hw1) as Hm. unfold main_ok in Hm. destruct (main_at w1) as [k | k all | rp | rp h] eqn:Hat.
    - by apply (main_joins (5 - k) HN31 w1 k).
    - exists w1. split; [apply star_refl | by destruct Hm].
    - exists w1. split; [apply star_refl | by destruct Hm].
    - exists w1. split; [apply star_refl | by destruct Hm]. }
  destruct (each_finishes (fun c => exists set, c = Consumed set) true 4 4) with (w := w2)
    as (w3 & S3 & Hw3 & D3 & M3 & P3 & _); [| done | done |].
  { intros i w0 Hi Hw0 Hd0. destruct (consumer_finishes i (to_consume w0 i) w0 Hw0 Hi Hd0) as (w4 & set & ? & ? & ?); eauto. }
  destruct (main_finishes (main_left (main_at w3)) HN31 w3 Hw3) as (w4 & rp & h & S4 & Hat4).
  - by apply (w_done _ Hw3).
  - intros c Hc. apply P3. lia.
  - done.
  - exists w4, rp, h. split; [| done]. eapply star_trans; [exact S1 |]. eapply star_trans; [exact S2 |].
    by eapply star_trans.
Qed.
End invariant.

(** ** Properties *)

(** C12. The stress test passes in every interleaving: no step of any thread
    faults; whenever [main] prints it prints PASS; and at exit each of the
    values 0 to 4N-1 was popped exactly once, and the stack's destructor has
    freed every node. *)
Theorem stress_passes N w : 0 <= N -> 4 * N < 2 ^ 31 -> star (wstep N) (winit N) w ->
  (forall a r, wexec N a w = Some r -> exists w', r = Ok w') /\
  (forall rp, main_at w = Printed rp -> rp = PASS (4 * N)) /\
  (forall rp h, main_at w = Exited rp h ->
     rp = PASS (4 * N) /\ h = ∅ /\ popped (hist (sys w)) ≡ₚ seqZ 0 (4 * N)).
Proof.
  intros HN HN31 Hstar. pose proof (winv_reachable N HN w HN31 Hstar) as Hw.
  pose proof (w_main _ _ Hw) as Hm. unfold main_ok in Hm. split_and!.
  - intros a r Ha. destruct (wexec_ok N HN a w r HN31 Hw Ha) as (w' & -> & _). eauto.
  - intros rp Hat. rewrite Hat in Hm. by destruct Hm as (_ & _ & ->).
  - intros rp h Hat. rewrite Hat in Hm. destruct Hm as (Hd & Hall & -> & ->).
    split_and!; [done | done |]. by apply (popped_all N HN w).
Qed.

(** C34. The test can always finish: from every reachable state, whatever the
    interleaving so far, some continuation brings [main] to its end.  So no
    thread is ever stuck, and no interleaving makes the end unreachable. *)
Theorem stress_can_finish N w : 0 <= N -> 4 * N < 2 ^ 31 -> star (wstep N) (winit N) w ->
  exists w' rp h, star (wstep N) w w' /\ main_at w' = Exited rp h.
Proof. intros HN HN31 Hstar. apply (can_finish N HN w HN31), winv_reachable; done. Qed.

(** *** Witnesses

    One value each: consumer 4 pops the first while the other producers push,
    the rest after [done] is set. *)

Definition produce (i : nat) (l : loc) : list move :=
  InClient i :: replicate 4 (InStack i false l) ++ [InClient i; InClient i].
Definition consume (i : nat) (tests : nat) : list move :=
  replicate tests (InClient i) ++ replicate 7 (InStack i false 1) ++ [InClient i].

Definition schedule : list move :=
  produce 0 1 ++ consume 4 1 ++ produce 1 2 ++ produce 2 3 ++ produce 3 4 ++ replicate 5 InMain ++
  consume 4 2 ++ consume 5 2 ++ consume 6 2 ++
  concat ((fun i => [InClient i; InClient i]) <$> [4; 5; 6; 7]%nat) ++ replicate 6 InMain.

Definition stressed : world := match wrun 1 schedule (winit 1) with Some (Ok w) => w | _ => winit 1 end.

Lemma stress_passes_witness :
  main_at stressed = Exited (PASS 4) ∅ /\
  (forall a r, wexec 1 a stressed = Some r -> exists w', r = Ok w') /\
  (forall rp, main_at stressed = Printed rp -> rp = PASS 4) /\
  (forall rp h, main_at stressed = Exited rp h ->
     rp = PASS 4 /\ h = ∅ /\ popped (hist (sys stressed)) ≡ₚ seqZ 0 4).
Proof.
  split; [vm_compute; reflexivity |]. apply (stress_passes 1 stressed); [lia | lia |].
  apply (wrun_star 1 schedule). vm_compute. reflexivity.
Defined.

Lemma stress_can_finish_witness :
  exists w' rp h, star (wstep STRESS_TEST_N) (winit STRESS_TEST_N) w' /\ main_at w' = Exited rp h.
Proof. apply (stress_can_finish STRESS_TEST_N (winit STRESS_TEST_N)); [done | done | apply star_refl]. Defined.
